(** * MazeMin: puzzle codec, path-tracking engine and maze generator

    A shallow embedding of the logic core of the MazeMin repository:

    - [helloworld/src/maze/engine.ts]   (module [Engine]),
    - [helloworld/src/maze/decoder.ts]  (modules [Base64], [Grid], [Moves]),
    - the game screen's [processCell]   (module [Game]),
    - [temp/app.js], the authoring tool (modules [Packer], [Generator];
      the trees of module [Graph] and the proofs of [GeneratorFacts] are about
      its five maze generators).

    The later modules follow a puzzle from the authoring tool to the game:
    [Progress] and [GameLogic] (evaluation of the moves, stars, hints and the
    walked path), [DecoderFacts] and [OpeningsFacts] (what the decoders
    return), [Exporter] and [Hints] (the packers and hint steps of the tool),
    [MazeFacts] and [Solver] ([generateMaze] and the exported solution),
    [Slicing], [HintRequest] and [Replay] (cutting the walk back, asking for
    a hint, and playing an exported maze).

    JavaScript numbers that the program uses as integers are embedded as [Z];
    typed arrays and plain arrays are lists; a JavaScript string is the list
    of its UTF-16 code units. *)

From Stdlib Require Import ZArith Lia List Bool String Ascii Permutation.
From stdpp Require Import base tactics option list numbers gmap relations sorting.
Import ListNotations.
Local Open Scope Z_scope.

(** Case analysis on the boolean comparisons of a goal. *)
Ltac zcases :=
  rewrite ?Z.geb_leb, ?Z.gtb_ltb in *;
  repeat match goal with
  | |- context [if ?c then _ else _] =>
      lazymatch c with
      | context [if _ then _ else _] => fail
      | _ => destruct c eqn:?
      end
  end;
  repeat match goal with
  | H : (_ <? _) = true |- _ => apply Z.ltb_lt in H
  | H : (_ <? _) = false |- _ => apply Z.ltb_ge in H
  | H : (_ <=? _) = true |- _ => apply Z.leb_le in H
  | H : (_ <=? _) = false |- _ => apply Z.leb_gt in H
  | H : (_ =? _) = true |- _ => apply Z.eqb_eq in H
  | H : (_ =? _) = false |- _ => apply Z.eqb_neq in H
  end.

(** ** JavaScript array primitives *)

Module Js.

(** [Array.prototype.slice(start, end)]: a negative index counts from the end
    of the array, and both indices are clamped into [0, length]. *)
Definition relIndex (len k : Z) : Z :=
  if k <? 0 then Z.max (len + k) 0 else Z.min k len.

Definition slice {A} (l : list A) (start stop : Z) : list A :=
  let len := Z.of_nat (length l) in
  let k := relIndex len start in
  let final := relIndex len stop in
  take (Z.to_nat (final - k)) (drop (Z.to_nat k) l).

(** [a[i]] for an integer index: [None] stands for [undefined]. *)
Definition get {A} (l : list A) (i : Z) : option A :=
  if i <? 0 then None else l !! Z.to_nat i.

(** A [Uint8Array] cell: a read outside the array is [undefined], which the
    program turns into 0 ([?? 0], or the integer coercion of [|=]); a store
    outside the array is dropped, and a stored value is reduced modulo 256. *)
Definition load (a : list Z) (i : Z) : Z := default 0 (get a i).

Definition store (a : list Z) (i : Z) (v : Z) : list Z :=
  if i <? 0 then a else <[Z.to_nat i := v mod 256]> a.

Lemma slice_0_nonneg {A} (l : list A) n :
  0 <= n -> slice l 0 n = take (Z.to_nat n) l.
Proof.
  intros Hn. unfold slice, relIndex. zcases; try lia.
  rewrite (Z.min_l 0) by lia. rewrite Z.sub_0_r, drop_0.
  destruct (Z.le_ge_cases n (Z.of_nat (length l))).
  - by rewrite Z.min_l by lia.
  - rewrite Z.min_r by lia. rewrite Nat2Z.id.
    rewrite !take_ge; [done | lia | lia].
Qed.

Lemma slice_0_neg {A} (l : list A) n :
  n < 0 -> slice l 0 n = take (Z.to_nat (Z.of_nat (length l) + n)) l.
Proof.
  intros Hn. unfold slice, relIndex. zcases; try lia.
  rewrite (Z.min_l 0) by lia. rewrite Z.sub_0_r, drop_0.
  destruct (Z.le_ge_cases 0 (Z.of_nat (length l) + n)).
  - by rewrite Z.max_l by lia.
  - rewrite Z.max_r by lia. by replace (Z.to_nat (_ + n)) with 0%nat by lia.
Qed.

Lemma slice_inside {A} (l : list A) a b :
  0 <= a <= b -> b <= Z.of_nat (length l) ->
  slice l a b = take (Z.to_nat (b - a)) (drop (Z.to_nat a) l).
Proof.
  intros Ha Hb. unfold slice, relIndex. zcases; try lia.
  by rewrite !Z.min_l by lia.
Qed.

End Js.

(** ** Path-tracking engine ([engine.ts]) *)

Module Engine.

(** The [for] loop of [firstDivergence]: [n] iterations remain and [i] is the
    loop index; [Some i] is the early [return i]. *)
Fixpoint firstDivergence_loop (playerMoves solutionMoves : list Z) (n i : nat)
  : option nat :=
  match n with
  | O => None
  | S n' =>
      if decide (playerMoves !! i = solutionMoves !! i)
      then firstDivergence_loop playerMoves solutionMoves n' (S i)
      else Some i
  end.

Definition firstDivergence (playerMoves solutionMoves : list Z) : Z :=
  let len := Nat.min (length playerMoves) (length solutionMoves) in
  match firstDivergence_loop playerMoves solutionMoves len 0 with
  | Some i => Z.of_nat i
  | None =>
      if (Z.of_nat (length playerMoves) >? Z.of_nat (length solutionMoves))
      then Z.of_nat (length solutionMoves)
      else -1
  end.

(** [progress], [divergence] and [L] are integers here, so [Math.floor] is the
    identity on [progress]. *)
Definition hintSegment (solutionMoves : list Z) (progress divergence L : Z)
  : list Z :=
  let cappedSolution := Js.slice solutionMoves 0 L in
  let len := Z.of_nat (length cappedSolution) in
  let clampedProgress := Z.max 0 (Z.min progress len) in
  let clampedDivergence := if divergence >=? 0 then Z.min divergence len else -1 in
  let start :=
    Z.max clampedProgress
          (if clampedDivergence >=? 0 then clampedDivergence else clampedProgress) in
  let remaining := Z.max 0 (len - start) in
  if remaining =? 0 then []
  else
    let takeCount := if remaining >=? 20 then 20 else Z.min 10 remaining in
    Js.slice cappedSolution start (start + takeCount).

(** The hint window as the specification words it, over a sequence already
    clamped to [clamped]. *)
Definition hintWindow (clamped : list Z) (progress divergenceIndex : Z) : list Z :=
  let clampedLength := Z.of_nat (length clamped) in
  let p := Z.max 0 (Z.min progress clampedLength) in
  let start :=
    if divergenceIndex <? 0 then p
    else Z.max p (Z.max 0 (Z.min divergenceIndex clampedLength)) in
  let remaining := clampedLength - start in
  let count := if 20 <=? remaining then 20 else Z.min 10 remaining in
  take (Z.to_nat count) (drop (Z.to_nat start) clamped).

(** The specification's reading of the whole function: the reference is
    clamped to its first [cap] entries. *)
Definition hintSegment_spec (referenceMoves : list Z) (progress divergenceIndex cap : Z)
  : list Z :=
  hintWindow (take (Z.to_nat cap) referenceMoves) progress divergenceIndex.

(** What [slice(0, L)] keeps: the first [L] entries, or all but the last [-L]
    when [L] is negative. *)
Definition keptLength (len L : Z) : Z :=
  if L <? 0 then Z.max 0 (len + L) else L.

(** *** firstDivergence *)

Definition differAt (p s : list Z) (i : nat) : Prop := p !! i ≠ s !! i.

Definition leastDifference (p s : list Z) (i : nat) : Prop :=
  (i < Nat.min (length p) (length s))%nat /\ differAt p s i /\
  forall j, (j < i)%nat -> p !! j = s !! j.

Lemma loop_none p s n i :
  firstDivergence_loop p s n i = None <->
  forall j, (i <= j < i + n)%nat -> p !! j = s !! j.
Proof.
  revert i. induction n as [|n IH]; intros i; simpl.
  - split; [intros _ j Hj; lia | done].
  - destruct (decide (p !! i = s !! i)) as [E|E].
    + rewrite IH. split; intros H j Hj.
      * destruct (decide (j = i)) as [->|]; [done | apply H; lia].
      * apply H; lia.
    + split; [done | intros H; exfalso; apply E, H; lia].
Qed.

Lemma loop_some p s n i k :
  firstDivergence_loop p s n i = Some k <->
  (i <= k < i + n)%nat /\ differAt p s k /\
  forall j, (i <= j < k)%nat -> p !! j = s !! j.
Proof.
  revert i. induction n as [|n IH]; intros i; simpl.
  - split; [done | intros [? _]; lia].
  - destruct (decide (p !! i = s !! i)) as [E|E].
    + rewrite IH. split; intros (Hk & Hd & Hj); (split; [|split]); try done.
      * lia.
      * intros j ?. destruct (decide (j = i)) as [->|]; [done | apply Hj; lia].
      * destruct (decide (k = i)) as [->|]; [done | lia].
      * intros j ?. apply Hj; lia.
    + split.
      * intros [= <-]. split; [lia | split; [done | intros; lia]].
      * intros (Hk & Hd & Hj). f_equal.
        destruct (decide (k = i)) as [->|]; [done|].
        exfalso. apply E, Hj. lia.
Qed.

Lemma prefix_lookup (p s : list Z) j :
  p `prefix_of` s -> (j < length p)%nat -> p !! j = s !! j.
Proof. intros [k ->] Hj. by rewrite lookup_app_l. Qed.

(** C3. [firstDivergence] returns -1 when the player's moves are a prefix of
    the reference (equal sequences included), the least differing position
    when the sequences differ below the shorter length, and the length of the
    reference when the player has strictly more moves and the reference is a
    prefix of them. *)
Theorem firstDivergence_correct (playerMoves referenceMoves : list Z) :
  (playerMoves `prefix_of` referenceMoves ->
     firstDivergence playerMoves referenceMoves = -1) /\
  (forall i, (i < Nat.min (length playerMoves) (length referenceMoves))%nat ->
     differAt playerMoves referenceMoves i ->
     exists k, firstDivergence playerMoves referenceMoves = Z.of_nat k /\
               leastDifference playerMoves referenceMoves k) /\
  (referenceMoves `prefix_of` playerMoves ->
     (length referenceMoves < length playerMoves)%nat ->
     firstDivergence playerMoves referenceMoves = Z.of_nat (length referenceMoves)).
Proof.
  unfold firstDivergence. split; [|split].
  - intros Hpre.
    assert (Hlen : (length playerMoves <= length referenceMoves)%nat)
      by (by apply prefix_length).
    assert (firstDivergence_loop playerMoves referenceMoves
              (Nat.min (length playerMoves) (length referenceMoves)) 0 = None) as ->.
    { apply loop_none. intros j Hj. apply prefix_lookup; [done | lia]. }
    zcases; lia.
  - intros i Hi Hd.
    destruct (firstDivergence_loop playerMoves referenceMoves
                (Nat.min (length playerMoves) (length referenceMoves)) 0) as [k|] eqn:E.
    + exists k. split; [done|]. apply loop_some in E as (Hk & Hdk & Hj).
      split; [lia | split; [done | intros j ?; apply Hj; lia]].
    + exfalso. apply Hd. eapply loop_none; [exact E | lia].
  - intros Hpre Hlen.
    assert (firstDivergence_loop playerMoves referenceMoves
              (Nat.min (length playerMoves) (length referenceMoves)) 0 = None) as ->.
    { apply loop_none. intros j Hj. symmetry. apply prefix_lookup; [done | lia]. }
    zcases; lia.
Qed.

Lemma firstDivergence_correct_witness :
  firstDivergence [0; 1; 2] [0; 1; 2; 3] = -1 /\
  (exists k, firstDivergence [0; 2] [0; 1; 2] = Z.of_nat k /\
             leastDifference [0; 2] [0; 1; 2] k) /\
  firstDivergence [0; 1; 2; 3] [0; 1; 2] = 3.
Proof.
  split; [|split].
  - apply (proj1 (firstDivergence_correct [0; 1; 2] [0; 1; 2; 3])).
    by exists [3].
  - apply (proj1 (proj2 (firstDivergence_correct [0; 2] [0; 1; 2])) 1%nat).
    + simpl. lia.
    + unfold differAt. simpl. discriminate.
  - apply (proj2 (proj2 (firstDivergence_correct [0; 1; 2; 3] [0; 1; 2]))).
    + by exists [3].
    + simpl. lia.
Defined.

(** The three examples of the specification. *)
Example firstDivergence_examples :
  firstDivergence [0; 1; 2] [0; 1; 2; 3] = -1 /\
  firstDivergence [0; 1; 2; 3] [0; 1; 2] = 3 /\
  firstDivergence [0; 2] [0; 1; 2] = 1.
Proof. by vm_compute. Qed.

(** *** hintSegment *)

Lemma capped_take (solutionMoves : list Z) L :
  Js.slice solutionMoves 0 L =
  take (Z.to_nat (keptLength (Z.of_nat (length solutionMoves)) L)) solutionMoves.
Proof.
  unfold keptLength. zcases.
  - rewrite Js.slice_0_neg by done. f_equal. lia.
  - by apply Js.slice_0_nonneg.
Qed.

Lemma hintSegment_window (clamped : list Z) progress divergence :
  (let len := Z.of_nat (length clamped) in
   let clampedProgress := Z.max 0 (Z.min progress len) in
   let clampedDivergence := if divergence >=? 0 then Z.min divergence len else -1 in
   let start :=
     Z.max clampedProgress
           (if clampedDivergence >=? 0 then clampedDivergence else clampedProgress) in
   let remaining := Z.max 0 (len - start) in
   if remaining =? 0 then []
   else
     let takeCount := if remaining >=? 20 then 20 else Z.min 10 remaining in
     Js.slice clamped start (start + takeCount))
  = hintWindow clamped progress divergence.
Proof.
  unfold hintWindow. cbv zeta.
  set (len := Z.of_nat (length clamped)).
  assert (0 <= len) by lia.
  set (cp := Z.max 0 (Z.min progress len)).
  assert (0 <= cp <= len) by lia.
  set (cd := if divergence >=? 0 then Z.min divergence len else -1).
  set (start := Z.max cp (if cd >=? 0 then cd else cp)).
  set (start' := if divergence <? 0 then cp
                 else Z.max cp (Z.max 0 (Z.min divergence len))).
  assert (Hs : start = start') by (unfold start, start', cd; zcases; lia).
  assert (0 <= start <= len) by (unfold start, cd; zcases; lia).
  rewrite <- Hs.
  destruct (Z.eqb_spec (Z.max 0 (len - start)) 0) as [E|E].
  - replace (len - start) with 0 by lia. simpl. by rewrite take_0.
  - rewrite Z.max_r in * by lia.
    rewrite Js.slice_inside; [| zcases; lia | fold len; zcases; lia].
    f_equal. zcases; lia.
Qed.

(** C4 (as the code has it). [hintSegment] clamps the reference with
    [slice(0, cap)], which keeps the first [cap] entries when [cap] is not
    negative and drops the last [-cap] entries when it is; on that clamped
    sequence it clamps [progress] into [0, clampedLength], clamps a
    non-negative [divergenceIndex] likewise, starts at the larger of the two
    and returns the contiguous window of length 20 when at least 20 moves
    remain and [min 10 remaining] otherwise. *)
Theorem hintSegment_correct (referenceMoves : list Z) (progress divergenceIndex cap : Z) :
  hintSegment referenceMoves progress divergenceIndex cap =
  hintSegment_spec referenceMoves progress divergenceIndex
    (keptLength (Z.of_nat (length referenceMoves)) cap) /\
  (0 <= cap ->
   hintSegment referenceMoves progress divergenceIndex cap =
   hintSegment_spec referenceMoves progress divergenceIndex cap).
Proof.
  assert (G : hintSegment referenceMoves progress divergenceIndex cap =
    hintSegment_spec referenceMoves progress divergenceIndex
      (keptLength (Z.of_nat (length referenceMoves)) cap)).
  { unfold hintSegment, hintSegment_spec. rewrite capped_take.
    apply hintSegment_window. }
  split; [done|]. intros Hcap. rewrite G. unfold keptLength. zcases; [lia | done].
Qed.

Lemma hintSegment_correct_witness :
  hintSegment [1; 1; 2; 2; 1] 1 3 4 = hintSegment_spec [1; 1; 2; 2; 1] 1 3 4.
Proof. apply (proj2 (hintSegment_correct [1; 1; 2; 2; 1] 1 3 4)). lia. Defined.

(** C4 as stated fails for a negative [cap]: [slice(0, -1)] keeps all but the
    last entry, where the first [-1] entries would be none. *)
Lemma hintSegment_negative_cap :
  hintSegment [0; 1; 2] 0 (-1) (-1) = [0; 1] /\
  hintSegment_spec [0; 1; 2] 0 (-1) (-1) = [] /\
  hintSegment [0; 1; 2] 0 (-1) (-1) <> hintSegment_spec [0; 1; 2] 0 (-1) (-1).
Proof. by vm_compute. Qed.

(** The two hint examples of the specification, on a reference of 30 moves. *)
Example hintSegment_examples :
  let ref := map Z.of_nat (seq 0 30) in
  hintSegment ref 5 (-1) 30 = map Z.of_nat (seq 5 20) /\
  hintSegment ref 25 (-1) 30 = map Z.of_nat (seq 25 5).
Proof. by vm_compute. Qed.

End Engine.

(** ** Results of code that may throw *)

Inductive Res (A : Type) : Type :=
| Ok (a : A)
| Throw (msg : string).
Arguments Ok {A} a.
Arguments Throw {A} msg.

(** ** Base64 decoding ([decoder.ts]) *)

Module Base64.

(** The UTF-16 code units of an ASCII literal. *)
Definition codes (s : string) : list Z :=
  map (fun c => Z.of_nat (nat_of_ascii c)) (list_ascii_of_string s).

Definition BASE64_ALPHABET : list Z :=
  codes "ABCDEFGHIJKLMNOPQRSTUVWXYZabcdefghijklmnopqrstuvwxyz0123456789+/".

(** The table built by the initialiser of [BASE64_LOOKUP]: 256 entries filled
    with 255, then the 64 digits, then ['='] mapped to 0. *)
Definition BASE64_LOOKUP : list Z :=
  Eval vm_compute in
  let table := replicate 256 255 in
  let table :=
    fold_left (fun t i => Js.store t (default 0 (BASE64_ALPHABET !! i)) (Z.of_nat i))
              (seq 0 (length BASE64_ALPHABET)) table in
  Js.store table 61 0.

(** [BASE64_LOOKUP[sanitized.charCodeAt(i)]] as the shifts and ors use it:
    [charCodeAt] past the end is [NaN], an index outside the table reads
    [undefined], and both become 0 under [<<] and [|]. *)
Definition lookupCode (code : Z) : Z := Js.load BASE64_LOOKUP code.

Definition sextetAt (sanitized : list Z) (i : nat) : Z :=
  match sanitized !! i with
  | Some code => lookupCode code
  | None => 0
  end.

(** The characters matched by the regular expression [\s]. *)
Definition isWhitespace (c : Z) : bool :=
  (9 <=? c) && (c <=? 13) || (c =? 32) || (c =? 160) || (c =? 5760)
  || (8192 <=? c) && (c <=? 8202) || (c =? 8232) || (c =? 8233)
  || (c =? 8239) || (c =? 8287) || (c =? 12288) || (c =? 65279).

Definition sanitize (input : list Z) : list Z :=
  filter (fun c => isWhitespace c = false) input.

Definition endsWith (s suffix : list Z) : bool :=
  bool_decide (length suffix <= length s)%nat
  && bool_decide (drop (length s - length suffix) s = suffix).

Definition chunkOf (a b c d : Z) : Z :=
  Z.lor (Z.lor (Z.lor (Z.shiftl a 18) (Z.shiftl b 12)) (Z.shiftl c 6)) d.

(** The decoding loop: [n] iterations remain, [i] is the loop index, and
    [output] is written in place at [outIndex]. *)
Fixpoint decode_loop (sanitized : list Z) (byteLength : nat) (n i : nat)
    (output : list Z) (outIndex : nat) : list Z :=
  match n with
  | O => output
  | S n' =>
      let a := sextetAt sanitized i in
      let b := sextetAt sanitized (i + 1) in
      let c := sextetAt sanitized (i + 2) in
      let d := sextetAt sanitized (i + 3) in
      let chunk := chunkOf a b c d in
      let output := <[outIndex := Z.land (Z.shiftr chunk 16) 255]> output in
      let outIndex := S outIndex in
      let '(output, outIndex) :=
        if (outIndex <? byteLength)%nat
        then (<[outIndex := Z.land (Z.shiftr chunk 8) 255]> output, S outIndex)
        else (output, outIndex) in
      let '(output, outIndex) :=
        if (outIndex <? byteLength)%nat
        then (<[outIndex := Z.land chunk 255]> output, S outIndex)
        else (output, outIndex) in
      decode_loop sanitized byteLength n' (i + 4) output outIndex
  end.

Definition paddingOf (sanitized : list Z) : nat :=
  if endsWith sanitized (codes "==") then 2%nat
  else if endsWith sanitized (codes "=") then 1%nat else 0%nat.

(** The raw bytes, before the zlib heuristic. *)
Definition rawBytes (sanitized : list Z) : list Z :=
  let padding := paddingOf sanitized in
  let byteLength := (length sanitized / 4 * 3 - padding)%nat in
  decode_loop sanitized byteLength ((length sanitized + 3) / 4) 0
              (replicate byteLength 0) 0.

(** [pako] is the optional inflate library: [None] when [require('pako')]
    failed, otherwise its [inflate], which is [None] where it throws. *)
Definition Pako : Type := option (list Z -> option (list Z)).

Definition decodeBase64ToUint8Array (pako : Pako) (input : list Z) : Res (list Z) :=
  let sanitized := sanitize input in
  if negb (length sanitized mod 4 =? 0)%nat
  then Throw "Invalid base64 input length."
  else
    let output := rawBytes sanitized in
    if bool_decide (take 2 sanitized = codes "eJ") then
      match pako with
      | Some inflate =>
          match inflate output with
          | Some (b :: inflated) => Ok (b :: inflated)
          | _ => Ok output
          end
      | None => Ok output
      end
    else Ok output.

(** Whether a code unit is a Base64 digit or the padding character. *)
Definition isBase64Char (c : Z) : bool :=
  bool_decide (c ∈ BASE64_ALPHABET) || (c =? 61).

(** Replace every character that is neither white space nor a Base64
    character by [r c]. *)
Definition replaceInvalid (r : Z -> Z) (s : list Z) : list Z :=
  map (fun c => if isWhitespace c || isBase64Char c then c else r c) s.

(** The sentinel reading of an invalid character: 255 for a code unit below
    256 (as the invalid character ['!'] reads), 0 above (as ['A'] reads). *)
Definition sentinelChar (c : Z) : Z :=
  if (0 <=? c) && (c <? 256) then 33 else 65.

Example lookup_digits :
  map lookupCode (codes "AZaz09+/=") = [0; 25; 26; 51; 52; 61; 62; 63; 0] /\
  lookupCode 33 = 255 /\ lookupCode 256 = 0.
Proof. by vm_compute. Qed.

Example decode_examples :
  decodeBase64ToUint8Array None (codes "TWF6ZQ==") = Ok [77; 97; 122; 101] /\
  decodeBase64ToUint8Array None (codes "AQ==") = Ok [1] /\
  decodeBase64ToUint8Array None (codes " T W F u ") = Ok [77; 97; 110].
Proof. by vm_compute. Qed.

(** *** The length check *)

(** C9. An input whose length without white space is not a multiple of 4 makes
    [decodeBase64ToUint8Array] throw the format error; no byte array, partial
    or not, is returned. *)
Theorem decode_rejects_bad_length (pako : Pako) (input : list Z) :
  (length (sanitize input) mod 4 <> 0)%nat ->
  decodeBase64ToUint8Array pako input = Throw "Invalid base64 input length." /\
  forall bytes, decodeBase64ToUint8Array pako input <> Ok bytes.
Proof.
  intros Hlen. unfold decodeBase64ToUint8Array.
  destruct (Nat.eqb_spec (length (sanitize input) mod 4) 0) as [E|E]; [done|].
  simpl. split; [done | intros bytes; discriminate].
Qed.

Lemma decode_rejects_bad_length_witness :
  decodeBase64ToUint8Array None (codes "TWF6Z") = Throw "Invalid base64 input length." /\
  forall bytes, decodeBase64ToUint8Array None (codes "TWF6Z") <> Ok bytes.
Proof. apply (decode_rejects_bad_length None (codes "TWF6Z")). by vm_compute. Defined.

(** *** Invalid characters *)

Definition canon (c : Z) : Z :=
  if isWhitespace c || isBase64Char c then c else sentinelChar c.

Lemma latin1_table :
  forallb (fun n => isBase64Char (Z.of_nat n) || (lookupCode (Z.of_nat n) =? 255))
          (seq 0 256) = true.
Proof. by vm_compute. Qed.

Lemma lookupCode_latin1 (c : Z) :
  0 <= c < 256 -> isBase64Char c = false -> lookupCode c = 255.
Proof.
  intros Hc Hinv.
  assert (Hin : In (Z.to_nat c) (seq 0 256)) by (apply in_seq; lia).
  apply (proj1 (forallb_forall _ _) latin1_table) in Hin. cbv beta in Hin.
  rewrite Z2Nat.id in Hin by lia. rewrite Hinv in Hin.
  by apply Z.eqb_eq.
Qed.

Lemma lookupCode_outside (c : Z) : c < 0 \/ 256 <= c -> lookupCode c = 0.
Proof.
  intros Hc. unfold lookupCode, Js.load, Js.get. zcases; [done|].
  rewrite lookup_ge_None_2; [done|]. change (length BASE64_LOOKUP) with 256%nat. lia.
Qed.

Lemma lookupCode_canon (c : Z) : lookupCode (canon c) = lookupCode c.
Proof.
  unfold canon. destruct (isWhitespace c || isBase64Char c) eqn:E; [done|].
  apply orb_false_iff in E as [_ E]. unfold sentinelChar.
  destruct ((0 <=? c) && (c <? 256)) eqn:R.
  - apply andb_true_iff in R as [R1 R2].
    rewrite (lookupCode_latin1 c); [done | lia | done].
  - rewrite (lookupCode_outside c); [done|].
    apply andb_false_iff in R as [R|R]; lia.
Qed.

Lemma canon_whitespace (c : Z) : isWhitespace (canon c) = isWhitespace c.
Proof.
  unfold canon. destruct (isWhitespace c) eqn:E; simpl; [done|].
  destruct (isBase64Char c); [done|]. unfold sentinelChar.
  by destruct ((0 <=? c) && (c <? 256)).
Qed.

(** A Base64 character other than ['A'] is never produced from another one. *)
Lemma canon_eq_iff (c k : Z) :
  isBase64Char k = true -> k <> 65 -> canon c = k <-> c = k.
Proof.
  intros Hk Hk65. split; [|intros ->; unfold canon; by rewrite Hk, orb_true_r].
  unfold canon. destruct (isWhitespace c || isBase64Char c); [done|].
  unfold sentinelChar. destruct ((0 <=? c) && (c <? 256)); intros <-; [|done].
  by vm_compute in Hk.
Qed.

Lemma map_canon_eq_iff (l ks : list Z) :
  Forall (fun k => isBase64Char k = true /\ k <> 65) ks ->
  map canon l = ks <-> l = ks.
Proof.
  intros Hks. revert l. induction Hks as [|k ks [Hk Hk65] _ IH]; intros [|c l]; simpl;
    try (split; done).
  split; intros [= E1 E2].
  - apply (proj1 (canon_eq_iff c k Hk Hk65)) in E1.
    apply (proj1 (IH l)) in E2. congruence.
  - f_equal; [by apply canon_eq_iff | by apply IH].
Qed.

Lemma replaceInvalid_canon (s : list Z) : replaceInvalid sentinelChar s = map canon s.
Proof. done. Qed.

Lemma sanitize_canon (s : list Z) : sanitize (map canon s) = map canon (sanitize s).
Proof.
  unfold sanitize. induction s as [|c s IH]; [done|]. simpl.
  rewrite !filter_cons. rewrite canon_whitespace.
  destruct (decide (isWhitespace c = false)); simpl; by rewrite IH.
Qed.

Lemma sextetAt_canon (s : list Z) i : sextetAt (map canon s) i = sextetAt s i.
Proof.
  unfold sextetAt. rewrite list_lookup_fmap.
  destruct (s !! i); simpl; [apply lookupCode_canon | done].
Qed.

Lemma endsWith_canon (s ks : list Z) :
  Forall (fun k => isBase64Char k = true /\ k <> 65) ks ->
  endsWith (map canon s) ks = endsWith s ks.
Proof.
  intros Hks. unfold endsWith. rewrite length_map. f_equal.
  apply bool_decide_ext. rewrite skipn_map. by apply map_canon_eq_iff.
Qed.

Lemma decode_loop_ext (s t : list Z) byteLength n i output outIndex :
  (forall j, sextetAt s j = sextetAt t j) ->
  decode_loop s byteLength n i output outIndex =
  decode_loop t byteLength n i output outIndex.
Proof.
  intros Hst. revert i output outIndex.
  induction n as [|n IH]; intros i output outIndex; [done|].
  simpl. rewrite !Hst.
  repeat match goal with |- context [if ?c then _ else _] => destruct c end; apply IH.
Qed.

Lemma rawBytes_canon (s : list Z) : rawBytes (map canon s) = rawBytes s.
Proof.
  unfold rawBytes, paddingOf. rewrite !endsWith_canon, length_map.
  - apply decode_loop_ext. intros j. apply sextetAt_canon.
  - repeat constructor; by vm_compute.
  - repeat constructor; by vm_compute.
Qed.

(** C6 (as the code has it). With a sanitized length that is a multiple of 4
    decoding never fails, and an invalid character is read as the sentinel of
    the lookup table: the bytes are those obtained when every invalid code
    unit below 256 is replaced by the invalid character ['!'] (read as 255)
    and every other invalid code unit by ['A'] (read as 0). *)
Theorem invalid_chars_read_as_sentinel (pako : Pako) (input : list Z) :
  (length (sanitize input) mod 4 = 0)%nat ->
  (exists bytes, decodeBase64ToUint8Array pako input = Ok bytes) /\
  decodeBase64ToUint8Array pako input =
  decodeBase64ToUint8Array pako (replaceInvalid sentinelChar input).
Proof.
  intros Hlen. split.
  - unfold decodeBase64ToUint8Array. rewrite Hlen. simpl.
    destruct (bool_decide _); [|eauto].
    destruct pako as [inflate|]; [|eauto].
    destruct (inflate _) as [[|? ?]|]; eauto.
  - rewrite replaceInvalid_canon. unfold decodeBase64ToUint8Array.
    rewrite sanitize_canon, length_map, rawBytes_canon.
    destruct (negb _); [done|].
    assert (bool_decide (take 2 (map canon (sanitize input)) = codes "eJ")
            = bool_decide (take 2 (sanitize input) = codes "eJ")) as ->; [|done].
    apply bool_decide_ext. rewrite firstn_map. apply map_canon_eq_iff.
    repeat constructor; by vm_compute.
Qed.

Lemma invalid_chars_read_as_sentinel_witness :
  (exists bytes, decodeBase64ToUint8Array None (codes "!A#A") = Ok bytes) /\
  decodeBase64ToUint8Array None (codes "!A#A") =
  decodeBase64ToUint8Array None (replaceInvalid sentinelChar (codes "!A#A")).
Proof. apply (invalid_chars_read_as_sentinel None (codes "!A#A")). by vm_compute. Defined.

(** C6 as stated fails: the invalid character ['!'] is read as 255, not as 0,
    so replacing it by ['A'] changes the decoded bytes. *)
Lemma invalid_char_is_not_zero :
  decodeBase64ToUint8Array None (codes "!AAA") = Ok [252; 0; 0] /\
  decodeBase64ToUint8Array None (replaceInvalid (fun _ => 65) (codes "!AAA"))
    = Ok [0; 0; 0] /\
  decodeBase64ToUint8Array None (codes "!AAA") <>
  decodeBase64ToUint8Array None (replaceInvalid (fun _ => 65) (codes "!AAA")).
Proof. by vm_compute. Qed.

End Base64.

(** ** JSON payloads *)

(** The values [JSON.parse] produces. Numbers are embedded as integers: the
    payloads carry grid coordinates and 0/1 passage flags. *)
#[local] Unset Elimination Schemes.
Inductive JSON : Type :=
| JNull
| JBool (b : bool)
| JNum (n : Z)
| JStr (s : list Z)
| JArr (items : list JSON)
| JObj (fields : list (list Z * JSON)).
#[local] Set Elimination Schemes.

(** Outcome of a decoder: a returned value, an exception, or a payload whose
    JSON shape is outside what the TypeScript casts of the code assume
    ([number[][]] for grids, [[number, number][]] for paths), where the
    coercions of JavaScript are not modelled. *)
Inductive Outcome (A : Type) : Type :=
| Returns (a : A)
| Throws (msg : string)
| Unmodelled.
Arguments Returns {A} a.
Arguments Throws {A} msg.
Arguments Unmodelled {A}.

Module Payload.

(** The external collaborators of the decoder: the optional [pako] library
    and [JSON.parse] applied to the text of a byte array ([None] where it
    throws). *)
Definition Parser : Type := list Z -> option JSON.

Definition asNumber (v : JSON) : option Z :=
  match v with JNum n => Some n | _ => None end.

Definition asRow (v : JSON) : option (list Z) :=
  match v with JArr items => mapM asNumber items | _ => None end.

Definition asGrid (rows : list JSON) : option (list (list Z)) := mapM asRow rows.

Definition asPair (v : JSON) : option (Z * Z) :=
  match v with
  | JArr (JNum r :: JNum c :: _) => Some (r, c)
  | _ => None
  end.

Definition asCoords (items : list JSON) : option (list (Z * Z)) := mapM asPair items.

Definition tryParseBase64ZlibJson (pako : Base64.Pako) (parse : Parser) (s : list Z)
  : option JSON :=
  match Base64.decodeBase64ToUint8Array pako s with
  | Throw _ => None
  | Ok bytes =>
      match pako with
      | None => None
      | Some inflate =>
          match inflate bytes with
          | Some [] => None
          | Some inflated =>
              match parse inflated with
              | Some result => Some result
              | None => parse bytes
              end
          | None => parse bytes
          end
      end
  end.

End Payload.

(** ** Maze grid model ([decoder.ts]) *)

Module Grid.

Definition N : Z := 1.
Definition E : Z := 2.
Definition S : Z := 4.
Definition W : Z := 8.

(** The truth value of [mask & bit]. *)
Definition has (mask bit : Z) : bool := negb (Z.land mask bit =? 0).

(** [for (let i = 0; i < n; i += 1) body]. *)
Definition for_range {St} (n : Z) (body : Z -> St -> St) (st : St) : St :=
  fold_left (fun st i => body (Z.of_nat i) st) (seq 0 (Z.to_nat n)) st.

(** The body of the double loop of [normalizeOpenings] at cell [(x, y)]. *)
Definition normalizeCell (w h : Z) (x y : Z) (openings : list Z) : list Z :=
  let idx := y * w + x in
  let mask := Js.load openings idx in
  let mask := if x =? 0 then Z.land mask (Z.lnot W) else mask in
  let mask := if x =? w - 1 then Z.land mask (Z.lnot E) else mask in
  let mask := if y =? 0 then Z.land mask (Z.lnot N) else mask in
  let mask := if y =? h - 1 then Z.land mask (Z.lnot S) else mask in
  let openings := Js.store openings idx mask in
  let openings :=
    if x <? w - 1 then
      let rightIdx := idx + 1 in
      let rightMask := Js.load openings rightIdx in
      let openings :=
        if has mask E && negb (has rightMask W)
        then Js.store openings rightIdx (Z.lor rightMask W) else openings in
      if has rightMask W && negb (has mask E)
      then Js.store openings idx (Z.lor mask E) else openings
    else openings in
  if y <? h - 1 then
    let downIdx := idx + w in
    let downMask := Js.load openings downIdx in
    let openings :=
      if has mask S && negb (has downMask N)
      then Js.store openings downIdx (Z.lor downMask N) else openings in
    if has downMask N && negb (has mask S)
    then Js.store openings idx (Z.lor mask S) else openings
  else openings.

(** [openings[i] |= bit]. *)
Definition orInto (openings : list Z) (i bit : Z) : list Z :=
  Js.store openings i (Z.lor (Js.load openings i) bit).

Definition openStart (w h : Z) (openings : list Z) : list Z :=
  let startIdx := 0 in
  if Js.load openings startIdx =? 0 then
    if w >? 1 then orInto (orInto openings startIdx E) (startIdx + 1) W
    else if h >? 1 then orInto (orInto openings startIdx S) w N
    else openings
  else openings.

Definition openGoal (w h : Z) (openings : list Z) : list Z :=
  let goalIdx := (h - 1) * w + (w - 1) in
  if Js.load openings goalIdx =? 0 then
    if w >? 1 then orInto (orInto openings goalIdx W) (goalIdx - 1) E
    else if h >? 1 then orInto (orInto openings goalIdx N) (goalIdx - w) S
    else openings
  else openings.

Definition normalizeOpenings (openings : list Z) (w h : Z) : list Z :=
  let openings :=
    for_range h (fun y => for_range w (fun x => normalizeCell w h x y)) openings in
  openGoal w h (openStart w h openings).

(** The mask of cell [(x, y)] in a row-major array of width [w]. *)
Definition maskAt (w : Z) (openings : list Z) (x y : Z) : Z :=
  Js.load openings (y * w + x).

(** [expandedGrid[r][c]] as a condition: a slot past the end of a row reads
    [undefined], which is falsy; the guards of the caller keep [r] inside the
    grid. *)
Definition passable (expandedGrid : list (list Z)) (r c : Z) : bool :=
  match Js.get expandedGrid r with
  | Some row => match Js.get row c with Some v => negb (v =? 0) | None => false end
  | None => false
  end.

Definition convertCell (expandedGrid : list (list Z)) (w : Z) (x y : Z)
    (openings : list Z) : list Z :=
  let rows := Z.of_nat (length expandedGrid) in
  let cols := Z.of_nat (length (default [] (expandedGrid !! 0%nat))) in
  let r := 2 * y + 1 in
  let c := 2 * x + 1 in
  if (r <? rows) && (c <? cols) && passable expandedGrid r c then
    let mask := 0 in
    let mask :=
      if (r >=? 2) && passable expandedGrid (r - 1) c && passable expandedGrid (r - 2) c
      then Z.lor mask N else mask in
    let mask :=
      if (c <=? cols - 3) && passable expandedGrid r (c + 1) && passable expandedGrid r (c + 2)
      then Z.lor mask E else mask in
    let mask :=
      if (r <=? rows - 3) && passable expandedGrid (r + 1) c && passable expandedGrid (r + 2) c
      then Z.lor mask S else mask in
    let mask :=
      if (c >=? 2) && passable expandedGrid r (c - 1) && passable expandedGrid r (c - 2)
      then Z.lor mask W else mask in
    Js.store openings (y * w + x) mask
  else openings.

Definition convertExpandedToRegular (expandedGrid : list (list Z)) (w h : Z) : list Z :=
  let openings := replicate (Z.to_nat (w * h)) 0 in
  for_range h (fun y => for_range w (fun x => convertCell expandedGrid w x y)) openings.

(** The legacy loop: two nibbles per byte, the low one first. *)
Fixpoint unpackNibbles (bytes : list Z) (totalCells : Z) (openings : list Z)
    (cellIndex : Z) : list Z :=
  match bytes with
  | [] => openings
  | byte :: bytes' =>
      if cellIndex <? totalCells then
        let low := Z.land byte 15 in
        let openings := Js.store openings cellIndex (Z.land low 15) in
        let cellIndex := cellIndex + 1 in
        if cellIndex >=? totalCells then openings
        else
          let high := Z.shiftr byte 4 in
          let openings := Js.store openings cellIndex (Z.land high 15) in
          unpackNibbles bytes' totalCells openings (cellIndex + 1)
      else openings
  end.

(** The expanded grid that the primary path of [decodeOpenings] accepts, if
    the payload holds one: a parsed array whose first element is an array, of
    [2h+1] rows and [2w+1] columns. *)
Definition expandedGridOf (pako : Base64.Pako) (parse : Payload.Parser)
    (g : list Z) (w h : Z) : option (list JSON) :=
  match Payload.tryParseBase64ZlibJson pako parse g with
  | Some (JArr (JArr row0 :: rest)) =>
      let rows := Z.of_nat (length (JArr row0 :: rest)) in
      let cols := Z.of_nat (length row0) in
      if (rows =? 2 * h + 1) && (cols =? 2 * w + 1)
      then Some (JArr row0 :: rest) else None
  | _ => None
  end.

Definition decodeOpenings (pako : Base64.Pako) (parse : Payload.Parser)
    (g : list Z) (w h : Z) : Outcome (list Z) :=
  let totalCells := w * h in
  match expandedGridOf pako parse g w h with
  | Some rows =>
      match Payload.asGrid rows with
      | Some grid => Returns (normalizeOpenings (convertExpandedToRegular grid w h) w h)
      | None => Unmodelled
      end
  | None =>
      match Base64.decodeBase64ToUint8Array pako g with
      | Throw msg => Throws msg
      | Ok bytes =>
          if totalCells <? 0 then Throws "Invalid typed array length"
          else Returns (unpackNibbles bytes totalCells
                          (replicate (Z.to_nat totalCells) 0) 0)
      end
  end.

(** The symmetry invariant of the data model. *)
Definition symmetric (w h : Z) (openings : list Z) : Prop :=
  (forall x y, 0 <= x -> x + 1 < w -> 0 <= y < h ->
     has (maskAt w openings x y) E = has (maskAt w openings (x + 1) y) W) /\
  (forall x y, 0 <= x < w -> 0 <= y -> y + 1 < h ->
     has (maskAt w openings x y) S = has (maskAt w openings x (y + 1)) N).

(** No direction bit of a boundary cell points outside the grid. *)
Definition cellInside (w h x y mask : Z) : Prop :=
  (x = 0 -> has mask W = false) /\ (x = w - 1 -> has mask E = false) /\
  (y = 0 -> has mask N = false) /\ (y = h - 1 -> has mask S = false).

Definition boundaryClosed (w h : Z) (openings : list Z) : Prop :=
  forall x y, 0 <= x < w -> 0 <= y < h -> cellInside w h x y (maskAt w openings x y).

Example normalize_2x2 : normalizeOpenings [0; 8; 1; 0] 2 2 = [4; 8; 3; 8].
Proof. by vm_compute. Qed.

Example normalize_repairs : normalizeOpenings [2; 0; 0; 1] 2 2 = [2; 12; 0; 1].
Proof. by vm_compute. Qed.

(** *** Bits and array cells *)

Lemma has_testbit (m k : Z) : 0 <= k -> has m (2 ^ k) = Z.testbit m k.
Proof.
  intros Hk. unfold has.
  assert (Hland : Z.land m (2 ^ k) = if Z.testbit m k then 2 ^ k else 0).
  { apply Z.bits_inj'. intros j Hj. rewrite Z.land_spec, Z.pow2_bits_eqb by done.
    destruct (Z.eqb_spec k j) as [->|Hne].
    - rewrite andb_true_r. destruct (Z.testbit m j) eqn:Et.
      + by rewrite Z.pow2_bits_true.
      + by rewrite Z.bits_0.
    - rewrite andb_false_r. destruct (Z.testbit m k).
      + by rewrite Z.pow2_bits_false.
      + by rewrite Z.bits_0. }
  rewrite Hland. destruct (Z.testbit m k); [|done].
  destruct (Z.eqb_spec (2 ^ k) 0) as [E|_]; [|done].
  pose proof (Z.pow_pos_nonneg 2 k). lia.
Qed.

Definition bitIndex (bit : Z) : Z := Z.log2 bit.

Inductive direction (bit : Z) : Prop :=
| dirN : bit = N -> direction bit
| dirE : bit = E -> direction bit
| dirS : bit = S -> direction bit
| dirW : bit = W -> direction bit.

Lemma has_direction (m bit : Z) :
  direction bit -> has m bit = Z.testbit m (bitIndex bit) /\ 0 <= bitIndex bit < 4.
Proof.
  intros [->| ->| ->| ->]; unfold bitIndex.
  - split; [apply (has_testbit m 0) | simpl]; lia.
  - split; [apply (has_testbit m 1) | simpl]; lia.
  - split; [apply (has_testbit m 2) | simpl]; lia.
  - split; [apply (has_testbit m 3) | simpl]; lia.
Qed.

Lemma has_mod (m bit : Z) : direction bit -> has (m mod 256) bit = has m bit.
Proof.
  intros Hd. destruct (has_direction m bit Hd) as [-> Hk].
  destruct (has_direction (m mod 256) bit Hd) as [-> _].
  change 256 with (2 ^ 8). apply Z.mod_pow2_bits_low. lia.
Qed.

Lemma has_lor (a b bit : Z) : direction bit -> has (Z.lor a b) bit = has a bit || has b bit.
Proof.
  intros Hd. destruct (has_direction a bit Hd) as [-> Hk].
  destruct (has_direction b bit Hd) as [-> _].
  destruct (has_direction (Z.lor a b) bit Hd) as [-> _]. apply Z.lor_spec.
Qed.

Lemma has_strip (m bit bit' : Z) :
  direction bit -> direction bit' ->
  has (Z.land m (Z.lnot bit')) bit = has m bit && negb (has bit' bit).
Proof.
  intros Hd Hd'. destruct (has_direction m bit Hd) as [-> Hk].
  destruct (has_direction bit' bit Hd) as [-> _].
  destruct (has_direction (Z.land m (Z.lnot bit')) bit Hd) as [-> _].
  rewrite Z.land_spec, Z.lnot_spec by lia. done.
Qed.

Lemma has_0 (bit : Z) : has 0 bit = false.
Proof. done. Qed.

Lemma load_store (a : list Z) (i j v : Z) :
  Js.load (Js.store a i v) j =
  if decide (i = j /\ 0 <= i < Z.of_nat (length a)) then v mod 256 else Js.load a j.
Proof.
  unfold Js.load, Js.store, Js.get.
  destruct (Z.ltb_spec i 0) as [Hi|Hi].
  - case_decide; [lia | done].
  - destruct (Z.ltb_spec j 0) as [Hj|Hj].
    + case_decide; [lia | done].
    + case_decide as Hd.
      * destruct Hd as [<- Hd]. rewrite list_lookup_insert_eq by lia. done.
      * destruct (decide (i = j)) as [<-|Hne].
        -- rewrite list_insert_ge by lia. done.
        -- rewrite list_lookup_insert_ne by lia. done.
Qed.

Lemma load_outside (a : list Z) (i : Z) :
  i < 0 \/ Z.of_nat (length a) <= i -> Js.load a i = 0.
Proof.
  intros Hi. unfold Js.load, Js.get. zcases; [done|].
  rewrite lookup_ge_None_2 by lia. done.
Qed.

Lemma length_store (a : list Z) (i v : Z) : length (Js.store a i v) = length a.
Proof. unfold Js.store. destruct (i <? 0); [done | apply length_insert]. Qed.

(** [for_range] as a loop with an invariant. *)
Lemma for_range_ind {St} (P : Z -> St -> Prop) (n : Z) (body : Z -> St -> St) (st : St) :
  P 0 st ->
  (forall i s, 0 <= i < n -> P i s -> P (i + 1) (body i s)) ->
  P (Z.max 0 n) (for_range n body st).
Proof.
  intros H0 Hstep. unfold for_range.
  assert (G : forall k, (k <= Z.to_nat n)%nat ->
            P (Z.of_nat k) (fold_left (fun st i => body (Z.of_nat i) st) (seq 0 k) st)).
  { induction k as [|k IH]; intros Hk; [done|].
    rewrite seq_S, fold_left_app. simpl.
    replace (Z.of_nat (Datatypes.S k)) with (Z.of_nat k + 1) by lia.
    apply Hstep; [lia | apply IH; lia]. }
  replace (Z.max 0 n) with (Z.of_nat (Z.to_nat n)) by lia. by apply G.
Qed.

(** *** Boundary bits after normalisation *)

Section Boundary.
Variables w h : Z.
Hypothesis Hw : 1 <= w.

(** Cell [(x, y)] of the grid lives at index [i]. *)
Definition cellAt (i x y : Z) : Prop := 0 <= x < w /\ 0 <= y < h /\ i = y * w + x.

Lemma cellAt_unique i x y x' y' : cellAt i x y -> cellAt i x' y' -> x = x' /\ y = y'.
Proof.
  unfold cellAt. intros (? & ? & ->) (? & ? & E).
  assert (y = y') as <- by (destruct (Z.lt_trichotomy y y') as [?|[?|?]]; [nia | done | nia]).
  lia.
Qed.

(** The value [v] has no outward bit when stored at index [i]. *)
Definition fits (i v : Z) : Prop := forall x y, cellAt i x y -> cellInside w h x y v.

(** All cells below index [k] are closed. *)
Definition closedBelow (k : Z) (o : list Z) : Prop :=
  forall i, i < k -> fits i (Js.load o i).

Lemma cellInside_mod x y v : cellInside w h x y v -> cellInside w h x y (v mod 256).
Proof.
  unfold cellInside. rewrite !has_mod by (by constructor). done.
Qed.

Lemma cellInside_0 x y : cellInside w h x y 0.
Proof. by unfold cellInside. Qed.

Lemma cellInside_lor x y a b :
  cellInside w h x y a -> cellInside w h x y b -> cellInside w h x y (Z.lor a b).
Proof.
  unfold cellInside. rewrite !has_lor by (by constructor).
  intros (A1 & A2 & A3 & A4) (B1 & B2 & B3 & B4).
  repeat split; intros Hx; apply orb_false_iff; auto.
Qed.

Lemma closedBelow_store k o i v :
  closedBelow k o -> (k <= i \/ fits i v) -> closedBelow k (Js.store o i v).
Proof.
  intros Ho Hv j Hj. rewrite load_store. case_decide as Hd; [|by apply Ho].
  destruct Hd as [<- _]. destruct Hv as [?|Hv]; [lia|].
  intros x y Hc. by apply cellInside_mod, Hv.
Qed.

Lemma closedBelow_orInto k o i bit :
  closedBelow k o -> (k <= i \/ fits i bit) -> closedBelow k (orInto o i bit).
Proof.
  intros Ho Hv. apply closedBelow_store; [done|].
  destruct Hv as [?|Hv]; [by left|].
  destruct (Z.lt_ge_cases i k); [right | by left].
  intros x y Hc. apply cellInside_lor; [by apply Ho | by apply Hv].
Qed.

Lemma closedBelow_next k o : closedBelow k o -> fits k (Js.load o k) -> closedBelow (k + 1) o.
Proof.
  intros Ho Hk i Hi. destruct (decide (i = k)) as [->|]; [done | apply Ho; lia].
Qed.

(** The mask of [normalizeCell] after the four boundary tests. *)
Definition stripped (x y mask : Z) : Z :=
  let mask := if x =? 0 then Z.land mask (Z.lnot W) else mask in
  let mask := if x =? w - 1 then Z.land mask (Z.lnot E) else mask in
  let mask := if y =? 0 then Z.land mask (Z.lnot N) else mask in
  if y =? h - 1 then Z.land mask (Z.lnot S) else mask.

Lemma stripped_inside x y mask : cellInside w h x y (stripped x y mask).
Proof.
  unfold cellInside, stripped.
  repeat split; intros ->; zcases; try lia;
    rewrite ?has_strip by (by constructor);
    repeat (first [ reflexivity | apply andb_false_r
                  | rewrite andb_true_r | rewrite andb_false_r ]).
Qed.

Lemma normalizeCell_closed x y o :
  0 <= x < w -> 0 <= y < h ->
  closedBelow (y * w + x) o -> closedBelow (y * w + x + 1) (normalizeCell w h x y o).
Proof.
  intros Hx Hy Ho. unfold normalizeCell.
  change (if y =? h - 1 then _ else _) with (stripped x y (Js.load o (y * w + x))).
  set (idx := y * w + x) in *. set (mask := stripped x y (Js.load o idx)).
  assert (Hc : cellAt idx x y) by done.
  assert (Hmask : fits idx mask).
  { intros x' y' Hc'. destruct (cellAt_unique _ _ _ _ _ Hc Hc') as [<- <-].
    apply stripped_inside. }
  assert (HE : x < w - 1 -> fits idx (Z.lor mask E)).
  { intros Hlt x' y' Hc'. destruct (cellAt_unique _ _ _ _ _ Hc Hc') as [<- <-].
    apply cellInside_lor; [apply stripped_inside|].
    unfold cellInside. repeat split; intros; try done; lia. }
  assert (HS : y < h - 1 -> fits idx (Z.lor mask S)).
  { intros Hlt x' y' Hc'. destruct (cellAt_unique _ _ _ _ _ Hc Hc') as [<- <-].
    apply cellInside_lor; [apply stripped_inside|].
    unfold cellInside. repeat split; intros; try done; lia. }
  assert (H1 : closedBelow (idx + 1) (Js.store o idx mask)).
  { apply closedBelow_next; [apply closedBelow_store; [done | left; lia]|].
    rewrite load_store. case_decide as Hd.
    - intros x' y' Hc'. by apply cellInside_mod, Hmask.
    - rewrite load_outside by lia. intros x' y' _. apply cellInside_0. }
  clearbody mask. revert H1. generalize (Js.store o idx mask). intros o1 H1.
  repeat match goal with
  | |- closedBelow _ (if ?c then _ else _) => destruct c eqn:?
  | |- closedBelow _ (Js.store _ _ _) => apply closedBelow_store
  | |- closedBelow _ _ => assumption
  | |- _ \/ _ => first [ left; lia | right; first [ apply HE | apply HS ]; lia ]
  end.
Qed.

Lemma normalizeLoops_closed o :
  0 <= h ->
  closedBelow (h * w)
    (for_range h (fun y => for_range w (fun x => normalizeCell w h x y)) o).
Proof.
  intros Hh.
  pose proof (for_range_ind (fun y o => closedBelow (y * w) o) h
                (fun y => for_range w (fun x => normalizeCell w h x y)) o) as G.
  rewrite Z.max_r in G by done. apply G; clear G.
  - intros i Hi x y (? & ? & ->). nia.
  - intros y s Hy Hs.
    pose proof (for_range_ind (fun x o => closedBelow (y * w + x) o) w
                  (fun x => normalizeCell w h x y) s) as G.
    rewrite Z.max_r in G by lia.
    replace ((y + 1) * w) with (y * w + w) by lia. apply G; clear G.
    + by rewrite Z.add_0_r.
    + intros x s' Hx Hs'. rewrite Z.add_assoc. by apply normalizeCell_closed.
Qed.

Lemma fits_at x y i bit : cellAt i x y -> cellInside w h x y bit -> fits i bit.
Proof.
  intros Hc Hin x' y' Hc'. by destruct (cellAt_unique _ _ _ _ _ Hc Hc') as [<- <-].
Qed.

Lemma openStart_closed k o : 1 <= h -> closedBelow k o -> closedBelow k (openStart w h o).
Proof.
  intros Hh Ho. unfold openStart. zcases; try done.
  - apply closedBelow_orInto; [apply closedBelow_orInto; [done|]|]; right.
    + apply (fits_at 0 0); [unfold cellAt; lia|].
      unfold cellInside; repeat split; intros; try done; lia.
    + apply (fits_at 1 0); [unfold cellAt; lia|].
      unfold cellInside; repeat split; intros; try done; lia.
  - apply closedBelow_orInto; [apply closedBelow_orInto; [done|]|]; right.
    + apply (fits_at 0 0); [unfold cellAt; lia|].
      unfold cellInside; repeat split; intros; try done; lia.
    + apply (fits_at 0 1); [unfold cellAt; lia|].
      unfold cellInside; repeat split; intros; try done; lia.
Qed.

Lemma openGoal_closed k o : 1 <= h -> closedBelow k o -> closedBelow k (openGoal w h o).
Proof.
  intros Hh Ho. unfold openGoal. zcases; try done.
  - apply closedBelow_orInto; [apply closedBelow_orInto; [done|]|]; right.
    + apply (fits_at (w - 1) (h - 1)); [unfold cellAt; lia|].
      unfold cellInside; repeat split; intros; try done; lia.
    + apply (fits_at (w - 2) (h - 1)); [unfold cellAt; lia|].
      unfold cellInside; repeat split; intros; try done; lia.
  - apply closedBelow_orInto; [apply closedBelow_orInto; [done|]|]; right.
    + apply (fits_at (w - 1) (h - 1)); [unfold cellAt; lia|].
      unfold cellInside; repeat split; intros; try done; lia.
    + apply (fits_at 0 (h - 2)); [unfold cellAt; lia|].
      unfold cellInside; repeat split; intros; try done; lia.
Qed.

Lemma normalizeOpenings_boundary o : 1 <= h -> boundaryClosed w h (normalizeOpenings o w h).
Proof.
  intros Hh x y Hx Hy. unfold maskAt.
  assert (G : closedBelow (h * w) (normalizeOpenings o w h)).
  { unfold normalizeOpenings. apply openGoal_closed, openStart_closed; try done.
    apply normalizeLoops_closed. lia. }
  apply (G (y * w + x)); [nia | done].
Qed.

End Boundary.

(** *** Symmetry *)


(** *** The two paths of decodeOpenings *)

(** C8 (as the code has it). When [decodeOpenings] returns through the
    expanded-grid path, no boundary cell of the returned masks has a bit that
    points outside the grid. *)
Theorem decodeOpenings_expanded_boundary
    (pako : Base64.Pako) (parse : Payload.Parser) (g : list Z) (w h : Z)
    (rows : list JSON) (masks : list Z) :
  1 <= w -> 1 <= h ->
  expandedGridOf pako parse g w h = Some rows ->
  decodeOpenings pako parse g w h = Returns masks ->
  boundaryClosed w h masks.
Proof.
  intros Hw Hh Hrows. unfold decodeOpenings. rewrite Hrows.
  destruct (Payload.asGrid rows) as [grid|]; [|done].
  intros [= <-]. by apply normalizeOpenings_boundary.
Qed.

(** A 3 x 3 expanded grid for a 1 x 1 maze, with every slot passable. *)
Definition openGrid1x1 : JSON :=
  JArr [JArr [JNum 1; JNum 1; JNum 1];
        JArr [JNum 1; JNum 1; JNum 1];
        JArr [JNum 1; JNum 1; JNum 1]].

Lemma decodeOpenings_expanded_boundary_witness :
  boundaryClosed 1 1 [0].
Proof.
  apply (decodeOpenings_expanded_boundary
           (Some (fun _ => None)) (fun _ => Some openGrid1x1) [] 1 1
           [JArr [JNum 1; JNum 1; JNum 1];
            JArr [JNum 1; JNum 1; JNum 1];
            JArr [JNum 1; JNum 1; JNum 1]] [0]).
  - lia.
  - lia.
  - reflexivity.
  - reflexivity.
Defined.

(** C8 as stated fails on the legacy path, which returns the stored nibbles
    untouched: the one-byte payload [AQ==] for a 1 x 1 grid decodes to a cell
    whose North bit points outside the grid. *)
Lemma decodeOpenings_legacy_boundary_open :
  decodeOpenings None (fun _ => None) (Base64.codes "AQ==") 1 1 = Returns [1] /\
  ~ boundaryClosed 1 1 [1].
Proof.
  split; [by vm_compute|].
  intros Hb. destruct (Hb 0 0 ltac:(lia) ltac:(lia)) as (_ & _ & Hn & _).
  specialize (Hn eq_refl). by vm_compute in Hn.
Qed.

End Grid.

(** ** Move and path codec ([decoder.ts]) *)

Module Moves.

(** The callback of [coords.map]: a pair of odd components is rescaled from
    expanded-grid units, any other pair is returned as it is. The callback
    returns a pair in both branches; [None] stands for the [null] that the
    following [filter] tests for. [%] is the remainder of JavaScript, whose
    sign is that of the dividend; the division is exact. *)
Definition rescale (rc : Z * Z) : option (Z * Z) :=
  let '(r, c) := rc in
  if (Z.rem r 2 =? 1) && (Z.rem c 2 =? 1)
  then Some ((r - 1) / 2, (c - 1) / 2)
  else Some (r, c).

(** [filter((v) => v != null)]. *)
Fixpoint filterNonNull {A} (l : list (option A)) : list A :=
  match l with
  | [] => []
  | Some v :: l' => v :: filterNonNull l'
  | None :: l' => filterNonNull l'
  end.

Definition maximum (l : list Z) : option Z :=
  match l with
  | [] => None
  | x :: l' => Some (fold_left Z.max l' x)
  end.

(** Some coordinate exceeds [L]: [maxR > L || maxC > L]. *)
Definition exceeds (coords : list (Z * Z)) (L : Z) : bool :=
  match maximum (map fst coords), maximum (map snd coords) with
  | Some maxR, Some maxC => (maxR >? L) || (maxC >? L)
  | _, _ => false
  end.

Definition normCoords (coords : list (Z * Z)) (L : Z) : list (Z * Z) :=
  if exceeds coords L then filterNonNull (map rescale coords) else coords.

(** The move of one step, if the step is a unit step. *)
Definition moveOf (r1 c1 r2 c2 : Z) : option Z :=
  let dr := r2 - r1 in
  let dc := c2 - c1 in
  if (dr =? -1) && (dc =? 0) then Some 0
  else if (dr =? 0) && (dc =? 1) then Some 1
  else if (dr =? 1) && (dc =? 0) then Some 2
  else if (dr =? 0) && (dc =? -1) then Some 3
  else None.

(** The loop over consecutive pairs, which stops once [moves] holds [L]
    entries. *)
Fixpoint deriveMoves (normCoords : list (Z * Z)) (L : Z) (moves : list Z) : list Z :=
  match normCoords with
  | (r1, c1) :: (((r2, c2) :: _) as rest) =>
      if Z.of_nat (length moves) <? L then
        deriveMoves rest L
          (match moveOf r1 c1 r2 c2 with
           | Some m => moves ++ [m]
           | None => moves
           end)
      else moves
  | _ => moves
  end.

(** The primary path of [decodeMoves] on an array of coordinate pairs. *)
Definition movesOfCoords (coords : list (Z * Z)) (L : Z) : list Z :=
  deriveMoves (normCoords coords L) L [].

(** The legacy loop: four 2-bit moves per byte, the lowest bits first. *)
Definition unpackByte (byte : Z) (L : Z) (moves : list Z) : list Z :=
  fold_left (fun moves shift =>
               if Z.of_nat (length moves) <? L
               then moves ++ [Z.land (Z.shiftr byte shift) 3]
               else moves)
            [0; 2; 4; 6] moves.

Fixpoint unpackMoves (bytes : list Z) (L : Z) (moves : list Z) : list Z :=
  match bytes with
  | [] => moves
  | byte :: bytes' =>
      if Z.of_nat (length moves) <? L
      then unpackMoves bytes' L (unpackByte byte L moves)
      else moves
  end.

Definition decodeMoves (pako : Base64.Pako) (parse : Payload.Parser)
    (p : list Z) (L : Z) : Outcome (list Z) :=
  match Payload.tryParseBase64ZlibJson pako parse p with
  | Some (JArr (item :: items)) =>
      match Payload.asCoords (item :: items) with
      | Some coords => Returns (movesOfCoords coords L)
      | None => Unmodelled
      end
  | _ =>
      match Base64.decodeBase64ToUint8Array pako p with
      | Throw msg => Throws msg
      | Ok bytes => Returns (unpackMoves bytes L [])
      end
  end.

(** The normalisation that C7 describes: odd pairs rescaled, every other
    pair dropped. *)
Definition rescaleOrDrop (rc : Z * Z) : option (Z * Z) :=
  let '(r, c) := rc in
  if Z.odd r && Z.odd c then Some ((r - 1) / 2, (c - 1) / 2) else None.

Example movesOfCoords_plain :
  movesOfCoords [(0, 0); (0, 1); (1, 1); (1, 0); (0, 0)] 4 = [1; 2; 3; 0].
Proof. by vm_compute. Qed.

Example unpackMoves_byte : unpackMoves [228; 1] 5 [] = [0; 1; 2; 3; 1].
Proof. by vm_compute. Qed.

(** C7. On the expanded-unit path (1,1), (1,2), (1,3) with [maxLength] 2 a
    coordinate exceeds [maxLength], the two odd pairs are rescaled to (0,0)
    and (0,1), but the pair (1,2) is kept instead of dropped: the callback
    returns the pair itself, so the [filter] for [null] removes nothing.
    With (1,2) still in the sequence no step is a unit step and no move is
    derived, where dropping it would give the single move East. *)
Theorem decodeMoves_keeps_unmappable :
  exceeds [(1, 1); (1, 2); (1, 3)] 2 = true /\
  normCoords [(1, 1); (1, 2); (1, 3)] 2 = [(0, 0); (1, 2); (0, 1)] /\
  movesOfCoords [(1, 1); (1, 2); (1, 3)] 2 = [] /\
  deriveMoves (filterNonNull (map rescaleOrDrop [(1, 1); (1, 2); (1, 3)])) 2 [] = [1] /\
  forall coords L, length (normCoords coords L) = length coords.
Proof.
  repeat split; try by vm_compute.
  intros coords L. unfold normCoords. destruct (exceeds coords L); [|done].
  induction coords as [|[r c] coords IH]; [done|].
  cbn [map]. unfold rescale at 1.
  destruct (_ && _); cbn [filterNonNull length]; by rewrite IH.
Qed.

End Moves.

(** ** The game screen's input step ([processCell]) *)

Module Game.

Record MazeRecord : Type := {
  rec_w : Z;
  rec_h : Z;
  rec_L : Z
}.

Definition GridPoint : Type := (Z * Z)%type.

(** A call of [handleWin]; what the asynchronous handler does afterwards
    (ads, persistence) is outside the model. *)
Record WinCall : Type := {
  win_moves : list Z;
  win_cells : list GridPoint
}.

(** The part of the component state that [processCell] reads or writes: the
    two refs, their mirrored React state, the last-cell ref, the evaluation
    results and the calls made to [handleWin]. *)
Record State : Type := {
  currentMaze : option MazeRecord;
  openings : list Z;
  solutionMoves : list Z;
  playerCellsRef : list GridPoint;
  playerMovesRef : list Z;
  playerCells : list GridPoint;
  playerMoves : list Z;
  lastCellRef : option GridPoint;
  divergence : Z;
  progress : Z;
  winCalls : list WinCall
}.

(** [DIRECTIONS]: (dx, dy, mask) in the order N, E, S, W. *)
Definition DIRECTIONS : list (Z * Z * Z) :=
  [(0, -1, Grid.N); (1, 0, Grid.E); (0, 1, Grid.S); (-1, 0, Grid.W)].

(** [DIRECTIONS.findIndex(dir => dir.dx === dx && dir.dy === dy)], [None]
    for -1. *)
Fixpoint findDirection (dirs : list (Z * Z * Z)) (dx dy : Z) (i : nat) : option nat :=
  match dirs with
  | [] => None
  | (ddx, ddy, _) :: dirs' =>
      if (ddx =? dx) && (ddy =? dy) then Some i else findDirection dirs' dx dy (S i)
  end.

(** [evaluateMoves]: the divergence index and the count of correct moves,
    which it also stores in the state. *)
Definition evaluateMoves (solution moves : list Z) : Z * Z :=
  match solution with
  | [] => (-1, 0)
  | _ =>
      let divergenceIndex := Engine.firstDivergence moves solution in
      let correctCount :=
        if divergenceIndex =? -1
        then Z.min (Z.of_nat (length moves)) (Z.of_nat (length solution))
        else divergenceIndex in
      (divergenceIndex, correctCount)
  end.

Definition processCell (st : State) (target : GridPoint) : Res State :=
  match currentMaze st with
  | None => Ok st
  | Some maze =>
      let cells := playerCellsRef st in
      match Js.get cells (Z.of_nat (length cells) - 1) with
      | None => Throw "TypeError: cannot read properties of undefined"
      | Some lastCell =>
          if (fst lastCell =? fst target) && (snd lastCell =? snd target) then Ok st
          else
            let prev := Js.get cells (Z.of_nat (length cells) - 2) in
            if match prev with
               | Some p => (fst p =? fst target) && (snd p =? snd target)
               | None => false
               end
            then Ok st
            else
              let dx := fst target - fst lastCell in
              let dy := snd target - snd lastCell in
              if negb (Z.abs dx + Z.abs dy =? 1) then Ok st
              else
                match findDirection DIRECTIONS dx dy 0 with
                | None => Ok st
                | Some directionIndex =>
                    let mask :=
                      Js.load (openings st) (snd lastCell * rec_w maze + fst lastCell) in
                    let dirMask :=
                      match DIRECTIONS !! directionIndex with
                      | Some (_, _, m) => m
                      | None => 0
                      end in
                    if Z.land mask dirMask =? 0 then Ok st
                    else
                      let nextCells := cells ++ [target] in
                      let nextMoves := playerMovesRef st ++ [Z.of_nat directionIndex] in
                      let '(divergenceIndex, correctCount) :=
                        evaluateMoves (solutionMoves st) nextMoves in
                      let reachedGoal :=
                        (fst target =? rec_w maze - 1) && (snd target =? rec_h maze - 1) in
                      let requiredMoves :=
                        if Z.of_nat (length (solutionMoves st)) >? 0
                        then Z.of_nat (length (solutionMoves st)) else rec_L maze in
                      let won :=
                        reachedGoal
                        || ((divergenceIndex =? -1) && (correctCount >=? requiredMoves)) in
                      Ok {| currentMaze := currentMaze st;
                            openings := openings st;
                            solutionMoves := solutionMoves st;
                            playerCellsRef := nextCells;
                            playerMovesRef := nextMoves;
                            playerCells := nextCells;
                            playerMoves := nextMoves;
                            lastCellRef := Some target;
                            divergence := divergenceIndex;
                            progress := correctCount;
                            winCalls :=
                              if won
                              then winCalls st ++
                                   [{| win_moves := nextMoves; win_cells := nextCells |}]
                              else winCalls st |}
                end
      end
  end.

(** A 2 x 2 maze with the passage between its first two cells open, after
    the player has stepped East. *)
Definition afterOneStep : State :=
  {| currentMaze := Some {| rec_w := 2; rec_h := 2; rec_L := 2 |};
     openings := [2; 12; 0; 1];
     solutionMoves := [1; 2];
     playerCellsRef := [(0, 0); (1, 0)];
     playerMovesRef := [1];
     playerCells := [(0, 0); (1, 0)];
     playerMoves := [1];
     lastCellRef := Some (1, 0);
     divergence := -1;
     progress := 1;
     winCalls := [] |}.

Example processCell_forward :
  exists st', processCell afterOneStep (1, 1) = Ok st' /\
              playerMovesRef st' = [1; 2] /\
              playerCellsRef st' = [(0, 0); (1, 0); (1, 1)] /\
              length (winCalls st') = 1%nat.
Proof. eexists. split; [by vm_compute|]. by vm_compute. Qed.

(** C10. With at least two cells walked, a target equal to the cell before
    the cursor cell makes [processCell] return with the state unchanged: no
    move and no cell is appended, whatever the openings are. *)
Theorem processCell_ignores_step_back (st : State) (target : GridPoint) :
  (2 <= length (playerCellsRef st))%nat ->
  playerCellsRef st !! (length (playerCellsRef st) - 2)%nat = Some target ->
  processCell st target = Ok st.
Proof.
  intros Hlen Hprev. unfold processCell.
  destruct (currentMaze st) as [maze|]; [|done].
  assert (Hget : forall k, 0 <= k <= Z.of_nat (length (playerCellsRef st)) ->
            Js.get (playerCellsRef st) (Z.of_nat (length (playerCellsRef st)) - k)
            = playerCellsRef st !! (length (playerCellsRef st) - Z.to_nat k)%nat).
  { intros k Hk. unfold Js.get. zcases; [lia|]. f_equal. lia. }
  rewrite (Hget 1), (Hget 2) by lia.
  change (Z.to_nat 2) with 2%nat. change (Z.to_nat 1) with 1%nat. rewrite Hprev.
  destruct (playerCellsRef st !! (length (playerCellsRef st) - 1)%nat)
    as [lastCell|] eqn:Hlast.
  - destruct (_ && _); [done|]. by rewrite !Z.eqb_refl.
  - apply lookup_ge_None in Hlast. lia.
Qed.

Lemma processCell_ignores_step_back_witness :
  processCell afterOneStep (0, 0) = Ok afterOneStep.
Proof.
  apply (processCell_ignores_step_back afterOneStep (0, 0)).
  - simpl. lia.
  - reflexivity.
Defined.

End Game.

(** ** The authoring tool's packers ([app.js]) *)

Module Packer.

(** A path coordinate [{x, y}]. *)
Abbreviation Coord := (Z * Z)%type.

(** The loop of [movesFromPathCoords]: [prev] is [coords[i - 1]] and [rest]
    starts at [coords[i]]. *)
Fixpoint movesFrom (prev : Coord) (rest : list Coord) (moves : list Z) : Res (list Z) :=
  match rest with
  | [] => Ok moves
  | current :: rest' =>
      let dx := fst current - fst prev in
      let dy := snd current - snd prev in
      if (dx =? 0) && (dy =? -1) then movesFrom current rest' (moves ++ [0])
      else if (dx =? 1) && (dy =? 0) then movesFrom current rest' (moves ++ [1])
      else if (dx =? 0) && (dy =? 1) then movesFrom current rest' (moves ++ [2])
      else if (dx =? -1) && (dy =? 0) then movesFrom current rest' (moves ++ [3])
      else Throw "Invalid path coordinates: non-adjacent move detected."
  end.

Definition movesFromPathCoords (coords : list Coord) : Res (list Z) :=
  match coords with
  | [] => Ok []
  | first :: rest => movesFrom first rest []
  end.

(** The callback of [moves.forEach]. *)
Definition packStep (packed : list Z) (index : Z) (move : Z) : list Z :=
  let clamped := Z.land move 3 in
  let byteIndex := index / 4 in
  let shift := (index mod 4) * 2 in
  Js.store packed byteIndex (Z.lor (Js.load packed byteIndex) (Z.shiftl clamped shift)).

Fixpoint packLoop (moves : list Z) (index : Z) (packed : list Z) : list Z :=
  match moves with
  | [] => packed
  | move :: moves' => packLoop moves' (index + 1) (packStep packed index move)
  end.

(** The bytes that [packMovesBase64] hands to [bytesToBase64]. *)
Definition packMoves (moves : list Z) : list Z :=
  packLoop moves 0 (replicate ((length moves + 3) / 4) 0).

(** The Base64 digit of a 6-bit value. *)
Definition digit (d : Z) : Z := default 0 (Base64.BASE64_ALPHABET !! Z.to_nat d).

(** The four 6-bit groups of three bytes. *)
Definition quad (a b c : Z) : list Z :=
  [ Z.shiftr a 2;
    Z.lor (Z.shiftl (Z.land a 3) 4) (Z.shiftr b 4);
    Z.lor (Z.shiftl (Z.land b 15) 2) (Z.shiftr c 6);
    Z.land c 63 ].

(** [btoa], the Base64 encoder of the platform, on a binary string given by
    its bytes (RFC 4648, section 4): three bytes give four digits, and a last
    group of one or two bytes is completed with zero bits and padded with
    ['=']. *)
Fixpoint btoa (bytes : list Z) : list Z :=
  match bytes with
  | [] => []
  | [a] => take 2 (map digit (quad a 0 0)) ++ [61; 61]
  | [a; b] => take 3 (map digit (quad a b 0)) ++ [61]
  | a :: b :: c :: rest => map digit (quad a b c) ++ btoa rest
  end.

(** [bytesToBase64] joins the characters of all chunks into one binary
    string and encodes it. *)
Definition bytesToBase64 (u8 : list Z) : list Z := btoa u8.

Definition packMovesBase64 (moves : list Z) : list Z :=
  match moves with
  | [] => []
  | _ => bytesToBase64 (packMoves moves)
  end.

Example btoa_examples :
  btoa [77; 97; 122; 101] = Base64.codes "TWF6ZQ==" /\
  btoa [77; 97] = Base64.codes "TWE=" /\
  btoa [77; 97; 110] = Base64.codes "TWFu".
Proof. by vm_compute. Qed.

Example pack_examples :
  movesFromPathCoords [(0, 0); (1, 0); (1, 1); (2, 1); (2, 0); (3, 0)] = Ok [1; 2; 1; 0; 1] /\
  packMoves [1; 2; 1; 0; 1] = [25; 1] /\
  packMovesBase64 [1; 2; 1; 0; 1] = Base64.codes "GQE=".
Proof. by vm_compute. Qed.

End Packer.

(** ** Round trip of packed moves *)

Module RoundTrip.
Import Base64 Packer.

Definition byte (b : Z) : Prop := 0 <= b < 256.

(** *** Three bytes and their four digits *)

Lemma lor_add_disjoint (x lo k : Z) :
  0 <= k -> 0 <= lo < 2 ^ k -> x mod 2 ^ k = 0 -> Z.lor x lo = x + lo.
Proof.
  intros Hk Hlo Hx.
  assert (Hland : Z.land x lo = 0).
  { apply Z.bits_inj'. intros i Hi. rewrite Z.land_spec, Z.bits_0.
    destruct (Z.lt_ge_cases i k).
    - replace (Z.testbit x i) with false; [done|].
      rewrite <- (Z.mod_pow2_bits_low x k i) by lia. rewrite Hx. by rewrite Z.bits_0.
    - replace (Z.testbit lo i) with false; [by rewrite andb_false_r|].
      rewrite <- (Z.mod_small lo (2 ^ k)) by lia.
      by rewrite Z.mod_pow2_bits_high by lia. }
  rewrite <- Z.lxor_lor by done. symmetry. by apply Z.add_nocarry_lxor.
Qed.

Lemma quad_values (a b c : Z) :
  byte a -> byte b -> byte c ->
  quad a b c = [a / 4; (a mod 4) * 16 + b / 16; (b mod 16) * 4 + c / 64; c mod 64].
Proof.
  unfold byte, quad. intros Ha Hb Hc.
  rewrite !Z.shiftr_div_pow2, !Z.shiftl_mul_pow2 by lia.
  change 3 with (Z.ones 2). change 15 with (Z.ones 4). change 63 with (Z.ones 6).
  rewrite !Z.land_ones by lia.
  change (2 ^ 2) with 4. change (2 ^ 4) with 16. change (2 ^ 6) with 64.
  rewrite (lor_add_disjoint _ (b / 16) 4); [| lia | | ].
  - rewrite (lor_add_disjoint _ (c / 64) 2); [done | lia | | ].
    + change (2 ^ 2) with 4. Z.div_mod_to_equations. lia.
    + change (2 ^ 2) with 4. Z.div_mod_to_equations. lia.
  - change (2 ^ 4) with 16. Z.div_mod_to_equations. lia.
  - change (2 ^ 4) with 16. Z.div_mod_to_equations. lia.
Qed.

Lemma chunkOf_value (d0 d1 d2 d3 : Z) :
  0 <= d0 < 64 -> 0 <= d1 < 64 -> 0 <= d2 < 64 -> 0 <= d3 < 64 ->
  chunkOf d0 d1 d2 d3 = d0 * 262144 + d1 * 4096 + d2 * 64 + d3.
Proof.
  intros H0 H1 H2 H3. unfold chunkOf. rewrite !Z.shiftl_mul_pow2 by lia.
  change (2 ^ 18) with 262144. change (2 ^ 12) with 4096. change (2 ^ 6) with 64.
  rewrite (lor_add_disjoint (d0 * 262144) (d1 * 4096) 18); [| lia | | ].
  - rewrite (lor_add_disjoint _ (d2 * 64) 12); [| lia | | ].
    + rewrite (lor_add_disjoint _ d3 6); [done | lia | | ].
      * change (2 ^ 6) with 64. lia.
      * change (2 ^ 6) with 64. Z.div_mod_to_equations. lia.
    + change (2 ^ 12) with 4096. lia.
    + change (2 ^ 12) with 4096. Z.div_mod_to_equations. lia.
  - change (2 ^ 18) with 262144. lia.
  - change (2 ^ 18) with 262144. Z.div_mod_to_equations. lia.
Qed.

(** The chunk assembled from the digits of three bytes is their 24-bit
    concatenation, from which the three bytes are read back. *)
Lemma chunk_of_quad (a b c : Z) :
  byte a -> byte b -> byte c ->
  exists d0 d1 d2 d3,
    quad a b c = [d0; d1; d2; d3] /\
    (0 <= d0 < 64 /\ 0 <= d1 < 64 /\ 0 <= d2 < 64 /\ 0 <= d3 < 64) /\
    Z.land (Z.shiftr (chunkOf d0 d1 d2 d3) 16) 255 = a /\
    Z.land (Z.shiftr (chunkOf d0 d1 d2 d3) 8) 255 = b /\
    Z.land (chunkOf d0 d1 d2 d3) 255 = c.
Proof.
  intros Ha Hb Hc. rewrite quad_values by done. unfold byte in *.
  eexists _, _, _, _. split; [reflexivity|].
  assert (Hr : 0 <= a / 4 < 64 /\ 0 <= a mod 4 * 16 + b / 16 < 64 /\
               0 <= b mod 16 * 4 + c / 64 < 64 /\ 0 <= c mod 64 < 64)
    by (Z.div_mod_to_equations; lia).
  split; [done|]. destruct Hr as (? & ? & ? & ?).
  rewrite chunkOf_value by done.
  rewrite !Z.shiftr_div_pow2 by lia. change 255 with (Z.ones 8).
  rewrite !Z.land_ones by lia.
  change (2 ^ 16) with 65536. change (2 ^ 8) with 256.
  repeat split; Z.div_mod_to_equations; lia.
Qed.

(** *** Decoding an encoded byte array *)

Lemma list_ind3 {A} (P : list A -> Prop) :
  P [] -> (forall a, P [a]) -> (forall a b, P [a; b]) ->
  (forall a b c l, P l -> P (a :: b :: c :: l)) ->
  forall l, P l.
Proof.
  intros H0 H1 H2 H3 l.
  assert (G : P l /\ (forall a, P (a :: l)) /\ (forall a b, P (a :: b :: l))).
  { induction l as [|x l (IH1 & IH2 & IH3)]; [done|].
    split; [apply IH2 | split; [intros a; apply IH3 | intros a b; by apply H3]]. }
  apply G.
Qed.

Lemma digit_table :
  forallb (fun n => let d := Z.of_nat n in
             (lookupCode (digit d) =? d) && negb (isWhitespace (digit d))
             && negb (digit d =? 61))
          (seq 0 64) = true.
Proof. by vm_compute. Qed.

Lemma digit_facts (d : Z) :
  0 <= d < 64 ->
  lookupCode (digit d) = d /\ isWhitespace (digit d) = false /\ digit d <> 61.
Proof.
  intros Hd.
  assert (Hin : In (Z.to_nat d) (seq 0 64)) by (apply in_seq; lia).
  apply (proj1 (forallb_forall _ _) digit_table) in Hin. cbv beta zeta in Hin.
  rewrite Z2Nat.id in Hin by lia.
  apply andb_true_iff in Hin as [Hin H3]. apply andb_true_iff in Hin as [H1 H2].
  apply Z.eqb_eq in H1. apply negb_true_iff in H2. apply negb_true_iff, Z.eqb_neq in H3.
  done.
Qed.

Definition groups (bytes : list Z) : nat := (length bytes + 2) / 3.

Lemma groups_cons3 (a b c : Z) (l : list Z) : groups (a :: b :: c :: l) = S (groups l).
Proof.
  unfold groups. simpl length.
  replace (S (S (S (length l))) + 2)%nat with (1 * 3 + (length l + 2))%nat by lia.
  by rewrite Nat.div_add_l by lia.
Qed.

Lemma length_btoa (bytes : list Z) : length (btoa bytes) = (4 * groups bytes)%nat.
Proof.
  induction bytes as [| a | a b | a b c l IH] using list_ind3; try done.
  rewrite groups_cons3. cbn [btoa]. rewrite length_app, IH. simpl. lia.
Qed.

Lemma sextetAt_shift (pre s : list Z) (j : nat) :
  sextetAt (pre ++ s) (length pre + j) = sextetAt s j.
Proof. unfold sextetAt. by rewrite lookup_app_r, Nat.add_comm, Nat.add_sub by lia. Qed.

Lemma decode_loop_shift (pre s : list Z) byteLength n i output outIndex :
  decode_loop (pre ++ s) byteLength n (length pre + i) output outIndex =
  decode_loop s byteLength n i output outIndex.
Proof.
  revert i output outIndex. induction n as [|n IH]; intros i output outIndex; [done|].
  cbn [decode_loop].
  rewrite <- !Nat.add_assoc, !sextetAt_shift.
  repeat match goal with |- context [if ?c then _ else _] => destruct c end; apply IH.
Qed.

(** One iteration on a group of four characters whose values are the digits
    of the bytes [a], [b], [c]; [k] bytes of the group are wanted. *)
Lemma decode_group (c0 c1 c2 c3 : Z) (s done : list Z) (a b c : Z) (k m n : nat) :
  byte a -> byte b -> byte c ->
  quad a b c = [lookupCode c0; lookupCode c1; lookupCode c2; lookupCode c3] ->
  (1 <= k <= 3)%nat -> (k < 3 -> m = 0)%nat ->
  forall byteLength output,
  byteLength = (length done + k + m)%nat ->
  output = done ++ replicate (k + m) 0 ->
  decode_loop (c0 :: c1 :: c2 :: c3 :: s) byteLength (S n) 0 output (length done)
  = decode_loop s byteLength n 0
                ((done ++ take k [a; b; c]) ++ replicate m 0) (length done + k).
Proof.
  intros Ha Hb Hc Hq Hk Hm byteLength output -> ->.
  destruct (chunk_of_quad a b c Ha Hb Hc) as (d0 & d1 & d2 & d3 & Hq' & _ & H16 & H8 & H0).
  rewrite Hq in Hq'. injection Hq' as <- <- <- <-.
  cbn [decode_loop].
  change (sextetAt (c0 :: c1 :: c2 :: c3 :: s) 0) with (lookupCode c0).
  change (sextetAt (c0 :: c1 :: c2 :: c3 :: s) (0 + 1)) with (lookupCode c1).
  change (sextetAt (c0 :: c1 :: c2 :: c3 :: s) (0 + 2)) with (lookupCode c2).
  change (sextetAt (c0 :: c1 :: c2 :: c3 :: s) (0 + 3)) with (lookupCode c3).
  rewrite H16, H8, H0.
  change (0 + 4)%nat with (length [c0; c1; c2; c3] + 0)%nat.
  change (c0 :: c1 :: c2 :: c3 :: s) with ([c0; c1; c2; c3] ++ s).
  assert (Hins : forall j v (tl : list Z),
            <[(length done + j)%nat := v]> (done ++ tl) = done ++ <[j := v]> tl)
    by (intros; apply insert_app_r).
  assert (Hins0 : forall v (tl : list Z),
            <[length done := v]> (done ++ tl) = done ++ <[0%nat := v]> tl).
  { intros v tl. rewrite <- (Hins 0%nat). by rewrite Nat.add_0_r. }
  assert (Hins1 : forall v (tl : list Z),
            <[S (length done) := v]> (done ++ tl) = done ++ <[1%nat := v]> tl).
  { intros v tl. rewrite <- (Hins 1%nat). f_equal. lia. }
  assert (Hins2 : forall v (tl : list Z),
            <[S (S (length done)) := v]> (done ++ tl) = done ++ <[2%nat := v]> tl).
  { intros v tl. rewrite <- (Hins 2%nat). f_equal. lia. }
  assert (k = 1 /\ m = 0 \/ k = 2 /\ m = 0 \/ k = 3)%nat as [[-> ->]|[[-> ->]| ->]] by lia;
    repeat (match goal with
            | |- context [(?x <? ?y)%nat] => destruct (Nat.ltb_spec x y); try lia
            end);
    rewrite ?Hins0, ?Hins1, ?Hins2, decode_loop_shift; simpl;
    rewrite <- !app_assoc; simpl; f_equal; lia.
Qed.

Lemma decode_btoa (bytes : list Z) :
  Forall byte bytes ->
  forall done,
  decode_loop (btoa bytes) (length done + length bytes) (groups bytes) 0
              (done ++ replicate (length bytes) 0) (length done)
  = done ++ bytes.
Proof.
  induction bytes as [| a | a b | a b c l IH] using list_ind3; intros Hb done.
  - simpl. done.
  - pose proof (Forall_inv Hb) as Ha.
    destruct (chunk_of_quad a 0 0) as (d0 & d1 & d2 & d3 & Hq & (H0 & H1 & _) & _);
      [done | done | done |].
    assert (d2 = 0 /\ d3 = 0) as [-> ->].
    { unfold quad in Hq. injection Hq as _ _ E2 E3. by rewrite <- E2, <- E3. }
    cbn [btoa]. rewrite Hq. cbn [map take app]. change (groups [a]) with 1%nat.
    rewrite (decode_group _ _ _ _ [] done a 0 0 1 0 0);
      [ simpl; by rewrite app_nil_r
      | solve [ done | lia | simpl; lia
              | rewrite Hq, (proj1 (digit_facts d0 H0)), (proj1 (digit_facts d1 H1));
                reflexivity ] .. ].
  - pose proof (Forall_inv Hb) as Ha.
    pose proof (Forall_inv (Forall_inv_tail Hb)) as Hb'.
    destruct (chunk_of_quad a b 0) as (d0 & d1 & d2 & d3 & Hq & (H0 & H1 & H2 & _) & _);
      [done | done | done |].
    assert (d3 = 0) as ->.
    { unfold quad in Hq. injection Hq as _ _ _ E3. by rewrite <- E3. }
    cbn [btoa]. rewrite Hq. cbn [map take app]. change (groups [a; b]) with 1%nat.
    rewrite (decode_group _ _ _ _ [] done a b 0 2 0 0);
      [ simpl; by rewrite app_nil_r
      | solve [ done | lia | simpl; lia
              | rewrite Hq, (proj1 (digit_facts d0 H0)), (proj1 (digit_facts d1 H1)),
                  (proj1 (digit_facts d2 H2)); reflexivity ] .. ].
  - pose proof (Forall_inv Hb) as Ha.
    pose proof (Forall_inv (Forall_inv_tail Hb)) as Hb'.
    pose proof (Forall_inv (Forall_inv_tail (Forall_inv_tail Hb))) as Hc.
    pose proof (Forall_inv_tail (Forall_inv_tail (Forall_inv_tail Hb))) as Hl.
    destruct (chunk_of_quad a b c) as (d0 & d1 & d2 & d3 & Hq & (H0 & H1 & H2 & H3) & _);
      [done | done | done |].
    cbn [btoa]. rewrite Hq. cbn [map app]. rewrite groups_cons3.
    rewrite (decode_group _ _ _ _ (btoa l) done a b c 3 (length l) (groups l));
      [ | solve [ done | lia | simpl; lia
              | rewrite Hq, (proj1 (digit_facts d0 H0)), (proj1 (digit_facts d1 H1)),
                  (proj1 (digit_facts d2 H2)), (proj1 (digit_facts d3 H3));
                reflexivity ] .. ].
    cbn [take].
    replace (length done + 3)%nat with (length (done ++ [a; b; c]))
      by (rewrite length_app; simpl; lia).
    replace (length done + length (a :: b :: c :: l))%nat
      with (length (done ++ [a; b; c]) + length l)%nat
      by (rewrite length_app; simpl; lia).
    rewrite IH by done. by rewrite <- app_assoc.
Qed.

Lemma endsWith_app (pre s suffix : list Z) :
  (length suffix <= length s)%nat -> endsWith (pre ++ s) suffix = endsWith s suffix.
Proof.
  intros Hlen. unfold endsWith. rewrite length_app.
  rewrite (bool_decide_eq_true_2 (length suffix <= length pre + length s)%nat) by lia.
  rewrite (bool_decide_eq_true_2 (length suffix <= length s)%nat) by lia.
  cbn [andb]. rewrite drop_app_ge by lia.
  by replace (length pre + length s - length suffix - length pre)%nat
    with (length s - length suffix)%nat by lia.
Qed.

Lemma paddingOf_app (pre s : list Z) :
  (2 <= length s)%nat -> paddingOf (pre ++ s) = paddingOf s.
Proof.
  intros Hlen. unfold paddingOf.
  rewrite (endsWith_app pre s (codes "==")) by (change (length (codes "==")) with 2%nat; lia).
  by rewrite (endsWith_app pre s (codes "=")) by (change (length (codes "=")) with 1%nat; lia).
Qed.

Lemma btoa_nonempty (bytes : list Z) : bytes <> [] -> (4 <= length (btoa bytes))%nat.
Proof.
  intros Hne. rewrite length_btoa. unfold groups.
  destruct bytes as [|a l]; [done|]. simpl length.
  assert (1 <= (S (length l) + 2) / 3)%nat; [|lia].
  apply Nat.div_le_lower_bound; lia.
Qed.

Lemma byteLength_btoa (bytes : list Z) :
  Forall byte bytes ->
  (length (btoa bytes) / 4 * 3 - paddingOf (btoa bytes))%nat = length bytes.
Proof.
  induction bytes as [| a | a b | a b c l IH] using list_ind3; intros Hb.
  - done.
  - done.
  - pose proof (Forall_inv Hb) as Ha.
    pose proof (Forall_inv (Forall_inv_tail Hb)) as Hb'.
    destruct (chunk_of_quad a b 0) as (d0 & d1 & d2 & d3 & Hq & (H0 & H1 & H2 & _) & _);
      [done | done | done |].
    cbn [btoa]. rewrite Hq. cbn [map take app].
    unfold paddingOf, endsWith. simpl.
    rewrite (bool_decide_eq_false_2 ([digit d2; 61] = [61; 61])); [done|].
    intros [= E]. by apply (digit_facts d2 H2).
  - pose proof (Forall_inv Hb) as Ha.
    pose proof (Forall_inv (Forall_inv_tail Hb)) as Hb'.
    pose proof (Forall_inv (Forall_inv_tail (Forall_inv_tail Hb))) as Hc.
    pose proof (Forall_inv_tail (Forall_inv_tail (Forall_inv_tail Hb))) as Hl.
    destruct (chunk_of_quad a b c) as (d0 & d1 & d2 & d3 & Hq & (H0 & H1 & H2 & H3) & _);
      [done | done | done |].
    cbn [btoa]. rewrite Hq. cbn [map].
    destruct l as [|x l'].
    + cbn [btoa app]. unfold paddingOf, endsWith. simpl.
      rewrite (bool_decide_eq_false_2 ([digit d2; digit d3] = [61; 61])).
      * rewrite (bool_decide_eq_false_2 ([digit d3] = [61])); [done|].
        intros [= E]. by apply (digit_facts d3 H3).
      * intros [= _ E]. by apply (digit_facts d3 H3).
    + specialize (IH Hl).
      pose proof (btoa_nonempty (x :: l') ltac:(done)) as Hn.
      rewrite paddingOf_app by lia.
      rewrite length_app. change (length [digit d0; digit d1; digit d2; digit d3]) with 4%nat.
      replace (4 + length (btoa (x :: l')))%nat
        with (1 * 4 + length (btoa (x :: l')))%nat by lia.
      rewrite Nat.div_add_l by lia. simpl length in *. lia.
Qed.

Lemma btoa_no_whitespace (bytes : list Z) :
  Forall byte bytes -> Forall (fun c => isWhitespace c = false) (btoa bytes).
Proof.
  induction bytes as [| a | a b | a b c l IH] using list_ind3; intros Hb.
  - constructor.
  - pose proof (Forall_inv Hb) as Ha.
    destruct (chunk_of_quad a 0 0) as (d0 & d1 & d2 & d3 & Hq & (H0 & H1 & _) & _);
      [done | done | done |].
    cbn [btoa]. rewrite Hq. cbn [map take app].
    repeat constructor; by apply digit_facts.
  - pose proof (Forall_inv Hb) as Ha.
    pose proof (Forall_inv (Forall_inv_tail Hb)) as Hb'.
    destruct (chunk_of_quad a b 0) as (d0 & d1 & d2 & d3 & Hq & (H0 & H1 & H2 & _) & _);
      [done | done | done |].
    cbn [btoa]. rewrite Hq. cbn [map take app].
    repeat constructor; by apply digit_facts.
  - pose proof (Forall_inv Hb) as Ha.
    pose proof (Forall_inv (Forall_inv_tail Hb)) as Hb'.
    pose proof (Forall_inv (Forall_inv_tail (Forall_inv_tail Hb))) as Hc.
    pose proof (Forall_inv_tail (Forall_inv_tail (Forall_inv_tail Hb))) as Hl.
    destruct (chunk_of_quad a b c) as (d0 & d1 & d2 & d3 & Hq & (H0 & H1 & H2 & H3) & _);
      [done | done | done |].
    cbn [btoa]. rewrite Hq. cbn [map app].
    repeat (constructor; [by apply digit_facts|]). by apply IH.
Qed.

Lemma sanitize_btoa (bytes : list Z) : Forall byte bytes -> sanitize (btoa bytes) = btoa bytes.
Proof.
  intros Hb. pose proof (btoa_no_whitespace bytes Hb) as Hws. unfold sanitize.
  induction Hws as [|c s Hc _ IH]; [done|].
  rewrite filter_cons. destruct (decide (isWhitespace c = false)); [by rewrite IH | done].
Qed.

(** Decoding what [btoa] produced gives the bytes back. *)
Lemma rawBytes_btoa (bytes : list Z) : Forall byte bytes -> rawBytes (btoa bytes) = bytes.
Proof.
  intros Hb. unfold rawBytes. rewrite byteLength_btoa by done.
  rewrite length_btoa.
  replace ((4 * groups bytes + 3) / 4)%nat with (groups bytes).
  - apply (decode_btoa bytes Hb []).
  - rewrite (Nat.mul_comm 4), Nat.div_add_l by lia. simpl. lia.
Qed.

(** *** Packing and unpacking 2-bit moves *)

Definition move (m : Z) : Prop := 0 <= m < 4.

Lemma list_ind4 {A} (P : list A -> Prop) :
  P [] -> (forall a, P [a]) -> (forall a b, P [a; b]) -> (forall a b c, P [a; b; c]) ->
  (forall a b c d l, P l -> P (a :: b :: c :: d :: l)) ->
  forall l, P l.
Proof.
  intros H0 H1 H2 H3 H4 l.
  assert (G : P l /\ (forall a, P (a :: l)) /\ (forall a b, P (a :: b :: l))
              /\ (forall a b c, P (a :: b :: c :: l))).
  { induction l as [|x l (IH1 & IH2 & IH3 & IH4)]; [done|].
    split; [apply IH2 | split; [intros a; apply IH3 | split]].
    - intros a b. apply IH4.
    - intros a b c. by apply H4. }
  apply G.
Qed.

(** [packed[0] |= (move & 3) << (i * 2)] on the byte [B]. *)
Definition orMove (B i m : Z) : Z := (Z.lor B (Z.shiftl (Z.land m 3) (i * 2))) mod 256.

Definition byte4 (m0 m1 m2 m3 : Z) : Z :=
  orMove (orMove (orMove (orMove 0 0 m0) 1 m1) 2 m2) 3 m3.

Lemma move_cases (m : Z) : move m -> m = 0 \/ m = 1 \/ m = 2 \/ m = 3.
Proof. unfold move. lia. Qed.

Lemma byte4_value (m0 m1 m2 m3 : Z) :
  move m0 -> move m1 -> move m2 -> move m3 ->
  byte4 m0 m1 m2 m3 = m0 + 4 * m1 + 16 * m2 + 64 * m3.
Proof.
  intros H0 H1 H2 H3.
  destruct (move_cases m0 H0) as [->|[->|[->| ->]]];
  destruct (move_cases m1 H1) as [->|[->|[->| ->]]];
  destruct (move_cases m2 H2) as [->|[->|[->| ->]]];
  destruct (move_cases m3 H3) as [->|[->|[->| ->]]]; reflexivity.
Qed.

Lemma byte4_extract (m0 m1 m2 m3 : Z) :
  move m0 -> move m1 -> move m2 -> move m3 ->
  let B := byte4 m0 m1 m2 m3 in
  Z.land (Z.shiftr B 0) 3 = m0 /\ Z.land (Z.shiftr B 2) 3 = m1 /\
  Z.land (Z.shiftr B 4) 3 = m2 /\ Z.land (Z.shiftr B 6) 3 = m3.
Proof.
  intros H0 H1 H2 H3.
  destruct (move_cases m0 H0) as [->|[->|[->| ->]]];
  destruct (move_cases m1 H1) as [->|[->|[->| ->]]];
  destruct (move_cases m2 H2) as [->|[->|[->| ->]]];
  destruct (move_cases m3 H3) as [->|[->|[->| ->]]]; by vm_compute.
Qed.

Lemma byte4_partial (m0 m1 m2 : Z) :
  byte4 m0 0 0 0 = orMove 0 0 m0 /\
  byte4 m0 m1 0 0 = orMove (orMove 0 0 m0) 1 m1 /\
  byte4 m0 m1 m2 0 = orMove (orMove (orMove 0 0 m0) 1 m1) 2 m2.
Proof.
  assert (G : forall B i m, orMove (orMove B i m) 3 0 = orMove B i m
                            /\ orMove (orMove B i m) 2 0 = orMove B i m
                            /\ orMove (orMove B i m) 1 0 = orMove B i m).
  { intros B i m. unfold orMove.
    change (Z.shiftl (Z.land 0 3) (3 * 2)) with 0.
    change (Z.shiftl (Z.land 0 3) (2 * 2)) with 0.
    change (Z.shiftl (Z.land 0 3) (1 * 2)) with 0.
    rewrite Z.lor_0_r. rewrite Z.mod_mod by lia. done. }
  unfold byte4. repeat split.
  - destruct (G 0 0 m0) as (E3 & E2 & E1). by rewrite E1, E2, E3.
  - destruct (G (orMove 0 0 m0) 1 m1) as (E3 & E2 & _). by rewrite E2, E3.
  - destruct (G (orMove (orMove 0 0 m0) 1 m1) 2 m2) as (E3 & _ & _). by rewrite E3.
Qed.

Lemma packStep_head (B : Z) (tl : list Z) (i m : Z) :
  i = 0 \/ i = 1 \/ i = 2 \/ i = 3 ->
  packStep (B :: tl) i m = orMove B i m :: tl.
Proof. intros [->|[->|[->| ->]]]; reflexivity. Qed.

Lemma packStep_shift (B : Z) (packed : list Z) (index m : Z) :
  0 <= index ->
  packStep (B :: packed) (index + 4) m = B :: packStep packed index m.
Proof.
  intros Hi. unfold packStep.
  replace ((index + 4) / 4) with (index / 4 + 1) by (Z.div_mod_to_equations; lia).
  replace ((index + 4) mod 4) with (index mod 4) by (Z.div_mod_to_equations; lia).
  assert (0 <= index / 4) by (Z.div_mod_to_equations; lia).
  set (k := index / 4) in *.
  assert (Hload : Js.load (B :: packed) (k + 1) = Js.load packed k).
  { unfold Js.load, Js.get. zcases; try lia.
    replace (Z.to_nat (k + 1)) with (S (Z.to_nat k)) by lia. done. }
  rewrite Hload. unfold Js.store. zcases; try lia.
  replace (Z.to_nat (k + 1)) with (S (Z.to_nat k)) by lia. done.
Qed.

Lemma packLoop_shift (moves : list Z) (B : Z) (packed : list Z) (index : Z) :
  0 <= index ->
  packLoop moves (index + 4) (B :: packed) = B :: packLoop moves index packed.
Proof.
  revert index packed. induction moves as [|m moves IH]; intros index packed Hi; [done|].
  cbn [packLoop]. rewrite packStep_shift by done.
  replace (index + 4 + 1) with (index + 1 + 4) by lia. apply IH. lia.
Qed.

Lemma packMoves_cons4 (m0 m1 m2 m3 : Z) (rest : list Z) :
  packMoves (m0 :: m1 :: m2 :: m3 :: rest) = byte4 m0 m1 m2 m3 :: packMoves rest.
Proof.
  unfold packMoves. simpl length.
  replace ((S (S (S (S (length rest)))) + 3) / 4)%nat with (S ((length rest + 3) / 4)).
  - cbn [replicate packLoop].
    rewrite !packStep_head by lia.
    change (0 + 1 + 1 + 1 + 1) with (0 + 4). by rewrite packLoop_shift.
  - replace (S (S (S (S (length rest)))) + 3)%nat with (1 * 4 + (length rest + 3))%nat by lia.
    by rewrite Nat.div_add_l by lia.
Qed.

Lemma packMoves_partial (m0 m1 m2 : Z) :
  packMoves [m0] = [byte4 m0 0 0 0] /\
  packMoves [m0; m1] = [byte4 m0 m1 0 0] /\
  packMoves [m0; m1; m2] = [byte4 m0 m1 m2 0].
Proof.
  destruct (byte4_partial m0 m1 m2) as (-> & -> & ->).
  unfold packMoves. cbn [length Nat.add]. repeat split.
Qed.

(** The four moves of a byte, as the legacy loop reads them. *)
Lemma unpackByte_take (B L : Z) (acc : list Z) :
  Z.of_nat (length acc) <= L ->
  Moves.unpackByte B L acc =
  acc ++ take (Z.to_nat (L - Z.of_nat (length acc)))
           [Z.land (Z.shiftr B 0) 3; Z.land (Z.shiftr B 2) 3;
            Z.land (Z.shiftr B 4) 3; Z.land (Z.shiftr B 6) 3].
Proof.
  intros Hlen. unfold Moves.unpackByte. cbn [fold_left].
  assert (Hk : L - Z.of_nat (length acc) = 0 \/ L - Z.of_nat (length acc) = 1 \/
               L - Z.of_nat (length acc) = 2 \/ L - Z.of_nat (length acc) = 3 \/
               4 <= L - Z.of_nat (length acc)) by lia.
  destruct Hk as [Hk|[Hk|[Hk|[Hk|Hk]]]];
    repeat (match goal with
            | |- context [Z.of_nat (length ?l) <? L] =>
                destruct (Z.ltb_spec (Z.of_nat (length l)) L);
                [| try (repeat rewrite length_app in *; simpl in *; lia)];
                try (repeat rewrite length_app in *; simpl in *; lia)
            end).
  all: try (rewrite Hk; simpl; by rewrite <- ?app_assoc, ?app_nil_r).
  rewrite take_ge by (simpl; lia). by rewrite <- !app_assoc.
Qed.

Lemma unpack_pack (moves : list Z) :
  Forall move moves ->
  forall acc,
  Moves.unpackMoves (packMoves moves) (Z.of_nat (length acc) + Z.of_nat (length moves)) acc
  = acc ++ moves.
Proof.
  induction moves as [| m0 | m0 m1 | m0 m1 m2 | m0 m1 m2 m3 rest IH] using list_ind4;
    intros Hm acc.
  - simpl. by rewrite app_nil_r.
  - pose proof (Forall_inv Hm) as H0.
    destruct (packMoves_partial m0 0 0) as (-> & _ & _). cbn [Moves.unpackMoves].
    destruct (Z.ltb_spec (Z.of_nat (length acc))
                (Z.of_nat (length acc) + Z.of_nat (length [m0]))); [|simpl in *; lia].
    rewrite unpackByte_take by lia.
    destruct (byte4_extract m0 0 0 0) as (-> & _); try done.
    replace (Z.to_nat _) with 1%nat by (simpl; lia). done.
  - pose proof (Forall_inv Hm) as H0.
    pose proof (Forall_inv (Forall_inv_tail Hm)) as H1.
    destruct (packMoves_partial m0 m1 0) as (_ & -> & _). cbn [Moves.unpackMoves].
    destruct (Z.ltb_spec (Z.of_nat (length acc))
                (Z.of_nat (length acc) + Z.of_nat (length [m0; m1]))); [|simpl in *; lia].
    rewrite unpackByte_take by lia.
    destruct (byte4_extract m0 m1 0 0) as (-> & -> & _); try done.
    replace (Z.to_nat _) with 2%nat by (simpl; lia). done.
  - pose proof (Forall_inv Hm) as H0.
    pose proof (Forall_inv (Forall_inv_tail Hm)) as H1.
    pose proof (Forall_inv (Forall_inv_tail (Forall_inv_tail Hm))) as H2.
    destruct (packMoves_partial m0 m1 m2) as (_ & _ & ->). cbn [Moves.unpackMoves].
    destruct (Z.ltb_spec (Z.of_nat (length acc))
                (Z.of_nat (length acc) + Z.of_nat (length [m0; m1; m2])));
      [|simpl in *; lia].
    rewrite unpackByte_take by lia.
    destruct (byte4_extract m0 m1 m2 0) as (-> & -> & -> & _); try done.
    replace (Z.to_nat _) with 3%nat by (simpl; lia). done.
  - pose proof (Forall_inv Hm) as H0.
    pose proof (Forall_inv (Forall_inv_tail Hm)) as H1.
    pose proof (Forall_inv (Forall_inv_tail (Forall_inv_tail Hm))) as H2.
    pose proof (Forall_inv (Forall_inv_tail (Forall_inv_tail (Forall_inv_tail Hm)))) as H3.
    pose proof (Forall_inv_tail (Forall_inv_tail (Forall_inv_tail (Forall_inv_tail Hm))))
      as Hrest.
    rewrite packMoves_cons4. cbn [Moves.unpackMoves].
    destruct (Z.ltb_spec (Z.of_nat (length acc))
                (Z.of_nat (length acc) + Z.of_nat (length (m0 :: m1 :: m2 :: m3 :: rest))));
      [|simpl in *; lia].
    rewrite unpackByte_take by lia.
    destruct (byte4_extract m0 m1 m2 m3) as (-> & -> & -> & ->); try done.
    rewrite take_ge by (simpl; lia).
    replace (Z.of_nat (length acc) + Z.of_nat (length (m0 :: m1 :: m2 :: m3 :: rest)))
      with (Z.of_nat (length (acc ++ [m0; m1; m2; m3])) + Z.of_nat (length rest))
      by (rewrite length_app; simpl; lia).
    rewrite IH by done. by rewrite <- app_assoc.
Qed.

(** *** Reference paths *)

(** The cell reached from [c] by move [m]. *)
Definition stepTo (c : Coord) (m : Z) : Coord :=
  if m =? 0 then (fst c, snd c - 1)
  else if m =? 1 then (fst c + 1, snd c)
  else if m =? 2 then (fst c, snd c + 1)
  else (fst c - 1, snd c).

(** [moves] leads from [prev] through the cells of [rest]. *)
Fixpoint stepsAlong (prev : Coord) (rest : list Coord) (moves : list Z) : Prop :=
  match rest, moves with
  | [], [] => True
  | current :: rest', m :: moves' =>
      move m /\ current = stepTo prev m /\ stepsAlong current rest' moves'
  | _, _ => False
  end.

(** Two cells one unit step apart. *)
Definition unitStep (a b : Coord) : Prop :=
  Z.abs (fst b - fst a) + Z.abs (snd b - snd a) = 1.

Fixpoint consecutive (prev : Coord) (rest : list Coord) : Prop :=
  match rest with
  | [] => True
  | current :: rest' => unitStep prev current /\ consecutive current rest'
  end.

(** A reference solution path: grid coordinates (no negative component),
    starting at (0,0), consecutive cells one unit step apart, no cell twice. *)
Definition referencePath (path : list Coord) : Prop :=
  exists rest, path = (0, 0) :: rest /\
    consecutive (0, 0) rest /\
    NoDup path /\
    Forall (fun c => 0 <= fst c /\ 0 <= snd c) path.

Lemma movesFrom_steps (rest : list Coord) :
  forall prev acc, consecutive prev rest ->
  exists moves, movesFrom prev rest acc = Ok (acc ++ moves) /\
                stepsAlong prev rest moves /\ length moves = length rest.
Proof.
  induction rest as [|[x y] rest IH]; intros [px py] acc Hc.
  - exists []. by rewrite app_nil_r.
  - destruct Hc as [Hu Hc]. unfold unitStep in Hu. cbn [fst snd] in Hu.
    assert (Hcases : (x - px = 0 /\ y - py = -1) \/ (x - px = 1 /\ y - py = 0) \/
                     (x - px = 0 /\ y - py = 1) \/ (x - px = -1 /\ y - py = 0)) by lia.
    assert (Hstep : forall m, move m -> (x, y) = stepTo (px, py) m ->
              movesFrom (x, y) rest (acc ++ [m]) = movesFrom (px, py) ((x, y) :: rest) acc ->
              exists moves, movesFrom (px, py) ((x, y) :: rest) acc = Ok (acc ++ moves) /\
                stepsAlong (px, py) ((x, y) :: rest) moves /\
                length moves = length ((x, y) :: rest)).
    { intros m Hm Hxy Heq.
      destruct (IH (x, y) (acc ++ [m]) Hc) as (ms & Hms & Hs & Hl). exists (m :: ms).
      rewrite <- Heq, Hms, <- app_assoc.
      split; [done|]. split; [by cbn [stepsAlong] | simpl; by rewrite Hl]. }
    destruct Hcases as [[E1 E2]|[[E1 E2]|[[E1 E2]|[E1 E2]]]].
    + apply (Hstep 0); [unfold move; lia | unfold stepTo; cbn; f_equal; lia |].
      cbn [movesFrom fst snd]. by rewrite E1, E2.
    + apply (Hstep 1); [unfold move; lia | unfold stepTo; cbn; f_equal; lia |].
      cbn [movesFrom fst snd]. by rewrite E1, E2.
    + apply (Hstep 2); [unfold move; lia | unfold stepTo; cbn; f_equal; lia |].
      cbn [movesFrom fst snd]. by rewrite E1, E2.
    + apply (Hstep 3); [unfold move; lia | unfold stepTo; cbn; f_equal; lia |].
      cbn [movesFrom fst snd]. by rewrite E1, E2.
Qed.

Lemma stepsAlong_moves prev rest moves : stepsAlong prev rest moves -> Forall move moves.
Proof.
  revert prev moves. induction rest as [|c rest IH]; intros prev [|m moves] Hs;
    try done.
  destruct Hs as (Hm & _ & Hs). constructor; [done | by eapply IH].
Qed.

(** The first move of a reference path is East or South. *)
Lemma first_move (path : list Coord) (m : Z) (moves : list Z) :
  referencePath path -> movesFromPathCoords path = Ok (m :: moves) -> m = 1 \/ m = 2.
Proof.
  intros (rest & -> & Hc & _ & Hpos) Hmoves. cbn [movesFromPathCoords] in Hmoves.
  destruct (movesFrom_steps rest (0, 0) [] Hc) as (ms & Hms & Hs & _).
  rewrite Hms in Hmoves. injection Hmoves as ->.
  destruct rest as [|c rest]; [done|]. destruct Hs as (Hm & -> & _).
  apply Forall_inv_tail, Forall_inv in Hpos. revert Hpos. unfold stepTo, move in *.
  zcases; cbn; lia.
Qed.

(** A reference path never takes the moves East-South-North, South-South-North
    or East-West in a row: each revisits a cell. *)
Lemma no_backtrack (path : list Coord) (m0 m1 m2 : Z) (moves : list Z) :
  referencePath path -> movesFromPathCoords path = Ok (m0 :: m1 :: m2 :: moves) ->
  ~ ((m0 = 1 /\ m1 = 2 /\ m2 = 0) \/ (m0 = 2 /\ m1 = 2 /\ m2 = 0) \/ (m0 = 1 /\ m1 = 3)).
Proof.
  intros (rest & -> & Hc & Hnd & _) Hmoves Hbad. cbn [movesFromPathCoords] in Hmoves.
  destruct (movesFrom_steps rest (0, 0) [] Hc) as (ms & Hms & Hs & _).
  rewrite Hms in Hmoves. injection Hmoves as ->.
  destruct rest as [|c1 [|c2 [|c3 rest]]]; try (cbn in Hs; tauto).
  destruct Hs as (_ & -> & _ & -> & _ & -> & _).
  destruct Hbad as [(-> & -> & ->)|[(-> & -> & ->)|(-> & ->)]]; cbn in Hnd.
  - apply NoDup_cons_1_2, NoDup_cons_1_1 in Hnd. apply Hnd.
    apply list_elem_of_In. right. left. f_equal; lia.
  - apply NoDup_cons_1_2, NoDup_cons_1_1 in Hnd. apply Hnd.
    apply list_elem_of_In. right. left. f_equal; lia.
  - apply NoDup_cons_1_1 in Hnd. apply Hnd.
    apply list_elem_of_In. right. left. f_equal; lia.
Qed.

(** *** What the packed bytes cannot be mistaken for *)

(** The first byte of a zlib stream (RFC 1950: compression method 8 in the
    low nibble) or of a gzip stream (RFC 1952: magic byte 0x1f), the two
    formats that [pako.inflate] detects. *)
Definition zlibHeader (bytes : list Z) : Prop :=
  match bytes with
  | b :: _ => b mod 16 = 8 \/ b = 31
  | [] => False
  end.

Definition jsonWhitespace (c : Z) : Prop := c = 32 \/ c = 9 \/ c = 10 \/ c = 13.

(** The text of a JSON array: optional white space, then ['[']; the text
    decoder may first strip a UTF-8 byte order mark. *)
Definition jsonArrayText (bytes : list Z) : Prop :=
  exists ws rest, Forall jsonWhitespace ws /\
    (bytes = ws ++ 91 :: rest \/ bytes = 239 :: 187 :: 191 :: ws ++ 91 :: rest).

Lemma packMoves_head (m0 : Z) (ms : list Z) :
  Forall move (m0 :: ms) ->
  exists B restB, packMoves (m0 :: ms) = B :: restB /\ B mod 4 = m0 /\
    (restB <> [] -> exists m1 m2 m3 ms',
        ms = m1 :: m2 :: m3 :: ms' /\ B = m0 + 4 * m1 + 16 * m2 + 64 * m3).
Proof.
  intros Hm. pose proof (Forall_inv Hm) as H0. apply Forall_inv_tail in Hm.
  assert (move 0) as Hz by (unfold move; lia).
  destruct ms as [|m1 [|m2 [|m3 ms']]].
  - destruct (packMoves_partial m0 0 0) as (-> & _ & _). eexists _, _.
    split; [done|]. rewrite byte4_value by done.
    split; [unfold move in *; Z.div_mod_to_equations; lia | done].
  - pose proof (Forall_inv Hm) as H1.
    destruct (packMoves_partial m0 m1 0) as (_ & -> & _). eexists _, _.
    split; [done|]. rewrite byte4_value by done.
    split; [unfold move in *; Z.div_mod_to_equations; lia | done].
  - pose proof (Forall_inv Hm) as H1. pose proof (Forall_inv (Forall_inv_tail Hm)) as H2.
    destruct (packMoves_partial m0 m1 m2) as (_ & _ & ->). eexists _, _.
    split; [done|]. rewrite byte4_value by done.
    split; [unfold move in *; Z.div_mod_to_equations; lia | done].
  - pose proof (Forall_inv Hm) as H1. pose proof (Forall_inv (Forall_inv_tail Hm)) as H2.
    pose proof (Forall_inv (Forall_inv_tail (Forall_inv_tail Hm))) as H3.
    rewrite packMoves_cons4. eexists _, _. split; [done|].
    rewrite byte4_value by done.
    split; [unfold move in *; Z.div_mod_to_equations; lia|].
    intros _. by eexists _, _, _, _.
Qed.

Lemma packMoves_bytes (moves : list Z) : Forall move moves -> Forall byte (packMoves moves).
Proof.
  induction moves as [| m0 | m0 m1 | m0 m1 m2 | m0 m1 m2 m3 rest IH] using list_ind4;
    intros Hm; assert (move 0) as Hz by (unfold move; lia).
  - constructor.
  - pose proof (Forall_inv Hm) as H0.
    destruct (packMoves_partial m0 0 0) as (-> & _ & _).
    repeat constructor; rewrite byte4_value by done; unfold move in *; lia.
  - pose proof (Forall_inv Hm) as H0. pose proof (Forall_inv (Forall_inv_tail Hm)) as H1.
    destruct (packMoves_partial m0 m1 0) as (_ & -> & _).
    repeat constructor; rewrite byte4_value by done; unfold move in *; lia.
  - pose proof (Forall_inv Hm) as H0. pose proof (Forall_inv (Forall_inv_tail Hm)) as H1.
    pose proof (Forall_inv (Forall_inv_tail (Forall_inv_tail Hm))) as H2.
    destruct (packMoves_partial m0 m1 m2) as (_ & _ & ->).
    repeat constructor; rewrite byte4_value by done; unfold move in *; lia.
  - pose proof (Forall_inv Hm) as H0. pose proof (Forall_inv (Forall_inv_tail Hm)) as H1.
    pose proof (Forall_inv (Forall_inv_tail (Forall_inv_tail Hm))) as H2.
    pose proof (Forall_inv (Forall_inv_tail (Forall_inv_tail (Forall_inv_tail Hm)))) as H3.
    rewrite packMoves_cons4. constructor.
    + rewrite byte4_value by done. unfold byte, move in *. lia.
    + apply IH. by do 4 apply Forall_inv_tail in Hm.
Qed.

Lemma packed_path_plain (path : list Coord) (m0 : Z) (ms : list Z) :
  referencePath path -> movesFromPathCoords path = Ok (m0 :: ms) ->
  ~ zlibHeader (packMoves (m0 :: ms)) /\ ~ jsonArrayText (packMoves (m0 :: ms)).
Proof.
  intros Hpath Hmoves.
  assert (Hmv : Forall move (m0 :: ms)).
  { destruct Hpath as (rest & -> & Hc & _). cbn [movesFromPathCoords] in Hmoves.
    destruct (movesFrom_steps rest (0, 0) [] Hc) as (ms' & Hms & Hs & _).
    rewrite Hms in Hmoves. injection Hmoves as <-. by eapply stepsAlong_moves. }
  pose proof (first_move path m0 ms Hpath Hmoves) as Hfirst.
  destruct (packMoves_head m0 ms Hmv) as (B & restB & -> & HB & Hrest).
  split.
  - cbn [zlibHeader]. intros [Hz|Hz]; [Z.div_mod_to_equations; lia | subst B].
    change (31 mod 4) with 3 in HB. lia.
  - intros (ws & rest & Hws & [E|E]).
    + destruct ws as [|w ws].
      * injection E as -> _. change (91 mod 4) with 3 in HB. lia.
      * injection E as -> ->.
        destruct Hrest as (m1 & m2 & m3 & ms' & -> & HBv); [by destruct ws|].
        pose proof (Forall_inv (Forall_inv_tail Hmv)) as H1.
        pose proof (Forall_inv (Forall_inv_tail (Forall_inv_tail Hmv))) as H2.
        pose proof (Forall_inv (Forall_inv_tail (Forall_inv_tail (Forall_inv_tail Hmv)))) as H3.
        apply (no_backtrack path m0 m1 m2 (m3 :: ms') Hpath Hmoves).
        pose proof (Forall_inv Hws) as Hw. unfold jsonWhitespace, move in *. lia.
    + injection E as -> _. change (239 mod 4) with 3 in HB. lia.
Qed.

(** *** The round trip *)

Section Roundtrip.
Variable pako : Pako.
Variable parse : Payload.Parser.

(** [pako.inflate] only succeeds with output on a stream that starts with a
    zlib or gzip header. *)
Hypothesis inflate_needs_header :
  forall inflate bytes b out,
    pako = Some inflate -> inflate bytes = Some (b :: out) -> zlibHeader bytes.

(** [JSON.parse] only yields a non-empty array on the text of an array. *)
Hypothesis array_needs_bracket :
  forall bytes item items,
    parse bytes = Some (JArr (item :: items)) -> jsonArrayText bytes.

Lemma decodeBase64_plain (bytes : list Z) :
  Forall byte bytes -> ~ zlibHeader bytes ->
  decodeBase64ToUint8Array pako (btoa bytes) = Ok bytes.
Proof.
  intros Hb Hz. unfold decodeBase64ToUint8Array. rewrite sanitize_btoa by done.
  rewrite length_btoa. replace ((4 * groups bytes) mod 4)%nat with 0%nat
    by (rewrite Nat.mul_comm, Nat.Div0.mod_mul; done).
  cbn [Nat.eqb negb]. rewrite rawBytes_btoa by done.
  destruct (bool_decide _); [|done].
  destruct pako as [inflate|] eqn:Hp; [|done].
  destruct (inflate bytes) as [[|b out]|] eqn:Hi; try done.
  exfalso. by eapply Hz, inflate_needs_header.
Qed.

Lemma tryParse_plain (bytes : list Z) :
  Forall byte bytes -> ~ zlibHeader bytes -> ~ jsonArrayText bytes ->
  forall item items,
  Payload.tryParseBase64ZlibJson pako parse (btoa bytes) <> Some (JArr (item :: items)).
Proof.
  intros Hb Hz Hj item items. unfold Payload.tryParseBase64ZlibJson.
  rewrite decodeBase64_plain by done.
  destruct pako as [inflate|] eqn:Hp; [|done].
  destruct (inflate bytes) as [[|b out]|] eqn:Hi; try done.
  - exfalso. by eapply Hz, inflate_needs_header.
  - intros Hparse. by eapply Hj, array_needs_bracket.
Qed.

(** C5. For a reference path (grid coordinates from (0,0), unit steps, no
    cell twice) [movesFromPathCoords] returns the move sequence of the path:
    one move for each cell after the first, each leading from a cell of the
    path to the next. These moves, packed by [packMovesBase64] and decoded by
    [decodeMoves] with [maxLength] equal to the path length minus one, are
    the original moves. *)
Theorem packed_path_round_trip (path : list Coord) :
  referencePath path ->
  exists moves,
    movesFromPathCoords path = Ok moves /\
    length moves = (length path - 1)%nat /\
    stepsAlong (0, 0) (tail path) moves /\
    Moves.decodeMoves pako parse (packMovesBase64 moves) (Z.of_nat (length path) - 1)
    = Returns moves.
Proof.
  intros Hpath. pose proof Hpath as (rest & -> & Hc & _).
  destruct (movesFrom_steps rest (0, 0) [] Hc) as (moves & Hms & Hs & Hl).
  exists moves. split; [done|].
  split; [cbn [length]; lia|]. split; [done|].
  assert (Hmv : Forall move moves) by (by eapply stepsAlong_moves).
  assert (HL : Z.of_nat (length ((0, 0) :: rest)) - 1 =
               Z.of_nat (length (@nil Z)) + Z.of_nat (length moves)).
  { rewrite Hl. simpl length. lia. }
  rewrite HL. unfold Moves.decodeMoves, packMovesBase64, bytesToBase64.
  destruct moves as [|m0 ms].
  - change (Payload.tryParseBase64ZlibJson pako parse [])
      with (Payload.tryParseBase64ZlibJson pako parse (btoa [])).
    change (decodeBase64ToUint8Array pako []) with (decodeBase64ToUint8Array pako (btoa [])).
    assert (Hnz : ~ zlibHeader []) by (by intros []).
    assert (Hnj : ~ jsonArrayText []).
    { intros (ws & r & _ & [E|E]); [by destruct ws | done]. }
    pose proof (tryParse_plain [] ltac:(constructor) Hnz Hnj) as Hnp.
    rewrite decodeBase64_plain by (done || constructor).
    destruct (Payload.tryParseBase64ZlibJson pako parse (btoa []))
      as [[| | | | [|item items] |]|]; try done.
    by destruct (Hnp item items).
  - destruct (packed_path_plain _ m0 ms Hpath Hms) as [Hnz Hnj].
    pose proof (packMoves_bytes (m0 :: ms) Hmv) as Hb.
    pose proof (tryParse_plain _ Hb Hnz Hnj) as Hnp.
    rewrite decodeBase64_plain by done.
    rewrite (unpack_pack (m0 :: ms) Hmv []).
    destruct (Payload.tryParseBase64ZlibJson pako parse (btoa (packMoves (m0 :: ms))))
      as [[| | | | [|item items] |]|]; try done.
    by destruct (Hnp item items).
Qed.

End Roundtrip.

Lemma packed_path_round_trip_witness :
  exists moves,
    movesFromPathCoords [(0, 0); (1, 0); (1, 1); (2, 1); (2, 0); (3, 0)] = Ok moves /\
    length moves = 5%nat /\
    stepsAlong (0, 0) [(1, 0); (1, 1); (2, 1); (2, 0); (3, 0)] moves /\
    Moves.decodeMoves (Some (fun _ => None)) (fun _ => None) (packMovesBase64 moves) 5
    = Returns moves.
Proof.
  apply (packed_path_round_trip (Some (fun _ => None)) (fun _ => None)
           ltac:(intros ? ? ? ? [= <-]; discriminate) ltac:(discriminate)
           [(0, 0); (1, 0); (1, 1); (2, 1); (2, 0); (3, 0)]).
  exists [(1, 0); (1, 1); (2, 1); (2, 0); (3, 0)]. split; [reflexivity|].
  split; [cbn; unfold unitStep; cbn; lia|].
  split; [apply NoDup_ListNoDup; repeat constructor; cbn; intuition discriminate|].
  repeat constructor; cbn; lia.
Defined.

End RoundTrip.

(** ** Undirected graphs given by edge lists *)

Module Graph.

Section Graphs.
Context {V : Type} `{EqDecision V}.

(** Two vertices joined by an edge of the list, in either orientation. *)
Definition linked (Es : list (V * V)) (a b : V) : Prop := (a, b) ∈ Es \/ (b, a) ∈ Es.

(** Consecutive vertices of a list are related. *)
Fixpoint chained (R : V -> V -> Prop) (l : list V) : Prop :=
  match l with
  | a :: ((b :: _) as l') => R a b /\ chained R l'
  | _ => True
  end.

(** A simple cycle: at least three distinct vertices, each related to the
    next and the last to the first. *)
Definition cycle (R : V -> V -> Prop) (c : list V) : Prop :=
  (3 <= length c)%nat /\ NoDup c /\
  match c with
  | v :: _ => chained R (c ++ [v])
  | [] => False
  end.

Definition acyclic (R : V -> V -> Prop) : Prop := forall c, ~ cycle R c.

(** Every vertex of the list is reachable from every other. *)
Definition connected (R : V -> V -> Prop) (Vs : list V) : Prop :=
  forall a b, a ∈ Vs -> b ∈ Vs -> rtc R a b.

(** Trees grown from a root by attaching leaves, up to the order of the
    lists and the orientation of the edges. *)
Inductive Tree : list V -> list (V * V) -> Prop :=
| Tree_root (r : V) : Tree [r] []
| Tree_leaf (Vs : list V) (Es : list (V * V)) (p c : V) :
    Tree Vs Es -> p ∈ Vs -> c ∉ Vs -> Tree (c :: Vs) ((p, c) :: Es)
| Tree_flip (Vs : list V) (Es : list (V * V)) (a b : V) :
    Tree Vs ((a, b) :: Es) -> Tree Vs ((b, a) :: Es)
| Tree_perm (Vs Vs' : list V) (Es Es' : list (V * V)) :
    Tree Vs Es -> Vs ≡ₚ Vs' -> Es ≡ₚ Es' -> Tree Vs' Es'.

(** The pairs of consecutive elements of a list. *)
Fixpoint pairs (l : list V) : list (V * V) :=
  match l with
  | a :: ((b :: _) as l') => (a, b) :: pairs l'
  | _ => []
  end.

(** *** Basic facts *)

Lemma linked_sym Es a b : linked Es a b -> linked Es b a.
Proof. unfold linked. tauto. Qed.

Lemma linked_cons Es e a b :
  linked (e :: Es) a b <-> e = (a, b) \/ e = (b, a) \/ linked Es a b.
Proof. unfold linked. rewrite !elem_of_cons. intuition congruence. Qed.

Lemma linked_perm Es Es' a b : Es ≡ₚ Es' -> linked Es a b <-> linked Es' a b.
Proof. intros HP. unfold linked. by rewrite HP. Qed.

Lemma linked_flip Es x y a b : linked ((x, y) :: Es) a b <-> linked ((y, x) :: Es) a b.
Proof. rewrite !linked_cons. intuition congruence. Qed.

Lemma chained_impl (R R' : V -> V -> Prop) l :
  (forall a b, R a b -> R' a b) -> chained R l -> chained R' l.
Proof.
  intros HR. induction l as [|a [|b l] IH]; try done.
  intros [Hab Hl]. split; [by apply HR | by apply IH].
Qed.

Lemma chained_app R (l1 l2 : list V) (x : V) :
  chained R (l1 ++ x :: l2) <-> chained R (l1 ++ [x]) /\ chained R (x :: l2).
Proof.
  induction l1 as [|a [|b l1] IH]; simpl in *.
  - tauto.
  - tauto.
  - rewrite IH. tauto.
Qed.

Lemma rtc_impl (R R' : V -> V -> Prop) a b :
  (forall x y, R x y -> R' x y) -> rtc R a b -> rtc R' a b.
Proof. intros HR. induction 1; [done | econstructor; eauto]. Qed.

Lemma rtc_sym (R : V -> V -> Prop) a b :
  (forall x y, R x y -> R y x) -> rtc R a b -> rtc R b a.
Proof.
  intros HR. induction 1 as [|x y z Hxy _ IH]; [done|].
  eapply rtc_r; [exact IH | by apply HR].
Qed.

(** *** Trees *)

Lemma Tree_NoDup Vs Es : Tree Vs Es -> NoDup Vs.
Proof.
  induction 1 as [r|Vs Es p c _ IH Hp Hc|Vs Es a b _ IH|Vs Vs' Es Es' _ IH HV HE].
  - apply NoDup_singleton.
  - by constructor.
  - done.
  - by rewrite <- HV.
Qed.

Lemma Tree_length Vs Es : Tree Vs Es -> length Vs = S (length Es).
Proof.
  induction 1 as [r|Vs Es p c _ IH Hp Hc|Vs Es a b _ IH|Vs Vs' Es Es' _ IH HV HE].
  - done.
  - simpl. by rewrite IH.
  - done.
  - by rewrite <- HV, <- HE.
Qed.

Lemma Tree_nonempty Vs Es : Tree Vs Es -> Vs <> [].
Proof. intros HT E. apply Tree_length in HT. by rewrite E in HT. Qed.

Lemma Tree_edge Vs Es a b : Tree Vs Es -> linked Es a b -> a ∈ Vs /\ b ∈ Vs /\ a <> b.
Proof.
  intros HT. revert a b.
  induction HT as [r|Vs Es p c _ IH Hp Hc|Vs Es x y _ IH|Vs Vs' Es Es' _ IH HV HE];
    intros a b Hl.
  - destruct Hl as [Hl|Hl]; by apply elem_of_nil in Hl.
  - apply linked_cons in Hl as [[= -> ->]|[[= -> ->]|Hl]].
    + repeat split; [by right | by left | congruence].
    + repeat split; [by left | by right | congruence].
    + destruct (IH a b Hl) as (? & ? & ?). repeat split; [by right | by right | done].
  - apply IH. by apply linked_flip.
  - destruct (IH a b) as (? & ? & ?); [by eapply linked_perm|].
    by rewrite <- HV.
Qed.

Lemma Tree_connected Vs Es : Tree Vs Es -> connected (linked Es) Vs.
Proof.
  induction 1 as [r|Vs Es p c _ IH Hp Hc|Vs Es x y _ IH|Vs Vs' Es Es' _ IH HV HE].
  - intros a b Ha Hb. apply list_elem_of_singleton in Ha, Hb. by subst.
  - assert (Hmono : forall a b, rtc (linked Es) a b -> rtc (linked ((p, c) :: Es)) a b).
    { intros a b. apply rtc_impl. intros x y Hxy. apply linked_cons. tauto. }
    assert (Hpc : linked ((p, c) :: Es) p c) by (apply linked_cons; tauto).
    assert (Hcx : forall b, b ∈ Vs -> rtc (linked ((p, c) :: Es)) c b).
    { intros b Hb. eapply rtc_l; [by apply linked_sym | by apply Hmono, IH]. }
    intros a b Ha Hb. apply elem_of_cons in Ha as [->|Ha], Hb as [->|Hb].
    + done.
    + by apply Hcx.
    + apply (rtc_sym (linked _)); [apply linked_sym | by apply Hcx].
    + by apply Hmono, IH.
  - intros a b Ha Hb. eapply rtc_impl; [|by apply IH].
    intros u v. by apply linked_flip.
  - intros a b Ha Hb. eapply rtc_impl; [|apply IH; by rewrite HV].
    intros u v. by apply linked_perm.
Qed.

(** *** Acyclicity *)

Lemma chained_impl_in (R R' : V -> V -> Prop) l :
  (forall a b, a ∈ l -> b ∈ l -> R a b -> R' a b) -> chained R l -> chained R' l.
Proof.
  induction l as [|a [|b l] IH]; try done.
  intros HR [Hab Hl]. split.
  - apply HR; [by left | right; by left | done].
  - apply IH; [|done]. intros x y Hx Hy. apply HR; by right.
Qed.

(** A cycle can be turned so that any of its vertices comes first. *)
Lemma cycle_rotate (R : V -> V -> Prop) c a :
  cycle R c -> a ∈ c -> exists l, cycle R (a :: l).
Proof.
  intros (Hlen & Hnd & Hch) Ha.
  apply list_elem_of_split in Ha as (l1 & l2 & ->).
  exists (l2 ++ l1). split; [|split].
  - rewrite length_app in Hlen. simpl in *. rewrite length_app. lia.
  - assert (HP : a :: l2 ++ l1 ≡ₚ l1 ++ a :: l2)
      by (rewrite <- Permutation_middle; by rewrite (Permutation_app_comm l1)).
    by rewrite HP.
  - destruct l1 as [|v l1]; simpl in *.
    + by rewrite app_nil_r.
    + rewrite <- app_assoc in Hch. simpl in Hch.
      change (chained R ((v :: l1) ++ a :: (l2 ++ [v]))) in Hch.
      apply chained_app in Hch as [H1 H2].
      rewrite <- app_assoc. simpl.
      change (chained R ((a :: l2) ++ v :: (l1 ++ [a]))).
      apply chained_app. split; done.
Qed.

(** In a cycle that starts at [a], two distinct vertices are related to
    [a]: its successor and the last vertex. *)
Lemma cycle_two_neighbours (R : V -> V -> Prop) a l :
  cycle R (a :: l) -> exists x y, x <> y /\ R a x /\ R y a.
Proof.
  intros (Hlen & Hnd & Hch).
  destruct l as [|x l]; [simpl in Hlen; lia|].
  destruct (exists_last (l := l)) as (l' & y & ->) ; [intros ->; simpl in Hlen; lia|].
  exists x, y. split; [|split].
  - apply NoDup_cons in Hnd as [_ Hnd]. apply NoDup_cons in Hnd as [Hx _].
    intros ->. apply Hx. apply elem_of_app. right. by left.
  - by destruct Hch as [Hax _].
  - replace ((a :: x :: l' ++ [y]) ++ [a]) with ((a :: x :: l') ++ y :: [a]) in Hch
      by (simpl; by rewrite <- app_assoc).
    apply chained_app in Hch as [_ [Hya _]]. done.
Qed.

Lemma acyclic_impl (R R' : V -> V -> Prop) :
  (forall a b, R' a b -> R a b) -> acyclic R -> acyclic R'.
Proof.
  intros HR Hac c (Hlen & Hnd & Hch). apply (Hac c). split; [done | split; [done|]].
  destruct c as [|v c]; [done|]. by eapply chained_impl.
Qed.

Lemma Tree_acyclic Vs Es : Tree Vs Es -> acyclic (linked Es).
Proof.
  induction 1 as [r|Vs Es p c HT IH Hp Hc|Vs Es x y _ IH|Vs Vs' Es Es' _ IH HV HE].
  - intros [|a [|b l]] (Hlen & _ & Hch); simpl in *; try lia.
    destruct Hch as [[Hl|Hl] _]; by apply elem_of_nil in Hl.
  - intros cyc Hcyc. destruct (decide (c ∈ cyc)) as [Hin|Hnin].
    + destruct (cycle_rotate _ _ _ Hcyc Hin) as (l & Hrot).
      destruct (cycle_two_neighbours _ _ _ Hrot) as (u & v & Huv & Hcu & Hvc).
      assert (Honly : forall z, linked ((p, c) :: Es) c z -> z = p).
      { intros z Hz. apply linked_cons in Hz as [Hz|[Hz|Hz]].
        - by simplify_eq.
        - by simplify_eq.
        - destruct (Tree_edge _ _ _ _ HT Hz) as (Hcv & _). done. }
      apply Huv. rewrite (Honly u Hcu). symmetry. by apply Honly, linked_sym.
    + apply (IH cyc). destruct Hcyc as (Hlen & Hnd & Hch). split; [done | split; [done|]].
      destruct cyc as [|v cyc]; [done|].
      eapply chained_impl_in; [|exact Hch].
      intros a b Ha Hb Hab.
      assert (Hac : a <> c).
      { intros ->. apply Hnin. apply elem_of_app in Ha as [Ha|Ha]; [done|].
        apply list_elem_of_singleton in Ha as ->. by left. }
      assert (Hbc : b <> c).
      { intros ->. apply Hnin. apply elem_of_app in Hb as [Hb|Hb]; [done|].
        apply list_elem_of_singleton in Hb as ->. by left. }
      apply linked_cons in Hab as [Hab|[Hab|Hab]]; [by simplify_eq | by simplify_eq | done].
  - eapply acyclic_impl; [|exact IH]. intros a b. by apply linked_flip.
  - eapply acyclic_impl; [|exact IH]. intros a b. by apply linked_perm.
Qed.

(** *** Edges of a tree are counted once *)

Definition simple (Es : list (V * V)) : Prop :=
  NoDup Es /\ forall a b, (a, b) ∈ Es -> (b, a) ∉ Es.

Lemma Tree_simple Vs Es : Tree Vs Es -> simple Es.
Proof.
  induction 1 as [r|Vs Es p c HT IH Hp Hc|Vs Es x y HT IH|Vs Vs' Es Es' _ IH HV HE].
  - split; [constructor | intros a b Hab; by apply elem_of_nil in Hab].
  - destruct IH as [Hnd Hanti].
    assert (Hfresh : forall z, linked Es c z -> False).
    { intros z Hz. by destruct (Tree_edge _ _ _ _ HT Hz) as (? & _). }
    split.
    + constructor; [|done]. intros Hin. apply (Hfresh p). by right.
    + intros a b Hab Hba. apply elem_of_cons in Hab as [Hab|Hab], Hba as [Hba|Hba].
      * injection Hab as -> ->. injection Hba as -> _. done.
      * injection Hab as -> ->. apply (Hfresh p). by left.
      * injection Hba as -> ->. apply (Hfresh p). by left.
      * by apply (Hanti a b).
  - destruct IH as [Hnd Hanti].
    assert (Hxy : x <> y).
    { assert (linked ((x, y) :: Es) x y) as Hl by (left; by left).
      by destruct (Tree_edge _ _ _ _ HT Hl) as (_ & _ & ?). }
    apply NoDup_cons in Hnd as [Hnin Hnd].
    split.
    + constructor; [|done]. intros Hin. apply (Hanti y x); [by right | by left].
    + intros a b Hab Hba. apply elem_of_cons in Hab as [Hab|Hab], Hba as [Hba|Hba].
      * injection Hab as -> ->. by injection Hba as ->.
      * injection Hab as -> ->. done.
      * injection Hba as -> ->. done.
      * apply (Hanti a b); by right.
  - destruct IH as [Hnd Hanti]. split; [by rewrite <- HE|].
    intros a b. rewrite <- !HE. apply Hanti.
Qed.

(** *** Attaching paths *)

Lemma pairs_app (l1 l2 : list V) (x : V) :
  pairs (l1 ++ x :: l2) = pairs (l1 ++ [x]) ++ pairs (x :: l2).
Proof.
  induction l1 as [|a [|b l1] IH]; simpl in *; try done.
  by rewrite IH.
Qed.

Lemma pairs_snoc (l : list V) (x y : V) :
  pairs (l ++ [x; y]) = pairs (l ++ [x]) ++ [(x, y)].
Proof. by rewrite (pairs_app l [y] x). Qed.

(** A path of new vertices that ends at a vertex of the tree. *)
Lemma Tree_attach_path Vs Es (l : list V) (p : V) :
  Tree Vs Es -> p ∈ Vs -> NoDup l -> (forall x, x ∈ l -> x ∉ Vs) ->
  Tree (l ++ Vs) (pairs (l ++ [p]) ++ Es).
Proof.
  intros HT Hp. induction l as [|a l IH]; intros Hnd Hdis; [done|].
  apply NoDup_cons in Hnd as [Ha Hnd].
  assert (IH' : Tree (l ++ Vs) (pairs (l ++ [p]) ++ Es)).
  { apply IH; [done|]. intros x Hx. apply Hdis. by right. }
  assert (Hfresh : a ∉ l ++ Vs).
  { rewrite elem_of_app. intros [?|?]; [done|]. by apply (Hdis a); [left|]. }
  destruct l as [|b l]; simpl in *.
  - apply Tree_flip. by apply Tree_leaf.
  - apply Tree_flip. apply Tree_leaf; [done | by left | done].
Qed.

(** A path of new vertices that starts at a vertex of the tree. *)
Lemma Tree_attach_chain (l : list V) :
  forall Vs Es (p : V),
  Tree Vs Es -> p ∈ Vs -> NoDup l -> (forall x, x ∈ l -> x ∉ Vs) ->
  Tree (l ++ Vs) (pairs (p :: l) ++ Es).
Proof.
  induction l as [|a l IH]; intros Vs Es p HT Hp Hnd Hdis; [done|].
  apply NoDup_cons in Hnd as [Ha Hnd].
  assert (Ha' : a ∉ Vs) by (apply Hdis; by left).
  pose proof (Tree_leaf _ _ p a HT Hp Ha') as HT1.
  assert (HT2 : Tree (l ++ a :: Vs) (pairs (a :: l) ++ (p, a) :: Es)).
  { apply IH; [done | by left | done |].
    intros x Hx. rewrite elem_of_cons. intros [->|?]; [done|].
    by apply (Hdis x); [right|]. }
  eapply Tree_perm; [exact HT2| |].
  - by rewrite <- Permutation_middle.
  - change (pairs (p :: a :: l)) with ((p, a) :: pairs (a :: l)).
    by rewrite <- Permutation_middle.
Qed.

(** A run of new vertices, one of which is joined to a vertex of the
    tree. *)
Lemma Tree_attach_run Vs Es (l1 l2 : list V) (r n : V) :
  Tree Vs Es -> n ∈ Vs -> NoDup (l1 ++ r :: l2) ->
  (forall x, x ∈ l1 ++ r :: l2 -> x ∉ Vs) ->
  Tree ((l1 ++ r :: l2) ++ Vs) ((r, n) :: pairs (l1 ++ r :: l2) ++ Es).
Proof.
  intros HT Hn Hnd Hdis.
  assert (Hr : r ∉ Vs) by (apply Hdis, elem_of_app; right; by left).
  pose proof (Tree_flip _ _ _ _ (Tree_leaf _ _ n r HT Hn Hr)) as HT1.
  apply NoDup_app in Hnd as (Hnd1 & Hd12 & Hnd2).
  apply NoDup_cons in Hnd2 as [Hr2 Hnd2].
  assert (HT2 : Tree (l1 ++ r :: Vs) (pairs (l1 ++ [r]) ++ (r, n) :: Es)).
  { apply Tree_attach_path; [done | by left | done |].
    intros x Hx. rewrite elem_of_cons. intros [->|Hv].
    - apply (Hd12 r Hx). by left.
    - apply (Hdis x); [|done]. apply elem_of_app. by left. }
  assert (HT3 : Tree (l2 ++ l1 ++ r :: Vs)
                     (pairs (r :: l2) ++ pairs (l1 ++ [r]) ++ (r, n) :: Es)).
  { apply Tree_attach_chain; [done | | done |].
    - apply elem_of_app. right. by left.
    - intros x Hx. rewrite elem_of_app, elem_of_cons. intros [H1|[->|Hv]].
      + apply (Hd12 x H1). by right.
      + done.
      + apply (Hdis x); [|done]. apply elem_of_app. right. by right. }
  eapply Tree_perm; [exact HT3 | solve_Permutation |].
  rewrite (pairs_app l1 l2 r). solve_Permutation.
Qed.

End Graphs.
End Graph.

(** ** Maze generation ([app.js]) *)

Module Generator.

(** *** Cells and the grid *)

Inductive Dir : Type := DirN | DirE | DirS | DirW.

(** [this.directions], in the order N, E, S, W. *)
Definition directions : list Dir := [DirN; DirE; DirS; DirW].

Definition dx (d : Dir) : Z :=
  match d with DirE => 1 | DirW => -1 | _ => 0 end.

Definition dy (d : Dir) : Z :=
  match d with DirS => 1 | DirN => -1 | _ => 0 end.

Definition opposite (d : Dir) : Dir :=
  match d with DirN => DirS | DirE => DirW | DirS => DirN | DirW => DirE end.

#[global] Instance Dir_eq_dec : EqDecision Dir.
Proof. solve_decision. Defined.

Record Walls : Type := {
  wallN : bool;
  wallE : bool;
  wallS : bool;
  wallW : bool
}.

Definition wallOf (w : Walls) (d : Dir) : bool :=
  match d with DirN => wallN w | DirE => wallE w | DirS => wallS w | DirW => wallW w end.

(** [walls[key] = false]. *)
Definition removeWall (w : Walls) (d : Dir) : Walls :=
  match d with
  | DirN => {| wallN := false; wallE := wallE w; wallS := wallS w; wallW := wallW w |}
  | DirE => {| wallN := wallN w; wallE := false; wallS := wallS w; wallW := wallW w |}
  | DirS => {| wallN := wallN w; wallE := wallE w; wallS := false; wallW := wallW w |}
  | DirW => {| wallN := wallN w; wallE := wallE w; wallS := wallS w; wallW := false |}
  end.

(** The fields of a [MazeCell] that generation reads or writes. The position
    of a cell is its place in the grid; the solver's fields are left out. *)
Record MazeCell : Type := {
  walls : Walls;
  generated : bool;
  order : Z
}.

Definition newCell : MazeCell :=
  {| walls := {| wallN := true; wallE := true; wallS := true; wallW := true |};
     generated := false;
     order := -1 |}.

(** A reference to a cell object of the grid, given by its coordinates
    [(x, y)]: the cell objects are shared between the grid, the stacks and
    the lists of the algorithms, and are always read through the grid. *)
Abbreviation Cell := (Z * Z)%type.

(** The visualizer state that generation uses; [seed] counts the calls of
    [Math.random] made so far. The display fields ([activeCell],
    [frontierCells]) and [renderStep] have no effect on the maze. *)
Record Visualizer : Type := {
  gridWidth : Z;
  gridHeight : Z;
  grid : list (list MazeCell);
  maxOrder : Z;
  seed : nat
}.

Definition resetGrid (width height : Z) (seed0 : nat) : Visualizer :=
  {| gridWidth := width;
     gridHeight := height;
     grid := replicate (Z.to_nat height) (replicate (Z.to_nat width) newCell);
     maxOrder := 1;
     seed := seed0 |}.

Definition start (st : Visualizer) : Cell := (0, 0).
Definition goal (st : Visualizer) : Cell := (gridWidth st - 1, gridHeight st - 1).

Definition getCell (st : Visualizer) (x y : Z) : option Cell :=
  if (x <? 0) || (y <? 0) || (x >=? gridWidth st) || (y >=? gridHeight st)
  then None else Some (x, y).

(** The cell object behind a reference. *)
Definition cellOf (st : Visualizer) (c : Cell) : MazeCell :=
  default newCell (grid st !! Z.to_nat (snd c) ≫= fun row => row !! Z.to_nat (fst c)).

(** A field update on the cell object behind a reference. *)
Definition updateCell (st : Visualizer) (c : Cell) (f : MazeCell -> MazeCell) : Visualizer :=
  {| gridWidth := gridWidth st;
     gridHeight := gridHeight st;
     grid := alter (alter f (Z.to_nat (fst c))) (Z.to_nat (snd c)) (grid st);
     maxOrder := maxOrder st;
     seed := seed st |}.

Definition isGenerated (st : Visualizer) (c : Cell) : bool := generated (cellOf st c).
Definition hasWall (st : Visualizer) (c : Cell) (d : Dir) : bool := wallOf (walls (cellOf st c)) d.

Definition neighbors (st : Visualizer) (cell : Cell) : list (Cell * Dir) :=
  omap (fun dir =>
          match getCell st (fst cell + dx dir) (snd cell + dy dir) with
          | Some neighbor => Some (neighbor, dir)
          | None => None
          end) directions.

Definition setGenerated (st : Visualizer) (c : Cell) (ord : Z) : Visualizer :=
  updateCell st c (fun cell => {| walls := walls cell; generated := true; order := ord |}).

Definition markGenerated (st : Visualizer) (cell : Cell) : Visualizer :=
  if isGenerated st cell then st
  else
    let st := setGenerated st cell (maxOrder st) in
    {| gridWidth := gridWidth st; gridHeight := gridHeight st; grid := grid st;
       maxOrder := maxOrder st + 1; seed := seed st |}.

Definition openWall (st : Visualizer) (c : Cell) (d : Dir) : Visualizer :=
  updateCell st c (fun cell =>
    {| walls := removeWall (walls cell) d; generated := generated cell; order := order cell |}).

Definition carvePassage (st : Visualizer) (cell neighbor : Cell) : Visualizer :=
  let dx := fst neighbor - fst cell in
  let dy := snd neighbor - snd cell in
  if (dx =? 1) && (dy =? 0) then openWall (openWall st cell DirE) neighbor DirW
  else if (dx =? -1) && (dy =? 0) then openWall (openWall st cell DirW) neighbor DirE
  else if (dy =? 1) && (dx =? 0) then openWall (openWall st cell DirS) neighbor DirN
  else if (dy =? -1) && (dx =? 0) then openWall (openWall st cell DirN) neighbor DirS
  else st.

(** *** The carved passage graph *)

(** The neighbour position in a direction. *)
Definition step (c : Cell) (d : Dir) : Cell := (fst c + dx d, snd c + dy d).

Definition inGrid (st : Visualizer) (c : Cell) : Prop :=
  0 <= fst c < gridWidth st /\ 0 <= snd c < gridHeight st.

(** The wall shared by the adjacent cells [a] and [b] has been removed: both
    of its flags are cleared. *)
Definition passage (st : Visualizer) (a b : Cell) : Prop :=
  inGrid st a /\ inGrid st b /\
  exists d, b = step a d /\ hasWall st a d = false /\ hasWall st b (opposite d) = false.

Definition insideb (st : Visualizer) (c : Cell) : bool :=
  (0 <=? fst c) && (fst c <? gridWidth st) && (0 <=? snd c) && (snd c <? gridHeight st).

Definition openTo (st : Visualizer) (c : Cell) (d : Dir) : bool :=
  insideb st (step c d) && negb (hasWall st c d)
  && negb (hasWall st (step c d) (opposite d)).

(** The cells in row-major order. *)
Definition rowMajor (width height : Z) : list Cell :=
  flat_map (fun y => map (fun x => (Z.of_nat x, Z.of_nat y)) (seq 0 (Z.to_nat width)))
           (seq 0 (Z.to_nat height)).

(** The carved passages, each listed once: from a cell to its East or South
    neighbour. *)
Definition carvedPassages (st : Visualizer) : list (Cell * Cell) :=
  flat_map (fun c =>
              (if openTo st c DirE then [(c, step c DirE)] else [])
              ++ (if openTo st c DirS then [(c, step c DirS)] else []))
           (rowMajor (gridWidth st) (gridHeight st)).

(** The carved passage graph is a spanning tree of the grid. *)
Definition spanningTree (st : Visualizer) : Prop :=
  Z.of_nat (length (carvedPassages st)) = gridWidth st * gridHeight st - 1 /\
  (forall a b, inGrid st a -> inGrid st b -> rtc (passage st) a b) /\
  Graph.acyclic (passage st).

(** *** Random choices *)

(** The outcome of a loop that is run with a bound on its iterations, or of
    code that may throw. *)
Inductive Run (A : Type) : Type :=
| Done (a : A)
| Crash
| OutOfFuel.
Arguments Done {A} a.
Arguments Crash {A}.
Arguments OutOfFuel {A}.

Section Algorithms.

(** The sequence of random choices: the [k]-th call of [Math.random] returns
    the fraction [(rnd k mod 2^53) / 2^53] of the unit interval. *)
Variable rnd : nat -> Z.

Definition resolution : Z := 2 ^ 53.

Definition random (st : Visualizer) : Z * Visualizer :=
  (rnd (seed st) mod resolution,
   {| gridWidth := gridWidth st; gridHeight := gridHeight st; grid := grid st;
      maxOrder := maxOrder st; seed := S (seed st) |}).

(** The binary64 product of the sample [u / 2^53] and the integer [n], in
    units of [2^-53]: the exact product [u * n] rounded to 53 significant
    bits, to nearest with ties to even. *)
Definition product (u n : Z) : Z :=
  let exact := u * n in
  let shift := Z.log2 exact - 52 in
  if shift <=? 0 then exact
  else
    let kept := exact / 2 ^ shift in
    let rest := exact mod 2 ^ shift in
    let half := 2 ^ (shift - 1) in
    let kept := if (half <? rest) || ((rest =? half) && Z.odd kept)
                then kept + 1 else kept in
    kept * 2 ^ shift.

(** [Math.floor(u * n)] for a sample [u]. *)
Definition scale (u : Z) (n : Z) : Z := product u n / resolution.

Example scale_rounds : scale 6004799503160661 3 = 2 /\ scale 3002399751580330 3 = 0.
Proof. by vm_compute. Qed.

(** [u < num / den]. *)
Definition below (u num den : Z) : bool := u * den <? num * resolution.

(** [randomItem(items)]: [None] is the [undefined] read from an empty
    array. *)
Definition randomItem {A} (items : list A) (st : Visualizer) : option A * Visualizer :=
  let '(u, st) := random st in
  (items !! Z.to_nat (scale u (Z.of_nat (length items))), st).

Definition randomCell (st : Visualizer) : option Cell * Visualizer :=
  let '(u, st) := random st in
  let x := scale u (gridWidth st) in
  let '(u, st) := random st in
  let y := scale u (gridHeight st) in
  (getCell st x y, st).

(** The neighbours that are not generated yet. *)
Definition unvisited (st : Visualizer) (cell : Cell) : list (Cell * Dir) :=
  filter (fun n => isGenerated st (fst n) = false) (neighbors st cell).

(** *** Recursive backtracker *)

(** The [while] loop; the head of [stack] is its top. *)
Fixpoint backtrack (fuel : nat) (stack : list Cell) (st : Visualizer) : Run Visualizer :=
  match fuel with
  | O => OutOfFuel
  | S fuel =>
      match stack with
      | [] => Done st
      | current :: rest =>
          match unvisited st current with
          | [] => backtrack fuel rest st
          | neighbors =>
              match randomItem neighbors st with
              | (Some (nextCell, _), st) =>
                  let st := carvePassage st current nextCell in
                  let st := markGenerated st nextCell in
                  backtrack fuel (nextCell :: stack) st
              | (None, _) => Crash
              end
          end
      end
  end.

Definition recursiveBacktracker (fuel : nat) (st : Visualizer) : Run Visualizer :=
  match getCell st (fst (start st)) (snd (start st)) with
  | None => Crash
  | Some startCell =>
      let st := setGenerated st startCell 0 in
      let st := {| gridWidth := gridWidth st; gridHeight := gridHeight st;
                   grid := grid st; maxOrder := 1; seed := seed st |} in
      backtrack fuel [startCell] st
  end.

(** *** Growing tree *)

Fixpoint grow (fuel : nat) (cellList : list Cell) (st : Visualizer) : Run Visualizer :=
  match fuel with
  | O => OutOfFuel
  | S fuel =>
      match cellList with
      | [] => Done st
      | _ =>
          let '(u, st) := random st in
          let '(index, st) :=
            if below u 3 4 then ((length cellList - 1)%nat, st)
            else let '(u, st) := random st in
                 (Z.to_nat (scale u (Z.of_nat (length cellList))), st) in
          match cellList !! index with
          | None => Crash
          | Some current =>
              match unvisited st current with
              | [] => grow fuel (delete index cellList) st
              | neighbors =>
                  let eastPreferred := filter (fun n => snd n = DirE) neighbors in
                  let neighbors :=
                    match eastPreferred with [] => neighbors | _ => eastPreferred end in
                  match randomItem neighbors st with
                  | (Some (nextCell, _), st) =>
                      let st := carvePassage st current nextCell in
                      let st := markGenerated st nextCell in
                      grow fuel (cellList ++ [nextCell]) st
                  | (None, _) => Crash
                  end
              end
          end
      end
  end.

Definition startAtRandom (st : Visualizer) : option Cell * Visualizer :=
  match randomCell st with
  | (Some startCell, st) =>
      let st := setGenerated st startCell 0 in
      (Some startCell,
       {| gridWidth := gridWidth st; gridHeight := gridHeight st;
          grid := grid st; maxOrder := 1; seed := seed st |})
  | (None, st) => (None, st)
  end.

Definition growingTreeRightWall (fuel : nat) (st : Visualizer) : Run Visualizer :=
  match startAtRandom st with
  | (Some startCell, st) => grow fuel [startCell] st
  | (None, _) => Crash
  end.

(** *** Hunt and kill *)

(** The hunt: the first cell, in row-major order, that is not generated and
    has a generated neighbour is connected to one of them. *)
Fixpoint hunt (cells : list Cell) (st : Visualizer) : Run (option (Cell * Visualizer)) :=
  match cells with
  | [] => Done None
  | cell :: cells =>
      if isGenerated st cell then hunt cells st
      else
        match filter (fun n => isGenerated st (fst n) = true) (neighbors st cell) with
        | [] => hunt cells st
        | visitedNeighbors =>
            match randomItem visitedNeighbors st with
            | (Some (visitedNeighbor, _), st) =>
                let st := carvePassage st cell visitedNeighbor in
                let st := markGenerated st cell in
                Done (Some (cell, st))
            | (None, _) => Crash
            end
        end
  end.

Fixpoint huntLoop (fuel : nat) (current : Cell) (st : Visualizer) : Run Visualizer :=
  match fuel with
  | O => OutOfFuel
  | S fuel =>
      match unvisited st current with
      | [] =>
          match hunt (rowMajor (gridWidth st) (gridHeight st)) st with
          | Done (Some (cell, st)) => huntLoop fuel cell st
          | Done None => Done st
          | Crash => Crash
          | OutOfFuel => OutOfFuel
          end
      | neighbors =>
          match randomItem neighbors st with
          | (Some (nextCell, _), st) =>
              let st := carvePassage st current nextCell in
              let st := markGenerated st nextCell in
              huntLoop fuel nextCell st
          | (None, _) => Crash
          end
      end
  end.

Definition huntAndKill (fuel : nat) (st : Visualizer) : Run Visualizer :=
  match startAtRandom st with
  | (Some current, st) => huntLoop fuel current st
  | (None, _) => Crash
  end.

(** *** Sidewinder *)

(** The first row: one run from West to East. *)
Definition firstRowStep (st : Visualizer) (x : Z) : Visualizer :=
  match getCell st x 0, getCell st (x - 1) 0 with
  | Some cell, Some west =>
      let st := markGenerated st cell in
      carvePassage st west cell
  | _, _ => st
  end.

(** One cell of a later row: [run] is the run so far. *)
Definition runStep (y : Z) (eastward : bool) (acc : Run (list Cell * Visualizer)) (x : Z)
  : Run (list Cell * Visualizer) :=
  match acc with
  | Done (run, st) =>
      match getCell st x y with
      | None => Done (run, st)
      | Some cell =>
          let step := if eastward then 1 else -1 in
          let st := markGenerated st cell in
          let run := run ++ [cell] in
          let atBoundary :=
            (eastward && (x =? gridWidth st - 1)) || (negb eastward && (x =? 0)) in
          let '(shouldCloseOut, st) :=
            if atBoundary then (true, st)
            else let '(u, st) := random st in (below u 33 100, st) in
          if negb shouldCloseOut then
            match getCell st (x + step) y with
            | Some neighbor => Done (run, carvePassage st cell neighbor)
            | None => Done (run, st)
            end
          else
            match randomItem run st with
            | (Some runCell, st) =>
                match getCell st (fst runCell) (y - 1) with
                | Some northNeighbor => Done ([], carvePassage st runCell northNeighbor)
                | None => Done ([], st)
                end
            | (None, _) => Crash
            end
      end
  | Crash => Crash
  | OutOfFuel => OutOfFuel
  end.

(** The values of [x] in a row, in the direction of the run. *)
Definition travel (width : Z) (eastward : bool) : list Z :=
  let xs := map Z.of_nat (seq 0 (Z.to_nat width)) in
  if eastward then xs else rev xs.

Definition rowStep (acc : Run Visualizer) (y : Z) : Run Visualizer :=
  match acc with
  | Done st =>
      let eastward := y mod 2 =? 0 in
      match fold_left (runStep y eastward) (travel (gridWidth st) eastward) (Done ([], st)) with
      | Done (_, st) => Done st
      | Crash => Crash
      | OutOfFuel => OutOfFuel
      end
  | other => other
  end.

Definition sidewinderBidirectional (st : Visualizer) : Run Visualizer :=
  match getCell st 0 0 with
  | None => Done st
  | Some first =>
      let st := markGenerated st first in
      let st := fold_left firstRowStep
                  (map Z.of_nat (seq 1 (Z.to_nat (gridWidth st) - 1))) st in
      fold_left rowStep (map Z.of_nat (seq 1 (Z.to_nat (gridHeight st) - 1))) (Done st)
  end.

(** *** Wilson's algorithm *)

(** The random walk: [visitedInWalk] maps the cells of [path] to their
    index. A cell key ["x,y"] is modelled by the pair [(x, y)]. *)
Fixpoint walk (fuel : nat) (current : Cell) (path : list Cell)
    (visitedInWalk : gmap Cell nat) (st : Visualizer) : Run (list Cell * Visualizer) :=
  match fuel with
  | O => OutOfFuel
  | S fuel =>
      if isGenerated st current then Done (path, st)
      else
        match randomItem (neighbors st current) st with
        | (Some (nextCell, _), st) =>
            match visitedInWalk !! nextCell with
            | Some idx =>
                walk fuel nextCell (take (S idx) path)
                     (filter (fun kv => (snd kv <= idx)%nat) visitedInWalk) st
            | None =>
                let path := path ++ [nextCell] in
                walk fuel nextCell path
                     (<[nextCell := (length path - 1)%nat]> visitedInWalk) st
            end
        | (None, _) => Crash
        end
  end.

(** [allUnvisited.delete(key)]. *)
Definition deleteKey (allUnvisited : list Cell) (c : Cell) : list Cell :=
  filter (fun k => k <> c) allUnvisited.

(** The loop that carves the walk into the maze. *)
Fixpoint commit (path : list Cell) (allUnvisited : list Cell) (st : Visualizer)
  : list Cell * Visualizer :=
  match path with
  | cell :: ((nextCell :: _) as rest) =>
      let st := carvePassage st cell nextCell in
      let st := markGenerated st nextCell in
      commit rest (deleteKey allUnvisited nextCell) st
  | _ => (allUnvisited, st)
  end.

Fixpoint wilsonsLoop (fuel : nat) (allUnvisited : list Cell) (st : Visualizer)
  : Run Visualizer :=
  match fuel with
  | O => OutOfFuel
  | S fuel =>
      match allUnvisited with
      | [] => Done st
      | _ =>
          match randomItem allUnvisited st with
          | (Some (sx, sy), st) =>
              match getCell st sx sy with
              | None => Crash
              | Some current =>
                  match walk fuel current [current] {[ current := 0%nat ]} st with
                  | Done (path, st) =>
                      match path with
                      | [] => Crash
                      | first :: _ =>
                          let st := markGenerated st first in
                          let allUnvisited := deleteKey allUnvisited first in
                          let '(allUnvisited, st) := commit path allUnvisited st in
                          wilsonsLoop fuel allUnvisited st
                      end
                  | Crash => Crash
                  | OutOfFuel => OutOfFuel
                  end
              end
          | (None, _) => Crash
          end
      end
  end.

Definition wilsons (fuel : nat) (st : Visualizer) : Run Visualizer :=
  let allUnvisited := rowMajor (gridWidth st) (gridHeight st) in
  match randomCell st with
  | (None, st) => Done st
  | (Some root, st) =>
      let st := markGenerated st root in
      let allUnvisited := deleteKey allUnvisited root in
      wilsonsLoop fuel allUnvisited st
  end.

End Algorithms.

End Generator.

(** ** The generators carve spanning trees *)

Module GeneratorFacts.
Import Graph Generator.

(** *** The grid as a store of cells *)

(** The grid has [gridHeight] rows of [gridWidth] cells. *)
Definition wf (st : Visualizer) : Prop :=
  length (grid st) = Z.to_nat (gridHeight st) /\
  Forall (fun row => length row = Z.to_nat (gridWidth st)) (grid st).

(** Two states with the same grid contents and size. *)
Definition sameGrid (st st' : Visualizer) : Prop :=
  gridWidth st' = gridWidth st /\ gridHeight st' = gridHeight st /\ grid st' = grid st.

Lemma wf_resetGrid width height seed0 : wf (resetGrid width height seed0).
Proof.
  split; simpl.
  - apply length_replicate.
  - apply Forall_forall. intros row Hrow.
    apply elem_of_replicate in Hrow as [-> _]. apply length_replicate.
Qed.

Lemma cellOf_updateCell st c f c' :
  wf st -> inGrid st c -> 0 <= fst c' -> 0 <= snd c' ->
  cellOf (updateCell st c f) c' = if decide (c' = c) then f (cellOf st c) else cellOf st c'.
Proof.
  intros [Hrows Hcols] [Hx Hy] Hx' Hy'. destruct c as [x y], c' as [x' y']. simpl in *.
  unfold cellOf, updateCell. simpl.
  rewrite list_lookup_alter.
  destruct (decide (Z.to_nat y = Z.to_nat y')) as [Ey|Ey].
  - assert (y' = y) as -> by lia.
    destruct (grid st !! Z.to_nat y) as [row|] eqn:Hrow.
    + simpl. rewrite list_lookup_alter.
      destruct (decide (Z.to_nat x = Z.to_nat x')) as [Ex|Ex].
      * assert (x' = x) as -> by lia. rewrite decide_True by done.
        destruct (row !! Z.to_nat x) as [cell|] eqn:Hcell; [done|].
        apply lookup_ge_None in Hcell.
        rewrite Forall_forall in Hcols.
        assert (length row = Z.to_nat (gridWidth st)).
        { apply Hcols. by eapply list_elem_of_lookup_2. }
        lia.
      * rewrite decide_False; [done|]. intros Heq. apply Ex. congruence.
    + apply lookup_ge_None in Hrow. lia.
  - rewrite decide_False; [done|]. intros Heq. apply Ey. congruence.
Qed.

Lemma wf_updateCell st c f : wf st -> wf (updateCell st c f).
Proof.
  intros [Hrows Hcols]. split; simpl.
  - by rewrite length_alter.
  - rewrite Forall_forall in *. intros row Hrow.
    apply list_elem_of_lookup in Hrow as [i Hi].
    rewrite list_lookup_alter in Hi. destruct (decide _) as [Ei|Ei].
    + rewrite Ei in Hi. destruct (grid st !! i) as [row'|] eqn:Hrow'; [|done].
      injection Hi as <-. rewrite length_alter. apply Hcols.
      by eapply list_elem_of_lookup_2.
    + apply Hcols. by eapply list_elem_of_lookup_2.
Qed.

Lemma inGrid_nonneg st c : inGrid st c -> 0 <= fst c /\ 0 <= snd c.
Proof. unfold inGrid. lia. Qed.

(** *** What the primitives change *)

Section Effects.
Variable st : Visualizer.
Hypothesis Hwf : wf st.

Lemma openWall_spec c d :
  inGrid st c ->
  let st' := openWall st c d in
  wf st' /\ gridWidth st' = gridWidth st /\ gridHeight st' = gridHeight st /\
  seed st' = seed st /\
  (forall c', inGrid st c' -> isGenerated st' c' = isGenerated st c') /\
  (forall c' d', inGrid st c' ->
     hasWall st' c' d' = hasWall st c' d' && negb (bool_decide (c' = c /\ d' = d))).
Proof.
  intros Hc st'. split; [by apply wf_updateCell|]. do 3 (split; [done|]). split.
  - intros c' Hc'. unfold isGenerated, st', openWall.
    rewrite cellOf_updateCell by (done || apply inGrid_nonneg in Hc'; tauto).
    by destruct (decide _) as [->|].
  - intros c' d' Hc'. unfold hasWall, st', openWall.
    rewrite cellOf_updateCell by (done || apply inGrid_nonneg in Hc'; tauto).
    destruct (decide (c' = c)) as [->|Hne].
    + simpl. destruct (decide (d' = d)) as [->|Hd].
      * rewrite bool_decide_eq_true_2 by done. rewrite andb_false_r. by destruct d.
      * rewrite bool_decide_eq_false_2 by tauto. rewrite andb_true_r.
        by destruct d, d'.
    + rewrite bool_decide_eq_false_2 by tauto. by rewrite andb_true_r.
Qed.

Lemma setGenerated_spec c ord :
  inGrid st c ->
  let st' := setGenerated st c ord in
  wf st' /\ gridWidth st' = gridWidth st /\ gridHeight st' = gridHeight st /\
  seed st' = seed st /\
  (forall c', inGrid st c' -> isGenerated st' c' = isGenerated st c' || bool_decide (c' = c)) /\
  (forall c' d', inGrid st c' -> hasWall st' c' d' = hasWall st c' d').
Proof.
  intros Hc st'. split; [by apply wf_updateCell|]. do 3 (split; [done|]). split.
  - intros c' Hc'. unfold isGenerated, st', setGenerated.
    rewrite cellOf_updateCell by (done || apply inGrid_nonneg in Hc'; tauto).
    destruct (decide (c' = c)) as [->|Hne].
    + rewrite bool_decide_eq_true_2 by done. by rewrite orb_true_r.
    + rewrite bool_decide_eq_false_2 by done. by rewrite orb_false_r.
  - intros c' d' Hc'. unfold hasWall, st', setGenerated.
    rewrite cellOf_updateCell by (done || apply inGrid_nonneg in Hc'; tauto).
    by destruct (decide _) as [->|].
Qed.

Lemma markGenerated_spec c :
  inGrid st c ->
  let st' := markGenerated st c in
  wf st' /\ gridWidth st' = gridWidth st /\ gridHeight st' = gridHeight st /\
  seed st' = seed st /\
  (forall c', inGrid st c' -> isGenerated st' c' = isGenerated st c' || bool_decide (c' = c)) /\
  (forall c' d', inGrid st c' -> hasWall st' c' d' = hasWall st c' d').
Proof.
  intros Hc st'. unfold st', markGenerated.
  destruct (isGenerated st c) eqn:Hg.
  - do 4 (split; [done|]). split; [|done].
    intros c' Hc'. destruct (decide (c' = c)) as [->|Hne].
    + by rewrite Hg.
    + rewrite bool_decide_eq_false_2 by done. by rewrite orb_false_r.
  - destruct (setGenerated_spec c (maxOrder st) Hc) as (H1 & H2 & H3 & H4 & H5 & H6).
    split; [exact H1|]. done.
Qed.

End Effects.

(** *** Directions *)

Lemma step_inj a d d' : step a d = step a d' -> d = d'.
Proof.
  destruct a as [x y], d, d'; unfold step; simpl; intros Heq; try done;
    injection Heq; intros; lia.
Qed.

Lemma step_back a d d' : step (step a d) d' = a <-> d' = opposite d.
Proof.
  destruct a as [x y]. split.
  - destruct d, d'; unfold step; simpl; intros Heq; try done;
      injection Heq; intros; lia.
  - intros ->. destruct d; unfold step; simpl; f_equal; lia.
Qed.

Lemma step_ne a d : step a d <> a.
Proof. destruct a as [x y], d; unfold step; simpl; intros Heq; injection Heq; intros; lia. Qed.

Lemma opposite_involutive d : opposite (opposite d) = d.
Proof. by destruct d. Qed.

Lemma carvePassage_step st a d :
  carvePassage st a (step a d) = openWall (openWall st a d) (step a d) (opposite d).
Proof.
  destruct a as [x y]. unfold carvePassage, step. simpl.
  destruct d; simpl;
    repeat match goal with
           | |- context [?u =? ?v] =>
               first [ replace (u =? v) with true by (symmetry; apply Z.eqb_eq; lia)
                     | replace (u =? v) with false by (symmetry; apply Z.eqb_neq; lia) ]
           end; done.
Qed.

(** *** States with the same grid *)

Lemma sameGrid_refl st : sameGrid st st.
Proof. done. Qed.

Lemma sameGrid_trans st1 st2 st3 : sameGrid st1 st2 -> sameGrid st2 st3 -> sameGrid st1 st3.
Proof. intros (? & ? & ?) (? & ? & ?). repeat split; congruence. Qed.

Lemma sameGrid_cellOf st st' c : sameGrid st st' -> cellOf st' c = cellOf st c.
Proof. intros (_ & _ & Hg). unfold cellOf. by rewrite Hg. Qed.

Lemma sameGrid_isGenerated st st' c : sameGrid st st' -> isGenerated st' c = isGenerated st c.
Proof. intros Hs. unfold isGenerated. by rewrite (sameGrid_cellOf st st'). Qed.

Lemma sameGrid_hasWall st st' c d : sameGrid st st' -> hasWall st' c d = hasWall st c d.
Proof. intros Hs. unfold hasWall. by rewrite (sameGrid_cellOf st st'). Qed.

Lemma sameGrid_getCell st st' x y : sameGrid st st' -> getCell st' x y = getCell st x y.
Proof. intros (Hw & Hh & _). unfold getCell. by rewrite Hw, Hh. Qed.

Lemma sameGrid_inGrid st st' c : sameGrid st st' -> inGrid st' c <-> inGrid st c.
Proof. intros (Hw & Hh & _). unfold inGrid. by rewrite Hw, Hh. Qed.

Lemma sameGrid_wf st st' : sameGrid st st' -> wf st -> wf st'.
Proof. intros (Hw & Hh & Hg). unfold wf. by rewrite Hw, Hh, Hg. Qed.

Lemma sameGrid_neighbors st st' c : sameGrid st st' -> neighbors st' c = neighbors st c.
Proof.
  intros Hs. unfold neighbors.
  induction directions as [|d ds IH]; [done|]. cbn [omap list_omap].
  by rewrite (sameGrid_getCell st st'), IH.
Qed.

(** *** The graph that a state represents *)

(** The generated cells of [st] are those of [Vs] and the removed walls are
    the edges of [Es]. *)
Record represents (st : Visualizer) (Vs : list Cell) (Es : list (Cell * Cell)) : Prop := {
  rep_wf : wf st;
  rep_gen : forall c, inGrid st c -> (isGenerated st c = true <-> c ∈ Vs);
  rep_in : forall c, c ∈ Vs -> inGrid st c;
  rep_wall : forall c d, inGrid st c -> (hasWall st c d = false <-> linked Es c (step c d));
  rep_edge : forall a b, (a, b) ∈ Es -> inGrid st a /\ inGrid st b /\ exists d, b = step a d
}.

Lemma rep_linked st Vs Es a b :
  represents st Vs Es -> linked Es a b ->
  inGrid st a /\ inGrid st b /\ exists d, b = step a d.
Proof.
  intros Hrep [Hab|Hba].
  - by apply (rep_edge _ _ _ Hrep).
  - destruct (rep_edge _ _ _ Hrep _ _ Hba) as (Hb & Ha & d & ->).
    split; [done | split; [done|]]. exists (opposite d). symmetry. by apply step_back.
Qed.

Lemma rep_ext st Vs Es Vs' Es' :
  represents st Vs Es ->
  (forall c, c ∈ Vs' <-> c ∈ Vs) ->
  (forall a b, linked Es' a b <-> linked Es a b) ->
  represents st Vs' Es'.
Proof.
  intros Hrep HV HE. split.
  - apply Hrep.
  - intros c Hc. rewrite HV. by apply Hrep.
  - intros c Hc. apply (rep_in _ _ _ Hrep). by apply HV.
  - intros c d Hc. rewrite HE. by apply Hrep.
  - intros a b Hab. apply (rep_linked st Vs Es); [done|]. apply HE. by left.
Qed.

Lemma rep_sameGrid st st' Vs Es :
  sameGrid st st' -> represents st Vs Es -> represents st' Vs Es.
Proof.
  intros Hs Hrep. split.
  - eapply sameGrid_wf; [done | apply Hrep].
  - intros c Hc. rewrite (sameGrid_isGenerated st st') by done.
    apply Hrep. by apply (sameGrid_inGrid st st').
  - intros c Hc. apply (sameGrid_inGrid st st'); [done|]. by apply (rep_in _ _ _ Hrep).
  - intros c d Hc. rewrite (sameGrid_hasWall st st') by done.
    apply Hrep. by apply (sameGrid_inGrid st st').
  - intros a b Hab. destruct (rep_edge _ _ _ Hrep _ _ Hab) as (Ha & Hb & Hd).
    rewrite !(sameGrid_inGrid st st') by done. done.
Qed.

Lemma rep_mark st Vs Es c :
  represents st Vs Es -> inGrid st c -> represents (markGenerated st c) (c :: Vs) Es.
Proof.
  intros Hrep Hc.
  destruct (markGenerated_spec st (rep_wf _ _ _ Hrep) c Hc) as (Hwf & Hw & Hh & _ & Hg & Hwall).
  assert (Hin : forall x, inGrid (markGenerated st c) x <-> inGrid st x)
    by (intros x; unfold inGrid; by rewrite Hw, Hh).
  split.
  - done.
  - intros x Hx. apply Hin in Hx. rewrite Hg by done.
    rewrite orb_true_iff, bool_decide_eq_true, elem_of_cons, (rep_gen _ _ _ Hrep) by done.
    tauto.
  - intros x Hx. apply Hin. apply elem_of_cons in Hx as [->|Hx]; [done|].
    by apply (rep_in _ _ _ Hrep).
  - intros x d Hx. apply Hin in Hx. rewrite Hwall by done. by apply Hrep.
  - intros a b Hab. destruct (rep_edge _ _ _ Hrep _ _ Hab) as (Ha & Hb & Hd).
    rewrite !Hin. done.
Qed.

Lemma rep_setGenerated st Vs Es c ord :
  represents st Vs Es -> inGrid st c -> represents (setGenerated st c ord) (c :: Vs) Es.
Proof.
  intros Hrep Hc.
  destruct (setGenerated_spec st (rep_wf _ _ _ Hrep) c ord Hc)
    as (Hwf & Hw & Hh & _ & Hg & Hwall).
  assert (Hin : forall x, inGrid (setGenerated st c ord) x <-> inGrid st x)
    by (intros x; unfold inGrid; by rewrite Hw, Hh).
  split.
  - done.
  - intros x Hx. apply Hin in Hx. rewrite Hg by done.
    rewrite orb_true_iff, bool_decide_eq_true, elem_of_cons, (rep_gen _ _ _ Hrep) by done.
    tauto.
  - intros x Hx. apply Hin. apply elem_of_cons in Hx as [->|Hx]; [done|].
    by apply (rep_in _ _ _ Hrep).
  - intros x d Hx. apply Hin in Hx. rewrite Hwall by done. by apply Hrep.
  - intros a b Hab. destruct (rep_edge _ _ _ Hrep _ _ Hab) as (Ha & Hb & Hd).
    rewrite !Hin. done.
Qed.

Lemma rep_carve st Vs Es a d :
  represents st Vs Es -> inGrid st a -> inGrid st (step a d) ->
  represents (carvePassage st a (step a d)) Vs ((a, step a d) :: Es).
Proof.
  intros Hrep Ha Hb. rewrite carvePassage_step.
  destruct (openWall_spec st (rep_wf _ _ _ Hrep) a d Ha)
    as (Hwf1 & Hw1 & Hh1 & _ & Hg1 & Hwall1).
  set (st1 := openWall st a d) in *.
  assert (Hin1 : forall x, inGrid st1 x <-> inGrid st x)
    by (intros x; unfold inGrid; by rewrite Hw1, Hh1).
  destruct (openWall_spec st1 Hwf1 (step a d) (opposite d) (proj2 (Hin1 _) Hb))
    as (Hwf2 & Hw2 & Hh2 & _ & Hg2 & Hwall2).
  set (st2 := openWall st1 (step a d) (opposite d)) in *.
  assert (Hin2 : forall x, inGrid st2 x <-> inGrid st x)
    by (intros x; unfold inGrid; by rewrite Hw2, Hh2, Hw1, Hh1).
  split.
  - done.
  - intros x Hx. apply Hin2 in Hx. rewrite Hg2, Hg1 by (done || by apply Hin1).
    by apply Hrep.
  - intros x Hx. apply Hin2. by apply (rep_in _ _ _ Hrep).
  - intros x d' Hx. apply Hin2 in Hx.
    rewrite Hwall2, Hwall1 by (done || by apply Hin1).
    rewrite linked_cons, !andb_false_iff, !negb_false_iff, !bool_decide_eq_true.
    rewrite (rep_wall _ _ _ Hrep) by done.
    split.
    + intros [[Hl|[-> ->]]|[-> ->]].
      * by right; right.
      * by left.
      * right; left. f_equal. symmetry. by apply step_back.
    + intros [Heq|[Heq|Hl]].
      * assert (a = x) as -> by congruence.
        assert (step x d = step x d') as Hd by congruence.
        apply step_inj in Hd as ->. by left; right.
      * assert (x = step a d) as -> by congruence.
        assert (step (step a d) d' = a) as Hd by congruence.
        apply step_back in Hd as ->. by right.
      * by left; left.
  - intros x y Hxy. rewrite !Hin2. apply elem_of_cons in Hxy as [[= -> ->]|Hxy].
    + split; [done | split; [done|]]. by exists d.
    + by apply (rep_edge _ _ _ Hrep).
Qed.

(** The state after [resetGrid]: no cell generated, every wall present. *)
Lemma rep_resetGrid width height seed0 : represents (resetGrid width height seed0) [] [].
Proof.
  assert (Hcell : forall c, cellOf (resetGrid width height seed0) c = newCell).
  { intros [x y]. unfold cellOf, resetGrid. simpl.
    destruct (replicate _ _ !! Z.to_nat y) as [row|] eqn:Hrow; [|done].
    apply lookup_replicate in Hrow as [-> _]. simpl.
    destruct (replicate _ _ !! Z.to_nat x) as [cell|] eqn:Hcell; [|done].
    by apply lookup_replicate in Hcell as [-> _]. }
  split.
  - apply wf_resetGrid.
  - intros c _. unfold isGenerated. rewrite Hcell. simpl. split; [done|].
    intros Hc. by apply elem_of_nil in Hc.
  - intros c Hc. by apply elem_of_nil in Hc.
  - intros c d _. unfold hasWall. rewrite Hcell. split.
    + by destruct d.
    + intros [Hl|Hl]; by apply elem_of_nil in Hl.
  - intros a b Hab. by apply elem_of_nil in Hab.
Qed.

(** *** Neighbours *)

Lemma getCell_Some st x y c : getCell st x y = Some c <-> c = (x, y) /\ inGrid st (x, y).
Proof.
  unfold getCell, inGrid. simpl.
  destruct (Z.ltb_spec x 0), (Z.ltb_spec y 0), (Z.geb_spec x (gridWidth st)),
    (Z.geb_spec y (gridHeight st)); simpl; split; try (intros [= <-]; split; [done|lia]);
    try done; try (intros [_ ?]; lia); try (intros [-> _]; done).
Qed.

Lemma elem_of_neighbors st c n d :
  (n, d) ∈ neighbors st c <-> n = step c d /\ inGrid st n.
Proof.
  unfold neighbors. rewrite list_elem_of_omap. split.
  - intros (d' & _ & Hd').
    destruct (getCell st _ _) as [c'|] eqn:Hget; [|done].
    injection Hd' as <- <-. apply getCell_Some in Hget as [-> Hin]. done.
  - intros [-> Hin]. exists d. split; [destruct d; set_solver|].
    assert (getCell st (c.1 + dx d) (c.2 + dy d) = Some (step c d)) as ->; [|done].
    by apply getCell_Some.
Qed.

Lemma elem_of_unvisited st c n d :
  (n, d) ∈ unvisited st c <-> n = step c d /\ inGrid st n /\ isGenerated st n = false.
Proof.
  unfold unvisited. rewrite list_elem_of_filter, elem_of_neighbors. simpl. tauto.
Qed.

(** *** The cells of the grid *)

Lemma elem_of_flat_map {A B} (f : A -> list B) (l : list A) (y : B) :
  y ∈ flat_map f l <-> exists x, x ∈ l /\ y ∈ f x.
Proof.
  rewrite list_elem_of_In, in_flat_map. split; intros (x & Hx & Hy); exists x;
    by rewrite ?list_elem_of_In in *.
Qed.

Lemma NoDup_flat_map {A B} (f : A -> list B) (tag : B -> A) (l : list A) :
  NoDup l -> (forall x, NoDup (f x)) -> (forall x e, e ∈ f x -> tag e = x) ->
  NoDup (flat_map f l).
Proof.
  intros Hnd Hf Htag. induction Hnd as [|x l Hx Hnd IH]; [constructor|].
  simpl. apply NoDup_app. split; [apply Hf | split; [|done]].
  intros e He Hin. apply elem_of_flat_map in Hin as (x' & Hx' & He').
  apply Htag in He, He'. congruence.
Qed.

Lemma elem_of_rowMajor width height c :
  c ∈ rowMajor width height <-> 0 <= fst c < width /\ 0 <= snd c < height.
Proof.
  unfold rowMajor. rewrite elem_of_flat_map. split.
  - intros (y & Hy & Hc). apply list_elem_of_In, in_map_iff in Hc as (x & <- & Hx).
    apply in_seq in Hx. apply elem_of_seq in Hy. simpl. lia.
  - intros [Hx Hy]. exists (Z.to_nat (snd c)). split; [apply elem_of_seq; lia|].
    apply list_elem_of_In, in_map_iff. exists (Z.to_nat (fst c)). split.
    + destruct c as [x y]. simpl in *. f_equal; lia.
    + apply in_seq. lia.
Qed.

Lemma NoDup_rowMajor width height : NoDup (rowMajor width height).
Proof.
  unfold rowMajor. apply (NoDup_flat_map _ (fun c => Z.to_nat (snd c))).
  - apply NoDup_seq.
  - intros y. apply (NoDup_fmap_2_strong _); [|apply NoDup_seq].
    intros x x' _ _ Heq. injection Heq. lia.
  - intros y e He. apply list_elem_of_In, in_map_iff in He as (x & <- & _). simpl. lia.
Qed.

Lemma length_rowMajor width height :
  0 <= width -> 0 <= height ->
  Z.of_nat (length (rowMajor width height)) = width * height.
Proof.
  intros Hw Hh. unfold rowMajor.
  assert (G : forall n, length (flat_map
              (fun y => map (fun x => (Z.of_nat x, Z.of_nat y)) (seq 0 (Z.to_nat width)))
              (seq 0 n)) = (n * Z.to_nat width)%nat).
  { induction n as [|n IH]; [done|].
    rewrite seq_S, flat_map_app, length_app, IH. simpl.
    rewrite app_nil_r, length_map, length_seq. lia. }
  rewrite G. lia.
Qed.

Lemma elem_of_rowMajor_inGrid st c :
  c ∈ rowMajor (gridWidth st) (gridHeight st) <-> inGrid st c.
Proof. apply elem_of_rowMajor. Qed.

(** *** From a tree of all cells to the spanning tree of the claim *)

Section Spanning.
Variables (st : Visualizer) (Vs : list Cell) (Es : list (Cell * Cell)).
Hypothesis Hrep : represents st Vs Es.

Lemma passage_linked a b : passage st a b <-> linked Es a b.
Proof.
  split.
  - intros (Ha & Hb & d & -> & Hw & _). by apply (rep_wall _ _ _ Hrep).
  - intros Hl. destruct (rep_linked _ _ _ _ _ Hrep Hl) as (Ha & Hb & d & ->).
    split; [done | split; [done|]]. exists d. split; [done|]. split.
    + by apply (rep_wall _ _ _ Hrep).
    + apply (rep_wall _ _ _ Hrep); [done|].
      rewrite (proj2 (step_back a d (opposite d)) eq_refl). by apply linked_sym.
Qed.

Lemma openTo_linked c d :
  inGrid st c -> openTo st c d = true <-> linked Es c (step c d).
Proof.
  intros Hc. rewrite <- passage_linked. unfold openTo, passage, insideb, inGrid.
  rewrite !andb_true_iff, !negb_true_iff, !Z.leb_le, !Z.ltb_lt. split.
  - intros ((Hin & Hw1) & Hw2). split; [done|]. split; [lia|]. by exists d.
  - intros (_ & Hin & d' & Hd & Hw1 & Hw2). apply step_inj in Hd as <-.
    split; [split; [lia | done] | done].
Qed.

(** An edge written from a cell to its East or South neighbour. *)
Definition orient (e : Cell * Cell) : Cell * Cell :=
  if decide (snd e = step (fst e) DirE \/ snd e = step (fst e) DirS)
  then e else (snd e, fst e).

Lemma orient_forward a d : d = DirE \/ d = DirS -> orient (a, step a d) = (a, step a d).
Proof. intros Hd. unfold orient. simpl. rewrite decide_True; [done|]. destruct Hd; subst; tauto. Qed.

Lemma orient_backward a d :
  d = DirE \/ d = DirS -> orient (step a d, a) = (a, step a d).
Proof.
  intros Hd. unfold orient. simpl. rewrite decide_False; [done|].
  intros [H|H]; symmetry in H; apply step_back in H; destruct Hd; subst; done.
Qed.

Lemma dir_cases d : (d = DirE \/ d = DirS) \/ (opposite d = DirE \/ opposite d = DirS).
Proof. destruct d; simpl; tauto. Qed.

Lemma elem_of_carvedPassages e :
  e ∈ carvedPassages st <->
  exists c d, (d = DirE \/ d = DirS) /\ e = (c, step c d) /\ linked Es c (step c d).
Proof.
  unfold carvedPassages. rewrite elem_of_flat_map. split.
  - intros (c & Hc & He). apply elem_of_rowMajor_inGrid in Hc.
    apply elem_of_app in He as [He|He].
    + destruct (openTo st c DirE) eqn:Ho; [|by apply elem_of_nil in He].
      apply list_elem_of_singleton in He as ->. exists c, DirE.
      split; [by left | split; [done|]]. by apply openTo_linked.
    + destruct (openTo st c DirS) eqn:Ho; [|by apply elem_of_nil in He].
      apply list_elem_of_singleton in He as ->. exists c, DirS.
      split; [by right | split; [done|]]. by apply openTo_linked.
  - intros (c & d & Hd & -> & Hl).
    destruct (rep_linked _ _ _ _ _ Hrep Hl) as (Hc & _).
    exists c. split; [by apply elem_of_rowMajor_inGrid|].
    apply (openTo_linked c d Hc) in Hl. apply elem_of_app.
    destruct Hd as [-> | ->]; rewrite Hl; [left | right]; by apply list_elem_of_singleton.
Qed.

Lemma NoDup_carvedPassages : NoDup (carvedPassages st).
Proof.
  unfold carvedPassages. apply (NoDup_flat_map _ fst).
  - apply NoDup_rowMajor.
  - intros c. destruct (openTo st c DirE), (openTo st c DirS); simpl;
      repeat constructor; try (by intros H; apply elem_of_nil in H).
    intros H. apply list_elem_of_singleton in H. apply (f_equal snd) in H. simpl in H.
    by apply step_inj in H.
  - intros c e He. apply elem_of_app in He as [He|He].
    + destruct (openTo st c DirE); [|by apply elem_of_nil in He].
      by apply list_elem_of_singleton in He as ->.
    + destruct (openTo st c DirS); [|by apply elem_of_nil in He].
      by apply list_elem_of_singleton in He as ->.
Qed.

Hypothesis Htree : Tree Vs Es.

Lemma carvedPassages_perm : orient <$> Es ≡ₚ carvedPassages st.
Proof.
  destruct (Tree_simple _ _ Htree) as [Hnd Hanti].
  apply NoDup_Permutation.
  - apply NoDup_fmap_2_strong; [|done].
    intros [a b] [a' b'] Hin Hin' Heq. unfold orient in Heq. simpl in Heq.
    repeat destruct (decide _) in Heq; try done.
    + injection Heq as -> ->. by destruct (Hanti _ _ Hin).
    + injection Heq as -> ->. by destruct (Hanti _ _ Hin).
    + by injection Heq as -> ->.
  - apply NoDup_carvedPassages.
  - intros e. rewrite elem_of_carvedPassages, list_elem_of_fmap. split.
    + intros ([a b] & -> & Hin).
      destruct (rep_edge _ _ _ Hrep _ _ Hin) as (_ & _ & d & ->).
      destruct (dir_cases d) as [Hd|Hd].
      * exists a, d. split; [done|]. split; [by apply orient_forward | by left].
      * exists (step a d), (opposite d).
        assert (step (step a d) (opposite d) = a) as Hback by (by apply step_back).
        rewrite Hback. split; [done|]. split; [|by right].
        pose proof (orient_backward (step a d) (opposite d) Hd) as Ho.
        by rewrite Hback in Ho.
    + intros (c & d & Hd & -> & [Hl|Hl]).
      * exists (c, step c d). split; [|done]. symmetry. by apply orient_forward.
      * exists (step c d, c). split; [|done]. symmetry. by apply orient_backward.
Qed.

Hypothesis Hall : forall c, inGrid st c -> c ∈ Vs.
Hypothesis Hw : 0 <= gridWidth st.
Hypothesis Hh : 0 <= gridHeight st.

Lemma spanningTree_of_tree : spanningTree st.
Proof.
  split; [|split].
  - rewrite <- carvedPassages_perm, length_fmap.
    assert (HV : Vs ≡ₚ rowMajor (gridWidth st) (gridHeight st)).
    { apply NoDup_Permutation; [by eapply Tree_NoDup | apply NoDup_rowMajor|].
      intros c. rewrite elem_of_rowMajor_inGrid. split; [apply Hrep | apply Hall]. }
    pose proof (Tree_length _ _ Htree) as Hlen. rewrite HV in Hlen.
    pose proof (length_rowMajor _ _ Hw Hh). lia.
  - intros a b Ha Hb. eapply rtc_impl; [|apply (Tree_connected _ _ Htree); by apply Hall].
    intros x y. apply passage_linked.
  - eapply acyclic_impl; [|by apply (Tree_acyclic _ _ Htree)].
    intros a b. apply passage_linked.
Qed.

End Spanning.

(** A set of cells that has a member and is closed under grid neighbours is
    the whole grid. *)
Lemma closed_all st (Vs : list Cell) :
  (exists c, c ∈ Vs /\ inGrid st c) ->
  (forall c d, c ∈ Vs -> inGrid st (step c d) -> step c d ∈ Vs) ->
  forall c, inGrid st c -> c ∈ Vs.
Proof.
  intros ([x0 y0] & H0 & Hin0) Hclosed.
  assert (Hrow : forall n x, Z.abs (x - x0) = Z.of_nat n -> 0 <= x < gridWidth st ->
                 (x, y0) ∈ Vs).
  { induction n as [|n IH]; intros x Hn Hx.
    - assert (x = x0) as -> by lia. done.
    - destruct (Z.lt_ge_cases x x0).
      + replace (x, y0) with (step (x + 1, y0) DirW) by (unfold step; simpl; f_equal; lia).
        apply Hclosed.
        * apply IH; [lia|]. unfold inGrid in Hin0. simpl in *. lia.
        * unfold step, inGrid in *. simpl in *. lia.
      + replace (x, y0) with (step (x - 1, y0) DirE) by (unfold step; simpl; f_equal; lia).
        apply Hclosed.
        * apply IH; [lia|]. unfold inGrid in Hin0. simpl in *. lia.
        * unfold step, inGrid in *. simpl in *. lia. }
  assert (Hcol : forall n x y, Z.abs (y - y0) = Z.of_nat n -> 0 <= x < gridWidth st ->
                 0 <= y < gridHeight st -> (x, y) ∈ Vs).
  { induction n as [|n IH]; intros x y Hn Hx Hy.
    - assert (y = y0) as -> by lia. by apply (Hrow (Z.to_nat (Z.abs (x - x0)))); [lia|].
    - destruct (Z.lt_ge_cases y y0).
      + replace (x, y) with (step (x, y + 1) DirN) by (unfold step; simpl; f_equal; lia).
        apply Hclosed.
        * apply IH; [lia | done |]. unfold inGrid in Hin0. simpl in *. lia.
        * unfold step, inGrid in *. simpl in *. lia.
      + replace (x, y) with (step (x, y - 1) DirS) by (unfold step; simpl; f_equal; lia).
        apply Hclosed.
        * apply IH; [lia | done |]. unfold inGrid in Hin0. simpl in *. lia.
        * unfold step, inGrid in *. simpl in *. lia. }
  intros [x y] [Hx Hy]. simpl in *.
  by apply (Hcol (Z.to_nat (Z.abs (y - y0)))); [lia | |].
Qed.

(** *** Random choices *)

Section Random.
Variable rnd : nat -> Z.

Lemma resolution_pos : 0 < resolution.
Proof. done. Qed.

Lemma random_sameGrid st : sameGrid st (random rnd st).2.
Proof. done. Qed.

Lemma random_bound st : 0 <= (random rnd st).1 < resolution.
Proof. simpl. apply Z.mod_pos_bound, resolution_pos. Qed.

(** The rounded product stays below [n]: rounding moves it by at most half
    a unit in the last place, which is less than the gap [n * 2^-53] that the
    exact product leaves. *)
Lemma product_bound u n :
  0 <= u < resolution -> 0 < n -> 0 <= product u n < n * resolution.
Proof.
  intros Hu Hn. pose proof resolution_pos as Hres. unfold product. cbv zeta.
  set (exact := u * n). assert (Hexact : 0 <= exact <= n * resolution - n) by (unfold exact; nia).
  set (shift := Z.log2 exact - 52).
  destruct (Z.leb_spec shift 0) as [_|Hshift]; [lia|].
  assert (Hpos : 0 < exact).
  { destruct (Z.eq_dec exact 0) as [E|]; [|lia]. unfold shift in Hshift.
    rewrite E in Hshift. simpl in Hshift. lia. }
  destruct (Z.log2_spec exact Hpos) as [Hlow _].
  assert (Hsplit : 2 ^ Z.log2 exact = 2 ^ (shift - 1) * resolution).
  { unfold resolution. rewrite <- Z.pow_add_r by lia. f_equal. unfold shift. lia. }
  assert (Hhalf : 0 < 2 ^ (shift - 1)) by (apply Z.pow_pos_nonneg; lia).
  assert (Hunit : 2 ^ shift = 2 * 2 ^ (shift - 1)).
  { replace shift with (1 + (shift - 1)) at 1 by lia. rewrite Z.pow_add_r by lia. done. }
  assert (Hgap : 2 ^ (shift - 1) < n) by nia.
  pose proof (Z.div_mod exact (2 ^ shift) ltac:(lia)) as Hdm.
  pose proof (Z.mod_pos_bound exact (2 ^ shift) ltac:(lia)) as Hrest.
  assert (Hkept : 0 <= exact / 2 ^ shift) by (apply Z.div_pos; lia).
  set (kept := exact / 2 ^ shift) in *. set (rest := exact mod 2 ^ shift) in *.
  destruct ((2 ^ (shift - 1) <? rest) || ((rest =? 2 ^ (shift - 1)) && Z.odd kept)) eqn:Hup.
  - assert (2 ^ (shift - 1) <= rest).
    { apply orb_true_iff in Hup as [Hup|Hup]; [apply Z.ltb_lt in Hup; lia|].
      apply andb_true_iff in Hup as [Hup _]. apply Z.eqb_eq in Hup. lia. }
    nia.
  - nia.
Qed.

Lemma scale_bound u n : 0 <= u < resolution -> 0 < n -> 0 <= scale u n < n.
Proof.
  intros Hu Hn. pose proof resolution_pos.
  destruct (product_bound u n Hu Hn) as [Hlow Hhigh]. unfold scale. split.
  - by apply Z.div_pos.
  - apply Z.div_lt_upper_bound; lia.
Qed.

Lemma randomItem_spec {A} (items : list A) st :
  items <> [] ->
  exists x, randomItem rnd items st = (Some x, (random rnd st).2) /\ x ∈ items.
Proof.
  intros Hne. unfold randomItem.
  pose proof (random_bound st) as Hu.
  destruct (random rnd st) as [u st1]. simpl in Hu |- *.
  assert (Hlen : 0 < Z.of_nat (length items)) by (destruct items; [done | simpl; lia]).
  pose proof (scale_bound u _ Hu Hlen) as Hs.
  destruct (items !! Z.to_nat (scale u (Z.of_nat (length items)))) as [x|] eqn:Hx.
  - exists x. split; [done|]. by eapply list_elem_of_lookup_2.
  - apply lookup_ge_None in Hx. lia.
Qed.

Lemma randomItem_elem {A} (items : list A) st x st' :
  randomItem rnd items st = (Some x, st') -> x ∈ items /\ sameGrid st st'.
Proof.
  unfold randomItem. destruct (random rnd st) as [u st1] eqn:Hr. intros [= Hx <-].
  split; [by eapply list_elem_of_lookup_2|].
  pose proof (random_sameGrid st) as Hs. by rewrite Hr in Hs.
Qed.

Lemma randomCell_elem st c st' :
  randomCell rnd st = (Some c, st') -> inGrid st c /\ sameGrid st st'.
Proof.
  unfold randomCell. simpl. intros [= Hc <-]. split; [|done].
  apply getCell_Some in Hc as [-> Hin]. exact Hin.
Qed.

Lemma randomCell_spec st :
  0 < gridWidth st -> 0 < gridHeight st ->
  exists c st', randomCell rnd st = (Some c, st') /\ inGrid st c /\ sameGrid st st'.
Proof.
  intros Hw Hh. unfold randomCell.
  destruct (random rnd st) as [u st1] eqn:Hr1.
  destruct (random rnd st1) as [v st2] eqn:Hr2.
  pose proof (random_bound st) as Hu. rewrite Hr1 in Hu.
  pose proof (random_bound st1) as Hv. rewrite Hr2 in Hv.
  pose proof (random_sameGrid st) as Hs1. rewrite Hr1 in Hs1.
  pose proof (random_sameGrid st1) as Hs2. rewrite Hr2 in Hs2.
  simpl in Hu, Hv, Hs1, Hs2.
  assert (Hs : sameGrid st st2) by (by eapply sameGrid_trans).
  destruct Hs1 as (Hw1 & Hh1 & _). destruct Hs as (Hw2 & Hh2 & Hg2).
  pose proof (scale_bound u (gridWidth st1) Hu ltac:(lia)) as Hx.
  pose proof (scale_bound v (gridHeight st2) Hv ltac:(lia)) as Hy.
  assert (Hin : inGrid st2 (scale u (gridWidth st1), scale v (gridHeight st2)))
    by (unfold inGrid; simpl; lia).
  exists (scale u (gridWidth st1), scale v (gridHeight st2)), st2.
  split; [|split; [|done]].
  - f_equal. apply getCell_Some. done.
  - unfold inGrid in *. simpl in *. lia.
Qed.

(** *** The tree grown so far *)

(** The generated cells [Vs] and the carved passages [Es] of a [W] by [H]
    grid form a tree. *)
Record growing (W H : Z) (st : Visualizer) (Vs : list Cell) (Es : list (Cell * Cell))
  : Prop := {
  g_width : gridWidth st = W;
  g_height : gridHeight st = H;
  g_rep : represents st Vs Es;
  g_tree : Tree Vs Es
}.

Lemma carvePassage_size st a b :
  gridWidth (carvePassage st a b) = gridWidth st /\
  gridHeight (carvePassage st a b) = gridHeight st.
Proof. unfold carvePassage. by repeat case_match. Qed.

Lemma markGenerated_size st c :
  gridWidth (markGenerated st c) = gridWidth st /\
  gridHeight (markGenerated st c) = gridHeight st.
Proof. unfold markGenerated. by case_match. Qed.

Lemma inGrid_size st st' c :
  gridWidth st' = gridWidth st -> gridHeight st' = gridHeight st ->
  inGrid st' c <-> inGrid st c.
Proof. intros Hw Hh. unfold inGrid. by rewrite Hw, Hh. Qed.

Lemma inGrid_carvePassage st a b c : inGrid (carvePassage st a b) c <-> inGrid st c.
Proof. apply inGrid_size; apply carvePassage_size. Qed.

Lemma inGrid_markGenerated st a c : inGrid (markGenerated st a) c <-> inGrid st c.
Proof. apply inGrid_size; apply markGenerated_size. Qed.

Lemma growing_sameGrid W H st st' Vs Es :
  sameGrid st st' -> growing W H st Vs Es -> growing W H st' Vs Es.
Proof.
  intros Hs [Hw Hh Hrep HT]. pose proof Hs as (Hw' & Hh' & _).
  split; [congruence | congruence | | done].
  by eapply rep_sameGrid.
Qed.

(** A passage from a cell of the tree to a cell that is not generated,
    which is then marked. *)
Lemma growing_extend W H st Vs Es a n d :
  growing W H st Vs Es -> a ∈ Vs -> n = step a d -> inGrid st n -> n ∉ Vs ->
  growing W H (markGenerated (carvePassage st a n) n) (n :: Vs) ((a, n) :: Es).
Proof.
  intros [Hw Hh Hrep HT] Ha -> Hn Hnew.
  destruct (carvePassage_size st a (step a d)) as [Hw1 Hh1].
  destruct (markGenerated_size (carvePassage st a (step a d)) (step a d)) as [Hw2 Hh2].
  split; [congruence | congruence | | by apply Tree_leaf].
  apply rep_mark; [|by apply inGrid_carvePassage].
  apply rep_carve; [done | by apply (rep_in _ _ _ Hrep) | done].
Qed.

(** The same with the passage carved from the new cell. *)
Lemma growing_extend_back W H st Vs Es a n d :
  growing W H st Vs Es -> a ∈ Vs -> a = step n d -> inGrid st n -> n ∉ Vs ->
  growing W H (markGenerated (carvePassage st n a) n) (n :: Vs) ((n, a) :: Es).
Proof.
  intros [Hw Hh Hrep HT] Ha -> Hn Hnew.
  destruct (carvePassage_size st n (step n d)) as [Hw1 Hh1].
  destruct (markGenerated_size (carvePassage st n (step n d)) n) as [Hw2 Hh2].
  split; [congruence | congruence | | by apply Tree_flip, Tree_leaf].
  apply rep_mark; [|by apply inGrid_carvePassage].
  apply rep_carve; [done | done | by apply (rep_in _ _ _ Hrep)].
Qed.

(** The same with the new cell marked first. *)
Lemma growing_extend_marked W H st Vs Es a n d :
  growing W H st Vs Es -> a ∈ Vs -> n = step a d -> inGrid st n -> n ∉ Vs ->
  growing W H (carvePassage (markGenerated st n) a n) (n :: Vs) ((a, n) :: Es).
Proof.
  intros [Hw Hh Hrep HT] Ha -> Hn Hnew.
  destruct (markGenerated_size st (step a d)) as [Hw1 Hh1].
  destruct (carvePassage_size (markGenerated st (step a d)) a (step a d)) as [Hw2 Hh2].
  split; [congruence | congruence | | by apply Tree_leaf].
  apply rep_carve; [by apply rep_mark | |]; apply inGrid_markGenerated; [|done].
  by apply (rep_in _ _ _ Hrep).
Qed.

Lemma growing_positive W H st Vs Es : growing W H st Vs Es -> 0 < W /\ 0 < H.
Proof.
  intros [Hw Hh Hrep HT]. pose proof (Tree_nonempty _ _ HT) as Hne.
  destruct Vs as [|c Vs]; [done|].
  assert (Hc : inGrid st c) by (apply (rep_in _ _ _ Hrep); left).
  unfold inGrid in Hc. lia.
Qed.

Lemma growing_length W H st Vs Es :
  growing W H st Vs Es -> (length Vs <= Z.to_nat (W * H))%nat.
Proof.
  intros Hg. destruct (growing_positive _ _ _ _ _ Hg) as [HW HH].
  destruct Hg as [Hw Hh Hrep HT].
  assert (Hsub : Vs ⊆+ rowMajor W H).
  { apply NoDup_submseteq; [by eapply Tree_NoDup|]. intros c Hc.
    apply elem_of_rowMajor. rewrite <- Hw, <- Hh. by apply (rep_in _ _ _ Hrep). }
  apply submseteq_length in Hsub.
  pose proof (length_rowMajor W H ltac:(lia) ltac:(lia)). lia.
Qed.

(** The number of cells that are not generated yet. *)
Definition remaining (W H : Z) (Vs : list Cell) : nat := (Z.to_nat (W * H) - length Vs)%nat.

Lemma remaining_cons W H st Vs Es n :
  growing W H st (n :: Vs) Es -> remaining W H Vs = S (remaining W H (n :: Vs)).
Proof. intros Hg. apply growing_length in Hg. unfold remaining. simpl in *. lia. Qed.

Lemma growing_spanning W H st Vs Es :
  growing W H st Vs Es -> (forall c, inGrid st c -> c ∈ Vs) ->
  gridWidth st = W /\ gridHeight st = H /\ spanningTree st.
Proof.
  intros Hg Hall. destruct (growing_positive _ _ _ _ _ Hg) as [HW HH].
  destruct Hg as [Hw Hh Hrep HT]. split; [done | split; [done|]].
  apply (spanningTree_of_tree st Vs Es); [done | done | done | lia | lia].
Qed.

(** Every neighbour of the cell is generated. *)
Definition closedAt (st : Visualizer) (Vs : list Cell) (c : Cell) : Prop :=
  forall d, inGrid st (step c d) -> step c d ∈ Vs.

Lemma closedAt_mono W H st st' Vs Vs' Es Es' c :
  growing W H st Vs Es -> growing W H st' Vs' Es' -> (forall x, x ∈ Vs -> x ∈ Vs') ->
  closedAt st Vs c -> closedAt st' Vs' c.
Proof.
  intros Hg Hg' Hsub Hc d Hd. apply Hsub, Hc. revert Hd. unfold inGrid.
  by rewrite (g_width _ _ _ _ _ Hg), (g_height _ _ _ _ _ Hg),
             (g_width _ _ _ _ _ Hg'), (g_height _ _ _ _ _ Hg').
Qed.

Lemma unvisited_nil_closed st Vs Es c :
  represents st Vs Es -> unvisited st c = [] -> closedAt st Vs c.
Proof.
  intros Hrep Hnil d Hin. destruct (isGenerated st (step c d)) eqn:Hg.
  - by apply (rep_gen _ _ _ Hrep).
  - assert (Hu : (step c d, d) ∈ unvisited st c) by (by apply elem_of_unvisited).
    rewrite Hnil in Hu. by apply elem_of_nil in Hu.
Qed.

Lemma closed_spanning W H st Vs Es :
  growing W H st Vs Es -> (forall c, c ∈ Vs -> closedAt st Vs c) ->
  gridWidth st = W /\ gridHeight st = H /\ spanningTree st.
Proof.
  intros Hg Hclosed. apply (growing_spanning W H st Vs Es Hg).
  apply closed_all.
  - pose proof (Tree_nonempty _ _ (g_tree _ _ _ _ _ Hg)) as Hne.
    destruct Vs as [|c Vs]; [done|]. exists c. split; [left|].
    apply (rep_in _ _ _ (g_rep _ _ _ _ _ Hg)). left.
  - intros c d Hc Hd. by apply Hclosed.
Qed.

End Random.

(** *** Recursive backtracker *)

Section Backtracker.
Variable rnd : nat -> Z.
Variables W H : Z.

Lemma backtrack_done : forall fuel stack st Vs Es,
  growing W H st Vs Es ->
  (forall c, c ∈ stack -> c ∈ Vs) ->
  (forall c, c ∈ Vs -> c ∈ stack \/ closedAt st Vs c) ->
  (2 * remaining W H Vs + length stack < fuel)%nat ->
  exists st' Vs' Es',
    backtrack rnd fuel stack st = Done st' /\ growing W H st' Vs' Es' /\
    forall c, c ∈ Vs' -> closedAt st' Vs' c.
Proof.
  induction fuel as [|fuel IH]; intros stack st Vs Es Hg Hstack Hclosed Hfuel; [lia|].
  cbn [backtrack]. destruct stack as [|current rest].
  { exists st, Vs, Es. split; [done | split; [done|]]. intros c Hc.
    destruct (Hclosed c Hc) as [Hin|]; [by apply elem_of_nil in Hin | done]. }
  destruct (unvisited st current) as [|n ns] eqn:Hun.
  - apply (IH rest st Vs Es); [done | | | simpl in Hfuel; lia].
    + intros c Hc. apply Hstack. by right.
    + intros c Hc. destruct (Hclosed c Hc) as [Hin|]; [|by right].
      apply elem_of_cons in Hin as [->|Hin]; [right | by left].
      eapply unvisited_nil_closed; [apply Hg | done].
  - destruct (randomItem_spec rnd (n :: ns) st) as ([next d] & -> & Hin); [done|].
    rewrite <- Hun in Hin. apply elem_of_unvisited in Hin as (Hnext & Hinside & Hfresh).
    set (st1 := (random rnd st).2).
    assert (Hg1 : growing W H st1 Vs Es)
      by (eapply growing_sameGrid; [apply random_sameGrid | done]).
    assert (Hnew : next ∉ Vs).
    { intros Hin. apply (rep_gen _ _ _ (g_rep _ _ _ _ _ Hg)) in Hin; [congruence | done]. }
    assert (Hg2 : growing W H (markGenerated (carvePassage st1 current next) next)
                    (next :: Vs) ((current, next) :: Es)).
    { apply (growing_extend W H st1 Vs Es current next d); try done.
      apply Hstack. by left. }
    apply (IH _ _ (next :: Vs) ((current, next) :: Es)); [done | | |].
    + intros c Hc. apply elem_of_cons in Hc as [->|Hc]; [by left | right; by apply Hstack].
    + intros c Hc. apply elem_of_cons in Hc as [->|Hc]; [left; by left|].
      destruct (Hclosed c Hc) as [Hs|Hcl]; [left; by right | right].
      eapply (closedAt_mono W H st); [done | done | | done]. intros x Hx. by right.
    + rewrite (remaining_cons W H _ Vs _ next Hg2) in Hfuel. simpl in *. lia.
Qed.

Lemma recursiveBacktracker_spanning seed0 fuel :
  1 <= W -> 1 <= H -> (2 * Z.to_nat (W * H) < fuel)%nat ->
  exists st, recursiveBacktracker rnd fuel (resetGrid W H seed0) = Done st /\
    gridWidth st = W /\ gridHeight st = H /\ spanningTree st.
Proof.
  intros HW HH Hfuel. unfold recursiveBacktracker.
  set (st0 := resetGrid W H seed0).
  assert (Hstart : inGrid st0 (0, 0)) by (unfold inGrid; simpl; lia).
  assert (getCell st0 (start st0).1 (start st0).2 = Some (0, 0)) as ->
    by (by apply getCell_Some).
  set (st1 := setGenerated st0 (0, 0) 0).
  set (st2 := {| gridWidth := gridWidth st1; gridHeight := gridHeight st1;
                 grid := grid st1; maxOrder := 1; seed := seed st1 |}).
  assert (Hg : growing W H st2 [(0, 0)] []).
  { apply (growing_sameGrid W H st1); [done|].
    destruct (setGenerated_spec st0 (wf_resetGrid W H seed0) (0, 0) 0 Hstart)
      as (_ & Hw & Hh & _).
    split; [done | done | | apply Tree_root].
    apply rep_setGenerated; [apply rep_resetGrid | done]. }
  destruct (backtrack_done fuel [(0, 0)] st2 [(0, 0)] [] Hg) as (st & Vs & Es & Hrun & Hg' & Hcl).
  - done.
  - intros c Hc. by left.
  - unfold remaining. simpl. lia.
  - exists st. split; [done|]. by apply (closed_spanning W H st Vs Es).
Qed.

End Backtracker.

(** *** Growing tree *)

Section GrowingTree.
Variable rnd : nat -> Z.
Variables W H : Z.

Lemma sameGrid_unvisited st st' c : sameGrid st st' -> unvisited st' c = unvisited st c.
Proof.
  intros Hs. unfold unvisited. rewrite (sameGrid_neighbors st st') by done.
  apply list_filter_iff. intros n. by rewrite (sameGrid_isGenerated st st').
Qed.

Lemma grow_done : forall fuel cellList st Vs Es,
  growing W H st Vs Es ->
  (forall c, c ∈ cellList -> c ∈ Vs) ->
  (forall c, c ∈ Vs -> c ∈ cellList \/ closedAt st Vs c) ->
  (2 * remaining W H Vs + length cellList < fuel)%nat ->
  exists st' Vs' Es',
    grow rnd fuel cellList st = Done st' /\ growing W H st' Vs' Es' /\
    forall c, c ∈ Vs' -> closedAt st' Vs' c.
Proof.
  induction fuel as [|fuel IH]; intros cellList st Vs Es Hg Hlist Hclosed Hfuel; [lia|].
  cbn [grow]. destruct cellList as [|c0 cl] eqn:Hcl.
  { exists st, Vs, Es. split; [done | split; [done|]]. intros c Hc.
    destruct (Hclosed c Hc) as [Hin|]; [by apply elem_of_nil in Hin | done]. }
  rewrite <- Hcl in *. assert (Hne : (0 < length cellList)%nat) by (rewrite Hcl; simpl; lia).
  clear Hcl c0 cl.
  assert (Hbody : forall index st1, sameGrid st st1 -> (index < length cellList)%nat ->
    exists st' Vs' Es',
      match cellList !! index with
      | Some current =>
          match unvisited st1 current with
          | [] => grow rnd fuel (delete index cellList) st1
          | p :: l =>
              let (o, st2) :=
                randomItem rnd
                  match filter (fun n : Cell * Dir => n.2 = DirE) (p :: l) with
                  | [] => p :: l
                  | _ :: _ => filter (fun n : Cell * Dir => n.2 = DirE) (p :: l)
                  end st1 in
              match o with
              | Some (nextCell, _) =>
                  grow rnd fuel (cellList ++ [nextCell])
                    (markGenerated (carvePassage st2 current nextCell) nextCell)
              | None => Crash
              end
          end
      | None => Crash
      end = Done st' /\ growing W H st' Vs' Es' /\
      forall c, c ∈ Vs' -> closedAt st' Vs' c).
  { intros index st1 Hs Hindex.
    assert (Hg1 : growing W H st1 Vs Es) by (by eapply growing_sameGrid).
    destruct (cellList !! index) as [current|] eqn:Hcur;
      [|apply lookup_ge_None in Hcur; lia].
    pose proof (delete_Permutation _ _ _ Hcur) as Hperm.
    assert (Hcurrent : current ∈ Vs) by (by eapply Hlist, list_elem_of_lookup_2).
    destruct (unvisited st1 current) as [|n ns] eqn:Hun.
    - apply (IH _ st1 Vs Es); [done | | |].
      + intros c Hc. by eapply Hlist, list_elem_of_delete_inv.
      + intros c Hc. destruct (Hclosed c Hc) as [Hin|Hcl].
        * rewrite Hperm in Hin. apply elem_of_cons in Hin as [->|Hin]; [right | by left].
          eapply unvisited_nil_closed; [apply Hg1 | done].
        * right. by apply (closedAt_mono W H st st1 Vs Vs Es Es).
      + apply Permutation_length in Hperm. simpl in Hperm. lia.
    - set (choices := match filter (fun n : Cell * Dir => n.2 = DirE) (n :: ns) with
                      | [] => n :: ns
                      | _ :: _ => filter (fun n : Cell * Dir => n.2 = DirE) (n :: ns)
                      end).
      assert (Hchoices : choices <> [] /\ forall x, x ∈ choices -> x ∈ n :: ns).
      { unfold choices. destruct (filter _ (n :: ns)) as [|e es] eqn:Hf; [done|].
        split; [done|]. intros x Hx. rewrite <- Hf in Hx.
        by apply list_elem_of_filter in Hx as [_ Hx]. }
      destruct Hchoices as [Hne' Hsub].
      destruct (randomItem_spec rnd choices st1 Hne') as ([next d] & -> & Hin).
      apply Hsub in Hin. rewrite <- Hun in Hin.
      apply elem_of_unvisited in Hin as (Hnext & Hinside & Hfresh).
      set (st2 := (random rnd st1).2).
      assert (Hg2 : growing W H st2 Vs Es)
        by (eapply growing_sameGrid; [apply random_sameGrid | done]).
      assert (Hnew : next ∉ Vs).
      { intros Hin. apply (rep_gen _ _ _ (g_rep _ _ _ _ _ Hg1)) in Hin; [congruence | done]. }
      assert (Hg3 : growing W H (markGenerated (carvePassage st2 current next) next)
                      (next :: Vs) ((current, next) :: Es))
        by (by apply (growing_extend W H st2 Vs Es current next d)).
      apply (IH _ _ (next :: Vs) ((current, next) :: Es)); [done | | |].
      + intros c Hc. apply elem_of_app in Hc as [Hc|Hc]; [right; by apply Hlist|].
        apply list_elem_of_singleton in Hc as ->. by left.
      + intros c Hc. apply elem_of_cons in Hc as [->|Hc].
        { left. apply elem_of_app. right. by apply list_elem_of_singleton. }
        destruct (Hclosed c Hc) as [Hs'|Hcl]; [left; apply elem_of_app; by left | right].
        eapply (closedAt_mono W H st); [done | done | | done]. intros x Hx. by right.
      + rewrite (remaining_cons W H _ Vs _ next Hg3) in Hfuel.
        rewrite length_app. simpl in *. lia. }
  pose proof (random_bound rnd st) as Hu. pose proof (random_sameGrid rnd st) as Hs1.
  destruct (random rnd st) as [u st1]. simpl in Hu, Hs1.
  destruct (below u 3 4).
  - apply Hbody; [done | lia].
  - pose proof (random_bound rnd st1) as Hv. pose proof (random_sameGrid rnd st1) as Hs2.
    destruct (random rnd st1) as [v st2]. simpl in Hv, Hs2.
    pose proof (scale_bound v (Z.of_nat (length cellList)) Hv ltac:(lia)).
    apply Hbody; [by eapply sameGrid_trans | lia].
Qed.

(** The first cell, chosen at random, is the root of the tree. *)
Lemma startAtRandom_spec seed0 :
  1 <= W -> 1 <= H ->
  exists c st, startAtRandom rnd (resetGrid W H seed0) = (Some c, st) /\
    growing W H st [c] [].
Proof.
  intros HW HH. unfold startAtRandom.
  destruct (randomCell_spec rnd (resetGrid W H seed0)) as (c & st1 & -> & Hin & Hs);
    [simpl; lia | simpl; lia |].
  exists c. eexists. split; [done|].
  set (st2 := setGenerated st1 c 0).
  apply (growing_sameGrid W H st2); [done|].
  assert (Hwf1 : wf st1) by (eapply sameGrid_wf; [done | apply wf_resetGrid]).
  assert (Hin1 : inGrid st1 c) by (by apply (sameGrid_inGrid _ _ c Hs)).
  destruct (setGenerated_spec st1 Hwf1 c 0 Hin1) as (_ & Hw & Hh & _).
  pose proof Hs as (Hw1 & Hh1 & _).
  split; [unfold st2; by rewrite Hw, Hw1 | unfold st2; by rewrite Hh, Hh1 | | apply Tree_root].
  apply rep_setGenerated; [|done].
  eapply rep_sameGrid; [done | apply rep_resetGrid].
Qed.

Lemma growingTreeRightWall_spanning seed0 fuel :
  1 <= W -> 1 <= H -> (2 * Z.to_nat (W * H) < fuel)%nat ->
  exists st, growingTreeRightWall rnd fuel (resetGrid W H seed0) = Done st /\
    gridWidth st = W /\ gridHeight st = H /\ spanningTree st.
Proof.
  intros HW HH Hfuel. unfold growingTreeRightWall.
  destruct (startAtRandom_spec seed0 HW HH) as (c & st1 & -> & Hg).
  destruct (grow_done fuel [c] st1 [c] [] Hg) as (st & Vs & Es & Hrun & Hg' & Hcl).
  - done.
  - intros x Hx. by left.
  - unfold remaining. simpl. lia.
  - exists st. split; [done|]. by apply (closed_spanning W H st Vs Es).
Qed.

End GrowingTree.

(** *** Hunt and kill *)

Section HuntAndKill.
Variable rnd : nat -> Z.
Variables W H : Z.

Lemma hunt_spec : forall cells st Vs Es,
  growing W H st Vs Es -> (forall c, c ∈ cells -> inGrid st c) ->
  (hunt rnd cells st = Done None /\
   forall c, c ∈ cells -> isGenerated st c = false ->
     filter (fun n : Cell * Dir => isGenerated st n.1 = true) (neighbors st c) = [])
  \/ exists cell st' Es',
       hunt rnd cells st = Done (Some (cell, st')) /\ growing W H st' (cell :: Vs) Es'.
Proof.
  induction cells as [|cell cells IH]; intros st Vs Es Hg Hcells.
  { left. split; [done|]. intros c Hc. by apply elem_of_nil in Hc. }
  assert (Hrest : forall c, c ∈ cells -> inGrid st c) by (intros c Hc; apply Hcells; by right).
  cbn [hunt]. destruct (isGenerated st cell) eqn:Hgen.
  { destruct (IH st Vs Es Hg Hrest) as [[Hrun Hnone]|Hfound]; [left | by right].
    split; [done|]. intros c Hc Hc'. apply elem_of_cons in Hc as [->|Hc]; [congruence|].
    by apply Hnone. }
  destruct (filter _ (neighbors st cell)) as [|p l] eqn:Hf.
  { destruct (IH st Vs Es Hg Hrest) as [[Hrun Hnone]|Hfound]; [left | by right].
    split; [done|]. intros c Hc Hc'. apply elem_of_cons in Hc as [->|Hc]; [done|].
    by apply Hnone. }
  right. destruct (randomItem_spec rnd (p :: l) st) as ([v d] & -> & Hin); [done|].
  rewrite <- Hf in Hin. apply list_elem_of_filter in Hin as [Hv Hin]. simpl in Hv.
  apply elem_of_neighbors in Hin as [-> Hinside].
  set (st1 := (random rnd st).2).
  assert (Hg1 : growing W H st1 Vs Es)
    by (eapply growing_sameGrid; [apply random_sameGrid | done]).
  assert (Hcell : inGrid st cell) by (apply Hcells; by left).
  eexists cell, _, _. split; [done|].
  apply (growing_extend_back W H st1 Vs Es (step cell d) cell d); try done.
  - by apply (rep_gen _ _ _ (g_rep _ _ _ _ _ Hg)).
  - intros Hin. apply (rep_gen _ _ _ (g_rep _ _ _ _ _ Hg)) in Hin; [congruence | done].
Qed.

Lemma huntLoop_done : forall fuel current st Vs Es,
  growing W H st Vs Es -> current ∈ Vs -> (remaining W H Vs < fuel)%nat ->
  exists st' Vs' Es',
    huntLoop rnd fuel current st = Done st' /\ growing W H st' Vs' Es' /\
    forall c, c ∈ Vs' -> closedAt st' Vs' c.
Proof.
  induction fuel as [|fuel IH]; intros current st Vs Es Hg Hcur Hfuel; [lia|].
  cbn [huntLoop]. destruct (unvisited st current) as [|n ns] eqn:Hun.
  - destruct (hunt_spec (rowMajor (gridWidth st) (gridHeight st)) st Vs Es Hg)
      as [[-> Hnone]|(cell & st' & Es' & -> & Hg')].
    + intros c. apply elem_of_rowMajor_inGrid.
    + exists st, Vs, Es. split; [done | split; [done|]].
      intros c Hc d Hd. pose proof (g_rep _ _ _ _ _ Hg) as Hrep.
      destruct (isGenerated st (step c d)) eqn:Hgen; [by apply (rep_gen _ _ _ Hrep)|].
      assert (Hin : (c, opposite d) ∈ filter (fun n : Cell * Dir => isGenerated st n.1 = true)
                                        (neighbors st (step c d))).
      { apply list_elem_of_filter. split.
        - simpl. apply (rep_gen _ _ _ Hrep); [by apply (rep_in _ _ _ Hrep) | done].
        - apply elem_of_neighbors. split; [|by apply (rep_in _ _ _ Hrep)].
          symmetry. by apply step_back. }
      rewrite Hnone in Hin; [by apply elem_of_nil in Hin | | done].
      by apply elem_of_rowMajor_inGrid.
    + apply (IH cell st' (cell :: Vs) Es' Hg'); [by left|].
      rewrite (remaining_cons W H _ Vs _ cell Hg') in Hfuel. lia.
  - destruct (randomItem_spec rnd (n :: ns) st) as ([next d] & -> & Hin); [done|].
    rewrite <- Hun in Hin. apply elem_of_unvisited in Hin as (Hnext & Hinside & Hfresh).
    set (st1 := (random rnd st).2).
    assert (Hg1 : growing W H st1 Vs Es)
      by (eapply growing_sameGrid; [apply random_sameGrid | done]).
    assert (Hnew : next ∉ Vs).
    { intros Hin. apply (rep_gen _ _ _ (g_rep _ _ _ _ _ Hg)) in Hin; [congruence | done]. }
    assert (Hg2 : growing W H (markGenerated (carvePassage st1 current next) next)
                    (next :: Vs) ((current, next) :: Es))
      by (by apply (growing_extend W H st1 Vs Es current next d)).
    apply (IH _ _ (next :: Vs) ((current, next) :: Es) Hg2); [by left|].
    rewrite (remaining_cons W H _ Vs _ next Hg2) in Hfuel. lia.
Qed.

Lemma huntAndKill_spanning seed0 fuel :
  1 <= W -> 1 <= H -> (Z.to_nat (W * H) <= fuel)%nat ->
  exists st, huntAndKill rnd fuel (resetGrid W H seed0) = Done st /\
    gridWidth st = W /\ gridHeight st = H /\ spanningTree st.
Proof.
  intros HW HH Hfuel. unfold huntAndKill.
  destruct (startAtRandom_spec rnd W H seed0 HW HH) as (c & st1 & -> & Hg).
  destruct (huntLoop_done fuel c st1 [c] [] Hg) as (st & Vs & Es & Hrun & Hg' & Hcl).
  - by left.
  - unfold remaining. simpl. nia.
  - exists st. split; [done|]. by apply (closed_spanning W H st Vs Es).
Qed.

End HuntAndKill.

(** *** Sidewinder *)

(** The values [x], [x + s], ... that a run visits. *)
Fixpoint line (x s : Z) (n : nat) : list Z :=
  match n with
  | O => []
  | S n => x :: line (x + s) s n
  end.

Definition stride (eastward : bool) : Z := if eastward then 1 else -1.

Lemma line_seq k n : map Z.of_nat (seq k n) = line (Z.of_nat k) 1 n.
Proof.
  revert k. induction n as [|n IH]; intros k; [done|]. cbn [seq map line].
  rewrite IH. do 2 f_equal. lia.
Qed.

Lemma line_snoc x s n : line x s (S n) = line x s n ++ [x + s * Z.of_nat n].
Proof.
  revert x. induction n as [|n IH]; intros x.
  - simpl. f_equal. lia.
  - change (line x s (S (S n))) with (x :: line (x + s) s (S n)). rewrite IH.
    cbn [line app]. do 3 f_equal. lia.
Qed.

Lemma travel_line width eastward :
  0 <= width ->
  travel width eastward
  = line (if eastward then 0 else width - 1) (stride eastward) (Z.to_nat width).
Proof.
  intros Hw. unfold travel. destruct eastward; [apply (line_seq 0)|].
  rewrite <- (Z2Nat.id width) at 2 by done.
  induction (Z.to_nat width) as [|n IH]; [done|].
  rewrite seq_S, map_app, rev_app_distr. cbn [map rev app plus line stride].
  rewrite IH. f_equal; [lia|]. unfold stride. f_equal. lia.
Qed.

Section Sidewinder.
Variable rnd : nat -> Z.
Variables W H : Z.

Section Row.
Variable y : Z.
Hypothesis Hy : 1 <= y < H.
Variable eastward : bool.

(** The cells that the loops have visited before reaching [(x, y)]. *)
Definition beforeIn (x : Z) (c : Cell) : Prop :=
  snd c < y \/ (snd c = y /\ (if eastward then fst c < x else x < fst c)).

(** The state between two cells of a row: the run so far is a chain that
    leads to the next cell, and the cells before the run form a tree. *)
Record rowInv (x : Z) (n : nat) (run : list Cell) (st : Visualizer)
    (Vs : list Cell) (Es : list (Cell * Cell)) : Prop := {
  ri_width : gridWidth st = W;
  ri_height : gridHeight st = H;
  ri_line : (if eastward then 0 <= x /\ x + Z.of_nat n = W
             else x <= W - 1 /\ x - Z.of_nat n = -1);
  ri_tree : Tree Vs Es;
  ri_rep : represents st (run ++ Vs) (pairs (run ++ [(x, y)]) ++ Es);
  ri_last : n = O -> run = [];
  ri_nodup : NoDup run;
  ri_run : forall c, c ∈ run -> (c ∉ Vs) /\ snd c = y;
  ri_cells : forall c, c ∈ run ++ Vs <-> inGrid st c /\ beforeIn x c
}.

(** Closing out a run: a passage to the North from one of its cells. *)
Lemma closeOut_spec run st Vs Es :
  gridWidth st = W -> gridHeight st = H -> run <> [] ->
  Tree Vs Es -> represents st (run ++ Vs) (pairs run ++ Es) ->
  NoDup run -> (forall c, c ∈ run -> (c ∉ Vs) /\ snd c = y) ->
  (forall c, inGrid st c -> snd c < y -> c ∈ Vs) ->
  exists r north st',
    randomItem rnd run st = (Some r, st') /\
    getCell st' (fst r) (y - 1) = Some north /\
    growing W H (carvePassage st' r north) (run ++ Vs) ((r, north) :: pairs run ++ Es).
Proof.
  intros Hw Hh Hne HT Hrep Hnd Hrun Habove.
  destruct (randomItem_spec rnd run st Hne) as (r & Hr & Hin).
  set (st1 := (random rnd st).2) in *.
  assert (Hs : sameGrid st st1) by apply random_sameGrid.
  assert (Hrep1 : represents st1 (run ++ Vs) (pairs run ++ Es)) by (by eapply rep_sameGrid).
  assert (Hr1 : inGrid st1 r).
  { apply (rep_in _ _ _ Hrep1). apply elem_of_app. by left. }
  destruct (Hrun r Hin) as [_ Hry].
  assert (Hnorth : step r DirN = (fst r, y - 1)).
  { unfold step. simpl. f_equal; lia. }
  assert (Hn1 : inGrid st1 (step r DirN)).
  { rewrite Hnorth. unfold inGrid in *. simpl. destruct Hs as (Hw1 & Hh1 & _). lia. }
  exists r, (step r DirN), st1. split; [done|]. split.
  { apply getCell_Some. by rewrite <- Hnorth. }
  destruct (carvePassage_size st1 r (step r DirN)) as [Hw2 Hh2].
  pose proof Hs as (Hw1 & Hh1 & _).
  split; [congruence | congruence | by apply rep_carve |].
  apply list_elem_of_split in Hin as (l1 & l2 & ->).
  apply Tree_attach_run; [done | | done | intros c Hc; by apply Hrun].
  apply Habove.
  - apply (sameGrid_inGrid st st1); [done|]. done.
  - rewrite Hnorth. simpl. lia.
Qed.

Lemma beforeIn_next x c :
  beforeIn (x + stride eastward) c <-> beforeIn x c \/ c = (x, y).
Proof.
  destruct c as [cx cy]. unfold beforeIn, stride. simpl. split.
  - intros Hb. destruct (decide (cx = x)) as [->|Hx], (decide (cy = y)) as [->|Hcy];
      [by right | left; destruct eastward; lia ..].
  - intros [Hb | [= -> ->]]; destruct eastward; lia.
Qed.

Lemma runStep_spec x n run st Vs Es :
  rowInv x (S n) run st Vs Es ->
  exists run' st' Vs' Es',
    runStep rnd y eastward (Done (run, st)) x = Done (run', st') /\
    rowInv (x + stride eastward) n run' st' Vs' Es'.
Proof.
  intros [Hw Hh Hline HT Hrep _ Hnd Hrun Hcells].
  set (cell := (x, y)) in *.
  assert (Hx : 0 <= x < W) by (destruct eastward; lia).
  assert (Hcell : inGrid st cell) by (unfold inGrid, cell; simpl; lia).
  assert (Hfresh : cell ∉ run ++ Vs).
  { intros Hin. apply Hcells in Hin as [_ Hb]. unfold beforeIn, cell in Hb. simpl in Hb.
    destruct eastward; lia. }
  cbn [runStep].
  assert (getCell st x y = Some cell) as -> by (by apply getCell_Some).
  destruct (markGenerated_size st cell) as [Hw1 Hh1].
  assert (Hrep1 : represents (markGenerated st cell) ((run ++ [cell]) ++ Vs)
                    (pairs (run ++ [cell]) ++ Es)).
  { eapply rep_ext; [by apply (rep_mark _ _ _ cell Hrep) | | done].
    intros c. rewrite elem_of_cons, !elem_of_app, list_elem_of_singleton. tauto. }
  set (st1 := markGenerated st cell) in *.
  assert (Hnd1 : NoDup (run ++ [cell])).
  { apply NoDup_app. split; [done|]. split; [|apply NoDup_singleton].
    intros c Hc Hc'. apply list_elem_of_singleton in Hc' as ->.
    apply Hfresh, elem_of_app. by left. }
  assert (Hrun1 : forall c, c ∈ run ++ [cell] -> (c ∉ Vs) /\ snd c = y).
  { intros c Hc. apply elem_of_app in Hc as [Hc|Hc]; [by apply Hrun|].
    apply list_elem_of_singleton in Hc as ->. split; [|done].
    intros Hin. apply Hfresh, elem_of_app. by right. }
  assert (Hsame : forall st', gridWidth st' = W -> gridHeight st' = H ->
                  forall c, inGrid st' c <-> inGrid st c).
  { intros st' Hw' Hh' c. apply inGrid_size; congruence. }
  assert (Habove : forall st', gridWidth st' = W -> gridHeight st' = H ->
                   forall c, inGrid st' c -> snd c < y -> c ∈ Vs).
  { intros st' Hw' Hh' c Hc Hlt. apply (Hsame st' Hw' Hh') in Hc.
    assert (Hin : c ∈ run ++ Vs) by (apply Hcells; split; [done | by left]).
    apply elem_of_app in Hin as [Hin|Hin]; [|done]. apply Hrun in Hin. lia. }
  assert (Hcells1 : forall st', gridWidth st' = W -> gridHeight st' = H ->
            forall c, c ∈ (run ++ [cell]) ++ Vs
                      <-> inGrid st' c /\ beforeIn (x + stride eastward) c).
  { intros st' Hw' Hh' c. rewrite beforeIn_next, (Hsame st' Hw' Hh').
    specialize (Hcells c). rewrite elem_of_app in Hcells.
    rewrite !elem_of_app, list_elem_of_singleton. fold cell. split.
    - intros [[Hc| ->]|Hc]; [| split; [done | by right] |];
        (split; [|left]; apply Hcells; tauto).
    - intros [Hc [Hb| ->]]; [|left; by right].
      destruct (proj2 Hcells (conj Hc Hb)); [left; by left | by right]. }
  assert (Hclose : forall stX, sameGrid st1 stX ->
    exists run' st' Vs' Es',
      (let (o, st2) := randomItem rnd (run ++ [cell]) stX in
       match o with
       | Some runCell =>
           match getCell st2 runCell.1 (y - 1) with
           | Some northNeighbor => Done ([], carvePassage st2 runCell northNeighbor)
           | None => Done ([], st2)
           end
       | None => Crash
       end) = Done (run', st') /\ rowInv (x + stride eastward) n run' st' Vs' Es').
  { intros stX Hs. pose proof Hs as (HwX & HhX & _).
    destruct (closeOut_spec (run ++ [cell]) stX Vs Es)
      as (r & north & st3 & -> & -> & [Hw3 Hh3 Hrep3 HT3]);
      [congruence | congruence | by destruct run | done | by eapply rep_sameGrid
      | done | done | apply Habove; congruence |].
    exists [], (carvePassage st3 r north), ((run ++ [cell]) ++ Vs),
      ((r, north) :: pairs (run ++ [cell]) ++ Es).
    split; [done|]. split; try done.
    - unfold stride. destruct eastward; lia.
    - constructor.
    - intros c Hc. by apply elem_of_nil in Hc.
    - by apply Hcells1. }
  destruct n as [|n].
  { assert (eastward && (x =? gridWidth st1 - 1) || negb eastward && (x =? 0) = true) as ->.
    { rewrite Hw1, Hw. destruct eastward; simpl; [rewrite orb_false_r|]; apply Z.eqb_eq; lia. }
    cbn [negb]. by apply Hclose. }
  assert (eastward && (x =? gridWidth st1 - 1) || negb eastward && (x =? 0) = false) as ->.
  { rewrite Hw1, Hw. destruct eastward; simpl; [rewrite orb_false_r|]; apply Z.eqb_neq; lia. }
  pose proof (random_sameGrid rnd st1) as Hs2.
  destruct (random rnd st1) as [u st2]. simpl in Hs2. pose proof Hs2 as (Hw2 & Hh2 & _).
  destruct (below u 33 100); cbn [negb]; [by apply Hclose|].
  set (d := if eastward then DirE else DirW).
  assert (Hnb : (x + (if eastward then 1 else -1), y) = step cell d).
  { unfold step, d, cell. destruct eastward; simpl; f_equal; lia. }
  assert (Hnbin : inGrid st2 (step cell d)).
  { rewrite <- Hnb. unfold inGrid. simpl. destruct eastward; lia. }
  assert (getCell st2 (x + (if eastward then 1 else -1)) y = Some (step cell d)) as ->.
  { apply getCell_Some. by rewrite Hnb. }
  destruct (carvePassage_size st2 cell (step cell d)) as [Hw3 Hh3].
  exists (run ++ [cell]), (carvePassage st2 cell (step cell d)), Vs, Es.
  split; [done|]. split; try done.
  - congruence.
  - congruence.
  - unfold stride. destruct eastward; lia.
  - assert (Hc2 : inGrid st2 cell) by (apply (Hsame st2); [congruence | congruence | done]).
    pose proof (rep_carve st2 _ _ cell d (rep_sameGrid _ _ _ _ Hs2 Hrep1) Hc2 Hnbin) as Hrep3.
    eapply rep_ext; [exact Hrep3 | done |]. intros a b.
    apply linked_perm. unfold stride. fold d. rewrite <- Hnb.
    replace ((run ++ [cell]) ++ [(x + (if eastward then 1 else -1), y)])
      with (run ++ [cell; (x + (if eastward then 1 else -1), y)])
      by (by rewrite <- app_assoc).
    rewrite pairs_snoc. rewrite Hnb. solve_Permutation.
  - apply Hcells1; congruence.
Qed.

Lemma run_done : forall n x run st Vs Es,
  rowInv x n run st Vs Es ->
  exists run' st' Vs' Es',
    fold_left (runStep rnd y eastward) (line x (stride eastward) n) (Done (run, st))
    = Done (run', st') /\
    growing W H st' Vs' Es' /\
    forall c, c ∈ Vs' <-> inGrid st' c /\ snd c < y + 1.
Proof.
  induction n as [|n IH]; intros x run st Vs Es Hinv.
  - destruct Hinv as [Hw Hh Hline HT Hrep Hlast _ _ Hcells].
    rewrite (Hlast eq_refl) in *. simpl in Hrep, Hcells.
    exists [], st, Vs, Es. split; [done|]. split; [done|].
    intros c. rewrite Hcells. unfold beforeIn, inGrid. rewrite Hw.
    destruct eastward; lia.
  - destruct (runStep_spec x n run st Vs Es Hinv) as (run1 & st1 & Vs1 & Es1 & Hstep & Hinv1).
    cbn [line fold_left]. rewrite Hstep. by apply (IH _ run1 st1 Vs1 Es1).
Qed.

End Row.

Lemma rowStep_spec (y : Z) st Vs Es :
  1 <= y < H -> growing W H st Vs Es ->
  (forall c, c ∈ Vs <-> inGrid st c /\ snd c < y) ->
  exists st' Vs' Es',
    rowStep rnd (Done st) y = Done st' /\ growing W H st' Vs' Es' /\
    forall c, c ∈ Vs' <-> inGrid st' c /\ snd c < y + 1.
Proof.
  intros Hy Hg Hcells. destruct (growing_positive _ _ _ _ _ Hg) as [HW HH].
  destruct Hg as [Hw Hh Hrep HT]. cbn [rowStep].
  set (eastward := y mod 2 =? 0).
  rewrite Hw, (travel_line W eastward) by lia.
  destruct (run_done y Hy eastward (Z.to_nat W) (if eastward then 0 else W - 1) [] st Vs Es)
    as (run' & st' & Vs' & Es' & -> & Hg' & Hcells').
  - split; try done.
    + destruct eastward; lia.
    + constructor.
    + intros c Hc. by apply elem_of_nil in Hc.
    + intros c. simpl. rewrite Hcells. unfold beforeIn, inGrid. rewrite Hw.
      destruct eastward; lia.
  - by exists st', Vs', Es'.
Qed.

Lemma rows_done : forall k (y : nat) st Vs Es,
  (1 <= y)%nat -> Z.of_nat y + Z.of_nat k = H -> growing W H st Vs Es ->
  (forall c, c ∈ Vs <-> inGrid st c /\ snd c < Z.of_nat y) ->
  exists st' Vs' Es',
    fold_left (rowStep rnd) (map Z.of_nat (seq y k)) (Done st) = Done st' /\
    growing W H st' Vs' Es' /\ forall c, inGrid st' c -> c ∈ Vs'.
Proof.
  induction k as [|k IH]; intros y st Vs Es Hy Hk Hg Hcells.
  - exists st, Vs, Es. split; [done | split; [done|]]. intros c Hc. apply Hcells.
    split; [done|]. unfold inGrid in Hc. rewrite (g_height _ _ _ _ _ Hg) in Hc. lia.
  - cbn [seq map fold_left].
    destruct (rowStep_spec (Z.of_nat y) st Vs Es) as (st1 & Vs1 & Es1 & -> & Hg1 & Hcells1);
      [lia | done | done |].
    apply (IH (S y) st1 Vs1 Es1); [lia | lia | done |].
    intros c. rewrite Hcells1. split; (intros [? ?]; split; [done | lia]).
Qed.

Lemma firstRow_done : forall k (x : nat) st Vs Es,
  (1 <= x)%nat -> Z.of_nat x + Z.of_nat k = W -> 1 <= H -> growing W H st Vs Es ->
  (forall c, c ∈ Vs <-> inGrid st c /\ snd c = 0 /\ fst c < Z.of_nat x) ->
  exists Vs' Es',
    let st' := fold_left firstRowStep (map Z.of_nat (seq x k)) st in
    growing W H st' Vs' Es' /\ forall c, c ∈ Vs' <-> inGrid st' c /\ snd c < 1.
Proof.
  induction k as [|k IH]; intros x st Vs Es Hx Hk HH Hg Hcells.
  - cbn [seq map fold_left]. exists Vs, Es. split; [done|]. intros c.
    rewrite Hcells. unfold inGrid. rewrite (g_width _ _ _ _ _ Hg). lia.
  - cbn [seq map fold_left].
    pose proof Hg as [Hw Hh Hrep HT].
    set (cell := (Z.of_nat x, 0)). set (west := (Z.of_nat x - 1, 0)).
    assert (Hcell : inGrid st cell) by (unfold inGrid, cell; simpl; lia).
    assert (Hwest : inGrid st west) by (unfold inGrid, west; simpl; lia).
    assert (firstRowStep st (Z.of_nat x) = carvePassage (markGenerated st cell) west cell) as ->.
    { unfold firstRowStep.
      assert (getCell st (Z.of_nat x) 0 = Some cell) as -> by (by apply getCell_Some).
      by assert (getCell st (Z.of_nat x - 1) 0 = Some west) as -> by (by apply getCell_Some). }
    assert (Hg1 : growing W H (carvePassage (markGenerated st cell) west cell)
                    (cell :: Vs) ((west, cell) :: Es)).
    { apply (growing_extend_marked W H st Vs Es west cell DirE); [done | | | done |].
      - apply Hcells. unfold west. simpl. split; [done | lia].
      - unfold step, cell, west. simpl. f_equal; lia.
      - intros Hin. apply Hcells in Hin. unfold cell in Hin. simpl in Hin. lia. }
    apply (IH (S x) _ (cell :: Vs) ((west, cell) :: Es)); [lia | lia | done | done |].
    intros c. rewrite elem_of_cons, Hcells.
    assert (Hin : inGrid (carvePassage (markGenerated st cell) west cell) c <-> inGrid st c).
    { rewrite inGrid_carvePassage. apply inGrid_markGenerated. }
    rewrite Hin. destruct c as [cx cy]. unfold cell. simpl. split.
    + intros [[= -> ->] | (? & ? & ?)]; [split; [done | lia] | split; [done | lia]].
    + intros (Hc & -> & Hlt). destruct (decide (cx = Z.of_nat x)) as [->|];
        [by left | right; split; [done | lia]].
Qed.

Lemma sidewinderBidirectional_spanning seed0 :
  1 <= W -> 1 <= H ->
  exists st, sidewinderBidirectional rnd (resetGrid W H seed0) = Done st /\
    gridWidth st = W /\ gridHeight st = H /\ spanningTree st.
Proof.
  intros HW HH. unfold sidewinderBidirectional.
  set (st0 := resetGrid W H seed0).
  assert (Hfirst : inGrid st0 (0, 0)) by (unfold inGrid; simpl; lia).
  assert (getCell st0 0 0 = Some (0, 0)) as -> by (by apply getCell_Some).
  destruct (markGenerated_size st0 (0, 0)) as [Hw1 Hh1].
  assert (Hg1 : growing W H (markGenerated st0 (0, 0)) [(0, 0)] []).
  { split; [done | done | | apply Tree_root].
    apply rep_mark; [apply rep_resetGrid | done]. }
  set (st1 := markGenerated st0 (0, 0)) in *.
  destruct (firstRow_done (Z.to_nat (gridWidth st1) - 1) 1 st1 [(0, 0)] [])
    as (Vs2 & Es2 & Hg2 & Hcells2); [lia | rewrite Hw1; simpl; lia | done | done | |].
  { intros c. rewrite list_elem_of_singleton. destruct c as [cx cy].
    unfold inGrid. rewrite Hw1, Hh1. simpl. split; [intros [= -> ->]; lia|].
    intros (? & ? & ?). f_equal; lia. }
  cbv zeta in Hg2, Hcells2.
  set (st2 := fold_left firstRowStep
                (map Z.of_nat (seq 1 (Z.to_nat (gridWidth st1) - 1))) st1) in *.
  destruct (rows_done (Z.to_nat (gridHeight st2) - 1) 1 st2 Vs2 Es2)
    as (st3 & Vs3 & Es3 & Hrun & Hg3 & Hall);
    [lia | rewrite (g_height _ _ _ _ _ Hg2); lia | done | done |].
  exists st3. split; [done|]. by apply (growing_spanning W H st3 Vs3 Es3).
Qed.

End Sidewinder.

(** *** Wilson's algorithm *)

Definition adjacent (a b : Cell) : Prop := exists d, b = step a d.

Lemma chained_prefix {V} (R : V -> V -> Prop) (l1 l2 : list V) :
  chained R (l1 ++ l2) -> chained R l1.
Proof.
  induction l1 as [|a l1 IH]; [done|]. destruct l1 as [|b l1]; [done|].
  simpl. intros [Hab Hrest]. split; [done|]. by apply IH.
Qed.

Section Wilsons.
Variable rnd : nat -> Z.

(** The state of a random walk: [l ++ [current]] is its path, free of
    loops, and no cell before [current] is generated. *)
Record walkInv (st : Visualizer) (l : list Cell) (current : Cell)
    (visitedInWalk : gmap Cell nat) : Prop := {
  wi_nodup : NoDup (l ++ [current]);
  wi_in : forall c, c ∈ l ++ [current] -> inGrid st c;
  wi_fresh : forall c, c ∈ l -> isGenerated st c = false;
  wi_index : forall c i, visitedInWalk !! c = Some i <-> (l ++ [current]) !! i = Some c;
  wi_chain : chained adjacent (l ++ [current])
}.

(** A finished walk: a chain of cells that are not generated, up to the
    generated cell that it has reached. *)
Definition walked (st : Visualizer) (l : list Cell) (g : Cell) : Prop :=
  NoDup (l ++ [g]) /\ (forall c, c ∈ l ++ [g] -> inGrid st c) /\
  (forall c, c ∈ l -> isGenerated st c = false) /\ isGenerated st g = true /\
  chained adjacent (l ++ [g]).

Lemma walked_sameGrid st st' l g : sameGrid st st' -> walked st' l g -> walked st l g.
Proof.
  intros Hs (Hnd & Hin & Hfresh & Hg & Hchain). split; [done|]. split; [|split; [|split]].
  - intros c Hc. apply (sameGrid_inGrid st st'); [done | by apply Hin].
  - intros c Hc. rewrite <- (sameGrid_isGenerated st st') by done. by apply Hfresh.
  - by rewrite <- (sameGrid_isGenerated st st').
  - done.
Qed.

Lemma walk_spec : forall fuel l current visitedInWalk st path st',
  walkInv st l current visitedInWalk ->
  walk rnd fuel current (l ++ [current]) visitedInWalk st = Done (path, st') ->
  sameGrid st st' /\ exists l' g, path = l' ++ [g] /\ walked st l' g.
Proof.
  induction fuel as [|fuel IH]; intros l current visited st path st' Hinv Hrun; [done|].
  cbn [walk] in Hrun. destruct (isGenerated st current) eqn:Hgen.
  { injection Hrun as <- <-. split; [apply sameGrid_refl|]. exists l, current.
    split; [done|]. by destruct Hinv. }
  destruct (randomItem rnd (neighbors st current) st) as [[[next d]|] st1] eqn:Hri; [|done].
  apply randomItem_elem in Hri as [Hnb Hs]. apply elem_of_neighbors in Hnb as [Hnext Hin].
  destruct Hinv as [Hnd Hinside Hfresh Hindex Hchain].
  assert (Hall : forall c, c ∈ l ++ [current] -> isGenerated st c = false).
  { intros c Hc. apply elem_of_app in Hc as [Hc|Hc]; [by apply Hfresh|].
    by apply list_elem_of_singleton in Hc as ->. }
  set (path0 := l ++ [current]) in *.
  destruct (visited !! next) as [idx|] eqn:Hvis.
  - apply Hindex in Hvis. rewrite (take_S_r _ _ _ Hvis) in Hrun.
    apply IH in Hrun as [Hs' (l' & g & -> & Hw)].
    + split; [by eapply sameGrid_trans|]. exists l', g. split; [done|].
      by apply (walked_sameGrid st st1).
    + split; rewrite <- ?(take_S_r _ _ _ Hvis).
      * eapply sublist_NoDup; [exact Hnd | apply sublist_take].
      * intros c Hc. apply (sameGrid_inGrid st st1); [done|].
        apply Hinside. by apply (subseteq_take (S idx)).
      * intros c Hc. rewrite (sameGrid_isGenerated st st1) by done.
        apply Hall. by apply (subseteq_take idx).
      * intros c i. rewrite map_lookup_filter_Some, Hindex, lookup_take_Some. simpl.
        split; (intros [? ?]; split; [done | lia]).
      * apply (chained_prefix _ _ (drop (S idx) path0)). by rewrite take_drop.
  - assert (Hnew : next ∉ path0).
    { intros Hc. apply list_elem_of_lookup_1 in Hc as [i Hi].
      apply Hindex in Hi. congruence. }
    apply IH in Hrun as [Hs' (l' & g & -> & Hw)].
    + split; [by eapply sameGrid_trans|]. exists l', g. split; [done|].
      by apply (walked_sameGrid st st1).
    + split.
      * apply NoDup_app. split; [done|]. split; [|apply NoDup_singleton].
        intros c Hc Hc'. by apply list_elem_of_singleton in Hc' as ->.
      * intros c Hc. apply (sameGrid_inGrid st st1); [done|].
        apply elem_of_app in Hc as [Hc|Hc]; [by apply Hinside|].
        by apply list_elem_of_singleton in Hc as ->.
      * intros c Hc. rewrite (sameGrid_isGenerated st st1) by done. by apply Hall.
      * intros c i. rewrite lookup_insert, lookup_snoc_Some, length_app. simpl.
        replace (length path0 + 1 - 1)%nat with (length path0) by lia.
        case_decide as Hc.
        -- subst c. split; [intros [= <-]; by right|].
           intros [[_ Hi]|[-> _]]; [|done].
           exfalso. apply Hnew. by eapply list_elem_of_lookup_2.
        -- rewrite Hindex. split; [|intros [[_ Hi]|[_ ?]]; done].
           intros Hi. left. split; [by eapply lookup_lt_Some | done].
      * unfold path0. rewrite <- app_assoc. apply chained_app. split; [done|].
        simpl. split; [by exists d | done].
Qed.

Lemma elem_of_deleteKey (U : list Cell) k c : c ∈ deleteKey U k <-> c ∈ U /\ c <> k.
Proof. unfold deleteKey. rewrite list_elem_of_filter. tauto. Qed.

Lemma commit_spec : forall path U st Vs Es,
  represents st Vs Es -> chained adjacent path -> (forall c, c ∈ path -> inGrid st c) ->
  gridWidth (commit path U st).2 = gridWidth st /\
  gridHeight (commit path U st).2 = gridHeight st /\
  represents (commit path U st).2 (tail path ++ Vs) (pairs path ++ Es) /\
  forall c, c ∈ (commit path U st).1 <-> c ∈ U /\ c ∉ tail path.
Proof.
  induction path as [|cell path IH]; intros U st Vs Es Hrep Hchain Hin.
  { simpl. split; [done|]. split; [done|]. split; [done|]. intros c.
    split; [intros Hc; split; [done | apply not_elem_of_nil] | tauto]. }
  destruct path as [|next rest].
  { simpl. split; [done|]. split; [done|]. split; [done|]. intros c.
    split; [intros Hc; split; [done | apply not_elem_of_nil] | tauto]. }
  destruct Hchain as [[d Hd] Hchain].
  assert (Hcell : inGrid st cell) by (apply Hin; by left).
  assert (Hnext : inGrid st next) by (apply Hin; right; by left).
  set (st1 := markGenerated (carvePassage st cell next) next).
  change (commit (cell :: next :: rest) U st)
    with (commit (next :: rest) (deleteKey U next) st1).
  assert (Hsize : gridWidth st1 = gridWidth st /\ gridHeight st1 = gridHeight st).
  { destruct (carvePassage_size st cell next), (markGenerated_size (carvePassage st cell next) next).
    unfold st1. split; congruence. }
  destruct Hsize as [Hw1 Hh1].
  assert (Hrep1 : represents st1 (next :: Vs) ((cell, next) :: Es)).
  { apply rep_mark; [|by apply inGrid_carvePassage].
    rewrite Hd. apply rep_carve; [done | done | by rewrite <- Hd]. }
  destruct (IH (deleteKey U next) st1 (next :: Vs) ((cell, next) :: Es) Hrep1 Hchain)
    as (Hw2 & Hh2 & Hrep2 & HU).
  { intros c Hc. apply (inGrid_size st st1); [done | done |]. apply Hin. by right. }
  split; [congruence|]. split; [congruence|]. split.
  - eapply rep_ext; [exact Hrep2 | |].
    + intros c. cbn [tail]. rewrite !elem_of_app, !elem_of_cons. tauto.
    + intros a b. apply linked_perm. cbn [pairs]. solve_Permutation.
  - intros c. rewrite HU, elem_of_deleteKey. cbn [tail]. rewrite elem_of_cons. tauto.
Qed.

Section Loop.
Variables W H : Z.

Lemma wilsonsLoop_spec : forall fuel U st Vs Es st',
  wilsonsLoop rnd fuel U st = Done st' ->
  growing W H st Vs Es -> (forall c, c ∈ U <-> inGrid st c /\ c ∉ Vs) ->
  exists Vs' Es', growing W H st' Vs' Es' /\ forall c, inGrid st' c -> c ∈ Vs'.
Proof.
  induction fuel as [|fuel IH]; intros U st Vs Es st' Hrun Hg HU; [done|].
  cbn [wilsonsLoop] in Hrun. destruct U as [|u0 U0] eqn:HUeq.
  { injection Hrun as <-. exists Vs, Es. split; [done|]. intros c Hc.
    destruct (decide (c ∈ Vs)) as [|Hn]; [done|].
    assert (Hcu : c ∈ []) by (by apply HU). by apply elem_of_nil in Hcu. }
  rewrite <- HUeq in *. clear HUeq u0 U0.
  destruct (randomItem rnd U st) as [[[sx sy]|] st1] eqn:Hri; [|done].
  apply randomItem_elem in Hri as [Hstart Hs1].
  destruct (getCell st1 sx sy) as [current|] eqn:Hget; [|done].
  apply getCell_Some in Hget as [-> Hcur].
  destruct (walk rnd fuel (sx, sy) [(sx, sy)] {[(sx, sy) := 0%nat]} st1)
    as [[path st2]| |] eqn:Hwalk; [|done|done].
  apply (walk_spec fuel [] (sx, sy)) in Hwalk as [Hs2 (l & g & -> & Hwalked)].
  2:{ split.
      - apply NoDup_singleton.
      - intros c Hc. by apply list_elem_of_singleton in Hc as ->.
      - intros c Hc. by apply elem_of_nil in Hc.
      - intros c i. rewrite lookup_singleton_Some. simpl.
        split; [intros [<- <-]; done|]. intros Hi.
        destruct i as [|i]; [|done]. by injection Hi as <-.
      - done. }
  assert (Hg2 : growing W H st2 Vs Es).
  { eapply growing_sameGrid; [|done]. by eapply sameGrid_trans. }
  assert (Hwalked2 : walked st2 l g).
  { destruct Hs2 as (Hw2 & Hh2 & Hgrid2). destruct Hwalked as (Hnd & Hin & Hfresh & Hgen & Hch).
    split; [done|]. split; [|split; [|split]]; try done.
    - intros c Hc. apply (inGrid_size st1 st2); [done | done | by apply Hin].
    - intros c Hc. rewrite (sameGrid_isGenerated st1 st2); [by apply Hfresh | done].
    - rewrite (sameGrid_isGenerated st1 st2); [done | done]. }
  clear Hwalked. destruct Hwalked2 as (Hnd & Hin & Hfresh & Hgen & Hchain).
  pose proof Hg2 as [Hw2 Hh2 Hrep2 HT2].
  assert (HgVs : g ∈ Vs).
  { apply (rep_gen _ _ _ Hrep2); [|done]. apply Hin, elem_of_app. right.
    by apply list_elem_of_singleton. }
  assert (HlVs : forall c, c ∈ l -> c ∉ Vs).
  { intros c Hc HcVs. apply (rep_gen _ _ _ Hrep2) in HcVs.
    - rewrite (Hfresh c Hc) in HcVs. done.
    - apply Hin, elem_of_app. by left. }
  assert (Hndl : NoDup l) by (by apply NoDup_app in Hnd as [? _]).
  destruct (l ++ [g]) as [|first rest] eqn:Hpath; [done|].
  assert (Hfirst : inGrid st2 first) by (apply Hin; by left).
  destruct (markGenerated_size st2 first) as [Hw3 Hh3].
  set (st3 := markGenerated st2 first) in *.
  pose proof (commit_spec (first :: rest) (deleteKey U first) st3 (first :: Vs) Es)
    as (Hw4 & Hh4 & Hrep4 & HU4).
  { by apply rep_mark. }
  { done. }
  { intros c Hc. apply (inGrid_size st2 st3); [done | done | by apply Hin]. }
  destruct (commit (first :: rest) (deleteKey U first) st3) as [U4 st4].
  simpl in Hw4, Hh4, Hrep4, HU4.
  assert (Hmem : forall c, c ∈ rest ++ first :: Vs <-> c ∈ l ++ Vs).
  { intros c. rewrite elem_of_app, elem_of_cons, elem_of_app.
    assert (Hp : c ∈ first :: rest <-> c ∈ l \/ c = g).
    { rewrite <- Hpath, elem_of_app, list_elem_of_singleton. tauto. }
    rewrite elem_of_cons in Hp. split.
    - intros [Hc|[Hc|Hc]]; [| |by right].
      + destruct (proj1 Hp (or_intror Hc)) as [?| ->]; [by left | by right].
      + destruct (proj1 Hp (or_introl Hc)) as [?| ->]; [by left | by right].
    - intros [Hc|Hc]; [|right; by right].
      destruct (proj2 Hp (or_introl Hc)); [right; by left | by left]. }
  apply (IH U4 st4 (l ++ Vs) (pairs (l ++ [g]) ++ Es) st' Hrun).
  - split; [congruence | congruence | |].
    + eapply rep_ext; [exact Hrep4 | | ].
      * intros c. symmetry. apply Hmem.
      * intros a b. by rewrite Hpath.
    + by apply Tree_attach_path.
  - intros c. rewrite HU4, elem_of_deleteKey, HU.
    assert (Hsz : inGrid st4 c <-> inGrid st c).
    { pose proof Hs1 as (Hw1 & Hh1 & _). pose proof Hs2 as (Hw2' & Hh2' & _).
      apply inGrid_size; congruence. }
    rewrite Hsz. specialize (Hmem c).
    rewrite !elem_of_app, elem_of_cons in Hmem. rewrite elem_of_app. tauto.
Qed.

End Loop.

Lemma wilsons_partial W H seed0 fuel st :
  1 <= W -> 1 <= H -> wilsons rnd fuel (resetGrid W H seed0) = Done st ->
  gridWidth st = W /\ gridHeight st = H /\ spanningTree st.
Proof.
  intros HW HH. unfold wilsons. set (st0 := resetGrid W H seed0).
  destruct (randomCell_spec rnd st0) as (root & st1 & -> & Hroot & Hs);
    [simpl; lia | simpl; lia |].
  change (gridWidth st0) with W. change (gridHeight st0) with H. intros Hrun.
  pose proof Hs as (Hw1 & Hh1 & _).
  assert (Hroot1 : inGrid st1 root) by (by apply (sameGrid_inGrid st0 st1)).
  destruct (markGenerated_size st1 root) as [Hw2 Hh2].
  assert (Hg : growing W H (markGenerated st1 root) [root] []).
  { split; [by rewrite Hw2, Hw1 | by rewrite Hh2, Hh1 | | apply Tree_root].
    apply rep_mark; [|done]. eapply rep_sameGrid; [done | apply rep_resetGrid]. }
  apply (wilsonsLoop_spec W H _ _ _ [root] []) in Hrun as (Vs' & Es' & Hg' & Hall);
    [by apply (growing_spanning W H st Vs' Es') | done |].
  intros c. rewrite elem_of_deleteKey, elem_of_rowMajor, list_elem_of_singleton.
  unfold inGrid. rewrite Hw2, Hh2, Hw1, Hh1. simpl. tauto.
Qed.

End Wilsons.

(** A sequence of choices for which the random walk of Wilson's algorithm
    never reaches the tree: on a row of three cells the root is the first
    one, the walk starts at the second, steps to the third and back, and so
    on for ever. *)
Definition alwaysFirst : nat -> Z := fun _ => 0.

Definition bounceState (k : nat) : Visualizer :=
  {| gridWidth := 3; gridHeight := 1;
     grid := [[ {| walls := walls newCell; generated := true; order := 1 |};
                newCell; newCell ]];
     maxOrder := 2; seed := k |}.

Lemma walk_bounces : forall fuel k,
  walk alwaysFirst fuel (1, 0) [(1, 0)] {[ (1, 0) := 0%nat ]} (bounceState k) = OutOfFuel /\
  walk alwaysFirst fuel (2, 0) [(1, 0); (2, 0)]
       (<[ (2, 0) := 1%nat ]> {[ (1, 0) := 0%nat ]}) (bounceState k) = OutOfFuel.
Proof.
  induction fuel as [|fuel IH]; intros k; [done|]. split.
  - cbn [walk].
    change (isGenerated (bounceState k) (1, 0)) with false. cbv iota.
    change (randomItem alwaysFirst (neighbors (bounceState k) (1, 0)) (bounceState k))
      with (Some ((2, 0), DirE), bounceState (S k)). cbv iota beta.
    assert (({[ (1, 0) := 0%nat ]} : gmap Cell nat) !! ((2, 0) : Cell) = None) as ->
      by (by apply lookup_singleton_ne).
    apply (IH (S k)).
  - cbn [walk].
    change (isGenerated (bounceState k) (2, 0)) with false. cbv iota.
    change (randomItem alwaysFirst (neighbors (bounceState k) (2, 0)) (bounceState k))
      with (Some ((1, 0), DirW), bounceState (S k)). cbv iota beta.
    assert ((<[ (2, 0) := 1%nat ]> {[ (1, 0) := 0%nat ]} : gmap Cell nat) !! ((1, 0) : Cell)
            = Some 0%nat) as ->.
    { rewrite lookup_insert_ne by done. apply lookup_singleton_eq. }
    assert (filter (fun kv : Cell * nat => (kv.2 <= 0)%nat)
              (<[ (2, 0) := 1%nat ]> {[ (1, 0) := 0%nat ]} : gmap Cell nat)
            = {[ (1, 0) := 0%nat ]}) as ->.
    { rewrite map_filter_insert_False by (simpl; lia).
      rewrite delete_singleton_ne by done.
      apply map_filter_singleton_True. simpl. lia. }
    apply (IH (S k)).
Qed.

Lemma wilsons_bounces fuel : wilsons alwaysFirst fuel (resetGrid 3 1 0) = OutOfFuel.
Proof.
  unfold wilsons.
  change (randomCell alwaysFirst (resetGrid 3 1 0))
    with (Some ((0, 0) : Cell),
          {| gridWidth := 3; gridHeight := 1; grid := grid (resetGrid 3 1 0);
             maxOrder := 1; seed := 2 |}).
  cbv iota beta zeta.
  change (markGenerated _ (0, 0)) with (bounceState 2).
  change (deleteKey _ (0, 0)) with [((1, 0) : Cell); (2, 0)].
  destruct fuel as [|fuel]; [done|]. cbn [wilsonsLoop].
  change (randomItem alwaysFirst [((1, 0) : Cell); (2, 0)] (bounceState 2))
    with (Some ((1, 0) : Cell), bounceState 3). cbv iota beta.
  change (getCell (bounceState 3) 1 0) with (Some ((1, 0) : Cell)). cbv iota.
  by rewrite (proj1 (walk_bounces fuel 3)).
Qed.

(** *** The five generators *)

(** The state is a [W] by [H] grid whose carved passages form a spanning
    tree. *)
Definition spansGrid (W H : Z) (st : Visualizer) : Prop :=
  gridWidth st = W /\ gridHeight st = H /\ spanningTree st.

(** A sequence of choices used to run the generators on an example. *)
Definition sampleChoices : nat -> Z := fun k => (Z.of_nat k + 1) * 2718281828459045.

(** C2, amended. On a fresh [W] by [H] grid, for every sequence [rnd] of
    random choices, the recursive backtracker, the growing tree, hunt-and-kill
    and the sidewinder return (the first three within a number of loop
    iterations bounded by the number of cells), and the passages they have
    carved form a spanning tree of the grid: [W * H - 1] passages, no cycle,
    every cell reachable from every other. Wilson's algorithm carves a
    spanning tree whenever it returns; its random walk returns for some
    sequences of choices only. *)
Theorem generators_carve_spanning_tree (rnd : nat -> Z) (W H : Z) (seed0 : nat) :
  1 <= W -> 1 <= H ->
  (forall fuel, (2 * Z.to_nat (W * H) < fuel)%nat ->
     exists st, recursiveBacktracker rnd fuel (resetGrid W H seed0) = Done st /\
                spansGrid W H st) /\
  (forall fuel, (2 * Z.to_nat (W * H) < fuel)%nat ->
     exists st, growingTreeRightWall rnd fuel (resetGrid W H seed0) = Done st /\
                spansGrid W H st) /\
  (forall fuel, (Z.to_nat (W * H) <= fuel)%nat ->
     exists st, huntAndKill rnd fuel (resetGrid W H seed0) = Done st /\
                spansGrid W H st) /\
  (exists st, sidewinderBidirectional rnd (resetGrid W H seed0) = Done st /\
              spansGrid W H st) /\
  (forall fuel st, wilsons rnd fuel (resetGrid W H seed0) = Done st -> spansGrid W H st).
Proof.
  intros HW HH. split; [|split; [|split; [|split]]].
  - intros fuel Hfuel. by apply recursiveBacktracker_spanning.
  - intros fuel Hfuel. by apply growingTreeRightWall_spanning.
  - intros fuel Hfuel. by apply huntAndKill_spanning.
  - by apply sidewinderBidirectional_spanning.
  - intros fuel st Hrun. by apply (wilsons_partial rnd W H seed0 fuel).
Qed.

Lemma generators_carve_spanning_tree_witness :
  (exists st, recursiveBacktracker sampleChoices 13 (resetGrid 3 2 0) = Done st /\
              spansGrid 3 2 st) /\
  (exists st, sidewinderBidirectional sampleChoices (resetGrid 3 2 0) = Done st /\
              spansGrid 3 2 st) /\
  (exists st, wilsons sampleChoices 40 (resetGrid 3 2 0) = Done st /\ spansGrid 3 2 st).
Proof.
  destruct (generators_carve_spanning_tree sampleChoices 3 2 0 ltac:(lia) ltac:(lia))
    as (Hbacktracker & _ & _ & Hsidewinder & Hwilsons).
  split; [apply Hbacktracker; vm_compute; lia|]. split; [exact Hsidewinder|].
  destruct (wilsons sampleChoices 40 (resetGrid 3 2 0)) as [st| |] eqn:Hrun.
  - exists st. split; [reflexivity | by apply (Hwilsons 40%nat)].
  - vm_compute in Hrun. discriminate Hrun.
  - vm_compute in Hrun. discriminate Hrun.
Defined.

(** C2 as stated fails for Wilson's algorithm: with the choices
    [alwaysFirst] on a row of three cells the walk never reaches the tree, so
    the algorithm does not return, whatever the number of iterations. *)
Lemma wilsons_walk_without_end :
  (1 <= 3 /\ 1 <= 1) /\
  forall fuel, wilsons alwaysFirst fuel (resetGrid 3 1 0) = OutOfFuel.
Proof. split; [lia | apply wilsons_bounces]. Qed.

End GeneratorFacts.

(** ** Progress of the player against the solution ([engine.ts], game screen) *)

Module Progress.
Import Engine Game.

(** The number of leading moves on which two sequences agree. *)
Fixpoint commonPrefix (p s : list Z) : nat :=
  match p, s with
  | a :: p', b :: s' => if decide (a = b) then S (commonPrefix p' s') else O
  | _, _ => O
  end.

Lemma commonPrefix_le p s : (commonPrefix p s <= Nat.min (length p) (length s))%nat.
Proof.
  revert s. induction p as [|a p IH]; intros [|b s]; simpl; try lia.
  destruct (decide (a = b)); [specialize (IH s)|]; lia.
Qed.

Lemma commonPrefix_agree p s j : (j < commonPrefix p s)%nat -> p !! j = s !! j.
Proof.
  revert s j. induction p as [|a p IH]; intros [|b s] j; simpl; try lia.
  destruct (decide (a = b)) as [->|]; [|lia].
  destruct j as [|j]; [done|]. intros Hj. simpl. apply IH. lia.
Qed.

Lemma commonPrefix_differ p s :
  (commonPrefix p s < Nat.min (length p) (length s))%nat ->
  p !! commonPrefix p s <> s !! commonPrefix p s.
Proof.
  revert s. induction p as [|a p IH]; intros [|b s]; simpl; try lia.
  destruct (decide (a = b)) as [->|Hab].
  - intros Hlt. apply IH. lia.
  - intros _. simpl. congruence.
Qed.

Lemma commonPrefix_take p s :
  take (commonPrefix p s) p = take (commonPrefix p s) s.
Proof.
  revert s. induction p as [|a p IH]; intros [|b s]; simpl; try done.
  destruct (decide (a = b)) as [->|]; [|done]. simpl. by rewrite IH.
Qed.

Lemma commonPrefix_prefix p s :
  p `prefix_of` s <-> commonPrefix p s = length p.
Proof.
  revert s. induction p as [|a p IH]; intros s.
  - split; [done | intros _; apply prefix_nil].
  - destruct s as [|b s].
    + split; [intros H; by apply prefix_nil_not in H | done].
    + simpl. destruct (decide (a = b)) as [->|Hab].
      * split.
        -- intros H. f_equal. apply IH. by eapply prefix_cons_inv_2.
        -- intros [= H]. apply prefix_cons, IH, H.
      * split; [|done]. intros H. by apply prefix_cons_inv_1 in H.
Qed.

(** The position that the loop of [firstDivergence] finds is the length of
    the common prefix. *)
Lemma firstDivergence_commonPrefix (p s : list Z) :
  firstDivergence p s =
  if decide (p `prefix_of` s) then -1 else Z.of_nat (commonPrefix p s).
Proof.
  unfold firstDivergence.
  pose proof (commonPrefix_le p s) as Hle.
  destruct (firstDivergence_loop p s (Nat.min (length p) (length s)) 0) as [k|] eqn:Hloop.
  - apply loop_some in Hloop as (Hk & Hd & Hj).
    assert (k = commonPrefix p s) as ->.
    { destruct (Nat.lt_trichotomy k (commonPrefix p s)) as [Hlt|[->|Hgt]]; [|done|].
      - exfalso. apply Hd. by apply commonPrefix_agree.
      - exfalso. apply (commonPrefix_differ p s); [lia|]. apply Hj. lia. }
    rewrite decide_False; [done|]. intros Hp. apply commonPrefix_prefix in Hp. lia.
  - assert (Hall : forall j, (j < Nat.min (length p) (length s))%nat -> p !! j = s !! j).
    { intros j Hj. eapply loop_none; [exact Hloop | lia]. }
    assert (Hcp : commonPrefix p s = Nat.min (length p) (length s)).
    { destruct (decide (commonPrefix p s = Nat.min (length p) (length s))) as [|Hne]; [done|].
      exfalso. apply (commonPrefix_differ p s); [lia|]. apply Hall. lia. }
    destruct (decide (p `prefix_of` s)) as [Hp|Hp].
    + pose proof (prefix_length _ _ Hp). zcases; lia.
    + zcases; [lia|]. exfalso. apply Hp, commonPrefix_prefix. lia.
Qed.

(** X1. [firstDivergence] answers -1 only for a player on track: it returns
    -1 exactly when the player's moves are a prefix of the reference, and in
    every other case the number of leading moves that agree. *)
Theorem firstDivergence_on_track (playerMoves referenceMoves : list Z) :
  (firstDivergence playerMoves referenceMoves = -1 <->
   playerMoves `prefix_of` referenceMoves) /\
  (~ playerMoves `prefix_of` referenceMoves ->
   firstDivergence playerMoves referenceMoves
   = Z.of_nat (commonPrefix playerMoves referenceMoves)).
Proof.
  rewrite firstDivergence_commonPrefix.
  destruct (decide (playerMoves `prefix_of` referenceMoves)) as [Hp|Hp].
  - split; [done|]. by intros [].
  - split; [split; [lia | done] | done].
Qed.

(** X2. [evaluateMoves] stores as progress the number of leading moves of the
    player that agree with the solution, whatever follows them; its divergence
    index is -1 when the solution is empty or the moves are a prefix of it,
    and equal to the progress otherwise. *)
Theorem evaluateMoves_progress (solution moves : list Z) :
  evaluateMoves solution moves =
  (if decide (solution = [] \/ moves `prefix_of` solution)
   then -1 else Z.of_nat (commonPrefix moves solution),
   Z.of_nat (commonPrefix moves solution)).
Proof.
  unfold evaluateMoves. destruct solution as [|s0 solution].
  - rewrite decide_True by (by left). by destruct moves.
  - set (sol := s0 :: solution). rewrite firstDivergence_commonPrefix.
    destruct (decide (moves `prefix_of` sol)) as [Hp|Hp].
    + rewrite decide_True by (by right). simpl. f_equal.
      pose proof (prefix_length _ _ Hp) as Hlen. apply commonPrefix_prefix in Hp.
      unfold sol in Hlen. simpl in Hlen. lia.
    + rewrite decide_False by (intros [?|?]; done).
      destruct (Z.eqb_spec (Z.of_nat (commonPrefix moves sol)) (-1)); [lia | done].
Qed.

End Progress.

(** ** The game screen ([GameScreen]) *)

Module GameLogic.
Import Engine Game.

(** [computeStars], on integer arguments. *)
Definition computeStars (elapsedMs hintsUsed slicesUsed : Z) : Z :=
  let stars := 3 in
  let stars := if elapsedMs >? 5 * 60 * 1000 then stars - 1 else stars in
  let stars := if hintsUsed >? 0 then stars - 1 else stars in
  let stars := if slicesUsed >? 2 then stars - 1 else stars in
  Z.max 1 stars.

(** [DIRECTIONS[move] ?? { dx: 0, dy: 0 }]. *)
Definition directionOf (move : Z) : Z * Z :=
  match Js.get DIRECTIONS move with
  | Some (dx, dy, _) => (dx, dy)
  | None => (0, 0)
  end.

(** The callback of [moves.forEach] in [makeSolutionCells] and of
    [segment.forEach] in [requestHint]: the cursor steps and is pushed. *)
Definition pushStep (acc : list GridPoint * GridPoint) (move : Z)
  : list GridPoint * GridPoint :=
  let '(cells, cursor) := acc in
  let '(dx, dy) := directionOf move in
  let cursor := (fst cursor + dx, snd cursor + dy) in
  (cells ++ [cursor], cursor).

Definition makeSolutionCells (moves : list Z) : list GridPoint :=
  fst (fold_left pushStep moves ([(0, 0)], (0, 0))).

(** The last part of [requestHint], from the call of [hintSegment] on: the
    cells to highlight, [None] when the segment is empty and the function
    returns before [setHintCells]. A read of [solutionCells] outside the
    array gives [undefined], and the first step from it throws. The checks
    before it are in [HintRequest.requestHint]. *)
Definition hintHighlight (solutionMoves : list Z) (progress divergence L : Z)
  : Res (option (list GridPoint)) :=
  let segment := hintSegment solutionMoves progress divergence L in
  match segment with
  | [] => Ok None
  | _ =>
      let solutionCells := makeSolutionCells solutionMoves in
      let startIndex := Z.max progress (if divergence >=? 0 then divergence else progress) in
      match Js.get solutionCells
                   (Z.min startIndex (Z.of_nat (length solutionCells) - 1)) with
      | None => Throw "TypeError: cannot read properties of undefined"
      | Some cursor => Ok (Some (fst (fold_left pushStep segment ([], cursor))))
      end
  end.

(** *** Stars *)

(** X3. [computeStars] awards between one and three stars; three exactly
    when the maze took at most five minutes, no hint and at most two slices;
    and more time, hints or slices never earn more stars. *)
Theorem computeStars_range (elapsedMs hintsUsed slicesUsed : Z) :
  1 <= computeStars elapsedMs hintsUsed slicesUsed <= 3 /\
  (computeStars elapsedMs hintsUsed slicesUsed = 3 <->
   elapsedMs <= 300000 /\ hintsUsed <= 0 /\ slicesUsed <= 2) /\
  (forall elapsedMs' hintsUsed' slicesUsed',
     elapsedMs <= elapsedMs' -> hintsUsed <= hintsUsed' -> slicesUsed <= slicesUsed' ->
     computeStars elapsedMs' hintsUsed' slicesUsed'
     <= computeStars elapsedMs hintsUsed slicesUsed).
Proof.
  unfold computeStars. split; [|split].
  - zcases; lia.
  - zcases; lia.
  - intros e' h' s' He Hh Hs. zcases; lia.
Qed.

(** *** The solution path *)

(** The cells that follow [cursor] along the moves. *)
Fixpoint walkFrom (cursor : GridPoint) (moves : list Z) : list GridPoint :=
  match moves with
  | [] => []
  | move :: moves' =>
      let next := (fst cursor + fst (directionOf move), snd cursor + snd (directionOf move)) in
      next :: walkFrom next moves'
  end.

Lemma fold_pushStep (moves : list Z) : forall cells cursor,
  fst (fold_left pushStep moves (cells, cursor)) = cells ++ walkFrom cursor moves.
Proof.
  induction moves as [|move moves IH]; intros cells cursor.
  - simpl. by rewrite app_nil_r.
  - cbn [fold_left walkFrom]. unfold pushStep at 2.
    destruct (directionOf move) as [dx dy]. simpl fst. simpl snd.
    rewrite IH. by rewrite <- app_assoc.
Qed.

Lemma makeSolutionCells_walk (moves : list Z) :
  makeSolutionCells moves = (0, 0) :: walkFrom (0, 0) moves.
Proof. unfold makeSolutionCells. by rewrite fold_pushStep. Qed.

Lemma length_walkFrom cursor moves : length (walkFrom cursor moves) = length moves.
Proof. revert cursor. induction moves as [|m moves IH]; intros c; simpl; [done | by rewrite IH]. Qed.

Lemma movesFrom_walk (rest : list GridPoint) : forall prev acc moves,
  Packer.movesFrom prev rest acc = Ok moves ->
  exists tail, moves = acc ++ tail /\ walkFrom prev tail = rest.
Proof.
  induction rest as [|current rest IH]; intros prev acc moves Hrun.
  - injection Hrun as <-. exists []. by rewrite app_nil_r.
  - cbn [Packer.movesFrom] in Hrun.
    assert (Hstep : forall m, directionOf m = (fst current - fst prev, snd current - snd prev) ->
              Packer.movesFrom current rest (acc ++ [m]) = Ok moves ->
              exists tail, moves = acc ++ tail /\ walkFrom prev tail = current :: rest).
    { intros m Hm Hgo. apply IH in Hgo as (tail & -> & Hw).
      exists (m :: tail). split; [by rewrite <- app_assoc|].
      cbn [walkFrom]. rewrite Hm. simpl fst. simpl snd.
      replace (prev.1 + (current.1 - prev.1), prev.2 + (current.2 - prev.2)) with current
        by (destruct current; simpl; f_equal; lia).
      by rewrite Hw. }
    destruct (Z.eqb_spec (fst current - fst prev) 0) as [Hx|Hx];
      destruct (Z.eqb_spec (snd current - snd prev) (-1)) as [Hy|Hy];
      destruct (Z.eqb_spec (fst current - fst prev) 1) as [Hx1|Hx1];
      destruct (Z.eqb_spec (snd current - snd prev) 0) as [Hy0|Hy0];
      destruct (Z.eqb_spec (snd current - snd prev) 1) as [Hy1|Hy1];
      destruct (Z.eqb_spec (fst current - fst prev) (-1)) as [Hxm|Hxm];
      simpl in Hrun; try lia; try discriminate Hrun;
      first [ apply (Hstep 0); [rewrite Hx, Hy; reflexivity | done]
            | apply (Hstep 1); [rewrite Hx1, Hy0; reflexivity | done]
            | apply (Hstep 2); [rewrite Hx, Hy1; reflexivity | done]
            | apply (Hstep 3); [rewrite Hxm, Hy0; reflexivity | done] ].
Qed.

(** X4. The game walks the author's path: when [movesFromPathCoords] accepts
    a path that starts at the cell (0, 0), [makeSolutionCells] applied to the
    moves it returns gives the path back, cell by cell. *)
Theorem makeSolutionCells_of_path (rest : list GridPoint) (moves : list Z) :
  Packer.movesFromPathCoords ((0, 0) :: rest) = Ok moves ->
  makeSolutionCells moves = (0, 0) :: rest.
Proof.
  intros Hrun. cbn [Packer.movesFromPathCoords] in Hrun.
  apply movesFrom_walk in Hrun as (tail & -> & Hw).
  simpl. by rewrite makeSolutionCells_walk, Hw.
Qed.

Lemma makeSolutionCells_of_path_witness :
  makeSolutionCells [1; 2; 1; 0] = [(0, 0); (1, 0); (1, 1); (2, 1); (2, 0)].
Proof.
  apply (makeSolutionCells_of_path [(1, 0); (1, 1); (2, 1); (2, 0)] [1; 2; 1; 0]).
  reflexivity.
Defined.

(** *** The walked path *)

(** Move [m] leads from cell [a] to the adjacent cell [b] through an opening
    of [a]. *)
Definition opensTo (w : Z) (openings : list Z) (a b : GridPoint) (m : Z) : Prop :=
  exists dx dy mask,
    Js.get DIRECTIONS m = Some (dx, dy, mask) /\
    b = (fst a + dx, snd a + dy) /\
    Z.land (Js.load openings (snd a * w + fst a)) mask <> 0.

(** The cells are joined, one after the other, by the moves. *)
Fixpoint validWalk (w : Z) (openings : list Z) (cells : list GridPoint) (moves : list Z)
  : Prop :=
  match cells with
  | [] => False
  | a :: cells' =>
      match cells', moves with
      | [], [] => True
      | b :: _, m :: moves' => opensTo w openings a b m /\ validWalk w openings cells' moves'
      | _, _ => False
      end
  end.

Definition validState (st : State) : Prop :=
  match currentMaze st with
  | Some maze =>
      validWalk (rec_w maze) (openings st) (playerCellsRef st) (playerMovesRef st)
  | None => True
  end.

Lemma validWalk_snoc w openings (cells : list GridPoint) : forall moves a b m,
  validWalk w openings (cells ++ [a]) moves -> opensTo w openings a b m ->
  validWalk w openings ((cells ++ [a]) ++ [b]) (moves ++ [m]).
Proof.
  induction cells as [|c cells IH]; intros moves a b m Hwalk Hopen.
  - destruct moves; [|done]. simpl. done.
  - cbn [app validWalk] in Hwalk |- *.
    destruct (cells ++ [a]) as [|x rest] eqn:Hshape; [by destruct cells|].
    destruct moves as [|m0 moves]; [done|]. destruct Hwalk as [H0 Hwalk].
    cbn [app]. split; [done|]. change (x :: rest ++ [b]) with ((x :: rest) ++ [b]).
    rewrite <- Hshape. apply IH; [by rewrite Hshape | done].
Qed.

Lemma validWalk_last w openings cells moves :
  validWalk w openings cells moves -> exists l a, cells = l ++ [a].
Proof.
  intros Hwalk. destruct cells as [|c cells] using rev_ind; [done|]. by exists cells, c.
Qed.

Lemma findDirection_spec dirs dx dy : forall k i,
  findDirection dirs dx dy k = Some i ->
  (k <= i)%nat /\ exists mask, dirs !! (i - k)%nat = Some (dx, dy, mask).
Proof.
  induction dirs as [|[[ddx ddy] mask] dirs IH]; intros k i Hfind; [done|].
  cbn [findDirection] in Hfind.
  destruct (Z.eqb_spec ddx dx) as [->|]; destruct (Z.eqb_spec ddy dy) as [->|];
    simpl in Hfind.
  - injection Hfind as <-. split; [lia|]. exists mask. by rewrite Nat.sub_diag.
  - apply IH in Hfind as [Hk [mask' Hm]]. split; [lia|]. exists mask'.
    replace (i - k)%nat with (S (i - S k)) by lia. done.
  - apply IH in Hfind as [Hk [mask' Hm]]. split; [lia|]. exists mask'.
    replace (i - k)%nat with (S (i - S k)) by lia. done.
  - apply IH in Hfind as [Hk [mask' Hm]]. split; [lia|]. exists mask'.
    replace (i - k)%nat with (S (i - S k)) by lia. done.
Qed.

(** X5. [processCell] keeps the walked path sound. From a state whose cells
    are joined by its moves through openings (as after [resetPlayerState]), it
    does not throw, the cells and moves it leaves are again joined through
    openings, so that no step ever crosses a wall or jumps, and it removes
    nothing: the old cells and moves are prefixes of the new ones. *)
Theorem processCell_keeps_walk (st : State) (target : GridPoint) :
  validState st ->
  exists st', processCell st target = Ok st' /\ validState st' /\
    currentMaze st' = currentMaze st /\ openings st' = openings st /\
    playerCellsRef st `prefix_of` playerCellsRef st' /\
    playerMovesRef st `prefix_of` playerMovesRef st'.
Proof.
  unfold validState, processCell. destruct (currentMaze st) as [maze|] eqn:Hmaze.
  2:{ intros _. exists st. by rewrite Hmaze. }
  intros Hwalk.
  assert (Hsame : exists st', Ok st = Ok st' /\
            match currentMaze st' with
            | Some maze => validWalk (rec_w maze) (openings st') (playerCellsRef st')
                             (playerMovesRef st')
            | None => True
            end /\ currentMaze st' = Some maze /\ openings st' = openings st /\
            playerCellsRef st `prefix_of` playerCellsRef st' /\
            playerMovesRef st `prefix_of` playerMovesRef st').
  { exists st. rewrite Hmaze. done. }
  destruct (validWalk_last _ _ _ _ Hwalk) as (l & lastCell & Hcells).
  assert (Js.get (playerCellsRef st) (Z.of_nat (length (playerCellsRef st)) - 1)
          = Some lastCell) as ->.
  { unfold Js.get. rewrite Hcells, length_app. simpl. zcases; [lia|].
    replace (Z.to_nat _) with (length l) by lia.
    by rewrite lookup_app_r, Nat.sub_diag by lia. }
  destruct (_ && _); [done|]. destruct (match Js.get _ _ with Some _ => _ | None => _ end);
    [done|].
  destruct (negb _); [done|].
  destruct (findDirection DIRECTIONS _ _ 0) as [directionIndex|] eqn:Hfind; [|done].
  apply findDirection_spec in Hfind as [_ [mask Hdir]]. rewrite Nat.sub_0_r in Hdir.
  rewrite Hdir. destruct (Z.eqb_spec (Z.land (Js.load (openings st)
    (snd lastCell * rec_w maze + fst lastCell)) mask) 0) as [|Hopen]; [done|].
  destruct (evaluateMoves _ _) as [divergenceIndex correctCount].
  eexists. split; [reflexivity|]. cbn [currentMaze openings playerCellsRef playerMovesRef].
  split; [|split; [done | split; [done | split; by apply prefix_app_r]]].
  rewrite Hcells. apply validWalk_snoc; [by rewrite <- Hcells|].
  exists (fst target - fst lastCell), (snd target - snd lastCell), mask. split; [|split].
  - unfold Js.get. zcases; [lia|]. by rewrite Nat2Z.id.
  - destruct target. simpl. f_equal; lia.
  - done.
Qed.

(** The state of [afterOneStep], from which the player steps South. *)
Lemma processCell_keeps_walk_witness :
  exists st', processCell afterOneStep (1, 1) = Ok st' /\ validState st' /\
    currentMaze st' = currentMaze afterOneStep /\ openings st' = openings afterOneStep /\
    playerCellsRef afterOneStep `prefix_of` playerCellsRef st' /\
    playerMovesRef afterOneStep `prefix_of` playerMovesRef st'.
Proof.
  apply (processCell_keeps_walk afterOneStep (1, 1)).
  unfold validState. simpl. split; [|done].
  exists 1, 0, Grid.E. split; [reflexivity|]. split; [reflexivity|]. by vm_compute.
Defined.

(** *** Hints *)

Lemma walkFrom_take cursor (moves : list Z) : forall k,
  walkFrom cursor (take k moves) = take k (walkFrom cursor moves).
Proof.
  revert cursor. induction moves as [|m moves IH]; intros cursor [|k]; simpl; try done.
  by rewrite IH.
Qed.

Lemma walkFrom_drop (n : nat) : forall moves cursor c,
  (cursor :: walkFrom cursor moves) !! n = Some c ->
  walkFrom c (drop n moves) = drop (S n) (cursor :: walkFrom cursor moves).
Proof.
  induction n as [|n IH]; intros moves cursor c Hc.
  - injection Hc as <-. by rewrite drop_0.
  - destruct moves as [|m moves]; [done|]. apply (IH moves _ c). exact Hc.
Qed.

(** With a progress that is not negative the highlight is computed without
    a throw, and it is the stretch of the solution path after the cell at
    index max(progress, divergence), one cell per move of the segment. *)
Lemma hintHighlight_cells (solutionMoves : list Z) (progress divergence L : Z) :
  0 <= progress ->
  hintHighlight solutionMoves progress divergence L =
  Ok (if decide (hintSegment solutionMoves progress divergence L = []) then None
      else Some (take (length (hintSegment solutionMoves progress divergence L))
                      (drop (S (Z.to_nat (Z.max progress divergence)))
                            (makeSolutionCells solutionMoves)))).
Proof.
  intros Hprogress. unfold hintHighlight.
  set (segment := hintSegment solutionMoves progress divergence L).
  destruct (decide (segment = [])) as [E|Hne]; [by rewrite E|].
  assert (Hwin : segment = hintWindow
            (take (Z.to_nat (keptLength (Z.of_nat (length solutionMoves)) L)) solutionMoves)
            progress divergence).
  { unfold segment, hintSegment. rewrite capped_take. apply hintSegment_window. }
  set (keptN := Z.to_nat (keptLength (Z.of_nat (length solutionMoves)) L)) in *.
  unfold hintWindow in Hwin. cbv zeta in Hwin.
  set (len' := Z.of_nat (length (take keptN solutionMoves))) in *.
  assert (Hlen' : 0 <= len' <= Z.of_nat (length solutionMoves))
    by (unfold len'; rewrite length_take; lia).
  set (p0 := Z.max 0 (Z.min progress len')) in *.
  set (start := if divergence <? 0 then p0
                else Z.max p0 (Z.max 0 (Z.min divergence len'))) in *.
  set (count := if 20 <=? len' - start then 20 else Z.min 10 (len' - start)) in *.
  assert (Hcount : 0 < count).
  { destruct (Z.lt_ge_cases 0 count) as [|Hle]; [done|]. exfalso. apply Hne.
    rewrite Hwin. replace (Z.to_nat count) with 0%nat by lia. done. }
  assert (Hstart : 0 <= start < len')
    by (revert Hcount; unfold count, start, p0; zcases; lia).
  assert (Hidx : Z.max progress (if divergence >=? 0 then divergence else progress) = start)
    by (revert Hstart; unfold start, p0; zcases; lia).
  assert (Hmax : Z.max progress divergence = start)
    by (revert Hstart; unfold start, p0; zcases; lia).
  rewrite Hidx, Hmax, makeSolutionCells_walk.
  cbn [length]. rewrite length_walkFrom.
  replace (Z.min start (Z.of_nat (S (length solutionMoves)) - 1)) with start by lia.
  unfold Js.get. destruct (Z.ltb_spec start 0) as [|_]; [lia|].
  destruct (_ !! Z.to_nat start) as [cursor|] eqn:Hcursor.
  2:{ apply lookup_ge_None in Hcursor. cbn [length] in Hcursor.
      rewrite length_walkFrom in Hcursor. lia. }
  assert (Hshape : segment = take (length segment) (drop (Z.to_nat start) solutionMoves)).
  { rewrite Hwin. rewrite skipn_firstn_comm, take_take, length_take.
    set (n := Nat.min (Z.to_nat count) (keptN - Z.to_nat start)).
    set (X := drop (Z.to_nat start) solutionMoves).
    destruct (Nat.le_gt_cases n (length X)).
    - by rewrite Nat.min_l.
    - rewrite Nat.min_r by lia. rewrite !take_ge; [done | lia | lia]. }
  destruct segment as [|s0 segment'] eqn:Hseg; [done|]. rewrite <- Hseg in *.
  rewrite fold_pushStep. cbn [app]. do 2 f_equal.
  rewrite Hshape at 1. rewrite walkFrom_take. f_equal.
  by apply walkFrom_drop.
Qed.

End GameLogic.

(** ** What the decoders return ([decoder.ts]) *)

Module DecoderFacts.
Import Base64 Packer RoundTrip.

(** *** Base64 *)

Lemma decode_loop_bytes (sanitized : list Z) (byteLength : nat) (n : nat) :
  forall i output outIndex,
  Forall byte output ->
  length (decode_loop sanitized byteLength n i output outIndex) = length output /\
  Forall byte (decode_loop sanitized byteLength n i output outIndex).
Proof.
  assert (Hland : forall x, byte (Z.land x 255)).
  { intros x. change 255 with (Z.ones 8). rewrite Z.land_ones by lia.
    unfold byte. change (2 ^ 8) with 256. apply Z.mod_pos_bound. lia. }
  assert (Hins : forall (l : list Z) k x, Forall byte l -> Forall byte (<[k := Z.land x 255]> l)).
  { intros l k x Hl. apply Forall_insert; [done | apply Hland]. }
  induction n as [|n IH]; intros i output outIndex Hout; [done|].
  cbn [decode_loop]. cbv zeta.
  repeat match goal with
  | |- context [if ?c then _ else _] => destruct c
  end;
  match goal with
  | |- context [decode_loop _ _ _ _ ?o ?k] =>
      destruct (IH (i + 4)%nat o k) as [Hlen Hall];
        [repeat apply Hins; done | rewrite Hlen, ?length_insert; done]
  end.
Qed.

(** X7. Encoding then decoding gives the bytes back: for every byte array,
    [decodeBase64ToUint8Array] applied to the output of [bytesToBase64]
    returns the array itself, provided the encoding does not begin with the
    characters [eJ] that trigger the inflate heuristic (or [pako] is
    absent). *)
Theorem decode_bytesToBase64 (pako : Pako) (bytes : list Z) :
  Forall byte bytes ->
  pako = None \/ take 2 (bytesToBase64 bytes) <> codes "eJ" ->
  decodeBase64ToUint8Array pako (bytesToBase64 bytes) = Ok bytes.
Proof.
  intros Hb Hplain. unfold decodeBase64ToUint8Array, bytesToBase64 in *.
  rewrite sanitize_btoa by done. rewrite length_btoa.
  replace ((4 * groups bytes) mod 4)%nat with 0%nat
    by (rewrite Nat.mul_comm, Nat.Div0.mod_mul; done).
  cbn [Nat.eqb negb]. rewrite rawBytes_btoa by done.
  destruct Hplain as [-> | Hne].
  - by destruct (bool_decide _).
  - by rewrite bool_decide_eq_false_2.
Qed.

Lemma decode_bytesToBase64_witness :
  decodeBase64ToUint8Array (Some (fun _ => Some [1; 2; 3])) (bytesToBase64 [77; 97; 122; 101])
  = Ok [77; 97; 122; 101].
Proof.
  apply (decode_bytesToBase64 (Some (fun _ => Some [1; 2; 3])) [77; 97; 122; 101]).
  - repeat constructor; unfold byte; lia.
  - right. by vm_compute.
Defined.

(** X8. The size of the decoded array: when the input is not taken for a
    compressed blob, [decodeBase64ToUint8Array] returns three bytes for every
    four characters that are not white space, less one byte for each of up to
    two trailing [=], and every entry is a byte. *)
Theorem decode_byte_length (pako : Pako) (input bytes : list Z) :
  pako = None \/ take 2 (sanitize input) <> codes "eJ" ->
  decodeBase64ToUint8Array pako input = Ok bytes ->
  length bytes = (length (sanitize input) / 4 * 3 - paddingOf (sanitize input))%nat /\
  Forall byte bytes.
Proof.
  intros Hplain. unfold decodeBase64ToUint8Array.
  destruct (negb _); [done|].
  assert (Hraw : length (rawBytes (sanitize input))
                 = (length (sanitize input) / 4 * 3 - paddingOf (sanitize input))%nat /\
                 Forall byte (rawBytes (sanitize input))).
  { unfold rawBytes.
    destruct (decode_loop_bytes (sanitize input)
                (length (sanitize input) / 4 * 3 - paddingOf (sanitize input))
                ((length (sanitize input) + 3) / 4) 0
                (replicate (length (sanitize input) / 4 * 3
                            - paddingOf (sanitize input)) 0) 0) as [Hlen Hall].
    - apply Forall_replicate. unfold byte. lia.
    - split; [by rewrite Hlen, length_replicate | done]. }
  destruct Hplain as [-> | Hne].
  - destruct (bool_decide _); by intros [= <-].
  - rewrite bool_decide_eq_false_2 by done. by intros [= <-].
Qed.

Lemma decode_byte_length_witness :
  length [77; 97; 122; 101] = (8 / 4 * 3 - 2)%nat /\ Forall byte [77; 97; 122; 101].
Proof.
  apply (decode_byte_length None (codes "TWF6 ZQ==") [77; 97; 122; 101]).
  - by left.
  - reflexivity.
Defined.

(** *** Moves *)

Lemma deriveMoves_bound (coords : list (Z * Z)) (L : Z) : forall moves,
  Z.of_nat (length moves) <= Z.max 0 L -> Forall move moves ->
  Z.of_nat (length (Moves.deriveMoves coords L moves)) <= Z.max 0 L /\
  Forall move (Moves.deriveMoves coords L moves).
Proof.
  induction coords as [|[r1 c1] coords IH]; intros moves Hlen Hall; [done|].
  destruct coords as [|[r2 c2] rest]; [done|].
  cbn [Moves.deriveMoves].
  destruct (Z.ltb_spec (Z.of_nat (length moves)) L) as [Hlt|]; [|done].
  destruct (Moves.moveOf r1 c1 r2 c2) as [m|] eqn:Hm; [|by apply IH].
  apply IH.
  - rewrite length_app. simpl. lia.
  - apply Forall_app. split; [done|]. constructor; [|done].
    unfold Moves.moveOf in Hm. unfold move.
    repeat match type of Hm with
    | (if ?c then _ else _) = _ => destruct c
    end; simplify_eq; lia.
Qed.

Lemma unpackByte_bound (b L : Z) (moves : list Z) :
  Z.of_nat (length moves) <= Z.max 0 L -> Forall move moves ->
  Z.of_nat (length (Moves.unpackByte b L moves)) <= Z.max 0 L /\
  Forall move (Moves.unpackByte b L moves).
Proof.
  assert (Hstep : forall shift moves,
    Z.of_nat (length moves) <= Z.max 0 L -> Forall move moves ->
    let moves' := if Z.of_nat (length moves) <? L
                  then moves ++ [Z.land (Z.shiftr b shift) 3] else moves in
    Z.of_nat (length moves') <= Z.max 0 L /\ Forall move moves').
  { intros shift ms Hlen Hall. cbv zeta.
    destruct (Z.ltb_spec (Z.of_nat (length ms)) L); [|done]. split.
    - rewrite length_app. simpl. lia.
    - apply Forall_app. split; [done|]. constructor; [|done].
      unfold move. change 3 with (Z.ones 2). rewrite Z.land_ones by lia.
      change (2 ^ 2) with 4. apply Z.mod_pos_bound. lia. }
  intros Hlen Hall. unfold Moves.unpackByte. cbn [fold_left].
  destruct (Hstep 0 moves Hlen Hall) as [H1 H1'].
  destruct (Hstep 2 _ H1 H1') as [H2 H2'].
  destruct (Hstep 4 _ H2 H2') as [H3 H3'].
  apply (Hstep 6 _ H3 H3').
Qed.

Lemma unpackMoves_bound (bytes : list Z) (L : Z) : forall moves,
  Z.of_nat (length moves) <= Z.max 0 L -> Forall move moves ->
  Z.of_nat (length (Moves.unpackMoves bytes L moves)) <= Z.max 0 L /\
  Forall move (Moves.unpackMoves bytes L moves).
Proof.
  induction bytes as [|b bytes IH]; intros moves Hlen Hall; [done|].
  cbn [Moves.unpackMoves]. destruct (_ <? _); [|done].
  destruct (unpackByte_bound b L moves Hlen Hall) as [H1 H2]. by apply IH.
Qed.

(** X9. Whatever the payload, the moves that [decodeMoves] returns are at
    most [L] in number (none when [L] is not positive) and each of them is
    one of the four directions 0 to 3, on the coordinate path as on the
    packed path. *)
Theorem decodeMoves_bounded (pako : Pako) (parse : Payload.Parser)
    (p : list Z) (L : Z) (moves : list Z) :
  Moves.decodeMoves pako parse p L = Returns moves ->
  Z.of_nat (length moves) <= Z.max 0 L /\ Forall move moves.
Proof.
  unfold Moves.decodeMoves.
  assert (Hlegacy : match decodeBase64ToUint8Array pako p with
                    | Ok bytes => Returns (Moves.unpackMoves bytes L [])
                    | Throw msg => Throws msg
                    end = Returns moves ->
                    Z.of_nat (length moves) <= Z.max 0 L /\ Forall move moves).
  { destruct (decodeBase64ToUint8Array pako p) as [bytes|]; [|done].
    intros [= <-]. apply unpackMoves_bound; [simpl; lia | constructor]. }
  destruct (Payload.tryParseBase64ZlibJson pako parse p) as [[| | | |[|item items]|]|];
    try exact Hlegacy.
  destruct (Payload.asCoords (item :: items)) as [coords|]; [|done].
  intros [= <-]. apply deriveMoves_bound; [simpl; lia | constructor].
Qed.

Lemma decodeMoves_bounded_witness :
  Z.of_nat (length [1; 2; 1]) <= Z.max 0 3 /\ Forall move [1; 2; 1].
Proof.
  apply (decodeMoves_bounded None (fun _ => None) (codes "GQE=") 3 [1; 2; 1]).
  reflexivity.
Defined.

End DecoderFacts.

(** ** The masks that [decodeOpenings] returns ([decoder.ts]) *)

Module OpeningsFacts.
Import Base64 Grid.

(** A mask of four direction bits. *)
Definition nibble (v : Z) : Prop := 0 <= v < 16.

Lemma nibble_cases (m : Z) :
  nibble m ->
  m = 0 \/ m = 1 \/ m = 2 \/ m = 3 \/ m = 4 \/ m = 5 \/ m = 6 \/ m = 7 \/
  m = 8 \/ m = 9 \/ m = 10 \/ m = 11 \/ m = 12 \/ m = 13 \/ m = 14 \/ m = 15.
Proof. unfold nibble. lia. Qed.

Lemma nibble_lor (m bit : Z) : nibble m -> direction bit -> nibble (Z.lor m bit).
Proof.
  intros Hm Hd. apply nibble_cases in Hm.
  destruct Hd as [-> | -> | -> | ->];
    repeat (destruct Hm as [-> | Hm]; [by vm_compute|]); subst; by vm_compute.
Qed.

Lemma nibble_strip (m bit : Z) : nibble m -> direction bit -> nibble (Z.land m (Z.lnot bit)).
Proof.
  intros Hm Hd. apply nibble_cases in Hm.
  destruct Hd as [-> | -> | -> | ->];
    repeat (destruct Hm as [-> | Hm]; [by vm_compute|]); subst; by vm_compute.
Qed.

Lemma nibble_land15 (x : Z) : nibble (Z.land x 15).
Proof.
  change 15 with (Z.ones 4). rewrite Z.land_ones by lia.
  unfold nibble. change (2 ^ 4) with 16. apply Z.mod_pos_bound. lia.
Qed.

Lemma nibble_mod (v : Z) : nibble v -> v mod 256 = v.
Proof. unfold nibble. intros Hv. apply Z.mod_small. lia. Qed.

Lemma nibble_load (o : list Z) (i : Z) : Forall nibble o -> nibble (Js.load o i).
Proof.
  intros Ho. unfold Js.load, Js.get. destruct (i <? 0); [unfold nibble; simpl; lia|].
  destruct (o !! Z.to_nat i) as [v|] eqn:Hv; [|unfold nibble; simpl; lia].
  simpl. by eapply Forall_lookup_1.
Qed.

Lemma nibble_store (o : list Z) (i v : Z) :
  Forall nibble o -> nibble v -> Forall nibble (Js.store o i v).
Proof.
  intros Ho Hv. unfold Js.store. destruct (i <? 0); [done|].
  apply Forall_insert; [done|]. by rewrite nibble_mod.
Qed.

Lemma nibble_orInto (o : list Z) (i bit : Z) :
  Forall nibble o -> direction bit -> Forall nibble (orInto o i bit).
Proof.
  intros Ho Hd. apply nibble_store; [done|]. apply nibble_lor; [|done].
  by apply nibble_load.
Qed.

Lemma length_orInto (o : list Z) (i bit : Z) : length (orInto o i bit) = length o.
Proof. apply length_store. Qed.

(** A loop whose body keeps a property of the state keeps it. *)
Lemma for_range_keeps {St} (P : St -> Prop) (n : Z) (body : Z -> St -> St) (st : St) :
  P st -> (forall i s, 0 <= i < n -> P s -> P (body i s)) -> P (for_range n body st).
Proof.
  intros H0 Hstep.
  apply (for_range_ind (fun _ s => P s) n body st); [done|].
  intros i s Hi Hs. by apply Hstep.
Qed.

(** The arrays of nibbles of a given length. *)
Definition shaped (n : nat) (o : list Z) : Prop := length o = n /\ Forall nibble o.

Lemma shaped_store n o i v : shaped n o -> nibble v -> shaped n (Js.store o i v).
Proof. intros [Hl Ho] Hv. split; [by rewrite length_store | by apply nibble_store]. Qed.

Lemma shaped_orInto n o i bit : shaped n o -> direction bit -> shaped n (orInto o i bit).
Proof. intros [Hl Ho] Hd. split; [by rewrite length_orInto | by apply nibble_orInto]. Qed.

Lemma shaped_normalizeCell n w h x y o :
  shaped n o -> shaped n (normalizeCell w h x y o).
Proof.
  intros Ho. unfold normalizeCell.
  change (if y =? h - 1 then _ else _) with (stripped w h x y (Js.load o (y * w + x))).
  assert (Hmask : nibble (stripped w h x y (Js.load o (y * w + x)))).
  { unfold stripped. pose proof (nibble_load o (y * w + x) (proj2 Ho)) as Hl.
    repeat match goal with
    | |- context [if ?c then _ else _] => destruct c
    end; repeat (apply nibble_strip; [|by constructor]); done. }
  set (mask := stripped w h x y (Js.load o (y * w + x))) in *. clearbody mask.
  assert (H1 : shaped n (Js.store o (y * w + x) mask)) by (by apply shaped_store).
  revert H1. generalize (Js.store o (y * w + x) mask). intros o1 H1.
  repeat match goal with
  | |- shaped _ (if ?c then _ else _) => destruct c
  | |- shaped _ (Js.store _ _ _) => apply shaped_store
  | |- shaped _ _ => assumption
  | |- nibble (Z.lor _ _) => apply nibble_lor; [|by constructor]
  | |- nibble (Js.load _ _) => apply nibble_load
  | |- nibble _ => assumption
  | |- Forall nibble (if ?c then _ else _) => destruct c
  | |- Forall nibble (Js.store _ _ _) => apply nibble_store
  | |- Forall nibble _ => apply H1
  end.
Qed.

Lemma shaped_openStart n w h o : shaped n o -> shaped n (openStart w h o).
Proof.
  intros Ho. unfold openStart.
  repeat match goal with
  | |- context [if ?c then _ else _] => destruct c
  end; repeat (apply shaped_orInto; [|by constructor]); done.
Qed.

Lemma shaped_openGoal n w h o : shaped n o -> shaped n (openGoal w h o).
Proof.
  intros Ho. unfold openGoal.
  repeat match goal with
  | |- context [if ?c then _ else _] => destruct c
  end; repeat (apply shaped_orInto; [|by constructor]); done.
Qed.

Lemma shaped_normalizeLoops n w h o :
  shaped n o ->
  shaped n (for_range h (fun y => for_range w (fun x => normalizeCell w h x y)) o).
Proof.
  intros Ho. apply for_range_keeps; [done|]. intros y s _ Hs.
  apply for_range_keeps; [done|]. intros x s' _ Hs'. by apply shaped_normalizeCell.
Qed.

Lemma shaped_normalizeOpenings n w h o : shaped n o -> shaped n (normalizeOpenings o w h).
Proof.
  intros Ho. unfold normalizeOpenings.
  by apply shaped_openGoal, shaped_openStart, shaped_normalizeLoops.
Qed.

Lemma shaped_convertCell n grid w x y o : shaped n o -> shaped n (convertCell grid w x y o).
Proof.
  intros Ho. unfold convertCell. cbv zeta.
  destruct (_ && _ && passable grid _ _); [|done].
  apply shaped_store; [done|].
  repeat match goal with
  | |- context [if ?c then _ else _] => destruct c
  end; repeat (apply nibble_lor; [|by constructor]); unfold nibble; lia.
Qed.

Lemma shaped_convert grid w h :
  shaped (Z.to_nat (w * h)) (convertExpandedToRegular grid w h).
Proof.
  unfold convertExpandedToRegular.
  apply for_range_keeps.
  - split; [apply length_replicate | apply Forall_replicate; unfold nibble; lia].
  - intros y s _ Hs. apply for_range_keeps; [done|].
    intros x s' _ Hs'. by apply shaped_convertCell.
Qed.

Lemma shaped_unpackNibbles n (bytes : list Z) totalCells : forall o cellIndex,
  shaped n o -> shaped n (unpackNibbles bytes totalCells o cellIndex).
Proof.
  induction bytes as [|b bytes IH]; intros o cellIndex Ho; [done|].
  cbn [unpackNibbles]. destruct (cellIndex <? totalCells); [|done]. cbv zeta.
  destruct (_ >=? _).
  - apply shaped_store; [done | apply nibble_land15].
  - apply IH. apply shaped_store; [|apply nibble_land15].
    apply shaped_store; [done | apply nibble_land15].
Qed.

(** X10. Whenever [decodeOpenings] returns, on the expanded-grid path or on
    the legacy path, it returns exactly [w * h] masks and every mask is a
    combination of the four direction bits (a value from 0 to 15). *)
Theorem decodeOpenings_shape (pako : Pako) (parse : Payload.Parser)
    (g : list Z) (w h : Z) (masks : list Z) :
  decodeOpenings pako parse g w h = Returns masks ->
  length masks = Z.to_nat (w * h) /\ Forall (fun m => 0 <= m < 16) masks.
Proof.
  unfold decodeOpenings. destruct (expandedGridOf pako parse g w h) as [rows|].
  - destruct (Payload.asGrid rows) as [grid|]; [|done].
    intros [= <-]. apply (shaped_normalizeOpenings (Z.to_nat (w * h))), shaped_convert.
  - destruct (decodeBase64ToUint8Array pako g) as [bytes|]; [|done].
    destruct (w * h <? 0); [done|]. intros [= <-].
    apply (shaped_unpackNibbles (Z.to_nat (w * h))).
    split; [apply length_replicate | apply Forall_replicate; unfold nibble; lia].
Qed.

Lemma decodeOpenings_shape_witness :
  length [3; 10; 5; 12] = Z.to_nat (2 * 2) /\ Forall (fun m => 0 <= m < 16) [3; 10; 5; 12].
Proof.
  apply (decodeOpenings_shape None (fun _ => None) (codes "o8U=") 2 2 [3; 10; 5; 12]).
  reflexivity.
Defined.

(** *** Openings gained by a cell *)

Section Carving.
Variables w h : Z.
Hypothesis Hw : 1 <= w.
Hypothesis Hh : 1 <= h.

Lemma index_inj x y x' y' :
  0 <= x < w -> 0 <= x' < w -> y * w + x = y' * w + x' -> x = x' /\ y = y'.
Proof.
  intros Hx Hx' E.
  assert (y = y') as <- by (destruct (Z.lt_trichotomy y y') as [?|[?|?]]; [nia | done | nia]).
  lia.
Qed.

Lemma index_range x y : 0 <= x < w -> 0 <= y < h -> 0 <= y * w + x < w * h.
Proof. intros Hx Hy. nia. Qed.

(** The masks [o'] are those of [o] with the openings [P] added. *)
Definition gains (o o' : list Z) (P : Z -> Z -> Z -> Prop) : Prop :=
  length o' = length o /\
  forall x y b, 0 <= x < w -> 0 <= y < h -> direction b ->
    has (maskAt w o' x y) b = true <-> has (maskAt w o x y) b = true \/ P x y b.

Lemma gains_refl o : gains o o (fun _ _ _ => False).
Proof. split; [done|]. intros. tauto. Qed.

Lemma gains_trans o o1 o2 P Q :
  gains o o1 P -> gains o1 o2 Q -> gains o o2 (fun x y b => P x y b \/ Q x y b).
Proof.
  intros [Hl1 H1] [Hl2 H2]. split; [congruence|]. intros x y b Hx Hy Hb.
  rewrite (H2 x y b Hx Hy Hb), (H1 x y b Hx Hy Hb). tauto.
Qed.

Lemma gains_orInto o x0 y0 bit :
  length o = Z.to_nat (w * h) -> 0 <= x0 < w -> 0 <= y0 < h -> direction bit ->
  gains o (orInto o (y0 * w + x0) bit) (fun x y b => x = x0 /\ y = y0 /\ b = bit).
Proof.
  intros Hlen Hx0 Hy0 Hbit. split; [apply length_orInto|].
  intros x y b Hx Hy Hb. unfold maskAt, orInto. rewrite load_store.
  pose proof (index_range x0 y0 Hx0 Hy0) as Hr.
  case_decide as Hd.
  - destruct Hd as [Hi _]. apply index_inj in Hi as [<- <-]; [|done|done].
    rewrite has_mod, has_lor by done. rewrite orb_true_iff.
    assert (Hbits : has bit b = true <-> b = bit).
    { destruct Hb as [->| ->| ->| ->], Hbit as [->| ->| ->| ->]; by vm_compute. }
    rewrite Hbits. tauto.
  - assert (~ (x = x0 /\ y = y0)) by (intros [-> ->]; apply Hd; split; [done | lia]).
    tauto.
Qed.

(** A passage between two adjacent cells. *)
Definition passageEW (x0 y0 x y b : Z) : Prop :=
  (x = x0 /\ y = y0 /\ b = E) \/ (x = x0 + 1 /\ y = y0 /\ b = W).

Definition passageSN (x0 y0 x y b : Z) : Prop :=
  (x = x0 /\ y = y0 /\ b = S) \/ (x = x0 /\ y = y0 + 1 /\ b = N).

Lemma symmetric_gains o o' (P : Z -> Z -> Z -> Prop) :
  symmetric w h o -> gains o o' P ->
  (forall x y, P x y E <-> P (x + 1) y W) ->
  (forall x y, P x y S <-> P x (y + 1) N) ->
  symmetric w h o'.
Proof.
  intros [HEW HSN] [_ Hg] HPx HPy. split.
  - intros x y Hx0 Hx1 Hy. apply eq_iff_eq_true.
    rewrite (Hg x y E), (Hg (x + 1) y W) by (first [lia | by constructor]).
    specialize (HEW x y Hx0 Hx1 Hy). apply eq_iff_eq_true in HEW.
    specialize (HPx x y). tauto.
  - intros x y Hx Hy0 Hy1. apply eq_iff_eq_true.
    rewrite (Hg x y S), (Hg x (y + 1) N) by (first [lia | by constructor]).
    specialize (HSN x y Hx Hy0 Hy1). apply eq_iff_eq_true in HSN.
    specialize (HPy x y). tauto.
Qed.

Lemma boundaryClosed_gains o o' (P : Z -> Z -> Z -> Prop) :
  boundaryClosed w h o -> gains o o' P ->
  (forall x y b, P x y b ->
     (b = W -> x <> 0) /\ (b = E -> x <> w - 1) /\ (b = N -> y <> 0) /\ (b = S -> y <> h - 1)) ->
  boundaryClosed w h o'.
Proof.
  intros Hb [_ Hg] HP x y Hx Hy. destruct (Hb x y Hx Hy) as (HW & HE & HN & HS).
  unfold cellInside.
  repeat split; intros Hedge; apply not_true_iff_false; intros Hhas;
    apply Hg in Hhas; try done; try (by constructor);
    (destruct Hhas as [Hhas|Hhas];
     [ first [ rewrite (HW Hedge) in Hhas | rewrite (HE Hedge) in Hhas
             | rewrite (HN Hedge) in Hhas | rewrite (HS Hedge) in Hhas ]; done
     | apply HP in Hhas; destruct Hhas as (H1 & H2 & H3 & H4);
       first [ by apply H1 | by apply H2 | by apply H3 | by apply H4 ] ]).
Qed.

Lemma passageEW_sym x0 y0 :
  (forall x y, passageEW x0 y0 x y E <-> passageEW x0 y0 (x + 1) y W) /\
  (forall x y, passageEW x0 y0 x y S <-> passageEW x0 y0 x (y + 1) N).
Proof. unfold passageEW, E, W, S, N. split; intros x y; lia. Qed.

Lemma passageSN_sym x0 y0 :
  (forall x y, passageSN x0 y0 x y E <-> passageSN x0 y0 (x + 1) y W) /\
  (forall x y, passageSN x0 y0 x y S <-> passageSN x0 y0 x (y + 1) N).
Proof. unfold passageSN, E, W, S, N. split; intros x y; lia. Qed.

(** The masks are symmetric, closed at the boundary, and of the right
    shape. *)
Definition sound (o : list Z) : Prop :=
  shaped (Z.to_nat (w * h)) o /\ symmetric w h o /\ boundaryClosed w h o.

Lemma sound_carveEW o o' x0 y0 :
  0 <= x0 -> x0 + 1 < w -> 0 <= y0 < h ->
  sound o -> shaped (Z.to_nat (w * h)) o' -> gains o o' (passageEW x0 y0) -> sound o'.
Proof.
  intros Hx0 Hx1 Hy0 (Hs & Hsym & Hb) Hs' Hg. split; [done|]. split.
  - destruct (passageEW_sym x0 y0). by apply (symmetric_gains o o' (passageEW x0 y0)).
  - apply (boundaryClosed_gains o o' (passageEW x0 y0)); [done | done|].
    unfold passageEW, E, W, S, N. intros x y b. lia.
Qed.

Lemma sound_carveSN o o' x0 y0 :
  0 <= x0 < w -> 0 <= y0 -> y0 + 1 < h ->
  sound o -> shaped (Z.to_nat (w * h)) o' -> gains o o' (passageSN x0 y0) -> sound o'.
Proof.
  intros Hx0 Hy0 Hy1 (Hs & Hsym & Hb) Hs' Hg. split; [done|]. split.
  - destruct (passageSN_sym x0 y0). by apply (symmetric_gains o o' (passageSN x0 y0)).
  - apply (boundaryClosed_gains o o' (passageSN x0 y0)); [done | done|].
    unfold passageSN, E, W, S, N. intros x y b. lia.
Qed.

Lemma gains_ext o o' (P Q : Z -> Z -> Z -> Prop) :
  gains o o' P -> (forall x y b, P x y b <-> Q x y b) -> gains o o' Q.
Proof.
  intros [Hl Hg] HPQ. split; [done|]. intros x y b Hx Hy Hb.
  rewrite (Hg x y b Hx Hy Hb), (HPQ x y b). done.
Qed.

(** Two [|=] on the cells of a pair. *)
Lemma gains_pair o i0 x0 y0 bit0 i1 x1 y1 bit1 (P : Z -> Z -> Z -> Prop) :
  length o = Z.to_nat (w * h) ->
  i0 = y0 * w + x0 -> 0 <= x0 < w -> 0 <= y0 < h -> direction bit0 ->
  i1 = y1 * w + x1 -> 0 <= x1 < w -> 0 <= y1 < h -> direction bit1 ->
  (forall x y b, (x = x0 /\ y = y0 /\ b = bit0) \/ (x = x1 /\ y = y1 /\ b = bit1)
                 <-> P x y b) ->
  gains o (orInto (orInto o i0 bit0) i1 bit1) P.
Proof.
  intros Hlen -> Hx0 Hy0 Hb0 -> Hx1 Hy1 Hb1 HP.
  eapply gains_ext; [|exact HP].
  eapply gains_trans; [by apply gains_orInto|].
  apply gains_orInto; [by rewrite length_orInto | done | done | done].
Qed.

Lemma sound_openStart o : sound o -> sound (openStart w h o).
Proof.
  intros Ho. pose proof Ho as ([Hlen Hnib] & _ & _). unfold openStart.
  destruct (Js.load o 0 =? 0); [|done].
  destruct (Z.gtb_spec w 1) as [Hw1|Hw1]; [|destruct (Z.gtb_spec h 1) as [Hh1|Hh1]; [|done]].
  - apply (sound_carveEW o _ 0 0); [lia | lia | lia | done | |].
    + repeat (apply shaped_orInto; [|by constructor]). by split.
    + apply (gains_pair o _ 0 0 E _ 1 0 W); try done; try lia; try (by constructor).
  - apply (sound_carveSN o _ 0 0); [lia | lia | lia | done | |].
    + repeat (apply shaped_orInto; [|by constructor]). by split.
    + apply (gains_pair o _ 0 0 S _ 0 1 N); try done; try lia; try (by constructor).
Qed.

Lemma sound_openGoal o : sound o -> sound (openGoal w h o).
Proof.
  intros Ho. pose proof Ho as ([Hlen Hnib] & _ & _). unfold openGoal.
  destruct (Js.load o _ =? 0); [|done].
  destruct (Z.gtb_spec w 1) as [Hw1|Hw1]; [|destruct (Z.gtb_spec h 1) as [Hh1|Hh1]; [|done]].
  - apply (sound_carveEW o _ (w - 2) (h - 1)); [lia | lia | lia | done | |].
    + repeat (apply shaped_orInto; [|by constructor]). by split.
    + apply (gains_pair o _ (w - 1) (h - 1) W _ (w - 2) (h - 1) E);
        try done; try lia; try (by constructor).
      unfold passageEW. intros x y b. replace (w - 2 + 1) with (w - 1) by lia. tauto.
  - apply (sound_carveSN o _ (w - 1) (h - 2)); [lia | lia | lia | done | |].
    + repeat (apply shaped_orInto; [|by constructor]). by split.
    + apply (gains_pair o _ (w - 1) (h - 1) N _ (w - 1) (h - 2) S);
        try done; try lia; try (by constructor).
      unfold passageSN. intros x y b. replace (h - 2 + 1) with (h - 1) by lia. tauto.
Qed.

(** *** Masks that are already symmetric *)

Lemma strip_absent (m bit : Z) :
  nibble m -> direction bit -> has m bit = false -> Z.land m (Z.lnot bit) = m.
Proof.
  intros Hm Hd. apply nibble_cases in Hm.
  destruct Hd as [-> | -> | -> | ->];
    repeat (destruct Hm as [-> | Hm]; [by vm_compute|]); subst; by vm_compute.
Qed.

Lemma store_load_id (o : list Z) (i : Z) :
  Forall nibble o -> Js.store o i (Js.load o i) = o.
Proof.
  intros Ho. unfold Js.store, Js.load, Js.get.
  destruct (i <? 0); [done|].
  destruct (o !! Z.to_nat i) as [v|] eqn:Hv; simpl.
  - rewrite nibble_mod by (by eapply Forall_lookup_1). by apply list_insert_id.
  - apply list_insert_ge. by apply lookup_ge_None.
Qed.

Lemma stripped_id o x y :
  Forall nibble o -> boundaryClosed w h o -> 0 <= x < w -> 0 <= y < h ->
  stripped w h x y (maskAt w o x y) = maskAt w o x y.
Proof.
  intros Hnib Hb Hx Hy. destruct (Hb x y Hx Hy) as (HW & HE & HN & HS).
  pose proof (nibble_load o (y * w + x) Hnib) as Hm. fold (maskAt w o x y) in Hm.
  unfold stripped.
  destruct (Z.eqb_spec x 0) as [Hx0|_];
    [rewrite (strip_absent _ W Hm) by (first [by constructor | by apply HW])|];
  (destruct (Z.eqb_spec x (w - 1)) as [Hx1|_];
    [rewrite (strip_absent _ E Hm) by (first [by constructor | by apply HE])|]);
  (destruct (Z.eqb_spec y 0) as [Hy0|_];
    [rewrite (strip_absent _ N Hm) by (first [by constructor | by apply HN])|]);
  (destruct (Z.eqb_spec y (h - 1)) as [Hy1|_];
    [rewrite (strip_absent _ S Hm) by (first [by constructor | by apply HS])|]);
  done.
Qed.

Lemma normalizeCell_fixed o x y :
  sound o -> 0 <= x < w -> 0 <= y < h -> normalizeCell w h x y o = o.
Proof.
  intros ([Hlen Hnib] & [HEW HSN] & Hb) Hx Hy. unfold normalizeCell.
  change (if y =? h - 1 then _ else _) with (stripped w h x y (maskAt w o x y)).
  rewrite stripped_id by done.
  assert (Hst : Js.store o (y * w + x) (maskAt w o x y) = o)
    by (by apply store_load_id).
  cbv zeta. rewrite !Hst.
  assert (Hright : x < w - 1 ->
            has (Js.load o (y * w + x + 1)) W = has (maskAt w o x y) E).
  { intros Hlt. replace (y * w + x + 1) with (y * w + (x + 1)) by lia.
    symmetry. apply HEW; lia. }
  assert (Hdown : y < h - 1 ->
            has (Js.load o (y * w + x + w)) N = has (maskAt w o x y) S).
  { intros Hlt. replace (y * w + x + w) with ((y + 1) * w + x) by lia.
    symmetry. apply HSN; lia. }
  destruct (Z.ltb_spec x (w - 1)) as [Hlt|_].
  - rewrite (Hright Hlt), andb_negb_r.
    destruct (Z.ltb_spec y (h - 1)) as [Hlt'|_]; [|done].
    by rewrite (Hdown Hlt'), andb_negb_r.
  - destruct (Z.ltb_spec y (h - 1)) as [Hlt'|_]; [|done].
    by rewrite (Hdown Hlt'), andb_negb_r.
Qed.

Lemma normalizeLoops_fixed o :
  sound o -> for_range h (fun y => for_range w (fun x => normalizeCell w h x y)) o = o.
Proof.
  intros Ho.
  apply (for_range_keeps (fun s => s = o)); [done|]. intros y s Hy ->.
  apply (for_range_keeps (fun s => s = o)); [done|]. intros x s Hx ->.
  by apply normalizeCell_fixed.
Qed.

Lemma sound_normalizeOpenings o : sound o -> sound (normalizeOpenings o w h).
Proof.
  intros Ho. unfold normalizeOpenings. rewrite normalizeLoops_fixed by done.
  by apply sound_openGoal, sound_openStart.
Qed.

(** *** The masks read off an expanded grid *)

Section Expanded.
Variable g : list (list Z).

Definition rowsOf : Z := Z.of_nat (length g).
Definition colsOf : Z := Z.of_nat (length (default [] (g !! 0%nat))).

(** The guard of [convertExpandedToRegular] at cell [(x, y)]. *)
Definition centre (x y : Z) : bool :=
  (2 * y + 1 <? rowsOf) && (2 * x + 1 <? colsOf) && passable g (2 * y + 1) (2 * x + 1).

Definition northOpen (x y : Z) : bool :=
  (2 * y + 1 >=? 2) && passable g (2 * y + 1 - 1) (2 * x + 1)
    && passable g (2 * y + 1 - 2) (2 * x + 1).
Definition eastOpen (x y : Z) : bool :=
  (2 * x + 1 <=? colsOf - 3) && passable g (2 * y + 1) (2 * x + 1 + 1)
    && passable g (2 * y + 1) (2 * x + 1 + 2).
Definition southOpen (x y : Z) : bool :=
  (2 * y + 1 <=? rowsOf - 3) && passable g (2 * y + 1 + 1) (2 * x + 1)
    && passable g (2 * y + 1 + 2) (2 * x + 1).
Definition westOpen (x y : Z) : bool :=
  (2 * x + 1 >=? 2) && passable g (2 * y + 1) (2 * x + 1 - 1)
    && passable g (2 * y + 1) (2 * x + 1 - 2).

(** The mask that the conversion leaves in cell [(x, y)]. *)
Definition cellMask (x y : Z) : Z :=
  if centre x y then
    let mask := 0 in
    let mask := if northOpen x y then Z.lor mask N else mask in
    let mask := if eastOpen x y then Z.lor mask E else mask in
    let mask := if southOpen x y then Z.lor mask S else mask in
    if westOpen x y then Z.lor mask W else mask
  else 0.

Lemma convertCell_cellMask x y o :
  convertCell g w x y o = if centre x y then Js.store o (y * w + x) (cellMask x y) else o.
Proof. unfold convertCell, cellMask. fold rowsOf colsOf. fold (centre x y). by destruct (centre x y). Qed.

Lemma nibble_cellMask x y : nibble (cellMask x y).
Proof.
  unfold cellMask.
  destruct (centre x y), (northOpen x y), (eastOpen x y), (southOpen x y), (westOpen x y);
    by vm_compute.
Qed.

Lemma cellMask_bits x y :
  has (cellMask x y) N = (centre x y && northOpen x y) /\
  has (cellMask x y) E = (centre x y && eastOpen x y) /\
  has (cellMask x y) S = (centre x y && southOpen x y) /\
  has (cellMask x y) W = (centre x y && westOpen x y).
Proof.
  unfold cellMask.
  destruct (centre x y), (northOpen x y), (eastOpen x y), (southOpen x y), (westOpen x y);
    by vm_compute.
Qed.

(** Cells of index below [k] hold their mask, the others are still 0. *)
Definition filled (k : Z) (o : list Z) : Prop :=
  length o = Z.to_nat (w * h) /\
  forall x y, 0 <= x < w -> 0 <= y < h ->
    maskAt w o x y = if decide (y * w + x < k) then cellMask x y else 0.

Lemma filled_convertCell x y o :
  0 <= x < w -> 0 <= y < h ->
  filled (y * w + x) o -> filled (y * w + x + 1) (convertCell g w x y o).
Proof.
  intros Hx Hy [Hlen Ho]. rewrite convertCell_cellMask.
  pose proof (index_range x y Hx Hy) as Hr.
  assert (Hhere : cellMask x y = if centre x y then cellMask x y else 0).
  { unfold cellMask. by destruct (centre x y). }
  split; [destruct (centre x y); by rewrite ?length_store|].
  intros x' y' Hx' Hy'. specialize (Ho x' y' Hx' Hy'). unfold maskAt in *.
  destruct (decide (y' * w + x' = y * w + x)) as [Heq|Hne].
  - destruct (index_inj x' y' x y Hx' Hx Heq) as [-> ->].
    rewrite decide_True by lia. rewrite decide_False in Ho by lia.
    rewrite Hhere. destruct (centre x y); [|done].
    rewrite load_store, decide_True by lia. by rewrite nibble_mod by apply nibble_cellMask.
  - assert (Hsame : Js.load (if centre x y then Js.store o (y * w + x) (cellMask x y) else o)
                      (y' * w + x') = Js.load o (y' * w + x')).
    { destruct (centre x y); [|done]. rewrite load_store. by rewrite decide_False by lia. }
    rewrite Hsame, Ho. repeat case_decide; done || lia.
Qed.

Lemma filled_convert : filled (h * w) (convertExpandedToRegular g w h).
Proof.
  unfold convertExpandedToRegular.
  pose proof (for_range_ind (fun y o => filled (y * w) o) h
                (fun y => for_range w (fun x => convertCell g w x y))
                (replicate (Z.to_nat (w * h)) 0)) as G.
  rewrite Z.max_r in G by lia. apply G; clear G.
  - split; [apply length_replicate|]. intros x y Hx Hy.
    pose proof (index_range x y Hx Hy) as Hr.
    rewrite decide_False by lia. unfold maskAt, Js.load, Js.get.
    destruct (Z.ltb_spec (y * w + x) 0); [done|].
    rewrite lookup_replicate_2 by lia. done.
  - intros y s Hy Hs.
    pose proof (for_range_ind (fun x o => filled (y * w + x) o) w
                  (fun x => convertCell g w x y) s) as G.
    rewrite Z.max_r in G by lia.
    replace ((y + 1) * w) with (y * w + w) by lia. apply G; clear G.
    + by rewrite Z.add_0_r.
    + intros x s' Hx Hs'. rewrite Z.add_assoc. by apply filled_convertCell.
Qed.

Lemma convert_maskAt x y :
  0 <= x < w -> 0 <= y < h ->
  maskAt w (convertExpandedToRegular g w h) x y = cellMask x y.
Proof.
  intros Hx Hy. destruct filled_convert as [_ Hf]. rewrite (Hf x y Hx Hy).
  pose proof (index_range x y Hx Hy). rewrite decide_True by lia. done.
Qed.

(** Neighbouring cells read the same three slots of the expanded grid. *)
Lemma cellMask_EW x y :
  0 <= x -> has (cellMask x y) E = has (cellMask (x + 1) y) W.
Proof.
  intros Hx.
  destruct (cellMask_bits x y) as (_ & -> & _ & _).
  destruct (cellMask_bits (x + 1) y) as (_ & _ & _ & ->).
  unfold centre, eastOpen, westOpen.
  replace (2 * (x + 1) + 1 - 1) with (2 * x + 1 + 1) by lia.
  replace (2 * (x + 1) + 1 - 2) with (2 * x + 1) by lia.
  replace (2 * (x + 1) + 1) with (2 * x + 1 + 2) by lia.
  destruct (passable g (2 * y + 1) (2 * x + 1)),
           (passable g (2 * y + 1) (2 * x + 1 + 1)),
           (passable g (2 * y + 1) (2 * x + 1 + 2));
    repeat match goal with
    | |- context [?a <? ?b] => destruct (Z.ltb_spec a b)
    | |- context [?a <=? ?b] => destruct (Z.leb_spec a b)
    | |- context [?a >=? ?b] => rewrite (Z.geb_leb a b); destruct (Z.leb_spec b a)
    end; simpl; done || lia.
Qed.

Lemma cellMask_SN x y :
  0 <= y -> has (cellMask x y) S = has (cellMask x (y + 1)) N.
Proof.
  intros Hy.
  destruct (cellMask_bits x y) as (_ & _ & -> & _).
  destruct (cellMask_bits x (y + 1)) as (-> & _ & _ & _).
  unfold centre, southOpen, northOpen.
  replace (2 * (y + 1) + 1 - 1) with (2 * y + 1 + 1) by lia.
  replace (2 * (y + 1) + 1 - 2) with (2 * y + 1) by lia.
  replace (2 * (y + 1) + 1) with (2 * y + 1 + 2) by lia.
  destruct (passable g (2 * y + 1) (2 * x + 1)),
           (passable g (2 * y + 1 + 1) (2 * x + 1)),
           (passable g (2 * y + 1 + 2) (2 * x + 1));
    repeat match goal with
    | |- context [?a <? ?b] => destruct (Z.ltb_spec a b)
    | |- context [?a <=? ?b] => destruct (Z.leb_spec a b)
    | |- context [?a >=? ?b] => rewrite (Z.geb_leb a b); destruct (Z.leb_spec b a)
    end; simpl; done || lia.
Qed.

Lemma symmetric_convert : symmetric w h (convertExpandedToRegular g w h).
Proof.
  split.
  - intros x y Hx Hx' Hy. rewrite !convert_maskAt by lia. by apply cellMask_EW.
  - intros x y Hx Hy Hy'. rewrite !convert_maskAt by lia. by apply cellMask_SN.
Qed.

Lemma boundaryClosed_convert :
  rowsOf = 2 * h + 1 -> colsOf = 2 * w + 1 ->
  boundaryClosed w h (convertExpandedToRegular g w h).
Proof.
  intros Hrows Hcols x y Hx Hy. rewrite convert_maskAt by done.
  destruct (cellMask_bits x y) as (HN & HE & HS & HW).
  unfold cellInside. rewrite HN, HE, HS, HW.
  unfold northOpen, eastOpen, southOpen, westOpen. rewrite Hrows, Hcols.
  repeat split; intros ->; apply andb_false_intro2.
  - destruct (Z.geb_spec (2 * 0 + 1) 2); [lia | done].
  - destruct (Z.leb_spec (2 * (w - 1) + 1) (2 * w + 1 - 3)); [lia | done].
  - destruct (Z.geb_spec (2 * 0 + 1) 2); [lia | done].
  - destruct (Z.leb_spec (2 * (h - 1) + 1) (2 * h + 1 - 3)); [lia | done].
Qed.

Lemma sound_convert :
  rowsOf = 2 * h + 1 -> colsOf = 2 * w + 1 -> sound (convertExpandedToRegular g w h).
Proof.
  intros Hrows Hcols. split; [apply shaped_convert|].
  split; [apply symmetric_convert | by apply boundaryClosed_convert].
Qed.

End Expanded.

(** *** Start and goal cells *)

Lemma length_normalizeCell x y o : length (normalizeCell w h x y o) = length o.
Proof.
  unfold normalizeCell. cbv zeta.
  repeat match goal with
  | |- context [if ?c then _ else _] => destruct c
  end; by rewrite ?length_store.
Qed.

Lemma length_normalizeLoops o :
  length (for_range h (fun y => for_range w (fun x => normalizeCell w h x y)) o) = length o.
Proof.
  apply (for_range_keeps (fun s => length s = length o)); [done|]. intros y s _ Hs.
  apply (for_range_keeps (fun s => length s = length o)); [done|]. intros x s' _ Hs'.
  by rewrite length_normalizeCell.
Qed.

Lemma orInto_has o i bit :
  0 <= i < Z.of_nat (length o) -> direction bit -> has (Js.load (orInto o i bit) i) bit = true.
Proof.
  intros Hi Hd. unfold orInto. rewrite load_store, decide_True by done.
  rewrite has_mod, has_lor by done.
  destruct Hd as [-> | -> | -> | ->]; apply orb_true_r.
Qed.

Lemma has_nonzero v bit : has v bit = true -> v <> 0.
Proof. intros Hv ->. by rewrite has_0 in Hv. Qed.

Lemma orInto_nonzero o i bit j :
  direction bit -> Js.load o j <> 0 -> Js.load (orInto o i bit) j <> 0.
Proof.
  intros Hd Hj. unfold orInto. rewrite load_store. case_decide as Hc; [|done].
  destruct Hc as [-> Hi]. apply (has_nonzero _ bit).
  rewrite has_mod, has_lor by done.
  destruct Hd as [-> | -> | -> | ->]; apply orb_true_r.
Qed.

Lemma openStart_nonzero o j : Js.load o j <> 0 -> Js.load (openStart w h o) j <> 0.
Proof.
  intros Hj. unfold openStart. cbv zeta.
  repeat match goal with
  | |- context [if ?c then _ else _] => destruct c
  end; repeat (apply orInto_nonzero; [by constructor|]); done.
Qed.

Lemma openGoal_nonzero o j : Js.load o j <> 0 -> Js.load (openGoal w h o) j <> 0.
Proof.
  intros Hj. unfold openGoal. cbv zeta.
  repeat match goal with
  | |- context [if ?c then _ else _] => destruct c
  end; repeat (apply orInto_nonzero; [by constructor|]); done.
Qed.

Lemma openStart_opens o :
  2 <= w * h -> length o = Z.to_nat (w * h) -> Js.load (openStart w h o) 0 <> 0.
Proof.
  intros Hcells Hlen. unfold openStart. cbv zeta.
  destruct (Z.eqb_spec (Js.load o 0) 0) as [_|Hne]; [|done].
  destruct (Z.gtb_spec w 1); [|destruct (Z.gtb_spec h 1); [|nia]].
  - apply orInto_nonzero; [by constructor|]. apply (has_nonzero _ E).
    apply orInto_has; [lia | by constructor].
  - apply orInto_nonzero; [by constructor|]. apply (has_nonzero _ S).
    apply orInto_has; [lia | by constructor].
Qed.

Lemma openGoal_opens o :
  2 <= w * h -> length o = Z.to_nat (w * h) ->
  Js.load (openGoal w h o) ((h - 1) * w + (w - 1)) <> 0.
Proof.
  intros Hcells Hlen. unfold openGoal. cbv zeta.
  destruct (Z.eqb_spec (Js.load o ((h - 1) * w + (w - 1))) 0) as [_|Hne]; [|done].
  assert (0 <= (h - 1) * w + (w - 1) < Z.of_nat (length o)) by nia.
  destruct (Z.gtb_spec w 1); [|destruct (Z.gtb_spec h 1); [|nia]].
  - apply orInto_nonzero; [by constructor|]. apply (has_nonzero _ W).
    apply orInto_has; [done | by constructor].
  - apply orInto_nonzero; [by constructor|]. apply (has_nonzero _ N).
    apply orInto_has; [done | by constructor].
Qed.

Lemma openStart_fixed o : Js.load o 0 <> 0 \/ w * h = 1 -> openStart w h o = o.
Proof.
  intros Ho. unfold openStart. cbv zeta.
  destruct (Z.eqb_spec (Js.load o 0) 0) as [H0|_]; [|done].
  destruct (Z.gtb_spec w 1); [nia|]. destruct (Z.gtb_spec h 1); [nia | done].
Qed.

Lemma openGoal_fixed o :
  Js.load o ((h - 1) * w + (w - 1)) <> 0 \/ w * h = 1 -> openGoal w h o = o.
Proof.
  intros Ho. unfold openGoal. cbv zeta.
  destruct (Z.eqb_spec (Js.load o ((h - 1) * w + (w - 1))) 0) as [H0|_]; [|done].
  destruct (Z.gtb_spec w 1); [nia|]. destruct (Z.gtb_spec h 1); [nia | done].
Qed.

(** *** Opening the start and the goal keeps symmetry *)




End Carving.

(** *** What the loops repair *)

Section Repair.
Variables w h : Z.
Hypothesis Hw : 1 <= w.
Hypothesis Hh : 1 <= h.









(** *** The loops on an arbitrary array *)

Section Loop.
Variable o : list Z.
Hypothesis Hlen : length o = Z.to_nat (w * h).





















End Loop.







End Repair.



(** X11. On the expanded-grid path the masks that [decodeOpenings] returns
    are symmetric: a cell has its East bit exactly when its right-hand
    neighbour has its West bit, and its South bit exactly when the cell below
    has its North bit. *)
Theorem decodeOpenings_expanded_symmetric
    (pako : Pako) (parse : Payload.Parser) (g : list Z) (w h : Z)
    (rows : list JSON) (masks : list Z) :
  1 <= w -> 1 <= h ->
  expandedGridOf pako parse g w h = Some rows ->
  decodeOpenings pako parse g w h = Returns masks ->
  symmetric w h masks.
Proof.
  intros Hw Hh Hrows. unfold decodeOpenings. rewrite Hrows.
  destruct (Payload.asGrid rows) as [grid|] eqn:Hgrid; [|done].
  intros [= <-].
  assert (Hdims : rowsOf grid = 2 * h + 1 /\ colsOf grid = 2 * w + 1).
  { unfold expandedGridOf in Hrows.
    destruct (Payload.tryParseBase64ZlibJson pako parse g) as [[| | | |[|[| | | |row0|] rest]|]|];
      try done.
    destruct (Z.eqb_spec (Z.of_nat (length (JArr row0 :: rest))) (2 * h + 1)) as [Hr|];
      [|done].
    destruct (Z.eqb_spec (Z.of_nat (length row0)) (2 * w + 1)) as [Hc|]; [|done].
    injection Hrows as <-. unfold Payload.asGrid in Hgrid.
    unfold rowsOf, colsOf. rewrite <- (length_mapM _ _ _ Hgrid). split; [done|].
    apply mapM_Some in Hgrid. inversion Hgrid as [|? r0 ? ? Hrow0 _]; subst.
    simpl in Hrow0 |- *. by rewrite <- (length_mapM _ _ _ Hrow0). }
  destruct Hdims as [Hr Hc].
  by apply (sound_normalizeOpenings w h Hw Hh), sound_convert.
Qed.

Lemma decodeOpenings_expanded_symmetric_witness :
  symmetric 2 1 [2; 8].
Proof.
  apply (decodeOpenings_expanded_symmetric
           (Some (fun _ => None))
           (fun _ => Some (JArr [JArr [JNum 0; JNum 0; JNum 0; JNum 0; JNum 0];
                                 JArr [JNum 0; JNum 1; JNum 1; JNum 1; JNum 0];
                                 JArr [JNum 0; JNum 0; JNum 0; JNum 0; JNum 0]]))
           [] 2 1
           [JArr [JNum 0; JNum 0; JNum 0; JNum 0; JNum 0];
            JArr [JNum 0; JNum 1; JNum 1; JNum 1; JNum 0];
            JArr [JNum 0; JNum 0; JNum 0; JNum 0; JNum 0]] [2; 8]).
  - lia.
  - lia.
  - reflexivity.
  - reflexivity.
Defined.

(** A mask between 1 and 15 has a direction bit. *)
Lemma nibble_open (m : Z) :
  nibble m -> m <> 0 -> exists bit, direction bit /\ has m bit = true.
Proof.
  intros Hm Hne.
  destruct (has m N) eqn:HN; [exists N; split; [by constructor | done]|].
  destruct (has m E) eqn:HE; [exists E; split; [by constructor | done]|].
  destruct (has m S) eqn:HS; [exists S; split; [by constructor | done]|].
  destruct (has m W) eqn:HW; [exists W; split; [by constructor | done]|].
  exfalso. apply nibble_cases in Hm.
  repeat (destruct Hm as [-> | Hm]; [done|]). by subst.
Qed.

Lemma fixed_when_open (w h : Z) (o : list Z) :
  1 <= w -> 1 <= h -> sound w h o ->
  (maskAt w o 0 0 <> 0 /\ maskAt w o (w - 1) (h - 1) <> 0) \/ w * h = 1 ->
  normalizeOpenings o w h = o.
Proof.
  intros Hw Hh Hsound Hends. unfold normalizeOpenings, maskAt in *.
  replace (0 * w + 0) with 0 in Hends by lia.
  rewrite (normalizeLoops_fixed w h) by done.
  rewrite (openStart_fixed w h Hw Hh) by tauto.
  apply (openGoal_fixed w h Hw Hh). tauto.
Qed.

Lemma ends_open (w h : Z) (o : list Z) :
  1 <= w -> 1 <= h -> 2 <= w * h -> length o = Z.to_nat (w * h) ->
  maskAt w (normalizeOpenings o w h) 0 0 <> 0 /\
  maskAt w (normalizeOpenings o w h) (w - 1) (h - 1) <> 0.
Proof.
  intros Hw Hh Hcells Hlen. unfold normalizeOpenings, maskAt. split.
  - replace (0 * w + 0) with 0 by lia.
    apply openGoal_nonzero, openStart_opens; try done.
    by rewrite length_normalizeLoops.
  - apply openGoal_opens; try done.
    unfold openStart. cbv zeta.
    repeat match goal with
    | |- context [if ?c then _ else _] => destruct c
    end; rewrite ?length_orInto; by rewrite length_normalizeLoops.
Qed.

(** X12. [normalizeOpenings] changes nothing in an array of masks that is
    already consistent: if the masks are nibbles, symmetric, closed on the
    boundary, and the start and goal cells are not empty, the result is the
    input. *)
Theorem normalizeOpenings_fixed (w h : Z) (o : list Z) :
  1 <= w -> 1 <= h ->
  length o = Z.to_nat (w * h) -> Forall (fun m => 0 <= m < 16) o ->
  symmetric w h o -> boundaryClosed w h o ->
  maskAt w o 0 0 <> 0 -> maskAt w o (w - 1) (h - 1) <> 0 ->
  normalizeOpenings o w h = o.
Proof.
  intros Hw Hh Hlen Hnib Hsym Hclosed Hstart Hgoal.
  apply fixed_when_open; try done. by left.
Qed.

Lemma normalizeOpenings_fixed_witness :
  normalizeOpenings [2; 12; 0; 1] 2 2 = [2; 12; 0; 1].
Proof.
  apply (normalizeOpenings_fixed 2 2 [2; 12; 0; 1]); try lia; try by vm_compute.
  - repeat constructor; lia.
  - split; intros x y ? ? ?.
    + assert (x = 0) as -> by lia. assert (y = 0 \/ y = 1) as [-> | ->] by lia; by vm_compute.
    + assert (y = 0) as -> by lia. assert (x = 0 \/ x = 1) as [-> | ->] by lia; by vm_compute.
  - intros x y ? ?.
    assert (x = 0 \/ x = 1) as [-> | ->] by lia;
      (assert (y = 0 \/ y = 1) as [-> | ->] by lia); by vm_compute.
Defined.

(** X13. In a grid of at least two cells, [normalizeOpenings] never leaves
    the start cell (0, 0) or the goal cell (w-1, h-1) closed: for every array
    of w*h masks between 0 and 15, each of the two cells has one of the four
    direction bits set in the result. *)
Theorem normalizeOpenings_opens_ends (w h : Z) (o : list Z) :
  1 <= w -> 1 <= h -> 2 <= w * h ->
  length o = Z.to_nat (w * h) -> Forall (fun m => 0 <= m < 16) o ->
  (exists bit, direction bit /\
     has (maskAt w (normalizeOpenings o w h) 0 0) bit = true) /\
  (exists bit, direction bit /\
     has (maskAt w (normalizeOpenings o w h) (w - 1) (h - 1)) bit = true).
Proof.
  intros Hw Hh Hcells Hlen Hnib.
  destruct (ends_open w h o Hw Hh Hcells Hlen) as [Hstart Hgoal].
  assert (Hshaped : shaped (Z.to_nat (w * h)) (normalizeOpenings o w h))
    by (by apply shaped_normalizeOpenings).
  destruct Hshaped as [_ Hnib'].
  split; apply nibble_open; try done; by apply nibble_load.
Qed.

Lemma normalizeOpenings_opens_ends_witness :
  (exists bit, direction bit /\
     has (maskAt 2 (normalizeOpenings [0; 0] 2 1) 0 0) bit = true) /\
  (exists bit, direction bit /\
     has (maskAt 2 (normalizeOpenings [0; 0] 2 1) (2 - 1) (1 - 1)) bit = true).
Proof.
  apply (normalizeOpenings_opens_ends 2 1 [0; 0]); try lia.
  - reflexivity.
  - repeat constructor; lia.
Defined.

(** X14. Normalising twice is normalising once, for masks that are
    consistent to begin with (nibbles, symmetric, closed on the boundary):
    the start and goal openings that the first pass may add are left alone by
    the second. *)
Theorem normalizeOpenings_twice (w h : Z) (o : list Z) :
  1 <= w -> 1 <= h ->
  length o = Z.to_nat (w * h) -> Forall (fun m => 0 <= m < 16) o ->
  symmetric w h o -> boundaryClosed w h o ->
  normalizeOpenings (normalizeOpenings o w h) w h = normalizeOpenings o w h.
Proof.
  intros Hw Hh Hlen Hnib Hsym Hclosed.
  assert (Hsound : sound w h (normalizeOpenings o w h))
    by (by apply sound_normalizeOpenings).
  apply fixed_when_open; try done.
  destruct (decide (w * h = 1)) as [|Hne]; [by right | left].
  apply ends_open; try done. nia.
Qed.

Lemma normalizeOpenings_twice_witness :
  normalizeOpenings (normalizeOpenings [0; 0; 0; 0] 2 2) 2 2
  = normalizeOpenings [0; 0; 0; 0] 2 2.
Proof.
  apply (normalizeOpenings_twice 2 2 [0; 0; 0; 0]); try lia; try by vm_compute.
  - repeat constructor; lia.
  - split; intros x y ? ? ?.
    + assert (x = 0) as -> by lia. assert (y = 0 \/ y = 1) as [-> | ->] by lia; by vm_compute.
    + assert (y = 0) as -> by lia. assert (x = 0 \/ x = 1) as [-> | ->] by lia; by vm_compute.
  - intros x y ? ?.
    assert (x = 0 \/ x = 1) as [-> | ->] by lia;
      (assert (y = 0 \/ y = 1) as [-> | ->] by lia); by vm_compute.
Defined.

End OpeningsFacts.

(** ** Export of the openings ([app.js]) *)

Module Exporter.
Import Base64 Grid Packer RoundTrip OpeningsFacts.

(** [openingsMask] of [packGridOpeningsToBase64]: a missing cell gives the
    empty object, in which no wall is [false]. *)
Definition openingsMask (walls : option Generator.Walls) : Z :=
  match walls with
  | Some ws =>
      Z.lor (Z.lor (Z.lor (if Generator.wallN ws then 0 else 1)
                          (if Generator.wallE ws then 0 else 2))
                   (if Generator.wallS ws then 0 else 4))
            (if Generator.wallW ws then 0 else 8)
  | None => 0
  end.

(** The mask of the cell of index [index], at [x = index % w] and
    [y = Math.floor(index / w)]. *)
Definition maskOf (getCellWalls : Z -> Z -> option Generator.Walls) (w index : Z) : Z :=
  let x := Z.rem index w in
  let y := index / w in
  openingsMask (getCellWalls x y).

(** The body of the loop of [packGridOpeningsToBase64]. *)
Definition packCell (getCellWalls : Z -> Z -> option Generator.Walls) (w : Z)
    (index : Z) (packed : list Z) : list Z :=
  let openingsMask := maskOf getCellWalls w index in
  let byteIndex := index / 2 in
  if index mod 2 =? 0
  then Js.store packed byteIndex (Z.land openingsMask 15)
  else Js.store packed byteIndex
         (Z.lor (Js.load packed byteIndex) (Z.shiftl (Z.land openingsMask 15) 4)).

(** The bytes handed to [bytesToBase64]; [new Uint8Array] throws on a
    negative length. *)
Definition packGridOpenings (getCellWalls : Z -> Z -> option Generator.Walls)
    (w h : Z) : Res (list Z) :=
  let totalCells := w * h in
  let size := (totalCells + 1) / 2 in
  if size <? 0 then Throw "Invalid typed array length"
  else Ok (for_range totalCells (packCell getCellWalls w) (replicate (Z.to_nat size) 0)).

Definition packGridOpeningsToBase64 (getCellWalls : Z -> Z -> option Generator.Walls)
    (w h : Z) : Res (list Z) :=
  match packGridOpenings getCellWalls w h with
  | Ok packed => Ok (bytesToBase64 packed)
  | Throw msg => Throw msg
  end.

(** The walls of a 2 x 2 maze: entrance above (0,0), exit below (1,1), and
    the passages (0,0)-(1,0), (1,0)-(1,1), (0,1)-(1,1). *)
Definition sampleWalls (x y : Z) : option Generator.Walls :=
  Some {| Generator.wallN := negb (((x =? 0) && (y =? 0)) || ((x =? 1) && (y =? 1)));
          Generator.wallE := negb (x =? 0);
          Generator.wallS := negb (x =? 1);
          Generator.wallW := negb (x =? 1) |}.

Example packGrid_2x2 :
  packGridOpenings sampleWalls 2 2 = Ok [195; 210] /\
  packGridOpeningsToBase64 sampleWalls 2 2 = Ok (codes "w9I=").
Proof. by vm_compute. Qed.

(** Linear arithmetic with division and remainder by constants. *)
Ltac divlia := Z.div_mod_to_equations; lia.

(** *** Two nibbles in a byte *)

Lemma nibble_openingsMask walls : nibble (openingsMask walls).
Proof.
  destruct walls as [[[] [] [] []]|]; by vm_compute.
Qed.

Lemma pair_value (lo hi : Z) :
  nibble lo -> nibble hi -> Z.lor lo (Z.shiftl hi 4) = 16 * hi + lo.
Proof.
  intros Hlo Hhi. rewrite Z.lor_comm, Z.shiftl_mul_pow2 by lia.
  change (2 ^ 4) with 16. unfold nibble in *.
  rewrite (lor_add_disjoint (hi * 16) lo 4).
  - lia.
  - lia.
  - change (2 ^ 4) with 16. lia.
  - change (2 ^ 4) with 16. by rewrite Z.mod_mul.
Qed.

Lemma low_nibble (lo hi : Z) : nibble lo -> nibble hi -> Z.land (16 * hi + lo) 15 = lo.
Proof.
  intros Hlo Hhi. change 15 with (Z.ones 4). rewrite Z.land_ones by lia.
  change (2 ^ 4) with 16. unfold nibble in *.
  rewrite Z.add_comm, Z.mul_comm, Z.mod_add by lia. apply Z.mod_small. lia.
Qed.

Lemma high_nibble (lo hi : Z) :
  nibble lo -> nibble hi -> Z.land (Z.shiftr (16 * hi + lo) 4) 15 = hi.
Proof.
  intros Hlo Hhi. rewrite Z.shiftr_div_pow2 by lia. change (2 ^ 4) with 16.
  unfold nibble in *.
  replace ((16 * hi + lo) / 16) with hi by divlia.
  change 15 with (Z.ones 4). rewrite Z.land_ones by lia. apply Z.mod_small.
  change (2 ^ 4) with 16. lia.
Qed.

Lemma land15_nibble (v : Z) : nibble v -> Z.land v 15 = v.
Proof.
  intros Hv. change 15 with (Z.ones 4). rewrite Z.land_ones by lia.
  apply Z.mod_small. change (2 ^ 4) with 16. unfold nibble in Hv. lia.
Qed.

(** *** The packed bytes *)

Section Pack.
Variable getCellWalls : Z -> Z -> option Generator.Walls.
Variables w h : Z.

Abbreviation mask := (maskOf getCellWalls w).

Lemma nibble_mask i : nibble (mask i).
Proof. apply nibble_openingsMask. Qed.

(** The byte of index [j] once the cells below [k] are packed. *)
Definition byteAt (k j : Z) : Z :=
  16 * (if 2 * j + 1 <? k then mask (2 * j + 1) else 0)
  + (if 2 * j <? k then mask (2 * j) else 0).

Lemma byteAt_range k j : 0 <= byteAt k j < 256.
Proof.
  unfold byteAt. pose proof (nibble_mask (2 * j)). pose proof (nibble_mask (2 * j + 1)).
  unfold nibble in *. repeat match goal with |- context [if ?c then _ else _] => destruct c end; divlia.
Qed.

Definition packedTo (k : Z) (packed : list Z) : Prop :=
  Z.of_nat (length packed) = (w * h + 1) / 2 /\
  forall j, 0 <= j < (w * h + 1) / 2 -> Js.load packed j = byteAt k j.

Lemma packedTo_packCell k packed :
  0 <= k < w * h -> packedTo k packed -> packedTo (k + 1) (packCell getCellWalls w k packed).
Proof.
  intros Hk [Hlen Hp]. unfold packCell. cbv zeta.
  assert (Hj : 0 <= k / 2 < (w * h + 1) / 2) by divlia.
  pose proof (nibble_mask k) as Hm.
  split.
  { destruct (k mod 2 =? 0); by rewrite length_store. }
  intros j Hjr.
  assert (Hother : j <> k / 2 -> byteAt (k + 1) j = byteAt k j).
  { intros Hne. unfold byteAt.
    destruct (Z.ltb_spec (2 * j + 1) (k + 1)), (Z.ltb_spec (2 * j + 1) k),
             (Z.ltb_spec (2 * j) (k + 1)), (Z.ltb_spec (2 * j) k); divlia. }
  destruct (Z.eqb_spec (k mod 2) 0) as [Heven|Hodd]; rewrite load_store.
  - case_decide as Hc; [destruct Hc as [<- _] | rewrite Hp, Hother by done || divlia; done].
    rewrite land15_nibble by done. unfold byteAt.
    replace (2 * (k / 2)) with k by divlia.
    destruct (Z.ltb_spec (k + 1) (k + 1)); [divlia|].
    destruct (Z.ltb_spec k (k + 1)); [|divlia].
    unfold nibble in Hm. rewrite Z.mod_small by divlia. divlia.
  - case_decide as Hc; [destruct Hc as [<- _] | rewrite Hp, Hother by done || divlia; done].
    rewrite Hp by done. rewrite land15_nibble by done. unfold byteAt.
    replace (2 * (k / 2) + 1) with k by divlia.
    destruct (Z.ltb_spec k k); [divlia|].
    destruct (Z.ltb_spec (2 * (k / 2)) k); [|divlia].
    destruct (Z.ltb_spec k (k + 1)); [|divlia].
    destruct (Z.ltb_spec (2 * (k / 2)) (k + 1)); [|divlia].
    pose proof (nibble_mask (2 * (k / 2))) as Hlo.
    replace (16 * 0 + mask (2 * (k / 2))) with (mask (2 * (k / 2))) by divlia.
    rewrite pair_value by done. unfold nibble in *. apply Z.mod_small. divlia.
Qed.

Lemma packedTo_packGridOpenings :
  0 <= w * h ->
  exists packed, packGridOpenings getCellWalls w h = Ok packed /\ packedTo (w * h) packed.
Proof.
  intros Hcells. unfold packGridOpenings. cbv zeta.
  destruct (Z.ltb_spec ((w * h + 1) / 2) 0) as [|Hsize]; [divlia|].
  eexists. split; [done|].
  pose proof (for_range_ind packedTo (w * h) (packCell getCellWalls w)
                (replicate (Z.to_nat ((w * h + 1) / 2)) 0)) as G.
  rewrite Z.max_r in G by done. apply G; clear G.
  - split; [rewrite length_replicate; divlia|]. intros j Hj.
    unfold byteAt. destruct (Z.ltb_spec (2 * j + 1) 0), (Z.ltb_spec (2 * j) 0); try divlia.
    unfold Js.load, Js.get. destruct (Z.ltb_spec j 0); [done|].
    rewrite lookup_replicate_2 by divlia. done.
  - intros k s Hk Hs. by apply packedTo_packCell.
Qed.

(** *** Unpacking *)

(** The nibble that the legacy loop of [decodeOpenings] reads for the cell
    [k] places after its current one. *)
Definition nibbleAt (bytes : list Z) (k : Z) : Z :=
  if k mod 2 =? 0 then Z.land (Js.load bytes (k / 2)) 15
  else Z.land (Z.shiftr (Js.load bytes (k / 2)) 4) 15.

Lemma load_cons_succ (b : Z) (bs : list Z) (j : Z) :
  0 <= j -> Js.load (b :: bs) (j + 1) = Js.load bs j.
Proof.
  intros Hj. unfold Js.load, Js.get.
  destruct (Z.ltb_spec (j + 1) 0), (Z.ltb_spec j 0); try divlia.
  replace (Z.to_nat (j + 1)) with (Datatypes.S (Z.to_nat j)) by divlia. done.
Qed.

Lemma nibbleAt_cons (b : Z) (bs : list Z) (k : Z) :
  0 <= k -> nibbleAt (b :: bs) (k + 2) = nibbleAt bs k.
Proof.
  intros Hk. unfold nibbleAt.
  replace ((k + 2) mod 2) with (k mod 2) by divlia.
  replace ((k + 2) / 2) with (k / 2 + 1) by divlia.
  rewrite load_cons_succ by divlia. done.
Qed.

Lemma unpackNibbles_load (total : Z) (bytes : list Z) : forall o c i,
  0 <= c -> Z.of_nat (length o) = total ->
  Js.load (unpackNibbles bytes total o c) i =
  if decide (c <= i < total /\ i < c + 2 * Z.of_nat (length bytes))
  then nibbleAt bytes (i - c) else Js.load o i.
Proof.
  induction bytes as [|b bytes IH]; intros o c i Hc Hlen.
  { simpl. rewrite decide_False by divlia. done. }
  cbn [unpackNibbles]. cbv zeta.
  assert (Hland : forall v, Z.land (Z.land v 15) 15 mod 256 = Z.land v 15).
  { intros v. pose proof (nibble_land15 v) as Hv.
    rewrite land15_nibble by done. unfold nibble in Hv. apply Z.mod_small. divlia. }
  assert (Hlow : nibbleAt (b :: bytes) 0 = Z.land b 15) by done.
  assert (Hhigh : nibbleAt (b :: bytes) 1 = Z.land (Z.shiftr b 4) 15) by done.
  destruct (Z.ltb_spec c total) as [Hlt|Hge]; [|rewrite decide_False by divlia; done].
  destruct (Z.geb_spec (c + 1) total) as [Hlast|Hmore].
  - rewrite load_store. case_decide as Hd.
    + destruct Hd as [<- _]. rewrite decide_True by (simpl length; divlia).
      rewrite Z.sub_diag, Hlow. apply Hland.
    + rewrite decide_False by divlia. done.
  - rewrite IH by (rewrite ?length_store; divlia).
    rewrite !load_store, !length_store. simpl length.
    destruct (decide (i = c)) as [->|Hic]; [|destruct (decide (i = c + 1)) as [->|Hic']].
    + rewrite decide_False by divlia. rewrite decide_False by divlia.
      rewrite decide_True by divlia. rewrite decide_True by divlia.
      rewrite Z.sub_diag, Hlow. apply Hland.
    + rewrite decide_False by divlia. rewrite decide_True by divlia.
      rewrite decide_True by divlia.
      replace (c + 1 - c) with 1 by divlia. rewrite Hhigh.
      pose proof (nibble_land15 (Z.shiftr b 4)) as Hv. unfold nibble in Hv.
      apply Z.mod_small. lia.
    + destruct (decide (c + 1 + 1 <= i < total /\
                        i < c + 1 + 1 + 2 * Z.of_nat (length bytes))) as [Hin|Hout].
      * rewrite decide_True by divlia.
        replace (i - c) with (i - (c + 1 + 1) + 2) by divlia.
        by rewrite nibbleAt_cons by divlia.
      * rewrite decide_False by divlia. rewrite decide_False by divlia.
        rewrite decide_False by divlia. done.
Qed.

Lemma load_ext (a b : list Z) :
  length a = length b ->
  (forall i, 0 <= i < Z.of_nat (length a) -> Js.load a i = Js.load b i) -> a = b.
Proof.
  intros Hlen Hload. apply list_eq_same_length with (length a); [done | done |].
  intros i x y Hi Hx Hy. specialize (Hload (Z.of_nat i) ltac:(divlia)).
  unfold Js.load, Js.get in Hload.
  destruct (Z.ltb_spec (Z.of_nat i) 0); [divlia|].
  rewrite Nat2Z.id, Hx, Hy in Hload. done.
Qed.

(** The masks of the grid in index order. *)
Definition gridMasks : list Z := (fun i => mask i) <$> seqZ 0 (w * h).

Lemma load_gridMasks i : 0 <= i < w * h -> Js.load gridMasks i = mask i.
Proof.
  intros Hi. unfold Js.load, Js.get, gridMasks. destruct (Z.ltb_spec i 0); [lia|].
  rewrite list_lookup_fmap, (lookup_seqZ_lt 0 (w * h) (Z.to_nat i)) by lia.
  simpl. f_equal. lia.
Qed.

Lemma length_gridMasks : length gridMasks = Z.to_nat (w * h).
Proof. unfold gridMasks. by rewrite length_fmap, length_seqZ. Qed.

Lemma unpack_packed packed :
  0 <= w * h -> packedTo (w * h) packed ->
  unpackNibbles packed (w * h) (replicate (Z.to_nat (w * h)) 0) 0 = gridMasks.
Proof.
  intros Hcells [Hlen Hp].
  assert (Hshape : length (unpackNibbles packed (w * h) (replicate (Z.to_nat (w * h)) 0) 0)
                   = Z.to_nat (w * h)).
  { apply (shaped_unpackNibbles (Z.to_nat (w * h))).
    split; [apply length_replicate | apply Forall_replicate; unfold nibble; divlia]. }
  apply load_ext.
  { by rewrite Hshape, length_gridMasks. }
  intros i Hi. rewrite Hshape in Hi.
  rewrite unpackNibbles_load by (rewrite ?length_replicate; divlia).
  rewrite decide_True by divlia. rewrite Z.sub_0_r.
  rewrite load_gridMasks by lia. unfold nibbleAt. rewrite Hp by divlia. unfold byteAt.
  pose proof (nibble_mask (2 * (i / 2))) as Hlo.
  assert (Hhi : nibble (if 2 * (i / 2) + 1 <? w * h then mask (2 * (i / 2) + 1) else 0)).
  { destruct (_ <? _); [apply nibble_mask | unfold nibble; divlia]. }
  destruct (Z.ltb_spec (2 * (i / 2)) (w * h)); [|divlia].
  destruct (Z.eqb_spec (i mod 2) 0) as [Heven|Hodd].
  - rewrite low_nibble by done. f_equal. divlia.
  - rewrite high_nibble by done.
    destruct (Z.ltb_spec (2 * (i / 2) + 1) (w * h)); [|divlia]. f_equal. divlia.
Qed.

End Pack.

(** *** The round trip of the openings *)

Section OpeningsRoundtrip.
Variable pako : Pako.
Variable parse : Payload.Parser.

Hypothesis inflate_needs_header :
  forall inflate bytes b out,
    pako = Some inflate -> inflate bytes = Some (b :: out) -> zlibHeader bytes.

Hypothesis array_needs_bracket :
  forall bytes item items,
    parse bytes = Some (JArr (item :: items)) -> jsonArrayText bytes.

Lemma packed_openings_decode
    (getCellWalls : Z -> Z -> option Generator.Walls) (w h : Z) (start : Generator.Walls) :
  1 <= w -> 1 <= h ->
  getCellWalls 0 0 = Some start ->
  Generator.wallW start = true ->
  Generator.wallN start && Generator.wallE start && Generator.wallS start = false ->
  exists g,
    packGridOpeningsToBase64 getCellWalls w h = Ok g /\
    decodeOpenings pako parse g w h = Returns (gridMasks getCellWalls w h).
Proof.
  intros Hw Hh Hstart HW Hopen.
  assert (Hcells : 1 <= w * h) by nia.
  destruct (packedTo_packGridOpenings getCellWalls w h ltac:(divlia)) as (packed & Hpack & Hp).
  exists (bytesToBase64 packed). unfold packGridOpeningsToBase64. rewrite Hpack.
  split; [done|].
  assert (Hbytes : Forall byte packed).
  { apply Forall_lookup_2. intros j b Hb. destruct Hp as [Hlen Hload].
    pose proof (lookup_lt_Some _ _ _ Hb) as Hj.
    specialize (Hload (Z.of_nat j) ltac:(divlia)).
    unfold Js.load, Js.get in Hload. destruct (Z.ltb_spec (Z.of_nat j) 0); [divlia|].
    rewrite Nat2Z.id, Hb in Hload. simpl in Hload. subst b. apply byteAt_range. }
  assert (Hfirst : exists b rest, packed = b :: rest /\ 1 <= b mod 16 < 8).
  { destruct Hp as [Hlen Hload]. destruct packed as [|b rest]; [simpl in Hlen; divlia|].
    exists b, rest. split; [done|].
    specialize (Hload 0 ltac:(divlia)). change (Js.load (b :: rest) 0) with b in Hload.
    rewrite Hload. unfold byteAt.
    assert (Hm0 : 1 <= maskOf getCellWalls w 0 < 8).
    { unfold maskOf. cbv zeta. rewrite Z.rem_0_l by divlia. rewrite Z.div_0_l by divlia.
      rewrite Hstart. unfold openingsMask. rewrite HW.
      destruct (Generator.wallN start), (Generator.wallE start), (Generator.wallS start);
        try done; by vm_compute. }
    destruct (Z.ltb_spec (2 * 0) (w * h)); [|divlia].
    change (2 * 0) with 0.
    rewrite Z.add_comm, Z.mul_comm, Z.mod_add by divlia. rewrite Z.mod_small by divlia. done. }
  destruct Hfirst as (b & rest & -> & Hb).
  assert (Hnz : ~ zlibHeader (b :: rest)).
  { intros [Hz | ->]; divlia. }
  assert (Hnj : ~ jsonArrayText (b :: rest)).
  { intros (ws & r & Hws & [E|E]).
    - destruct ws as [|c ws]; simpl in E.
      + injection E as -> _. divlia.
      + injection E as -> _. apply Forall_inv in Hws.
        destruct Hws as [-> | [-> | [-> | ->]]]; divlia.
    - injection E as -> _. divlia. }
  pose proof (tryParse_plain pako parse inflate_needs_header array_needs_bracket
                _ Hbytes Hnz Hnj) as Hnp.
  unfold decodeOpenings, expandedGridOf, bytesToBase64. cbv zeta.
  rewrite (decodeBase64_plain pako inflate_needs_header) by done.
  destruct (Z.ltb_spec (w * h) 0); [divlia|].
  rewrite (unpack_packed getCellWalls w h) by (done || divlia).
  destruct (Payload.tryParseBase64ZlibJson pako parse (btoa (b :: rest)))
    as [[| | | | [|item items] |]|]; try done.
  by destruct (Hnp item items).
Qed.

(** X15. What the exporter packs, the decoder unpacks: when the start cell
    has its West wall and at least one opening, [decodeOpenings] applied to
    the output of [packGridOpeningsToBase64] returns the mask of every cell
    in index order (bit 1 for an open North wall, 2 East, 4 South, 8 West).
    The condition on the start cell keeps the first byte from being taken
    for a zlib header or a JSON text. *)
Theorem openings_round_trip
    (getCellWalls : Z -> Z -> option Generator.Walls) (w h : Z) (start : Generator.Walls) :
  1 <= w -> 1 <= h ->
  getCellWalls 0 0 = Some start ->
  Generator.wallW start = true ->
  Generator.wallN start && Generator.wallE start && Generator.wallS start = false ->
  exists g,
    packGridOpeningsToBase64 getCellWalls w h = Ok g /\
    decodeOpenings pako parse g w h = Returns (gridMasks getCellWalls w h).
Proof. apply packed_openings_decode. Qed.

End OpeningsRoundtrip.

Lemma openings_round_trip_witness :
  exists g,
    packGridOpeningsToBase64 sampleWalls 2 2 = Ok g /\
    decodeOpenings (Some (fun _ => None)) (fun _ => None) g 2 2
    = Returns (gridMasks sampleWalls 2 2).
Proof.
  apply (openings_round_trip (Some (fun _ => None)) (fun _ => None)
           ltac:(intros ? ? ? ? [= <-]; discriminate) ltac:(discriminate)
           sampleWalls 2 2
           {| Generator.wallN := false; Generator.wallE := false;
              Generator.wallS := true; Generator.wallW := true |}).
  - lia.
  - lia.
  - reflexivity.
  - reflexivity.
  - reflexivity.
Defined.

End Exporter.

(** ** Hint steps ([app.js]) *)

Module Hints.

(** The loop [for (let step = 20; step < L; step += 20) hints.push(step)];
    [fuel] bounds the number of iterations. *)
Fixpoint defaultSteps (fuel : nat) (step L : Z) (hints : list Z) : list Z :=
  match fuel with
  | O => hints
  | Datatypes.S fuel' =>
      if step <? L then defaultSteps fuel' (step + 20) L (hints ++ [step]) else hints
  end.

Definition createDefaultHints (L : Z) : list Z :=
  if L <=? 0 then []
  else
    let hints := defaultSteps (Z.to_nat L) 20 L [] in
    if bool_decide (L ∈ hints) then hints else hints ++ [L].

(** The loop of [normalizeHintSteps] over an array of finite numbers:
    [unique] is the [Set], [cleaned] the array. *)
Fixpoint cleanLoop (hints : list Z) (maxStep : Z) (unique : gset Z) (cleaned : list Z)
    : list Z :=
  match hints with
  | [] => cleaned
  | step :: rest =>
      if (step <=? 0) || (step >? maxStep) then cleanLoop rest maxStep unique cleaned
      else if bool_decide (step ∈ unique) then cleanLoop rest maxStep unique cleaned
      else cleanLoop rest maxStep ({[step]} ∪ unique) (cleaned ++ [step])
  end.

(** [cleaned.sort((a, b) => a - b)] arranges the numbers in ascending order;
    they are distinct, so the arrangement does not depend on the sorting
    algorithm of the engine. *)
Definition normalizeHintSteps (hints : list Z) (maxStep : Z) : list Z :=
  if maxStep <=? 0 then []
  else merge_sort Z.le (cleanLoop hints maxStep ∅ []).

(** The two branches of the hint editor, on the current hints of the
    visualizer: [None] where the handler only sets a status message. *)
Definition addHint (existingHints : list Z) (step maxStep : Z) : option (list Z) :=
  if (step <=? 0) || (step >? maxStep) then None
  else if bool_decide (step ∈ existingHints) then None
  else Some (normalizeHintSteps (existingHints ++ [step]) maxStep).

Definition removeHint (existingHints : list Z) (step maxStep : Z) : option (list Z) :=
  if (step <=? 0) || (step >? maxStep) then None
  else if negb (bool_decide (step ∈ existingHints)) then None
  else Some (normalizeHintSteps (filter (fun value => value <> step) existingHints) maxStep).

Example hints_examples :
  createDefaultHints 45 = [20; 40; 45] /\
  createDefaultHints 40 = [20; 40] /\
  createDefaultHints 7 = [7] /\
  createDefaultHints 0 = [] /\
  normalizeHintSteps [30; 5; 30; 0; 99; 12] 40 = [5; 12; 30] /\
  addHint [5; 30] 12 40 = Some [5; 12; 30] /\
  removeHint [5; 12; 30] 12 40 = Some [5; 30].
Proof. by vm_compute. Qed.

Ltac divlia := Z.div_mod_to_equations; lia.

(** *** Ascending lists *)

Lemma ascending_NoDup (l : list Z) : StronglySorted Z.lt l -> NoDup l.
Proof.
  induction 1 as [|x l _ IH Hx]; constructor; [|done].
  intros Hin. rewrite Forall_forall in Hx. specialize (Hx x Hin). lia.
Qed.

Lemma ascending_le (l : list Z) : StronglySorted Z.lt l -> StronglySorted Z.le l.
Proof.
  induction 1 as [|x l _ IH Hx]; constructor; [done|].
  eapply Forall_impl; [done|]. intros y Hy. simpl in Hy. lia.
Qed.

Lemma le_NoDup_ascending (l : list Z) :
  StronglySorted Z.le l -> NoDup l -> StronglySorted Z.lt l.
Proof.
  induction 1 as [|x l _ IH Hx]; intros Hnd; [constructor|].
  apply NoDup_cons in Hnd as [Hx' Hnd]. constructor; [by apply IH|].
  rewrite Forall_forall in Hx |- *. intros y Hy. specialize (Hx y Hy).
  assert (x <> y) by (by intros ->). lia.
Qed.

(** An ascending list is determined by its elements. *)
Lemma ascending_ext (l1 l2 : list Z) :
  StronglySorted Z.lt l1 -> StronglySorted Z.lt l2 ->
  (forall s, s ∈ l1 <-> s ∈ l2) -> l1 = l2.
Proof.
  intros H1 H2 Hel.
  apply (StronglySorted_unique Z.le); [by apply ascending_le | by apply ascending_le |].
  apply NoDup_Permutation; [by apply ascending_NoDup | by apply ascending_NoDup | done].
Qed.

(** *** normalizeHintSteps *)

Lemma cleanLoop_spec (maxStep : Z) (hints : list Z) : forall unique cleaned,
  NoDup cleaned -> (forall s, s ∈ unique <-> s ∈ cleaned) ->
  NoDup (cleanLoop hints maxStep unique cleaned) /\
  forall s, s ∈ cleanLoop hints maxStep unique cleaned <->
            s ∈ cleaned \/ (s ∈ hints /\ 0 < s <= maxStep).
Proof.
  induction hints as [|step rest IH]; intros unique cleaned Hnd Hu; cbn [cleanLoop].
  { split; [done|]. intros s. rewrite elem_of_nil. tauto. }
  destruct (Z.leb_spec step 0) as [Hle|Hpos]; cbn [orb].
  { destruct (IH unique cleaned Hnd Hu) as [Hnd' Hel]. split; [done|].
    intros s. rewrite Hel, elem_of_cons. intuition (subst; lia || auto). }
  destruct (Z.gtb_spec step maxStep) as [Hgt|Hin].
  { destruct (IH unique cleaned Hnd Hu) as [Hnd' Hel]. split; [done|].
    intros s. rewrite Hel, elem_of_cons. intuition (subst; lia || auto). }
  case_bool_decide as Hseen.
  - destruct (IH unique cleaned Hnd Hu) as [Hnd' Hel]. split; [done|].
    intros s. rewrite Hel, elem_of_cons. apply Hu in Hseen.
    intuition (subst; auto).
  - assert (Hfresh : step ∉ cleaned) by (by rewrite <- Hu).
    destruct (IH ({[step]} ∪ unique) (cleaned ++ [step])) as [Hnd' Hel].
    + apply NoDup_app. split; [done|]. split; [|apply NoDup_singleton].
      intros x Hx ->%list_elem_of_singleton. done.
    + intros s. rewrite elem_of_union, elem_of_singleton, elem_of_app,
        list_elem_of_singleton, Hu. tauto.
    + split; [done|]. intros s.
      rewrite Hel, elem_of_app, list_elem_of_singleton, elem_of_cons.
      intuition (subst; auto).
Qed.

Lemma normalize_elem (hints : list Z) (maxStep s : Z) :
  s ∈ normalizeHintSteps hints maxStep <-> s ∈ hints /\ 0 < s <= maxStep.
Proof.
  unfold normalizeHintSteps. destruct (Z.leb_spec maxStep 0) as [Hle|Hpos].
  { rewrite elem_of_nil. lia. }
  rewrite merge_sort_Permutation.
  destruct (cleanLoop_spec maxStep hints ∅ []) as [_ Hel].
  - constructor.
  - intros x. rewrite elem_of_nil. set_solver.
  - rewrite Hel, elem_of_nil. tauto.
Qed.

Lemma normalize_ascending (hints : list Z) (maxStep : Z) :
  StronglySorted Z.lt (normalizeHintSteps hints maxStep).
Proof.
  unfold normalizeHintSteps. destruct (Z.leb_spec maxStep 0) as [Hle|Hpos]; [constructor|].
  apply le_NoDup_ascending.
  - apply StronglySorted_merge_sort; apply _.
  - rewrite merge_sort_Permutation.
    apply (cleanLoop_spec maxStep hints ∅ []); [constructor|].
    intros x. rewrite elem_of_nil. set_solver.
Qed.

Lemma normalize_fixed (hints : list Z) (maxStep : Z) :
  StronglySorted Z.lt hints -> (forall s, s ∈ hints -> 0 < s <= maxStep) ->
  normalizeHintSteps hints maxStep = hints.
Proof.
  intros Hs Hr. apply ascending_ext; [apply normalize_ascending | done |].
  intros s. rewrite normalize_elem. split; [tauto|]. intros Hin. split; [done | by apply Hr].
Qed.

(** X16. [normalizeHintSteps] returns, in strictly ascending order and
    without repetition, exactly the steps of its input that lie in
    [1 .. maxStep]; in particular it returns nothing when [maxStep] is not
    positive. *)
Theorem normalizeHintSteps_spec (hints : list Z) (maxStep : Z) :
  StronglySorted Z.lt (normalizeHintSteps hints maxStep) /\
  forall s, s ∈ normalizeHintSteps hints maxStep <-> s ∈ hints /\ 0 < s <= maxStep.
Proof.
  split; [apply normalize_ascending | intros s; apply normalize_elem].
Qed.

(** X17. Normalising hint steps twice is normalising them once. *)
Theorem normalizeHintSteps_idempotent (hints : list Z) (maxStep : Z) :
  normalizeHintSteps (normalizeHintSteps hints maxStep) maxStep
  = normalizeHintSteps hints maxStep.
Proof.
  apply normalize_fixed; [apply normalize_ascending|].
  intros s Hs. by apply normalize_elem in Hs as [_ ?].
Qed.

(** *** createDefaultHints *)

Lemma defaultSteps_spec (L : Z) (fuel : nat) : forall step hints,
  0 < step -> step mod 20 = 0 -> L - step < Z.of_nat fuel ->
  StronglySorted Z.lt hints -> (forall s, s ∈ hints -> s < step) ->
  StronglySorted Z.lt (defaultSteps fuel step L hints) /\
  forall s, s ∈ defaultSteps fuel step L hints <->
            s ∈ hints \/ (step <= s < L /\ s mod 20 = 0).
Proof.
  induction fuel as [|fuel IH]; intros step hints Hpos Hmod Hfuel Hs Hbelow;
    cbn [defaultSteps].
  { split; [done|]. intros s. split; [tauto|]. intros [?|?]; [done | lia]. }
  destruct (Z.ltb_spec step L) as [Hlt|Hge].
  - destruct (IH (step + 20) (hints ++ [step])) as [Hs' Hel]; try lia.
    + divlia.
    + apply StronglySorted_app_2; [|done | repeat constructor].
      intros x1 x2 Hx1 ->%list_elem_of_singleton. by apply Hbelow.
    + intros s [Hin | ->%list_elem_of_singleton]%elem_of_app; [|lia].
      specialize (Hbelow s Hin). lia.
    + split; [done|]. intros s.
      rewrite Hel, elem_of_app, list_elem_of_singleton. split.
      * intros [[?| ->]|[? ?]]; [by left | right; split; [lia | done] | right; split; [lia | done]].
      * intros [?|[Hr Hm]]; [by left; left|].
        destruct (decide (s = step)) as [->|Hne]; [by left; right|].
        right. split; [divlia | done].
  - split; [done|]. intros s. split; [tauto|]. intros [?|?]; [done | lia].
Qed.

Lemma createDefaultHints_elem (L s : Z) :
  s ∈ createDefaultHints L <-> 0 < L /\ (s = L \/ (0 < s < L /\ s mod 20 = 0)).
Proof.
  unfold createDefaultHints. destruct (Z.leb_spec L 0) as [Hle|Hpos].
  { rewrite elem_of_nil. lia. }
  destruct (defaultSteps_spec L (Z.to_nat L) 20 []) as [Hs Hel];
    try done; try lia; [constructor | intros x Hx; by apply elem_of_nil in Hx |].
  cbv zeta. case_bool_decide as Hin.
  { apply Hel in Hin as [Hin|Hin]; [by apply elem_of_nil in Hin | lia]. }
  rewrite elem_of_app, list_elem_of_singleton, Hel, elem_of_nil. split.
  - intros [[[]|[? ?]]| ->]; (split; [done|]); [right; split; [lia | done] | by left].
  - intros [_ [->|[Hr Hm]]]; [by right|]. left. right. split; [divlia | done].
Qed.

Lemma createDefaultHints_ascending (L : Z) : StronglySorted Z.lt (createDefaultHints L).
Proof.
  unfold createDefaultHints. destruct (Z.leb_spec L 0) as [Hle|Hpos]; [constructor|].
  destruct (defaultSteps_spec L (Z.to_nat L) 20 []) as [Hs Hel];
    try done; try lia; [constructor | intros x Hx; by apply elem_of_nil in Hx |].
  cbv zeta. case_bool_decide as Hin; [done|].
  apply StronglySorted_app_2; [|done | repeat constructor].
  intros x1 x2 Hx1 ->%list_elem_of_singleton.
  apply Hel in Hx1 as [Hx1|Hx1]; [by apply elem_of_nil in Hx1 | lia].
Qed.

(** X18. For a positive [L], [createDefaultHints] lists in ascending order
    the multiples of 20 below [L] and then [L] itself, so the last hint is
    always the final step; for other [L] it is empty. *)
Theorem createDefaultHints_spec (L : Z) :
  StronglySorted Z.lt (createDefaultHints L) /\
  (forall s, s ∈ createDefaultHints L <->
             0 < L /\ (s = L \/ (0 < s < L /\ s mod 20 = 0))) /\
  (0 < L -> last (createDefaultHints L) = Some L).
Proof.
  split; [apply createDefaultHints_ascending|].
  split; [intros s; apply createDefaultHints_elem|].
  intros Hpos. unfold createDefaultHints.
  destruct (Z.leb_spec L 0) as [Hle|_]; [lia|]. cbv zeta.
  case_bool_decide as Hin; [|by rewrite last_snoc].
  destruct (defaultSteps_spec L (Z.to_nat L) 20 []) as [Hs Hel];
    try done; try lia; [constructor | intros x Hx; by apply elem_of_nil in Hx |].
  apply Hel in Hin as [Hin|Hin]; [by apply elem_of_nil in Hin | lia].
Qed.

(** X19. The default hints are already normal: [normalizeHintSteps] with
    [maxStep = L] returns [createDefaultHints L] unchanged, as the solver and
    the exporter rely on. *)
Theorem normalize_default_hints (L : Z) :
  normalizeHintSteps (createDefaultHints L) L = createDefaultHints L.
Proof.
  apply normalize_fixed; [apply createDefaultHints_ascending|].
  intros s Hs. apply createDefaultHints_elem in Hs. lia.
Qed.

(** *** Editing hints *)

(** X20. Adding a hint and removing it again gives back the normalised
    hints: when [addHint] accepts [step], [removeHint] of the same step on
    its result succeeds with [normalizeHintSteps existingHints maxStep]. *)
Theorem addHint_removeHint (existingHints : list Z) (step maxStep : Z) (added : list Z) :
  addHint existingHints step maxStep = Some added ->
  step ∈ added /\
  removeHint added step maxStep = Some (normalizeHintSteps existingHints maxStep).
Proof.
  unfold addHint, removeHint.
  destruct ((step <=? 0) || (step >? maxStep)) eqn:Hrange; [done|].
  apply orb_false_elim in Hrange as [Hpos Hmax].
  case_bool_decide as Hin; [done|]. intros [= <-].
  assert (Hstep : step ∈ normalizeHintSteps (existingHints ++ [step]) maxStep).
  { apply normalize_elem. rewrite elem_of_app, list_elem_of_singleton. lia. }
  split; [done|]. rewrite bool_decide_eq_true_2 by done. cbn [negb]. f_equal.
  apply ascending_ext; try apply normalize_ascending.
  intros s. rewrite !normalize_elem, list_elem_of_filter, normalize_elem,
    elem_of_app, list_elem_of_singleton.
  split.
  - intros [[Hne [[?|?] ?]] ?]; [done | done].
  - intros [Hs Hr]. assert (s <> step) by (by intros ->). tauto.
Qed.

Lemma addHint_removeHint_witness :
  12 ∈ [5; 12; 30] /\
  removeHint [5; 12; 30] 12 40 = Some (normalizeHintSteps [30; 5] 40).
Proof.
  apply (addHint_removeHint [30; 5] 12 40 [5; 12; 30]). reflexivity.
Defined.

End Hints.

(** ** The finished maze ([app.js]) *)

Module MazeFacts.
Import Graph Generator GeneratorFacts.

(** *** generateMaze *)

Definition openEntrances (st : Visualizer) : Visualizer :=
  let startCell := getCell st (fst (start st)) (snd (start st)) in
  let goalCell := getCell st (fst (goal st)) (snd (goal st)) in
  let st :=
    match startCell with
    | Some startCell => markGenerated (openWall st startCell DirN) startCell
    | None => st
    end in
  match goalCell with
  | Some goalCell => markGenerated (openWall st goalCell DirS) goalCell
  | None => st
  end.

(** The keys of [GenerationAlgorithms]. *)
Inductive AlgorithmKey : Type :=
| RecursiveBacktracker
| GrowingTreeRightWall
| HuntAndKill
| SidewinderBidirectional
| Wilsons.

Definition accessibleNeighbors (st : Visualizer) (cell : Cell) : list Cell :=
  omap (fun dir =>
          if hasWall st cell dir then None
          else getCell st (fst cell + dx dir) (snd cell + dy dir)) directions.

Section Generate.
Variable rnd : nat -> Z.

Definition generator (key : AlgorithmKey) (fuel : nat) (st : Visualizer) : Run Visualizer :=
  match key with
  | RecursiveBacktracker => recursiveBacktracker rnd fuel st
  | GrowingTreeRightWall => growingTreeRightWall rnd fuel st
  | HuntAndKill => huntAndKill rnd fuel st
  | SidewinderBidirectional => sidewinderBidirectional rnd st
  | Wilsons => wilsons rnd fuel st
  end.

(** [generateMaze] for a known algorithm, when no animation is running:
    the grid is reset, the generator runs and the entrances are opened; an
    exception of the generator is caught and reported ([Crash]). *)
Definition generateMaze (key : AlgorithmKey) (fuel : nat) (st : Visualizer)
    : Run Visualizer :=
  let st := resetGrid (gridWidth st) (gridHeight st) (seed st) in
  match generator key fuel st with
  | Done st => Done (openEntrances st)
  | Crash => Crash
  | OutOfFuel => OutOfFuel
  end.

End Generate.

(** A blank 3 x 2 visualizer. *)
Definition blank3x2 : Visualizer := resetGrid 3 2 0.

Example generateMaze_3x2 :
  match generateMaze sampleChoices RecursiveBacktracker 13 blank3x2 with
  | Done st =>
      hasWall st (0, 0) DirN = false /\ hasWall st (2, 1) DirS = false /\
      hasWall st (0, 0) DirW = true /\ length (carvedPassages st) = 5%nat
  | _ => False
  end.
Proof. by vm_compute. Qed.

(** *** Every cell carved *)

(** The state after a generator: the generated cells and the carved
    passages form a tree that holds every cell of the grid. *)
Definition carved (W H : Z) (st : Visualizer) : Prop :=
  exists Vs Es, growing W H st Vs Es /\ forall c, inGrid st c -> c ∈ Vs.

Lemma closed_carved W H st Vs Es :
  growing W H st Vs Es -> (forall c, c ∈ Vs -> closedAt st Vs c) -> carved W H st.
Proof.
  intros Hg Hclosed. exists Vs, Es. split; [done|]. apply closed_all.
  - pose proof (Tree_nonempty _ _ (g_tree _ _ _ _ _ Hg)) as Hne.
    destruct Vs as [|c Vs]; [done|]. exists c. split; [left|].
    apply (rep_in _ _ _ (g_rep _ _ _ _ _ Hg)). left.
  - intros c d Hc Hd. by apply Hclosed.
Qed.

Section Carved.
Variable rnd : nat -> Z.
Variables W H : Z.
Hypothesis HW : 1 <= W.
Hypothesis HH : 1 <= H.

Lemma recursiveBacktracker_carved seed0 fuel :
  (2 * Z.to_nat (W * H) < fuel)%nat ->
  exists st, recursiveBacktracker rnd fuel (resetGrid W H seed0) = Done st /\ carved W H st.
Proof.
  intros Hfuel. unfold recursiveBacktracker.
  set (st0 := resetGrid W H seed0).
  assert (Hstart : inGrid st0 (0, 0)) by (unfold inGrid; simpl; lia).
  assert (getCell st0 (start st0).1 (start st0).2 = Some (0, 0)) as ->
    by (by apply getCell_Some).
  set (st1 := setGenerated st0 (0, 0) 0).
  set (st2 := {| gridWidth := gridWidth st1; gridHeight := gridHeight st1;
                 grid := grid st1; maxOrder := 1; seed := seed st1 |}).
  assert (Hg : growing W H st2 [(0, 0)] []).
  { apply (growing_sameGrid W H st1); [done|].
    destruct (setGenerated_spec st0 (wf_resetGrid W H seed0) (0, 0) 0 Hstart)
      as (_ & Hw & Hh & _).
    split; [done | done | | apply Tree_root].
    apply rep_setGenerated; [apply rep_resetGrid | done]. }
  destruct (backtrack_done rnd W H fuel [(0, 0)] st2 [(0, 0)] [] Hg)
    as (st & Vs & Es & Hrun & Hg' & Hcl).
  - done.
  - intros c Hc. by left.
  - unfold remaining. simpl. lia.
  - exists st. split; [done|]. by apply (closed_carved W H st Vs Es).
Qed.

Lemma growingTreeRightWall_carved seed0 fuel :
  (2 * Z.to_nat (W * H) < fuel)%nat ->
  exists st, growingTreeRightWall rnd fuel (resetGrid W H seed0) = Done st /\ carved W H st.
Proof.
  intros Hfuel. unfold growingTreeRightWall.
  destruct (startAtRandom_spec rnd W H seed0 HW HH) as (c & st1 & -> & Hg).
  destruct (grow_done rnd W H fuel [c] st1 [c] [] Hg) as (st & Vs & Es & Hrun & Hg' & Hcl).
  - done.
  - intros x Hx. by left.
  - unfold remaining. simpl. lia.
  - exists st. split; [done|]. by apply (closed_carved W H st Vs Es).
Qed.

Lemma huntAndKill_carved seed0 fuel :
  (Z.to_nat (W * H) <= fuel)%nat ->
  exists st, huntAndKill rnd fuel (resetGrid W H seed0) = Done st /\ carved W H st.
Proof.
  intros Hfuel. unfold huntAndKill.
  destruct (startAtRandom_spec rnd W H seed0 HW HH) as (c & st1 & -> & Hg).
  destruct (huntLoop_done rnd W H fuel c st1 [c] [] Hg) as (st & Vs & Es & Hrun & Hg' & Hcl).
  - by left.
  - unfold remaining. simpl. nia.
  - exists st. split; [done|]. by apply (closed_carved W H st Vs Es).
Qed.

Lemma sidewinderBidirectional_carved seed0 :
  exists st, sidewinderBidirectional rnd (resetGrid W H seed0) = Done st /\ carved W H st.
Proof.
  unfold sidewinderBidirectional.
  set (st0 := resetGrid W H seed0).
  assert (Hfirst : inGrid st0 (0, 0)) by (unfold inGrid; simpl; lia).
  assert (getCell st0 0 0 = Some (0, 0)) as -> by (by apply getCell_Some).
  destruct (markGenerated_size st0 (0, 0)) as [Hw1 Hh1].
  assert (Hg1 : growing W H (markGenerated st0 (0, 0)) [(0, 0)] []).
  { split; [done | done | | apply Tree_root].
    apply rep_mark; [apply rep_resetGrid | done]. }
  set (st1 := markGenerated st0 (0, 0)) in *.
  destruct (firstRow_done W H (Z.to_nat (gridWidth st1) - 1) 1 st1 [(0, 0)] [])
    as (Vs2 & Es2 & Hg2 & Hcells2); [lia | rewrite Hw1; simpl; lia | done | done | |].
  { intros c. rewrite list_elem_of_singleton. destruct c as [cx cy].
    unfold inGrid. rewrite Hw1, Hh1. simpl. split; [intros [= -> ->]; lia|].
    intros (? & ? & ?). f_equal; lia. }
  cbv zeta in Hg2, Hcells2.
  set (st2 := fold_left firstRowStep
                (map Z.of_nat (seq 1 (Z.to_nat (gridWidth st1) - 1))) st1) in *.
  destruct (rows_done rnd W H (Z.to_nat (gridHeight st2) - 1) 1 st2 Vs2 Es2)
    as (st3 & Vs3 & Es3 & Hrun & Hg3 & Hall);
    [lia | rewrite (g_height _ _ _ _ _ Hg2); lia | done | done |].
  exists st3. split; [done|]. by exists Vs3, Es3.
Qed.

Lemma wilsons_carved seed0 fuel st :
  wilsons rnd fuel (resetGrid W H seed0) = Done st -> carved W H st.
Proof.
  unfold wilsons. set (st0 := resetGrid W H seed0).
  destruct (randomCell_spec rnd st0) as (root & st1 & -> & Hroot & Hs);
    [simpl; lia | simpl; lia |].
  change (gridWidth st0) with W. change (gridHeight st0) with H. intros Hrun.
  pose proof Hs as (Hw1 & Hh1 & _).
  assert (Hroot1 : inGrid st1 root) by (by apply (sameGrid_inGrid st0 st1)).
  destruct (markGenerated_size st1 root) as [Hw2 Hh2].
  assert (Hg : growing W H (markGenerated st1 root) [root] []).
  { split; [by rewrite Hw2, Hw1 | by rewrite Hh2, Hh1 | | apply Tree_root].
    apply rep_mark; [|done]. eapply rep_sameGrid; [done | apply rep_resetGrid]. }
  apply (wilsonsLoop_spec rnd W H _ _ _ [root] []) in Hrun as (Vs' & Es' & Hg' & Hall);
    [by exists Vs', Es' | done |].
  intros c. rewrite elem_of_deleteKey, elem_of_rowMajor, list_elem_of_singleton.
  unfold inGrid. rewrite Hw2, Hh2, Hw1, Hh1. simpl. tauto.
Qed.

(** The number of loop iterations that is enough for every generator. *)
Definition enough (fuel : nat) : Prop := (2 * Z.to_nat (W * H) < fuel)%nat.

Lemma generator_carved key seed0 fuel :
  key <> Wilsons -> enough fuel ->
  exists st, generator rnd key fuel (resetGrid W H seed0) = Done st /\ carved W H st.
Proof.
  intros Hkey Hfuel. unfold enough in Hfuel. destruct key; simpl; try done.
  - by apply recursiveBacktracker_carved.
  - by apply growingTreeRightWall_carved.
  - apply huntAndKill_carved. lia.
  - apply sidewinderBidirectional_carved.
Qed.

Lemma generator_returns_carved key seed0 fuel st :
  generator rnd key fuel (resetGrid W H seed0) = Done st -> enough fuel \/ key = Wilsons ->
  carved W H st.
Proof.
  intros Hrun [Hfuel | ->]; [|by apply (wilsons_carved seed0 fuel)].
  assert (Hsame : forall key', key' = key -> key' <> Wilsons -> carved W H st).
  { intros key' -> Hne.
    destruct (generator_carved key seed0 fuel Hne Hfuel) as (st' & Hrun' & Hc).
    rewrite Hrun in Hrun'. by injection Hrun' as ->. }
  destruct key; try (by eapply Hsame). by apply (wilsons_carved seed0 fuel).
Qed.

End Carved.

(** *** Walls of a carved grid *)

Section Walls.
Variables W H : Z.
Variable st : Visualizer.
Hypothesis Hcarved : carved W H st.

Lemma carved_size : gridWidth st = W /\ gridHeight st = H /\ 1 <= W /\ 1 <= H.
Proof.
  destruct Hcarved as (Vs & Es & Hg & _).
  pose proof (growing_positive _ _ _ _ _ Hg). destruct Hg as [Hw Hh _ _]. lia.
Qed.

Lemma carved_wf : wf st.
Proof. destruct Hcarved as (Vs & Es & Hg & _). apply Hg. Qed.

Lemma carved_generated c : inGrid st c -> isGenerated st c = true.
Proof.
  destruct Hcarved as (Vs & Es & Hg & Hall). intros Hc.
  apply (rep_gen _ _ _ (g_rep _ _ _ _ _ Hg)); [done | by apply Hall].
Qed.

Lemma carved_wall c d : inGrid st c -> hasWall st c d = false <-> passage st c (step c d).
Proof.
  destruct Hcarved as (Vs & Es & Hg & Hall). intros Hc.
  rewrite (passage_linked st Vs Es (g_rep _ _ _ _ _ Hg)).
  by apply (rep_wall _ _ _ (g_rep _ _ _ _ _ Hg)).
Qed.

Lemma carved_spanning : spanningTree st.
Proof.
  destruct Hcarved as (Vs & Es & Hg & Hall).
  by apply (growing_spanning W H st Vs Es).
Qed.

(** *** The entrances *)

Lemma start_inGrid : inGrid st (0, 0).
Proof. destruct carved_size as (Hw & Hh & ? & ?). unfold inGrid. simpl. lia. Qed.

Lemma goal_inGrid : inGrid st (W - 1, H - 1).
Proof. destruct carved_size as (Hw & Hh & ? & ?). unfold inGrid. simpl. lia. Qed.

Lemma markGenerated_generated s c : isGenerated s c = true -> markGenerated s c = s.
Proof. intros Hg. unfold markGenerated. by rewrite Hg. Qed.

Lemma openEntrances_spec :
  let st' := openEntrances st in
  wf st' /\ gridWidth st' = W /\ gridHeight st' = H /\ seed st' = seed st /\
  (forall c, inGrid st c -> isGenerated st' c = true) /\
  (forall c d, inGrid st c ->
     hasWall st' c d = hasWall st c d
                       && negb (bool_decide (c = (0, 0) /\ d = DirN))
                       && negb (bool_decide (c = (W - 1, H - 1) /\ d = DirS))).
Proof.
  destruct carved_size as (Hw & Hh & HW & HH).
  pose proof start_inGrid as Hstart. pose proof goal_inGrid as Hgoal.
  unfold openEntrances. cbv zeta. unfold start, goal. rewrite Hw, Hh. simpl fst. simpl snd.
  assert (getCell st 0 0 = Some (0, 0)) as -> by (by apply getCell_Some).
  assert (getCell st (W - 1) (H - 1) = Some (W - 1, H - 1)) as -> by (by apply getCell_Some).
  destruct (openWall_spec st carved_wf (0, 0) DirN Hstart)
    as (Hwf1 & Hw1 & Hh1 & Hs1 & Hg1 & Hwall1).
  set (st1 := openWall st (0, 0) DirN) in *.
  rewrite (markGenerated_generated st1 (0, 0))
    by (rewrite Hg1 by done; by apply carved_generated).
  assert (Hin1 : forall c, inGrid st1 c <-> inGrid st c)
    by (intros c; unfold inGrid; by rewrite Hw1, Hh1).
  destruct (openWall_spec st1 Hwf1 (W - 1, H - 1) DirS ltac:(by apply Hin1))
    as (Hwf2 & Hw2 & Hh2 & Hs2 & Hg2 & Hwall2).
  set (st2 := openWall st1 (W - 1, H - 1) DirS) in *.
  rewrite (markGenerated_generated st2 (W - 1, H - 1)).
  2: { rewrite Hg2, Hg1 by (done || by apply Hin1). by apply carved_generated. }
  split; [done|]. split; [congruence|]. split; [congruence|]. split; [congruence|]. split.
  - intros c Hc. rewrite Hg2, Hg1 by (done || by apply Hin1). by apply carved_generated.
  - intros c d Hc. rewrite Hwall2, Hwall1 by (done || by apply Hin1). done.
Qed.

Lemma inGrid_openEntrances c : inGrid (openEntrances st) c <-> inGrid st c.
Proof.
  destruct openEntrances_spec as (_ & Hw & Hh & _).
  destruct carved_size as (Hw0 & Hh0 & _). unfold inGrid. by rewrite Hw, Hh, Hw0, Hh0.
Qed.

Lemma step_outside_N : ~ inGrid st (step (0, 0) DirN).
Proof. unfold inGrid, step. simpl. lia. Qed.

Lemma step_outside_S : ~ inGrid st (step (W - 1, H - 1) DirS).
Proof.
  destruct carved_size as (Hw & Hh & _). unfold inGrid, step. simpl. rewrite Hh. lia.
Qed.

(** Opening the entrances adds no passage between cells. *)
Lemma passage_openEntrances a b : passage (openEntrances st) a b <-> passage st a b.
Proof.
  destruct openEntrances_spec as (_ & _ & _ & _ & _ & Hwall).
  unfold passage. rewrite !inGrid_openEntrances. split.
  - intros (Ha & Hb & d & -> & H1 & H2). split; [done | split; [done|]]. exists d.
    split; [done|]. rewrite Hwall in H1, H2 by done.
    apply andb_false_iff in H1 as [H1|H1]; [apply andb_false_iff in H1 as [H1|H1]|].
    + apply andb_false_iff in H2 as [H2|H2]; [apply andb_false_iff in H2 as [H2|H2]|].
      * done.
      * apply negb_false_iff, bool_decide_eq_true in H2 as [Hs Hd].
        destruct d; try done. exfalso. apply step_outside_N.
        rewrite <- Hs. change DirN with (opposite DirS).
        by rewrite (proj2 (step_back a DirS (opposite DirS)) eq_refl).
      * apply negb_false_iff, bool_decide_eq_true in H2 as [Hs Hd].
        destruct d; try done. exfalso. apply step_outside_S.
        rewrite <- Hs. change DirS with (opposite DirN).
        by rewrite (proj2 (step_back a DirN (opposite DirN)) eq_refl).
    + apply negb_false_iff, bool_decide_eq_true in H1 as [-> ->].
      by destruct step_outside_N.
    + apply negb_false_iff, bool_decide_eq_true in H1 as [-> ->].
      by destruct step_outside_S.
  - intros (Ha & Hb & d & -> & H1 & H2). split; [done | split; [done|]]. exists d.
    split; [done|]. rewrite !Hwall by done. by rewrite H1, H2.
Qed.

Lemma openTo_openEntrances c d :
  inGrid st c -> openTo (openEntrances st) c d = openTo st c d.
Proof.
  intros Hc. apply eq_true_iff_eq.
  assert (Hopen : forall s, inGrid s c -> openTo s c d = true <-> passage s c (step c d)).
  { intros s Hs. unfold openTo, passage, insideb, inGrid.
    rewrite !andb_true_iff, !negb_true_iff, !Z.leb_le, !Z.ltb_lt. split.
    - intros ((Hin & Hw1) & Hw2). split; [done|]. split; [lia|]. by exists d.
    - intros (_ & Hin & d' & Hd & Hw1 & Hw2). apply step_inj in Hd as <-.
      split; [split; [lia | done] | done]. }
  rewrite !Hopen by (done || by apply inGrid_openEntrances).
  apply passage_openEntrances.
Qed.

Lemma spanningTree_openEntrances : spanningTree (openEntrances st).
Proof.
  destruct carved_spanning as (Hcount & Hconn & Hacyc).
  destruct openEntrances_spec as (_ & Hw & Hh & _).
  destruct carved_size as (Hw0 & Hh0 & _).
  split; [|split].
  - rewrite Hw, Hh, <- Hw0, <- Hh0, <- Hcount. f_equal. f_equal.
    unfold carvedPassages. rewrite Hw, Hh, <- Hw0, <- Hh0.
    assert (Hcells : forall c, c ∈ rowMajor (gridWidth st) (gridHeight st) -> inGrid st c)
      by (intros c; apply elem_of_rowMajor_inGrid).
    induction (rowMajor (gridWidth st) (gridHeight st)) as [|c l IH]; [done|].
    simpl. rewrite !openTo_openEntrances by (apply Hcells; left).
    rewrite IH; [done|]. intros c' Hc'. apply Hcells. by right.
  - intros a b Ha Hb. eapply rtc_impl; [|apply Hconn; by apply inGrid_openEntrances].
    intros x y. apply passage_openEntrances.
  - eapply acyclic_impl; [|done]. intros a b. apply passage_openEntrances.
Qed.

End Walls.

(** *** What generateMaze leaves *)

(** In a finished [W] by [H] maze a wall flag is cleared exactly where a
    passage leads to the neighbour, at the entrance above the start and at
    the exit below the goal. *)
Definition wallsOpen (W H : Z) (st : Visualizer) : Prop :=
  forall c d, inGrid st c ->
    hasWall st c d = false <->
    passage st c (step c d) \/ (c = (0, 0) /\ d = DirN) \/ (c = (W - 1, H - 1) /\ d = DirS).

Definition allGenerated (st : Visualizer) : Prop :=
  forall c, inGrid st c -> isGenerated st c = true.

(** A maze as [generateMaze] leaves it. *)
Definition finished (W H : Z) (st : Visualizer) : Prop :=
  exists st0, carved W H st0 /\ st = openEntrances st0.

Lemma finished_size W H st : finished W H st -> gridWidth st = W /\ gridHeight st = H.
Proof.
  intros (st0 & Hc & ->). destruct (openEntrances_spec W H st0 Hc) as (_ & Hw & Hh & _).
  done.
Qed.

Lemma finished_positive W H st : finished W H st -> 1 <= W /\ 1 <= H.
Proof. intros (st0 & Hc & ->). destruct (carved_size W H st0 Hc) as (_ & _ & ? & ?). done. Qed.

Lemma finished_wf W H st : finished W H st -> wf st.
Proof. intros (st0 & Hc & ->). by destruct (openEntrances_spec W H st0 Hc) as (? & _). Qed.

Lemma finished_spanning W H st : finished W H st -> spansGrid W H st.
Proof.
  intros Hf. destruct (finished_size W H st Hf) as [Hw Hh].
  destruct Hf as (st0 & Hc & ->). split; [done | split; [done|]].
  by apply (spanningTree_openEntrances W H).
Qed.

Lemma finished_generated W H st : finished W H st -> allGenerated st.
Proof.
  intros (st0 & Hc & ->) c Hin.
  destruct (openEntrances_spec W H st0 Hc) as (_ & _ & _ & _ & Hg & _).
  apply Hg. by apply (inGrid_openEntrances W H st0 Hc).
Qed.

Lemma finished_walls W H st : finished W H st -> wallsOpen W H st.
Proof.
  intros (st0 & Hc & ->) c d Hin.
  apply (inGrid_openEntrances W H st0 Hc) in Hin.
  destruct (openEntrances_spec W H st0 Hc) as (_ & _ & _ & _ & _ & Hwall).
  rewrite Hwall by done. rewrite (passage_openEntrances W H st0 Hc).
  rewrite <- (carved_wall W H st0 Hc c d Hin).
  rewrite !andb_false_iff, !negb_false_iff, !bool_decide_eq_true. tauto.
Qed.

Section Finished.
Variable rnd : nat -> Z.
Variables W H : Z.
Hypothesis HW : 1 <= W.
Hypothesis HH : 1 <= H.
Variable st0 : Visualizer.
Hypothesis Hwidth : gridWidth st0 = W.
Hypothesis Hheight : gridHeight st0 = H.

Lemma generateMaze_done key fuel :
  key <> Wilsons -> (2 * Z.to_nat (W * H) < fuel)%nat ->
  exists st, generateMaze rnd key fuel st0 = Done st /\ finished W H st.
Proof.
  intros Hkey Hfuel. unfold generateMaze. cbv zeta. rewrite Hwidth, Hheight.
  destruct (generator_carved rnd W H HW HH key (seed st0) fuel Hkey Hfuel)
    as (st1 & -> & Hc).
  exists (openEntrances st1). split; [done|]. by exists st1.
Qed.

Lemma generateMaze_wilsons fuel st :
  generateMaze rnd Wilsons fuel st0 = Done st -> finished W H st.
Proof.
  unfold generateMaze. cbv zeta. rewrite Hwidth, Hheight.
  destruct (generator rnd Wilsons fuel (resetGrid W H (seed st0))) as [st1| |] eqn:Hrun;
    try done.
  intros [= <-]. exists st1. split; [|done].
  by apply (wilsons_carved rnd W H HW HH (seed st0) fuel).
Qed.

End Finished.

(** X21. [generateMaze] keeps the spanning tree: with the recursive
    backtracker, the growing tree, hunt-and-kill or the sidewinder it returns
    a [W] by [H] maze whose carved passages form a spanning tree, the
    entrances opened afterwards adding no passage; with Wilson's algorithm
    the same holds whenever it returns. *)
Theorem generateMaze_spanning_tree (rnd : nat -> Z) (key : AlgorithmKey) (fuel : nat)
    (W H : Z) (st0 : Visualizer) :
  1 <= W -> 1 <= H -> gridWidth st0 = W -> gridHeight st0 = H ->
  (key <> Wilsons -> (2 * Z.to_nat (W * H) < fuel)%nat ->
     exists st, generateMaze rnd key fuel st0 = Done st /\ spansGrid W H st) /\
  (forall st, generateMaze rnd Wilsons fuel st0 = Done st -> spansGrid W H st).
Proof.
  intros HW HH Hw Hh. split.
  - intros Hkey Hfuel.
    destruct (generateMaze_done rnd W H HW HH st0 Hw Hh key fuel Hkey Hfuel)
      as (st & Hrun & Hf).
    exists st. split; [done | by apply finished_spanning].
  - intros st Hrun. apply finished_spanning.
    by apply (generateMaze_wilsons rnd W H HW HH st0 Hw Hh fuel).
Qed.

Lemma generateMaze_spanning_tree_witness :
  (RecursiveBacktracker <> Wilsons -> (2 * Z.to_nat (3 * 2) < 13)%nat ->
     exists st, generateMaze sampleChoices RecursiveBacktracker 13 blank3x2 = Done st /\
                spansGrid 3 2 st) /\
  (forall st, generateMaze sampleChoices Wilsons 13 blank3x2 = Done st -> spansGrid 3 2 st).
Proof.
  apply (generateMaze_spanning_tree sampleChoices RecursiveBacktracker 13 3 2 blank3x2).
  - lia.
  - lia.
  - reflexivity.
  - reflexivity.
Defined.

(** X22. The walls of a generated maze are consistent: every cell is marked
    generated, and a wall flag of a cell is cleared exactly when the
    neighbour on that side is in the grid and has its facing flag cleared
    too, or the flag is the North wall of the start (0, 0) or the South wall
    of the goal (W-1, H-1), the two entrances. Wilson's algorithm gives
    the same whenever it returns. *)
Theorem generateMaze_walls (rnd : nat -> Z) (key : AlgorithmKey) (fuel : nat)
    (W H : Z) (st0 : Visualizer) :
  1 <= W -> 1 <= H -> gridWidth st0 = W -> gridHeight st0 = H ->
  (key <> Wilsons -> (2 * Z.to_nat (W * H) < fuel)%nat ->
     exists st, generateMaze rnd key fuel st0 = Done st /\
                allGenerated st /\ wallsOpen W H st) /\
  (forall st, generateMaze rnd Wilsons fuel st0 = Done st ->
              allGenerated st /\ wallsOpen W H st).
Proof.
  intros HW HH Hw Hh. split.
  - intros Hkey Hfuel.
    destruct (generateMaze_done rnd W H HW HH st0 Hw Hh key fuel Hkey Hfuel)
      as (st & Hrun & Hf).
    exists st. split; [done|].
    split; [by apply (finished_generated W H) | by apply finished_walls].
  - intros st Hrun.
    pose proof (generateMaze_wilsons rnd W H HW HH st0 Hw Hh fuel st Hrun) as Hf.
    split; [by apply (finished_generated W H) | by apply finished_walls].
Qed.

Lemma generateMaze_walls_witness :
  (HuntAndKill <> Wilsons -> (2 * Z.to_nat (3 * 2) < 13)%nat ->
     exists st, generateMaze sampleChoices HuntAndKill 13 blank3x2 = Done st /\
                allGenerated st /\ wallsOpen 3 2 st) /\
  (forall st, generateMaze sampleChoices Wilsons 13 blank3x2 = Done st ->
              allGenerated st /\ wallsOpen 3 2 st).
Proof.
  apply (generateMaze_walls sampleChoices HuntAndKill 13 3 2 blank3x2).
  - lia.
  - lia.
  - reflexivity.
  - reflexivity.
Defined.

(** *** Neighbours the solver may step to *)

Lemma passage_sym st a b : passage st a b -> passage st b a.
Proof.
  intros (Ha & Hb & d & -> & H1 & H2). split; [done | split; [done|]].
  exists (opposite d). split.
  - symmetry. by apply step_back.
  - by rewrite opposite_involutive.
Qed.

Lemma elem_of_accessibleNeighbors st c n :
  n ∈ accessibleNeighbors st c <->
  exists d, hasWall st c d = false /\ n = step c d /\ inGrid st n.
Proof.
  unfold accessibleNeighbors. rewrite list_elem_of_omap. split.
  - intros (d & _ & Hd). exists d. destruct (hasWall st c d); [done|].
    apply getCell_Some in Hd as [-> Hin]. done.
  - intros (d & Hw & -> & Hin). exists d. split; [destruct d; set_solver|].
    rewrite Hw. by apply getCell_Some.
Qed.

Lemma finished_accessible W H st c n :
  finished W H st -> inGrid st c -> n ∈ accessibleNeighbors st c <-> passage st c n.
Proof.
  intros Hf Hc. pose proof (finished_walls W H st Hf) as Hwalls.
  destruct (finished_size W H st Hf) as [Hw Hh].
  rewrite elem_of_accessibleNeighbors. split.
  - intros (d & Hwall & -> & Hin). apply Hwalls in Hwall as [Hp|[[-> ->]|[-> ->]]]; try done.
    + exfalso. revert Hin. unfold inGrid, step. simpl. lia.
    + exfalso. revert Hin. unfold inGrid, step. simpl. lia.
  - intros Hp. pose proof Hp as (_ & Hn & d & -> & Hwall & _). by exists d.
Qed.

(** X23. In a generated maze the solvers move along passages only:
    [accessibleNeighbors], which looks at the wall flags of the cell itself,
    lists exactly the cells joined to it by a passage, so neither an entrance
    nor a one-sided wall lets a search leave the carved tree. *)
Theorem accessibleNeighbors_passages (rnd : nat -> Z) (key : AlgorithmKey) (fuel : nat)
    (W H : Z) (st0 st : Visualizer) (c n : Cell) :
  1 <= W -> 1 <= H -> gridWidth st0 = W -> gridHeight st0 = H ->
  (2 * Z.to_nat (W * H) < fuel)%nat \/ key = Wilsons ->
  generateMaze rnd key fuel st0 = Done st ->
  inGrid st c ->
  n ∈ accessibleNeighbors st c <-> passage st c n.
Proof.
  intros HW HH Hw Hh Hfuel Hrun Hc.
  apply (finished_accessible W H); [|done].
  destruct Hfuel as [Hfuel | ->];
    [|by apply (generateMaze_wilsons rnd W H HW HH st0 Hw Hh fuel)].
  unfold generateMaze in Hrun. cbv zeta in Hrun. rewrite Hw, Hh in Hrun.
  destruct (generator rnd key fuel (resetGrid W H (seed st0))) as [st1| |] eqn:Hgen;
    try done.
  injection Hrun as <-. exists st1. split; [|done].
  apply (generator_returns_carved rnd W H HW HH key (seed st0) fuel st1 Hgen).
  by left.
Qed.

(** The maze of the examples. *)
Definition sampleMaze : Visualizer :=
  match generateMaze sampleChoices RecursiveBacktracker 13 blank3x2 with
  | Done st => st
  | _ => blank3x2
  end.

Lemma accessibleNeighbors_passages_witness :
  (1, 0) ∈ accessibleNeighbors sampleMaze (0, 0) <-> passage sampleMaze (0, 0) (1, 0).
Proof.
  apply (accessibleNeighbors_passages sampleChoices RecursiveBacktracker 13 3 2
           blank3x2 sampleMaze (0, 0) (1, 0)).
  - lia.
  - lia.
  - reflexivity.
  - reflexivity.
  - left. vm_compute. lia.
  - by vm_compute.
  - unfold inGrid. vm_compute. intuition discriminate.
Defined.

(** *** Exporting the maze *)

(** The callback that the save handler passes to
    [packGridOpeningsToBase64]. *)
Definition exportedWalls (st : Visualizer) (x y : Z) : option Walls :=
  match getCell st x y with
  | Some cell => Some (walls (cellOf st cell))
  | None => None
  end.

(** The bit of a direction in a mask of openings. *)
Definition bitOf (d : Dir) : Z :=
  match d with DirN => Grid.N | DirE => Grid.E | DirS => Grid.S | DirW => Grid.W end.

Lemma has_openingsMask (ws : Walls) (d : Dir) :
  Grid.has (Exporter.openingsMask (Some ws)) (bitOf d) = negb (wallOf ws d).
Proof. by destruct ws as [[] [] [] []], d. Qed.

Lemma exported_mask (W H : Z) (st : Visualizer) (x y : Z) :
  gridWidth st = W -> gridHeight st = H -> 0 <= x < W -> 0 <= y < H ->
  Grid.maskAt W (Exporter.gridMasks (exportedWalls st) W H) x y
  = Exporter.openingsMask (Some (walls (cellOf st (x, y)))).
Proof.
  intros Hw Hh Hx Hy. unfold Grid.maskAt.
  rewrite Exporter.load_gridMasks by nia. unfold Exporter.maskOf. cbv zeta.
  assert (Hrem : Z.rem (y * W + x) W = x).
  { rewrite Z.rem_mod_nonneg by nia.
    rewrite Z.add_comm, Z.mod_add by lia. apply Z.mod_small. lia. }
  assert (Hdiv : (y * W + x) / W = y).
  { rewrite Z.add_comm, Z.div_add by lia. rewrite Z.div_small by lia. lia. }
  rewrite Hrem, Hdiv. unfold exportedWalls.
  assert (getCell st x y = Some (x, y)) as ->; [|done].
  apply getCell_Some. split; [done|]. unfold inGrid. simpl. lia.
Qed.

Lemma finished_two_sided W H st a d :
  finished W H st -> inGrid st a -> inGrid st (step a d) ->
  hasWall st a d = hasWall st (step a d) (opposite d).
Proof.
  intros Hf Ha Hb. pose proof (finished_walls W H st Hf) as Hwalls.
  destruct (finished_size W H st Hf) as [Hw Hh].
  assert (Hhere : hasWall st a d = false <-> passage st a (step a d)).
  { rewrite (Hwalls a d Ha). split; [|tauto].
    intros [?|[[-> ->]|[-> ->]]]; [done | |];
      exfalso; revert Hb; unfold inGrid, step; simpl; lia. }
  assert (Hthere : hasWall st (step a d) (opposite d) = false <-> passage st (step a d) a).
  { rewrite (Hwalls (step a d) (opposite d) Hb).
    rewrite (proj2 (step_back a d (opposite d)) eq_refl).
    split; [|tauto].
    intros [?|[[Hs Hd]|[Hs Hd]]]; [done | |]; exfalso; revert Ha; unfold inGrid;
      destruct a as [ax ay], d; try done; unfold step in Hs; simpl in *;
      injection Hs as Hx Hy; lia. }
  destruct (hasWall st a d) eqn:H1, (hasWall st (step a d) (opposite d)) eqn:H2; try done.
  - assert (passage st (step a d) a) as Hp by (by apply Hthere).
    apply passage_sym, Hhere in Hp. done.
  - assert (passage st a (step a d)) as Hp by (by apply Hhere).
    apply passage_sym, Hthere in Hp. done.
Qed.

Section Exporting.
Variable pako : Base64.Pako.
Variable parse : Payload.Parser.

Hypothesis inflate_needs_header :
  forall inflate bytes b out,
    pako = Some inflate -> inflate bytes = Some (b :: out) -> RoundTrip.zlibHeader bytes.

Hypothesis array_needs_bracket :
  forall bytes item items,
    parse bytes = Some (JArr (item :: items)) -> RoundTrip.jsonArrayText bytes.

Lemma finished_export W H st :
  finished W H st ->
  exists g masks,
    Exporter.packGridOpeningsToBase64 (exportedWalls st) W H = Ok g /\
    Grid.decodeOpenings pako parse g W H = Returns masks /\
    Grid.symmetric W H masks /\
    forall x y d, 0 <= x < W -> 0 <= y < H ->
      Grid.has (Grid.maskAt W masks x y) (bitOf d) = negb (hasWall st (x, y) d).
Proof.
  intros Hf. destruct (finished_size W H st Hf) as [Hw Hh].
  destruct (finished_positive W H st Hf) as [HW HH].
  pose proof (finished_walls W H st Hf) as Hwalls.
  assert (Hstart : inGrid st (0, 0)) by (unfold inGrid; simpl; lia).
  assert (Hbits : forall x y d, 0 <= x < W -> 0 <= y < H ->
            Grid.has (Grid.maskAt W (Exporter.gridMasks (exportedWalls st) W H) x y)
                     (bitOf d) = negb (hasWall st (x, y) d)).
  { intros x y d Hx Hy. rewrite (exported_mask W H st x y) by done.
    apply has_openingsMask. }
  destruct (Exporter.packed_openings_decode pako parse inflate_needs_header
              array_needs_bracket (exportedWalls st) W H (walls (cellOf st (0, 0))))
    as (g & Hpack & Hdecode); try done.
  - unfold exportedWalls.
    by assert (getCell st 0 0 = Some (0, 0)) as -> by (by apply getCell_Some).
  - change (hasWall st (0, 0) DirW = true). apply not_false_iff_true.
    intros Hopen. apply Hwalls in Hopen as [Hp|[[_ ?]|[_ ?]]]; try done.
    destruct Hp as (_ & Hin & _). revert Hin. unfold inGrid, step. simpl. lia.
  - assert (Hn : hasWall st (0, 0) DirN = false) by (apply Hwalls; [done | tauto]).
    unfold hasWall in Hn. simpl in Hn. by rewrite Hn.
  - exists g, (Exporter.gridMasks (exportedWalls st) W H).
    split; [done|]. split; [done|]. split; [|done]. split.
    + intros x y Hx Hx' Hy.
      change Grid.E with (bitOf DirE). change Grid.W with (bitOf DirW).
      rewrite !Hbits by lia. f_equal.
      replace (x + 1, y) with (step (x, y) DirE) by (unfold step; simpl; f_equal; lia).
      apply (finished_two_sided W H st (x, y) DirE Hf); unfold inGrid, step; simpl; lia.
    + intros x y Hx Hy Hy'.
      change Grid.S with (bitOf DirS). change Grid.N with (bitOf DirN).
      rewrite !Hbits by lia. f_equal.
      replace (x, y + 1) with (step (x, y) DirS) by (unfold step; simpl; f_equal; lia).
      apply (finished_two_sided W H st (x, y) DirS Hf); unfold inGrid, step; simpl; lia.
Qed.

(** X24. A generated maze survives export: the payload that the save
    handler packs from the walls of the maze is decoded by [decodeOpenings]
    into masks in which a direction bit is set exactly where the wall flag of
    the cell is cleared, and these masks are symmetric. *)
Theorem exported_maze_decodes (rnd : nat -> Z) (key : AlgorithmKey) (fuel : nat)
    (W H : Z) (st0 st : Visualizer) :
  1 <= W -> 1 <= H -> gridWidth st0 = W -> gridHeight st0 = H ->
  (2 * Z.to_nat (W * H) < fuel)%nat \/ key = Wilsons ->
  generateMaze rnd key fuel st0 = Done st ->
  exists g masks,
    Exporter.packGridOpeningsToBase64 (exportedWalls st) W H = Ok g /\
    Grid.decodeOpenings pako parse g W H = Returns masks /\
    Grid.symmetric W H masks /\
    forall x y d, 0 <= x < W -> 0 <= y < H ->
      Grid.has (Grid.maskAt W masks x y) (bitOf d) = negb (hasWall st (x, y) d).
Proof.
  intros HW HH Hw Hh Hfuel Hrun. apply finished_export.
  destruct Hfuel as [Hfuel | ->];
    [|by apply (generateMaze_wilsons rnd W H HW HH st0 Hw Hh fuel)].
  unfold generateMaze in Hrun. cbv zeta in Hrun. rewrite Hw, Hh in Hrun.
  destruct (generator rnd key fuel (resetGrid W H (seed st0))) as [st1| |] eqn:Hgen;
    try done.
  injection Hrun as <-. exists st1. split; [|done].
  apply (generator_returns_carved rnd W H HW HH key (seed st0) fuel st1 Hgen).
  by left.
Qed.

End Exporting.

Lemma exported_maze_decodes_witness :
  exists g masks,
    Exporter.packGridOpeningsToBase64 (exportedWalls sampleMaze) 3 2 = Ok g /\
    Grid.decodeOpenings (Some (fun _ => None)) (fun _ => None) g 3 2 = Returns masks /\
    Grid.symmetric 3 2 masks /\
    forall x y d, 0 <= x < 3 -> 0 <= y < 2 ->
      Grid.has (Grid.maskAt 3 masks x y) (bitOf d) = negb (hasWall sampleMaze (x, y) d).
Proof.
  apply (exported_maze_decodes (Some (fun _ => None)) (fun _ => None)
           ltac:(intros ? ? ? ? [= <-]; discriminate) ltac:(discriminate)
           sampleChoices RecursiveBacktracker 13 3 2 blank3x2 sampleMaze).
  - lia.
  - lia.
  - reflexivity.
  - reflexivity.
  - left. vm_compute. lia.
  - by vm_compute.
Defined.

End MazeFacts.

(** ** The solution that is exported ([app.js]) *)

Module Solver.
Import Graph Generator GeneratorFacts MazeFacts.

(** The map [cameFrom]: the keys are the cells ([cellKey] is one-to-one on
    coordinates), the value of the start is [null]. *)
Abbreviation CameFrom := (gmap Cell (option Cell)).

(** The [for] loop over the neighbours of [current]. *)
Fixpoint visit (current : Cell) (neighbors : list Cell) (cameFrom : CameFrom)
    (queue : list Cell) : CameFrom * list Cell :=
  match neighbors with
  | [] => (cameFrom, queue)
  | neighbor :: rest =>
      match cameFrom !! neighbor with
      | Some _ => visit current rest cameFrom queue
      | None => visit current rest (<[neighbor := Some current]> cameFrom) (queue ++ [neighbor])
      end
  end.

(** The breadth-first [while] loop. *)
Fixpoint search (fuel : nat) (st : Visualizer) (goalCell : Cell) (queue : list Cell)
    (cameFrom : CameFrom) : Run CameFrom :=
  match fuel with
  | O => OutOfFuel
  | Datatypes.S fuel =>
      match queue with
      | [] => Done cameFrom
      | current :: queue =>
          if bool_decide (current = goalCell) then Done cameFrom
          else
            let '(cameFrom, queue) :=
              visit current (accessibleNeighbors st current) cameFrom queue in
            search fuel st goalCell queue cameFrom
      end
  end.

(** The loop [while (cursor)] that walks back from the goal. *)
Fixpoint trace (fuel : nat) (cursor : option Cell) (cameFrom : CameFrom)
    (path : list Cell) : Run (list Cell) :=
  match fuel with
  | O => OutOfFuel
  | Datatypes.S fuel =>
      match cursor with
      | None => Done path
      | Some cell => trace fuel (mjoin (cameFrom !! cell)) cameFrom (path ++ [cell])
      end
  end.

(** [getSolvedPathCoordinates]; [pathCells] is the path that [solveMaze] may
    have stored in the visualizer, [None] the result [null]. *)
Definition getSolvedPathCoordinates (fuel : nat) (pathCells : list Cell) (st : Visualizer)
    : Run (option (list Cell)) :=
  if (1 <? length pathCells)%nat then Done (Some pathCells)
  else
    match getCell st (fst (start st)) (snd (start st)),
          getCell st (fst (goal st)) (snd (goal st)) with
    | Some startCell, Some goalCell =>
        if negb (isGenerated st startCell) || negb (isGenerated st goalCell) then Done None
        else
          match search fuel st goalCell [startCell] {[ startCell := None ]} with
          | Done cameFrom =>
              match cameFrom !! goalCell with
              | None => Done None
              | Some _ =>
                  match trace fuel (Some goalCell) cameFrom [] with
                  | Done path => Done (Some (reverse path))
                  | Crash => Crash
                  | OutOfFuel => OutOfFuel
                  end
              end
          | Crash => Crash
          | OutOfFuel => OutOfFuel
          end
    | _, _ => Done None
    end.

Example solve_sampleMaze :
  exists path, getSolvedPathCoordinates 13 [] sampleMaze = Done (Some path) /\
               head path = Some (0, 0) /\ last path = Some (2, 1).
Proof. eexists. split; [by vm_compute | by vm_compute]. Qed.

(** *** Parent chains *)

Section Chains.
Variable st : Visualizer.
Variable root : Cell.

(** The cells from [c] back to the root along [cameFrom]. *)
Inductive Chain (cameFrom : CameFrom) : Cell -> list Cell -> Prop :=
| Chain_root : cameFrom !! root = Some None -> Chain cameFrom root [root]
| Chain_step (c p : Cell) (l : list Cell) :
    cameFrom !! c = Some (Some p) -> passage st p c -> Chain cameFrom p l ->
    Chain cameFrom c (c :: l).

Lemma Chain_head cameFrom c l : Chain cameFrom c l -> head l = Some c.
Proof. by destruct 1. Qed.

Lemma Chain_last cameFrom c l : Chain cameFrom c l -> last l = Some root.
Proof.
  induction 1 as [|c p l Hc Hp Hl IH]; [done|].
  destruct l as [|x l]; [by inversion Hl | done].
Qed.

Lemma Chain_func cameFrom c l l' : Chain cameFrom c l -> Chain cameFrom c l' -> l = l'.
Proof.
  intros Hl. revert l'. induction Hl as [Hr|c p l Hc Hp Hl IH]; intros l' Hl'.
  - inversion Hl' as [|? p' l'' Hc']; [done | congruence].
  - inversion Hl' as [Hr Hroot|? p' l'' Hc' Hp' Hl'']; subst; [congruence|].
    assert (p' = p) as -> by congruence. f_equal. by apply IH.
Qed.

Lemma Chain_suffix cameFrom c l x :
  Chain cameFrom c l -> x ∈ l -> exists l', Chain cameFrom x l' /\ (length l' <= length l)%nat.
Proof.
  induction 1 as [Hr|c p l Hc Hp Hl IH]; intros Hx.
  - apply list_elem_of_singleton in Hx as ->. exists [root]. split; [by constructor | done].
  - apply elem_of_cons in Hx as [->|Hx].
    + exists (c :: l). split; [by econstructor | done].
    + destruct (IH Hx) as (l' & Hl' & Hlen). exists l'. split; [done | simpl; lia].
Qed.

Lemma Chain_NoDup cameFrom c l : Chain cameFrom c l -> NoDup l.
Proof.
  induction 1 as [Hr|c p l Hc Hp Hl IH]; [apply NoDup_singleton|].
  constructor; [|done]. intros Hin.
  destruct (Chain_suffix _ _ _ _ Hl Hin) as (l' & Hl' & Hlen).
  assert (l' = c :: l) as -> by (eapply Chain_func; [done | by econstructor]).
  simpl in Hlen. lia.
Qed.

Lemma Chain_keys cameFrom c l x : Chain cameFrom c l -> x ∈ l -> is_Some (cameFrom !! x).
Proof.
  induction 1 as [Hr|c p l Hc Hp Hl IH]; intros Hx.
  - apply list_elem_of_singleton in Hx as ->. by eexists.
  - apply elem_of_cons in Hx as [->|Hx]; [by eexists | by apply IH].
Qed.

Lemma Chain_insert cameFrom c l n v :
  cameFrom !! n = None -> Chain cameFrom c l -> Chain (<[n := v]> cameFrom) c l.
Proof.
  intros Hn. induction 1 as [Hr|c p l Hc Hp Hl IH].
  - constructor. rewrite lookup_insert_ne; [done | congruence].
  - econstructor; [|done | done]. rewrite lookup_insert_ne; [done | congruence].
Qed.

(** The chain read forwards is a walk along passages. *)
Lemma Chain_walk cameFrom c l : Chain cameFrom c l -> chained (passage st) (reverse l).
Proof.
  induction 1 as [Hr|c p l Hc Hp Hl IH]; [done|].
  rewrite reverse_cons.
  pose proof (Chain_head _ _ _ Hl) as Hhead. destruct l as [|x l]; [done|].
  injection Hhead as ->. rewrite reverse_cons in *.
  rewrite <- app_assoc. apply chained_app. split; [done|]. simpl. tauto.
Qed.

Lemma trace_Chain cameFrom c l :
  Chain cameFrom c l ->
  forall fuel path, (length l < fuel)%nat ->
  trace fuel (Some c) cameFrom path = Done (path ++ l).
Proof.
  induction 1 as [Hr|c p l Hc Hp Hl IH]; intros fuel path Hfuel.
  - destruct fuel as [|[|fuel]]; simpl in Hfuel; try lia.
    cbn [trace]. rewrite Hr. done.
  - destruct fuel as [|fuel]; simpl in Hfuel; [lia|].
    cbn [trace]. rewrite Hc. simpl. rewrite IH by lia. by rewrite <- app_assoc.
Qed.

End Chains.

(** *** The search *)

Section Search.
Variables W H : Z.
Variable st : Visualizer.
Hypothesis Hfinished : finished W H st.

Abbreviation root := ((0, 0) : Cell).

(** The cells [Vs] are those discovered so far. *)
Record discovered (cameFrom : CameFrom) (queue Vs : list Cell) : Prop := {
  d_nodup : NoDup Vs;
  d_grid : forall c, c ∈ Vs -> inGrid st c;
  d_keys : forall c, is_Some (cameFrom !! c) <-> c ∈ Vs;
  d_chain : forall c, c ∈ Vs -> exists l, Chain st root cameFrom c l;
  d_queue : forall c, c ∈ queue -> c ∈ Vs
}.

(** Every passage out of [c] leads to a discovered cell. *)
Definition expanded (Vs : list Cell) (c : Cell) : Prop :=
  forall n, passage st c n -> n ∈ Vs.

Lemma visit_spec (current : Cell) (neighbors : list Cell) :
  forall cameFrom queue Vs,
  discovered cameFrom queue Vs -> current ∈ Vs ->
  (forall n, n ∈ neighbors -> passage st current n) ->
  exists Vs', let '(cameFrom', queue') := visit current neighbors cameFrom queue in
    discovered cameFrom' queue' Vs' /\
    (forall c, c ∈ Vs -> c ∈ Vs') /\ (forall c, c ∈ queue -> c ∈ queue') /\
    (forall n, n ∈ neighbors -> n ∈ Vs') /\
    (forall c, c ∈ Vs' -> c ∈ Vs \/ c ∈ queue') /\
    (length Vs <= length Vs')%nat /\
    (length queue' + length Vs = length queue + length Vs')%nat.
Proof.
  induction neighbors as [|n ns IH]; intros cameFrom queue Vs Hd Hcur Hns.
  { exists Vs. simpl. split; [done|]. split; [done|]. split; [done|].
    split; [intros n Hn; by apply elem_of_nil in Hn|].
    split; [intros c Hc; by left|]. split; lia. }
  cbn [visit]. destruct (cameFrom !! n) as [v|] eqn:Hn.
  - destruct (IH cameFrom queue Vs Hd Hcur) as (Vs' & HVs').
    { intros x Hx. apply Hns. by right. }
    exists Vs'. destruct (visit current ns cameFrom queue) as [cameFrom' queue'].
    destruct HVs' as (Hd' & Hsub & Hq & Hall & Hnew & Hlen & Hsum).
    split; [done|]. split; [done|]. split; [done|]. split; [|done].
    intros x [->|Hx]%elem_of_cons; [|by apply Hall].
    apply Hsub, (d_keys _ _ _ Hd). by eexists.
  - assert (Hfresh : n ∉ Vs).
    { intros Hin. apply (d_keys _ _ _ Hd) in Hin as [v Hv]. congruence. }
    assert (Hpass : passage st current n) by (apply Hns; by left).
    assert (Hd1 : discovered (<[n := Some current]> cameFrom) (queue ++ [n]) (Vs ++ [n])).
    { split.
      - apply NoDup_app. split; [apply Hd|]. split; [|apply NoDup_singleton].
        intros x Hx ->%list_elem_of_singleton. done.
      - intros c [Hc| ->%list_elem_of_singleton]%elem_of_app;
          [by apply (d_grid _ _ _ Hd)|].
        by destruct Hpass as (_ & ? & _).
      - intros c. rewrite elem_of_app, list_elem_of_singleton.
        destruct (decide (c = n)) as [->|Hne].
        + rewrite lookup_insert_eq. split; [by right | by eexists].
        + rewrite lookup_insert_ne by done. rewrite (d_keys _ _ _ Hd). tauto.
      - intros c [Hc| ->%list_elem_of_singleton]%elem_of_app.
        + destruct (d_chain _ _ _ Hd c Hc) as (l & Hl). exists l. by apply Chain_insert.
        + destruct (d_chain _ _ _ Hd current Hcur) as (l & Hl). exists (n :: l).
          econstructor; [apply lookup_insert_eq | done | by apply Chain_insert].
      - intros c [Hc| ->%list_elem_of_singleton]%elem_of_app; rewrite elem_of_app;
          [left; by apply (d_queue _ _ _ Hd) | right; by apply list_elem_of_singleton]. }
    destruct (IH _ _ _ Hd1) as (Vs' & HVs').
    { rewrite elem_of_app. by left. }
    { intros x Hx. apply Hns. by right. }
    exists Vs'.
    destruct (visit current ns (<[n := Some current]> cameFrom) (queue ++ [n]))
      as [cameFrom' queue'].
    destruct HVs' as (Hd' & Hsub & Hq & Hall & Hnew & Hlen & Hsum).
    rewrite !length_app in *. simpl in *.
    split; [done|]. split; [|split; [|split; [|split; [|split]]]].
    + intros c Hc. apply Hsub. rewrite elem_of_app. by left.
    + intros c Hc. apply Hq. rewrite elem_of_app. by left.
    + intros x [->|Hx]%elem_of_cons; [|by apply Hall].
      apply Hsub. rewrite elem_of_app. right. by apply list_elem_of_singleton.
    + intros c Hc.
      destruct (Hnew c Hc) as [[Hold| ->%list_elem_of_singleton]%elem_of_app | Hin];
        [by left | right | by right].
      apply Hq. rewrite elem_of_app. right. by apply list_elem_of_singleton.
    + lia.
    + lia.
Qed.

Lemma discovered_bound cameFrom queue Vs :
  discovered cameFrom queue Vs -> (length Vs <= Z.to_nat (W * H))%nat.
Proof.
  intros Hd. destruct (finished_size W H st Hfinished) as [Hw Hh].
  destruct (finished_positive W H st Hfinished) as [HW HH].
  assert (Hsub : Vs ⊆+ rowMajor W H).
  { apply NoDup_submseteq; [apply Hd|]. intros c Hc.
    rewrite <- Hw, <- Hh. apply elem_of_rowMajor_inGrid. by apply Hd. }
  apply submseteq_length in Hsub.
  pose proof (length_rowMajor W H ltac:(lia) ltac:(lia)). lia.
Qed.

Lemma accessible_passage c n :
  inGrid st c -> n ∈ accessibleNeighbors st c <-> passage st c n.
Proof. by apply (finished_accessible W H). Qed.

Lemma closed_reaches Vs a b :
  (forall c, c ∈ Vs -> expanded Vs c) -> a ∈ Vs -> rtc (passage st) a b -> b ∈ Vs.
Proof.
  intros Hclosed Ha Hab. induction Hab as [|a x b Hax _ IH]; [done|].
  apply IH. by apply (Hclosed a).
Qed.

Lemma search_done (goalCell : Cell) :
  inGrid st goalCell ->
  forall fuel queue cameFrom Vs,
  discovered cameFrom queue Vs -> root ∈ Vs ->
  (forall c, c ∈ Vs -> c ∈ queue \/ expanded Vs c) ->
  (2 * (Z.to_nat (W * H) - length Vs) + length queue < fuel)%nat ->
  exists cameFrom' Vs',
    search fuel st goalCell queue cameFrom = Done cameFrom' /\
    discovered cameFrom' [] Vs' /\ goalCell ∈ Vs'.
Proof.
  intros Hgoal.
  induction fuel as [|fuel IH]; intros queue cameFrom Vs Hd Hroot Hclosed Hfuel; [lia|].
  cbn [search]. destruct queue as [|current queue].
  { exists cameFrom, Vs. split; [done|]. split; [done|].
    apply (closed_reaches Vs root); [|done|].
    - intros c Hc. destruct (Hclosed c Hc) as [Hin|]; [by apply elem_of_nil in Hin | done].
    - destruct (finished_spanning W H st Hfinished) as (Hw & Hh & _ & Hconn & _).
      apply Hconn; [|done]. unfold inGrid. simpl.
      destruct (finished_positive W H st Hfinished). lia. }
  assert (Hcur : current ∈ Vs) by (apply (d_queue _ _ _ Hd); left).
  case_bool_decide as Hfound.
  { subst current. exists cameFrom, Vs. split; [done|]. split; [|done].
    destruct Hd as [H1 H2 H3 H4 H5]. split; try done.
    intros c Hc. by apply elem_of_nil in Hc. }
  assert (Hd0 : discovered cameFrom queue Vs).
  { destruct Hd as [H1 H2 H3 H4 H5]. split; try done.
    intros c Hc. apply H5. by right. }
  destruct (visit_spec current (accessibleNeighbors st current) cameFrom queue Vs Hd0 Hcur)
    as (Vs' & HVs').
  { intros n Hn. apply accessible_passage; [by apply (d_grid _ _ _ Hd) | done]. }
  destruct (visit current (accessibleNeighbors st current) cameFrom queue)
    as [cameFrom' queue'].
  destruct HVs' as (Hd' & Hsub & Hq & Hall & Hnew & Hlen & Hsum).
  pose proof (discovered_bound _ _ _ Hd') as Hbound.
  apply (IH queue' cameFrom' Vs'); [done | by apply Hsub | |].
  - intros c Hc. destruct (Hnew c Hc) as [Hold|Hin]; [|by left].
    destruct (Hclosed c Hold) as [[->|Hin]%elem_of_cons | Hexp].
    + right. intros n Hn. apply Hall. apply accessible_passage; [|done].
      by apply (d_grid _ _ _ Hd).
    + left. by apply Hq.
    + right. intros n Hn. by apply Hsub, Hexp.
  - simpl in Hfuel. lia.
Qed.

(** What [getSolvedPathCoordinates] returns on a finished maze that has not
    been solved before. *)
Lemma solved_path (fuel : nat) :
  (2 * Z.to_nat (W * H) < fuel)%nat ->
  exists path,
    getSolvedPathCoordinates fuel [] st = Done (Some path) /\
    head path = Some (0, 0) /\ last path = Some (W - 1, H - 1) /\
    chained (passage st) path /\ NoDup path /\ Forall (inGrid st) path.
Proof.
  intros Hfuel. destruct (finished_size W H st Hfinished) as [Hw Hh].
  destruct (finished_positive W H st Hfinished) as [HW HH].
  assert (Hroot : inGrid st root) by (unfold inGrid; simpl; lia).
  assert (Hgoal : inGrid st (W - 1, H - 1)) by (unfold inGrid; simpl; lia).
  unfold getSolvedPathCoordinates. cbn [length Nat.ltb Nat.leb].
  unfold start, goal. rewrite Hw, Hh. simpl fst. simpl snd.
  assert (getCell st 0 0 = Some root) as -> by (by apply getCell_Some).
  assert (getCell st (W - 1) (H - 1) = Some (W - 1, H - 1)) as -> by (by apply getCell_Some).
  rewrite !(finished_generated W H st Hfinished) by done. cbn [negb orb].
  destruct (search_done (W - 1, H - 1) Hgoal fuel [root] {[ root := None ]} [root])
    as (cameFrom & Vs & -> & Hd & Hin).
  { split.
    - apply NoDup_singleton.
    - by intros c ->%list_elem_of_singleton.
    - intros c. rewrite list_elem_of_singleton. split.
      + intros [v Hv]. by apply lookup_singleton_Some in Hv as [-> _].
      + intros ->. rewrite lookup_singleton_eq. by eexists.
    - intros c ->%list_elem_of_singleton. exists [root]. constructor.
      apply lookup_singleton_eq.
    - done. }
  { by apply list_elem_of_singleton. }
  { intros c Hc. by left. }
  { simpl. lia. }
  destruct (proj2 (d_keys _ _ _ Hd (W - 1, H - 1)) Hin) as [v Hv]. rewrite Hv.
  destruct (d_chain _ _ _ Hd _ Hin) as (l & Hl).
  assert (Hsub : forall c, c ∈ l -> c ∈ Vs).
  { intros c Hc. apply (d_keys _ _ _ Hd). by eapply Chain_keys. }
  assert (Hlen : (length l <= Z.to_nat (W * H))%nat).
  { pose proof (discovered_bound _ _ _ Hd) as Hb.
    assert (Hle : (length l <= length Vs)%nat); [|lia].
    apply submseteq_length, NoDup_submseteq; [by eapply Chain_NoDup | done]. }
  rewrite (trace_Chain st root cameFrom _ l Hl) by lia. simpl.
  exists (reverse l). split; [done|].
  split; [rewrite head_reverse; by eapply Chain_last|].
  split; [rewrite last_reverse; by eapply Chain_head|].
  split; [by eapply Chain_walk|].
  split; [rewrite reverse_Permutation; by eapply Chain_NoDup|].
  apply Forall_forall. intros c Hc. rewrite elem_of_reverse in Hc.
  by apply (d_grid _ _ _ Hd), Hsub.
Qed.

End Search.

Lemma generateMaze_finished (rnd : nat -> Z) (key : AlgorithmKey) (fuel : nat)
    (W H : Z) (st0 st : Visualizer) :
  1 <= W -> 1 <= H -> gridWidth st0 = W -> gridHeight st0 = H ->
  (2 * Z.to_nat (W * H) < fuel)%nat \/ key = Wilsons ->
  generateMaze rnd key fuel st0 = Done st -> finished W H st.
Proof.
  intros HW HH Hw Hh Hfuel Hrun.
  destruct Hfuel as [Hfuel | ->];
    [|by apply (generateMaze_wilsons rnd W H HW HH st0 Hw Hh fuel)].
  unfold generateMaze in Hrun. cbv zeta in Hrun. rewrite Hw, Hh in Hrun.
  destruct (generator rnd key fuel (resetGrid W H (seed st0))) as [st1| |] eqn:Hgen;
    try done.
  injection Hrun as <-. exists st1. split; [|done].
  apply (generator_returns_carved rnd W H HW HH key (seed st0) fuel st1 Hgen).
  by left.
Qed.

(** X25. In a generated maze the breadth-first search of
    [getSolvedPathCoordinates] returns, within a number of iterations bounded
    by the number of cells, a path that starts at (0, 0), ends at
    (W-1, H-1), goes from cell to cell through passages and visits no cell
    twice. *)
Theorem getSolvedPathCoordinates_path (rnd : nat -> Z) (key : AlgorithmKey)
    (fuel steps : nat) (W H : Z) (st0 st : Visualizer) :
  1 <= W -> 1 <= H -> gridWidth st0 = W -> gridHeight st0 = H ->
  (2 * Z.to_nat (W * H) < fuel)%nat \/ key = Wilsons ->
  generateMaze rnd key fuel st0 = Done st ->
  (2 * Z.to_nat (W * H) < steps)%nat ->
  exists path,
    getSolvedPathCoordinates steps [] st = Done (Some path) /\
    head path = Some (0, 0) /\ last path = Some (W - 1, H - 1) /\
    chained (passage st) path /\ NoDup path.
Proof.
  intros HW HH Hw Hh Hfuel Hrun Hsteps.
  pose proof (generateMaze_finished rnd key fuel W H st0 st HW HH Hw Hh Hfuel Hrun) as Hf.
  destruct (solved_path W H st Hf steps Hsteps) as (path & Hp & H1 & H2 & H3 & H4 & _).
  by exists path.
Qed.

Lemma getSolvedPathCoordinates_path_witness :
  exists path,
    getSolvedPathCoordinates 13 [] sampleMaze = Done (Some path) /\
    head path = Some (0, 0) /\ last path = Some (3 - 1, 2 - 1) /\
    chained (passage sampleMaze) path /\ NoDup path.
Proof.
  apply (getSolvedPathCoordinates_path sampleChoices RecursiveBacktracker 13 13 3 2
           blank3x2 sampleMaze).
  - lia.
  - lia.
  - reflexivity.
  - reflexivity.
  - left. vm_compute. lia.
  - by vm_compute.
  - vm_compute. lia.
Defined.

(** *** The exported solution *)

Lemma passage_unitStep st a b : passage st a b -> RoundTrip.unitStep a b.
Proof.
  intros (_ & _ & d & -> & _). unfold RoundTrip.unitStep, step. simpl.
  destruct d; simpl; lia.
Qed.

Lemma chained_consecutive st a rest :
  chained (passage st) (a :: rest) -> RoundTrip.consecutive a rest.
Proof.
  revert a. induction rest as [|b rest IH]; intros a Hc; [done|].
  destruct Hc as [Hab Hc]. split; [by eapply passage_unitStep | by apply IH].
Qed.

Lemma solved_referencePath st path :
  head path = Some (0, 0) -> chained (passage st) path -> NoDup path ->
  Forall (inGrid st) path -> RoundTrip.referencePath path.
Proof.
  intros Hhead Hchain Hnd Hin. destruct path as [|c rest]; [done|].
  injection Hhead as ->. exists rest. split; [done|].
  split; [by eapply chained_consecutive|]. split; [done|].
  eapply Forall_impl; [done|]. intros c Hc. unfold inGrid in Hc. simpl. lia.
Qed.

Section Saved.
Variable pako : Base64.Pako.
Variable parse : Payload.Parser.

Hypothesis inflate_needs_header :
  forall inflate bytes b out,
    pako = Some inflate -> inflate bytes = Some (b :: out) -> RoundTrip.zlibHeader bytes.

Hypothesis array_needs_bracket :
  forall bytes item items,
    parse bytes = Some (JArr (item :: items)) -> RoundTrip.jsonArrayText bytes.

(** The packed moves of a reference path decode to the moves. *)
Lemma path_moves_decode (path : list Cell) :
  RoundTrip.referencePath path ->
  exists moves,
    Packer.movesFromPathCoords path = Ok moves /\
    Z.of_nat (length moves) = Z.of_nat (length path) - 1 /\
    Moves.decodeMoves pako parse (Packer.packMovesBase64 moves) (Z.of_nat (length moves))
    = Returns moves.
Proof.
  intros Hpath. pose proof Hpath as (rest & -> & Hc & _).
  destruct (RoundTrip.movesFrom_steps rest (0, 0) [] Hc) as (moves & Hms & Hs & Hl).
  exists moves. split; [done|]. split; [simpl length; lia|].
  assert (Hmv : Forall RoundTrip.move moves) by (by eapply RoundTrip.stepsAlong_moves).
  assert (HL : Z.of_nat (length moves) =
               Z.of_nat (length (@nil Z)) + Z.of_nat (length moves)) by (simpl; lia).
  rewrite HL. unfold Moves.decodeMoves, Packer.packMovesBase64, Packer.bytesToBase64.
  destruct moves as [|m0 ms].
  - change (Payload.tryParseBase64ZlibJson pako parse [])
      with (Payload.tryParseBase64ZlibJson pako parse (Packer.btoa [])).
    change (Base64.decodeBase64ToUint8Array pako [])
      with (Base64.decodeBase64ToUint8Array pako (Packer.btoa [])).
    assert (Hnz : ~ RoundTrip.zlibHeader []) by (by intros []).
    assert (Hnj : ~ RoundTrip.jsonArrayText []).
    { intros (ws & r & _ & [E|E]); [by destruct ws | done]. }
    pose proof (RoundTrip.tryParse_plain pako parse inflate_needs_header
                  array_needs_bracket [] ltac:(constructor) Hnz Hnj) as Hnp.
    rewrite (RoundTrip.decodeBase64_plain pako inflate_needs_header) by (done || constructor).
    destruct (Payload.tryParseBase64ZlibJson pako parse (Packer.btoa []))
      as [[| | | | [|item items] |]|]; try done.
    by destruct (Hnp item items).
  - destruct (RoundTrip.packed_path_plain _ m0 ms Hpath Hms) as [Hnz Hnj].
    pose proof (RoundTrip.packMoves_bytes (m0 :: ms) Hmv) as Hb.
    pose proof (RoundTrip.tryParse_plain pako parse inflate_needs_header
                  array_needs_bracket _ Hb Hnz Hnj) as Hnp.
    rewrite (RoundTrip.decodeBase64_plain pako inflate_needs_header) by done.
    rewrite (RoundTrip.unpack_pack (m0 :: ms) Hmv []).
    destruct (Payload.tryParseBase64ZlibJson pako parse
                (Packer.btoa (Packer.packMoves (m0 :: ms))))
      as [[| | | | [|item items] |]|]; try done.
    by destruct (Hnp item items).
Qed.

(** X26. The solution of a generated maze survives export: the moves that
    [movesFromPathCoords] derives from the path of
    [getSolvedPathCoordinates], packed by [packMovesBase64] and decoded by
    [decodeMoves] with [L] the number of moves, are the same moves, and
    [makeSolutionCells] rebuilds from them the cells of the path. *)
Theorem exported_solution_decodes (rnd : nat -> Z) (key : AlgorithmKey)
    (fuel steps : nat) (W H : Z) (st0 st : Visualizer) :
  1 <= W -> 1 <= H -> gridWidth st0 = W -> gridHeight st0 = H ->
  (2 * Z.to_nat (W * H) < fuel)%nat \/ key = Wilsons ->
  generateMaze rnd key fuel st0 = Done st ->
  (2 * Z.to_nat (W * H) < steps)%nat ->
  exists path moves,
    getSolvedPathCoordinates steps [] st = Done (Some path) /\
    Packer.movesFromPathCoords path = Ok moves /\
    Moves.decodeMoves pako parse (Packer.packMovesBase64 moves) (Z.of_nat (length moves))
    = Returns moves /\
    GameLogic.makeSolutionCells moves = path.
Proof.
  intros HW HH Hw Hh Hfuel Hrun Hsteps.
  pose proof (generateMaze_finished rnd key fuel W H st0 st HW HH Hw Hh Hfuel Hrun) as Hf.
  destruct (solved_path W H st Hf steps Hsteps)
    as (path & Hp & Hhead & Hlast & Hchain & Hnd & Hin).
  pose proof (solved_referencePath st path Hhead Hchain Hnd Hin) as Href.
  destruct (path_moves_decode path Href) as (moves & Hmoves & _ & Hdecode).
  exists path, moves. split; [done|]. split; [done|]. split; [done|].
  destruct Href as (rest & -> & _).
  cbn [Packer.movesFromPathCoords] in Hmoves.
  apply GameLogic.movesFrom_walk in Hmoves as (tail & -> & Hwalk).
  simpl. by rewrite GameLogic.makeSolutionCells_walk, Hwalk.
Qed.

(** The move of a direction. *)
Definition dirMove (d : Dir) : Z :=
  match d with DirN => 0 | DirE => 1 | DirS => 2 | DirW => 3 end.

Lemma stepTo_step (a : Cell) (m : Z) (d : Dir) :
  RoundTrip.move m -> RoundTrip.stepTo a m = step a d -> m = dirMove d.
Proof.
  intros Hm. unfold RoundTrip.move in Hm.
  assert (m = 0 \/ m = 1 \/ m = 2 \/ m = 3) as [-> | [-> | [-> | ->]]] by lia;
    destruct a as [x y], d; unfold RoundTrip.stepTo, step; simpl;
    intros Heq; pose proof (f_equal fst Heq) as Hx; pose proof (f_equal snd Heq) as Hy;
    simpl in Hx, Hy; first [reflexivity | lia].
Qed.

Lemma walk_opens (W : Z) (st : Visualizer) (masks : list Z) :
  (forall c d, inGrid st c ->
     Grid.has (Grid.maskAt W masks (fst c) (snd c)) (bitOf d) = negb (hasWall st c d)) ->
  forall rest a moves,
  chained (passage st) (a :: rest) -> RoundTrip.stepsAlong a rest moves ->
  GameLogic.validWalk W masks (a :: rest) moves.
Proof.
  intros Hbits. induction rest as [|b rest IH]; intros a moves Hchain Hsteps.
  { by destruct moves. }
  destruct moves as [|m moves]; [done|].
  destruct Hsteps as (Hm & Hb & Hsteps). destruct Hchain as [Hpass Hchain].
  split; [|by apply IH].
  destruct Hpass as (Ha & _ & d & Hbd & Hwall & _).
  assert (m = dirMove d) as -> by (apply (stepTo_step a); [done | congruence]).
  specialize (Hbits a d Ha). rewrite Hwall in Hbits. simpl in Hbits.
  unfold Grid.has in Hbits. apply negb_true_iff, Z.eqb_neq in Hbits.
  exists (dx d), (dy d), (bitOf d). split; [by destruct d|]. split; [by rewrite Hbd|].
  done.
Qed.

(** X27. The exported maze can be played: in the masks that the game
    decodes from the exported openings, every move of the exported solution
    leads from one cell of the solution path to the next through an opening
    of the cell it leaves. *)
Theorem exported_solution_walks (rnd : nat -> Z) (key : AlgorithmKey)
    (fuel steps : nat) (W H : Z) (st0 st : Visualizer) :
  1 <= W -> 1 <= H -> gridWidth st0 = W -> gridHeight st0 = H ->
  (2 * Z.to_nat (W * H) < fuel)%nat \/ key = Wilsons ->
  generateMaze rnd key fuel st0 = Done st ->
  (2 * Z.to_nat (W * H) < steps)%nat ->
  exists g masks path moves,
    Exporter.packGridOpeningsToBase64 (exportedWalls st) W H = Ok g /\
    Grid.decodeOpenings pako parse g W H = Returns masks /\
    getSolvedPathCoordinates steps [] st = Done (Some path) /\
    Packer.movesFromPathCoords path = Ok moves /\
    GameLogic.validWalk W masks path moves.
Proof.
  intros HW HH Hw Hh Hfuel Hrun Hsteps.
  pose proof (generateMaze_finished rnd key fuel W H st0 st HW HH Hw Hh Hfuel Hrun) as Hf.
  destruct (finished_size W H st Hf) as [Hwidth Hheight].
  destruct (finished_export pako parse inflate_needs_header array_needs_bracket W H st Hf)
    as (g & masks & Hpack & Hdecode & _ & Hbits).
  destruct (solved_path W H st Hf steps Hsteps)
    as (path & Hp & Hhead & Hlast & Hchain & Hnd & Hin).
  destruct path as [|c rest]; [done|]. injection Hhead as ->.
  destruct (RoundTrip.movesFrom_steps rest (0, 0) [] (chained_consecutive st _ _ Hchain))
    as (moves & Hms & Hs & _).
  exists g, masks, ((0, 0) :: rest), moves.
  split; [done|]. split; [done|]. split; [done|]. split; [done|].
  apply (walk_opens W st); [|done | done].
  intros [x y] d Hc. apply Hbits; unfold inGrid in Hc; simpl in *; lia.
Qed.

End Saved.

Lemma exported_solution_walks_witness :
  exists g masks path moves,
    Exporter.packGridOpeningsToBase64 (exportedWalls sampleMaze) 3 2 = Ok g /\
    Grid.decodeOpenings (Some (fun _ => None)) (fun _ => None) g 3 2 = Returns masks /\
    getSolvedPathCoordinates 13 [] sampleMaze = Done (Some path) /\
    Packer.movesFromPathCoords path = Ok moves /\
    GameLogic.validWalk 3 masks path moves.
Proof.
  apply (exported_solution_walks (Some (fun _ => None)) (fun _ => None)
           ltac:(intros ? ? ? ? [= <-]; discriminate) ltac:(discriminate)
           sampleChoices RecursiveBacktracker 13 13 3 2 blank3x2 sampleMaze).
  - lia.
  - lia.
  - reflexivity.
  - reflexivity.
  - left. vm_compute. lia.
  - by vm_compute.
  - vm_compute. lia.
Defined.

Lemma exported_solution_decodes_witness :
  exists path moves,
    getSolvedPathCoordinates 13 [] sampleMaze = Done (Some path) /\
    Packer.movesFromPathCoords path = Ok moves /\
    Moves.decodeMoves (Some (fun _ => None)) (fun _ => None)
      (Packer.packMovesBase64 moves) (Z.of_nat (length moves)) = Returns moves /\
    GameLogic.makeSolutionCells moves = path.
Proof.
  apply (exported_solution_decodes (Some (fun _ => None)) (fun _ => None)
           ltac:(intros ? ? ? ? [= <-]; discriminate) ltac:(discriminate)
           sampleChoices RecursiveBacktracker 13 13 3 2 blank3x2 sampleMaze).
  - lia.
  - lia.
  - reflexivity.
  - reflexivity.
  - left. vm_compute. lia.
  - by vm_compute.
  - vm_compute. lia.
Defined.

End Solver.

(** ** Cutting the walked path ([decoder.ts]) *)

Module Slicing.
Import Engine Game Progress GameLogic.

Definition BASE_RESOURCE_BUNDLE : Z := 3.

(** The state that [attemptSlice] uses besides the walk: the Pro status, the
    slices left ([None] stands for [Number.POSITIVE_INFINITY]) and the count
    of slices made. *)
Record Resources : Type := {
  isPro : bool;
  availableSlices : option Z;
  sliceCount : Z
}.

(** [value === Number.POSITIVE_INFINITY ? value : Math.max(value - 1, 0)]. *)
Definition spend (value : option Z) : option Z :=
  match value with
  | None => None
  | Some v => Some (Z.max (v - 1) 0)
  end.

(** The resource check of [attemptSlice]; [rewarded] is the answer of
    [ads.showRewarded], asked only when no slice is left. [None]: the slice
    is refused. *)
Definition consumeSlice (rewarded : bool) (res : Resources) : option Resources :=
  if isPro res then Some res
  else
    let empty := match availableSlices res with Some v => v <=? 0 | None => false end in
    if empty && negb rewarded then None
    else
      let value := if empty then Some BASE_RESOURCE_BUNDLE else availableSlices res in
      Some {| isPro := isPro res; availableSlices := spend value;
              sliceCount := sliceCount res |}.

(** [attemptSlice(segmentIndex)]: the returned flag, the walk and the
    resources afterwards. *)
Definition attemptSlice (segmentIndex : option Z) (rewarded : bool)
    (st : State) (res : Resources) : bool * State * Resources :=
  match currentMaze st with
  | None => (false, st, res)
  | Some _ =>
      let anchor :=
        match segmentIndex with
        | Some index => index
        | None => if divergence st =? -1 then progress st else divergence st
        end in
      if anchor <? 0 then (false, st, res)
      else if anchor >=? Z.of_nat (length (playerMovesRef st)) then (false, st, res)
      else
        let trimmedMoves := Js.slice (playerMovesRef st) 0 anchor in
        let trimmedCells := Js.slice (playerCellsRef st) 0 (anchor + 1) in
        if (length trimmedCells =? length (playerCellsRef st))%nat then (false, st, res)
        else
          match consumeSlice rewarded res with
          | None => (false, st, res)
          | Some res =>
              let '(divergenceIndex, correctCount) :=
                evaluateMoves (solutionMoves st) trimmedMoves in
              (true,
               {| currentMaze := currentMaze st;
                  openings := openings st;
                  solutionMoves := solutionMoves st;
                  playerCellsRef := trimmedCells;
                  playerMovesRef := trimmedMoves;
                  playerCells := trimmedCells;
                  playerMoves := trimmedMoves;
                  lastCellRef := last trimmedCells;
                  divergence := divergenceIndex;
                  progress := correctCount;
                  winCalls := winCalls st |},
               {| isPro := isPro res; availableSlices := availableSlices res;
                  sliceCount := sliceCount res + 1 |})
          end
  end.

(** A player who went East, then North of the reference path [1; 2]. *)
Definition astray : State :=
  {| currentMaze := Some {| rec_w := 2; rec_h := 2; rec_L := 2 |};
     openings := [3; 12; 0; 1];
     solutionMoves := [1; 2];
     playerCellsRef := [(0, 0); (1, 0); (1, 1); (1, 0)];
     playerMovesRef := [1; 2; 0];
     playerCells := [(0, 0); (1, 0); (1, 1); (1, 0)];
     playerMoves := [1; 2; 0];
     lastCellRef := Some (1, 0);
     divergence := 2;
     progress := 2;
     winCalls := [] |}.

Definition threeSlices : Resources :=
  {| isPro := false; availableSlices := Some 3; sliceCount := 0 |}.

Example attemptSlice_astray :
  let '(ok, st, res) := attemptSlice None false astray threeSlices in
  ok = true /\ playerMovesRef st = [1; 2] /\
  playerCellsRef st = [(0, 0); (1, 0); (1, 1)] /\
  availableSlices res = Some 2 /\ sliceCount res = 1.
Proof. by vm_compute. Qed.

(** *** Back on the reference path *)

(** The evaluation stored in the state is that of the moves made. *)
Definition evaluated (st : State) : Prop :=
  (divergence st, progress st) = evaluateMoves (solutionMoves st) (playerMovesRef st).

Lemma commonPrefix_short (p s : list Z) :
  ~ p `prefix_of` s -> (commonPrefix p s < length p)%nat.
Proof.
  intros Hn. pose proof (commonPrefix_le p s) as Hle.
  destruct (decide (commonPrefix p s = length p)) as [Heq|]; [|lia].
  by apply commonPrefix_prefix in Heq.
Qed.

Lemma take_commonPrefix_prefix (p s : list Z) : take (commonPrefix p s) p `prefix_of` s.
Proof. rewrite commonPrefix_take. apply prefix_take. Qed.

(** The anchor that [attemptSlice] uses when no index is given: the
    trimmed moves are on the reference path. *)
Lemma anchor_on_track (st : State) (anchor : Z) :
  evaluated st ->
  anchor = (if divergence st =? -1 then progress st else divergence st) ->
  0 <= anchor < Z.of_nat (length (playerMovesRef st)) ->
  take (Z.to_nat anchor) (playerMovesRef st) `prefix_of` solutionMoves st.
Proof.
  unfold evaluated, evaluateMoves. intros Hev -> Hanchor.
  destruct (solutionMoves st) as [|s0 sol] eqn:Hsol.
  - injection Hev as Hd Hp. rewrite Hd, Hp in *. simpl in *. apply prefix_nil.
  - cbv zeta in Hev. rewrite firstDivergence_commonPrefix in Hev.
    destruct (decide (playerMovesRef st `prefix_of` s0 :: sol)) as [Hpre|Hnot].
    + simpl in Hev. injection Hev as Hd Hp. rewrite Hd, Hp in *. simpl in Hanchor.
      apply prefix_length in Hpre. simpl in Hpre. lia.
    + pose proof (commonPrefix_short _ _ Hnot) as Hshort.
      assert (Hne : (Z.of_nat (commonPrefix (playerMovesRef st) (s0 :: sol)) =? -1) = false)
        by (apply Z.eqb_neq; lia).
      rewrite Hne in Hev. injection Hev as Hd Hp. rewrite Hd, Hne.
      rewrite Nat2Z.id. apply take_commonPrefix_prefix.
Qed.

Lemma evaluateMoves_prefix (sol moves : list Z) :
  moves `prefix_of` sol -> evaluateMoves sol moves = (-1, Z.of_nat (length moves)).
Proof.
  intros Hpre. unfold evaluateMoves. destruct sol as [|s0 sol].
  - apply prefix_nil_inv in Hpre as ->. done.
  - cbv zeta. rewrite firstDivergence_commonPrefix, decide_True by done. simpl.
    apply prefix_length in Hpre. f_equal. simpl in *. lia.
Qed.

Lemma validWalk_take w o (cells : list GridPoint) : forall moves k,
  validWalk w o cells moves -> (k <= length moves)%nat ->
  validWalk w o (take (Datatypes.S k) cells) (take k moves).
Proof.
  induction cells as [|a cells IH]; intros moves k Hwalk Hk; [done|].
  destruct cells as [|b cells], moves as [|m moves]; try done.
  - simpl in Hk. by replace k with 0%nat by lia.
  - destruct Hwalk as [Hopen Hwalk]. destruct k as [|k]; [done|].
    simpl in Hk. specialize (IH moves k Hwalk ltac:(lia)).
    change (take (Datatypes.S (Datatypes.S k)) (a :: b :: cells))
      with (a :: take (Datatypes.S k) (b :: cells)).
    change (take (Datatypes.S k) (m :: moves)) with (m :: take k moves).
    change (take (Datatypes.S k) (b :: cells)) with (b :: take k cells) in *.
    simpl. done.
Qed.

Lemma validWalk_length w o (cells : list GridPoint) : forall moves,
  validWalk w o cells moves -> length cells = Datatypes.S (length moves).
Proof.
  induction cells as [|a cells IH]; intros moves Hwalk; [done|].
  destruct cells as [|b cells], moves as [|m moves]; try done.
  destruct Hwalk as [_ Hwalk]. simpl. f_equal. by apply IH.
Qed.

Lemma attemptSlice_spec (rewarded : bool) (st st' : State) (res res' : Resources) :
  evaluated st -> validState st ->
  attemptSlice None rewarded st res = (true, st', res') ->
  divergence st' = -1 /\
  playerMovesRef st' `prefix_of` solutionMoves st' /\
  playerMovesRef st' `prefix_of` playerMovesRef st /\
  (length (playerMovesRef st') < length (playerMovesRef st))%nat /\
  progress st' = Z.of_nat (length (playerMovesRef st')) /\
  evaluated st' /\ validState st' /\
  sliceCount res' = sliceCount res + 1.
Proof.
  intros Hev Hvalid. unfold attemptSlice.
  destruct (currentMaze st) as [maze|] eqn:Hmaze; [|done].
  set (anchor := if divergence st =? -1 then progress st else divergence st).
  destruct (Z.ltb_spec anchor 0) as [|Hpos]; [done|].
  destruct (Z.geb_spec anchor (Z.of_nat (length (playerMovesRef st)))) as [|Hlt]; [done|].
  rewrite !Js.slice_0_nonneg by lia.
  destruct (Nat.eqb_spec (length (take (Z.to_nat (anchor + 1)) (playerCellsRef st)))
              (length (playerCellsRef st))) as [|_]; [done|].
  destruct (consumeSlice rewarded res) as [res1|] eqn:Hres; [|done].
  pose proof (anchor_on_track st anchor Hev eq_refl ltac:(lia)) as Hpre.
  rewrite (evaluateMoves_prefix _ _ Hpre).
  intros [= <- <-]. simpl.
  split; [done|]. split; [done|]. split; [apply prefix_take|].
  split; [rewrite length_take; lia|]. split; [done|].
  split; [unfold evaluated; simpl; by rewrite (evaluateMoves_prefix _ _ Hpre)|].
  split.
  - unfold validState in *. simpl. rewrite Hmaze in *.
    replace (Z.to_nat (anchor + 1)) with (Datatypes.S (Z.to_nat anchor)) by lia.
    apply validWalk_take; [done | lia].
  - unfold consumeSlice in Hres. destruct (isPro res); [by injection Hres as <-|].
    destruct (_ && _); [done|]. by injection Hres as <-.
Qed.

(** X28. A slice without an index cuts the walk back to the reference path:
    when [attemptSlice] succeeds, the moves that remain are a shorter prefix
    of the moves made and a prefix of the solution, so the divergence is -1
    and the progress is their number; the walk stays valid and one slice is
    counted. *)
Theorem attemptSlice_back_on_track (rewarded : bool) (st st' : State)
    (res res' : Resources) :
  evaluated st -> validState st ->
  attemptSlice None rewarded st res = (true, st', res') ->
  divergence st' = -1 /\
  playerMovesRef st' `prefix_of` solutionMoves st' /\
  playerMovesRef st' `prefix_of` playerMovesRef st /\
  (length (playerMovesRef st') < length (playerMovesRef st))%nat /\
  progress st' = Z.of_nat (length (playerMovesRef st')) /\
  validState st' /\
  sliceCount res' = sliceCount res + 1.
Proof.
  intros Hev Hvalid Hrun.
  destruct (attemptSlice_spec rewarded st st' res res' Hev Hvalid Hrun)
    as (H1 & H2 & H3 & H4 & H5 & _ & H6 & H7).
  done.
Qed.

Lemma attemptSlice_back_on_track_witness :
  exists st' res',
    attemptSlice None false astray threeSlices = (true, st', res') /\
    divergence st' = -1 /\
    playerMovesRef st' `prefix_of` solutionMoves st' /\
    playerMovesRef st' `prefix_of` playerMovesRef astray /\
    (length (playerMovesRef st') < length (playerMovesRef astray))%nat /\
    progress st' = Z.of_nat (length (playerMovesRef st')) /\
    validState st' /\
    sliceCount res' = sliceCount threeSlices + 1.
Proof.
  eexists _, _. split; [reflexivity|].
  eapply (attemptSlice_back_on_track false astray _ threeSlices _).
  - reflexivity.
  - unfold validState, astray. simpl. unfold opensTo.
    repeat split; (eexists _, _, _; split; [reflexivity|]; split; [reflexivity|]);
      by vm_compute.
  - reflexivity.
Defined.

(** X29. When the player has left the reference path, a slice without an
    index is made whenever a slice is available: for a Pro player, with a
    slice left, or after a rewarded ad. A player who is on the path is never
    cut back. *)
Theorem attemptSlice_when_astray (rewarded : bool) (st : State) (res : Resources)
    (maze : MazeRecord) :
  currentMaze st = Some maze -> evaluated st -> validState st ->
  (divergence st <> -1 ->
     isPro res = true \/ rewarded = true \/
       (exists v, availableSlices res = Some v /\ 0 < v) \/ availableSlices res = None ->
     (attemptSlice None rewarded st res).1.1 = true) /\
  (divergence st = -1 -> solutionMoves st <> [] ->
     attemptSlice None rewarded st res = (false, st, res)).
Proof.
  intros Hmaze Hev Hvalid. unfold attemptSlice. rewrite Hmaze.
  unfold validState in Hvalid. rewrite Hmaze in Hvalid.
  pose proof (validWalk_length _ _ _ _ Hvalid) as Hlen.
  unfold evaluated, evaluateMoves in Hev. split.
  - intros Hd Havailable.
    destruct (solutionMoves st) as [|s0 sol] eqn:Hsol; [by injection Hev as ? ?|].
    cbv zeta in Hev. rewrite firstDivergence_commonPrefix in Hev.
    destruct (decide (playerMovesRef st `prefix_of` s0 :: sol)) as [Hpre|Hnot];
      [by injection Hev as ? ?|].
    pose proof (commonPrefix_short _ _ Hnot) as Hshort.
    assert (Hne : (Z.of_nat (commonPrefix (playerMovesRef st) (s0 :: sol)) =? -1) = false)
      by (apply Z.eqb_neq; lia).
    rewrite Hne in Hev. injection Hev as Hdiv Hprog. rewrite Hdiv, Hne.
    set (anchor := Z.of_nat (commonPrefix (playerMovesRef st) (s0 :: sol))).
    destruct (Z.ltb_spec anchor 0) as [|_]; [lia|].
    destruct (Z.geb_spec anchor (Z.of_nat (length (playerMovesRef st)))) as [|_]; [lia|].
    rewrite !Js.slice_0_nonneg by lia.
    destruct (Nat.eqb_spec (length (take (Z.to_nat (anchor + 1)) (playerCellsRef st)))
                (length (playerCellsRef st))) as [Heq|_].
    { rewrite length_take in Heq. lia. }
    assert (Hres : is_Some (consumeSlice rewarded res)).
    { unfold consumeSlice. destruct (isPro res); [by eexists|].
      destruct (match availableSlices res with Some v => v <=? 0 | None => false end)
        eqn:Hempty; [|by eexists].
      destruct rewarded; [by eexists|]. exfalso.
      destruct Havailable as [?|[?|[(v & Hsome & Hv)| Hnone]]]; try done.
      + rewrite Hsome in Hempty. lia.
      + by rewrite Hnone in Hempty. }
    destruct Hres as [res1 ->]. by destruct (evaluateMoves _ _).
  - intros Hd Hsol. destruct (solutionMoves st) as [|s0 sol]; [done|].
    cbv zeta in Hev. rewrite firstDivergence_commonPrefix in Hev.
    destruct (decide (playerMovesRef st `prefix_of` s0 :: sol)) as [Hpre|Hnot].
    + change (-1 =? -1) with true in Hev. cbv iota in Hev.
      injection Hev as Hdiv Hprog. rewrite Hdiv, Hprog.
      change (-1 =? -1) with true. cbv iota.
      apply prefix_length in Hpre. simpl in Hpre. rewrite Z.min_l by lia.
      destruct (Z.ltb_spec (Z.of_nat (length (playerMovesRef st))) 0); [done|].
      destruct (Z.geb_spec (Z.of_nat (length (playerMovesRef st)))
                  (Z.of_nat (length (playerMovesRef st)))); [done | lia].
    + pose proof (commonPrefix_short _ _ Hnot) as Hshort.
      assert (Hne : (Z.of_nat (commonPrefix (playerMovesRef st) (s0 :: sol)) =? -1) = false)
        by (apply Z.eqb_neq; lia).
      rewrite Hne in Hev. injection Hev as Hdiv Hprog. lia.
Qed.

Lemma attemptSlice_when_astray_witness :
  (divergence astray <> -1 ->
     isPro threeSlices = true \/ false = true \/
       (exists v, availableSlices threeSlices = Some v /\ 0 < v) \/
       availableSlices threeSlices = None ->
     (attemptSlice None false astray threeSlices).1.1 = true) /\
  (divergence astray = -1 -> solutionMoves astray <> [] ->
     attemptSlice None false astray threeSlices = (false, astray, threeSlices)).
Proof.
  apply (attemptSlice_when_astray false astray threeSlices
           {| rec_w := 2; rec_h := 2; rec_L := 2 |}).
  - reflexivity.
  - reflexivity.
  - unfold validState, astray. simpl. unfold opensTo.
    repeat split; (eexists _, _, _; split; [reflexivity|]; split; [reflexivity|]);
      by vm_compute.
Defined.

End Slicing.

(** ** Asking for a hint ([decoder.ts]) *)

Module HintRequest.
Import Engine Game GameLogic.

(** The state that [requestHint] writes: the hints left ([None] stands for
    [Number.POSITIVE_INFINITY]), the count of hints taken and the highlighted
    cells. *)
Record HintState : Type := {
  availableHints : option Z;
  hintCount : Z;
  hintCells : list GridPoint
}.

(** The resource check of [requestHint]; [rewarded] is the answer of
    [ads.showRewarded], asked only when no hint is left. [None]: the hint is
    refused; otherwise the hints left afterwards. *)
Definition consumeHint (isPro rewarded : bool) (available : option Z)
  : option (option Z) :=
  if isPro then Some available
  else
    let empty := match available with Some v => v <=? 0 | None => false end in
    if empty && negb rewarded then None
    else
      let value := if empty then Some Slicing.BASE_RESOURCE_BUNDLE else available in
      Some (Slicing.spend value).

(** [requestHint]: the state afterwards and whether the call threw. The
    setters called before a throw have taken effect. The timer that clears
    the highlight later is outside the model. *)
Definition requestHint (isPro rewarded : bool) (st : State) (hs : HintState)
  : HintState * Res unit :=
  match currentMaze st with
  | None => (hs, Ok tt)
  | Some maze =>
      match solutionMoves st with
      | [] => (hs, Ok tt)
      | _ =>
          match consumeHint isPro rewarded (availableHints hs) with
          | None => (hs, Ok tt)
          | Some available =>
              let hs := {| availableHints := available;
                           hintCount := hintCount hs + 1;
                           hintCells := hintCells hs |} in
              match hintHighlight (solutionMoves st) (progress st) (divergence st)
                                  (rec_L maze) with
              | Throw msg => (hs, Throw msg)
              | Ok None => (hs, Ok tt)
              | Ok (Some highlight) =>
                  ({| availableHints := availableHints hs;
                      hintCount := hintCount hs;
                      hintCells := highlight |}, Ok tt)
              end
          end
      end
  end.

(** A player one move along the reference path [1; 1; 2; 2] of a 3 x 3
    maze. *)
Definition oneMoveIn : State :=
  {| currentMaze := Some {| rec_w := 3; rec_h := 3; rec_L := 4 |};
     openings := [6; 10; 12; 5; 4; 5; 3; 9; 1];
     solutionMoves := [1; 1; 2; 2];
     playerCellsRef := [(0, 0); (1, 0)];
     playerMovesRef := [1];
     playerCells := [(0, 0); (1, 0)];
     playerMoves := [1];
     lastCellRef := Some (1, 0);
     divergence := -1;
     progress := 1;
     winCalls := [] |}.

Definition noHintLeft : HintState :=
  {| availableHints := Some 0; hintCount := 2; hintCells := [] |}.

Example requestHint_refused :
  requestHint false false oneMoveIn noHintLeft = (noHintLeft, Ok tt).
Proof. reflexivity. Qed.

(** X6. With a maze loaded, a solution that is not empty and a progress that
    is not negative, [requestHint] does not throw. It is refused, and changes
    nothing, exactly when the player is not Pro, has no hint left and the
    rewarded ad fails. Otherwise it takes one hint (one more counted, the
    hints left as the resource check leaves them) and the hint lies on the
    solution path: the highlight is left alone when [hintSegment] is empty,
    and is otherwise exactly the cells of the solution path that follow the
    cell at index max(progress, divergence), one per move of the segment. *)
Theorem requestHint_on_path (isPro rewarded : bool) (st : State) (hs : HintState)
    (maze : MazeRecord) :
  currentMaze st = Some maze -> solutionMoves st <> [] -> 0 <= progress st ->
  (consumeHint isPro rewarded (availableHints hs) = None <->
   isPro = false /\ rewarded = false /\
   exists v, availableHints hs = Some v /\ v <= 0) /\
  requestHint isPro rewarded st hs =
  (match consumeHint isPro rewarded (availableHints hs) with
   | None => hs
   | Some available =>
       {| availableHints := available;
          hintCount := hintCount hs + 1;
          hintCells :=
            if decide (hintSegment (solutionMoves st) (progress st) (divergence st)
                                   (rec_L maze) = [])
            then hintCells hs
            else take (length (hintSegment (solutionMoves st) (progress st)
                                           (divergence st) (rec_L maze)))
                      (drop (S (Z.to_nat (Z.max (progress st) (divergence st))))
                            (makeSolutionCells (solutionMoves st))) |}
   end, Ok tt).
Proof.
  intros Hmaze Hsol Hprogress. split.
  - unfold consumeHint. destruct isPro, rewarded, (availableHints hs) as [v|];
      cbn; try destruct (Z.leb_spec v 0); cbn; split;
      try (intros (? & ? & v' & ? & ?)); try done;
      try (simplify_eq; lia).
    intros _. repeat split. by exists v.
  - unfold requestHint. rewrite Hmaze.
    destruct (solutionMoves st) as [|m moves] eqn:Hmoves; [done|]. rewrite <- Hmoves.
    destruct (consumeHint isPro rewarded (availableHints hs)) as [available|]; [|done].
    rewrite hintHighlight_cells by done.
    by destruct (decide _).
Qed.

(** A player with one hint left, one move along the path: the hint is
    granted without an ad and shows the three cells that follow (1, 0). *)
Lemma requestHint_on_path_witness :
  (consumeHint false false (Some 1) = None <->
   false = false /\ false = false /\ exists v, Some 1 = Some v /\ v <= 0) /\
  requestHint false false oneMoveIn
    {| availableHints := Some 1; hintCount := 0; hintCells := [] |}
  = ({| availableHints := Some 0; hintCount := 1;
        hintCells := [(2, 0); (2, 1); (2, 2)] |}, Ok tt).
Proof.
  apply (requestHint_on_path false false oneMoveIn
           {| availableHints := Some 1; hintCount := 0; hintCells := [] |}
           {| rec_w := 3; rec_h := 3; rec_L := 4 |}).
  - reflexivity.
  - discriminate.
  - simpl. lia.
Defined.

End HintRequest.

(** ** Playing the exported maze ([decoder.ts]) *)

Module Replay.
Import Engine Game Progress GameLogic Slicing.

(** The walk that [startGame] and [resetPlayerState] set up for a maze
    record with its decoded openings and moves. *)
Definition startState (selection : MazeRecord) (newOpenings newMoves : list Z) : State :=
  {| currentMaze := Some selection;
     openings := newOpenings;
     solutionMoves := newMoves;
     playerCellsRef := [(0, 0)];
     playerMovesRef := [];
     playerCells := [(0, 0)];
     playerMoves := [];
     lastCellRef := Some (0, 0);
     divergence := -1;
     progress := 0;
     winCalls := [] |}.

(** [processCell] called for one cell after the other. *)
Fixpoint enterCells (st : State) (cells : list GridPoint) : Res State :=
  match cells with
  | [] => Ok st
  | cell :: cells' =>
      match processCell st cell with
      | Ok st' => enterCells st' cells'
      | Throw msg => Throw msg
      end
  end.

(** *** One step through an opening *)

Lemma opensTo_cases w o (a b : GridPoint) m :
  opensTo w o a b m ->
  exists dx dy mask,
    (m = 0 /\ dx = 0 /\ dy = -1 /\ mask = Grid.N \/
     m = 1 /\ dx = 1 /\ dy = 0 /\ mask = Grid.E \/
     m = 2 /\ dx = 0 /\ dy = 1 /\ mask = Grid.S \/
     m = 3 /\ dx = -1 /\ dy = 0 /\ mask = Grid.W) /\
    fst b - fst a = dx /\ snd b - snd a = dy /\
    Z.land (Js.load o (snd a * w + fst a)) mask <> 0.
Proof.
  intros (dx & dy & mask & Hget & -> & Hopen). exists dx, dy, mask.
  split; [|simpl; split; [lia | split; [lia | done]]].
  unfold Js.get in Hget. destruct (Z.ltb_spec m 0); [done|].
  pose proof (lookup_lt_Some _ _ _ Hget) as Hlt. simpl in Hlt.
  assert (m = 0 \/ m = 1 \/ m = 2 \/ m = 3) as [-> | [-> | [-> | ->]]] by lia;
    injection Hget as <- <- <-; tauto.
Qed.

Lemma processCell_step (st : State) (maze : MazeRecord) (pre : list GridPoint)
    (a b : GridPoint) (m : Z) :
  currentMaze st = Some maze ->
  playerCellsRef st = pre ++ [a] ->
  a <> b -> (forall p, last pre = Some p -> p <> b) ->
  opensTo (rec_w maze) (openings st) a b m ->
  exists st',
    processCell st b = Ok st' /\
    currentMaze st' = Some maze /\ openings st' = openings st /\
    solutionMoves st' = solutionMoves st /\
    playerCellsRef st' = playerCellsRef st ++ [b] /\
    playerMovesRef st' = playerMovesRef st ++ [m] /\
    (divergence st', progress st')
      = evaluateMoves (solutionMoves st) (playerMovesRef st ++ [m]) /\
    winCalls st' =
      if ((fst b =? rec_w maze - 1) && (snd b =? rec_h maze - 1))
         || ((divergence st' =? -1)
             && (progress st' >=?
                 (if Z.of_nat (length (solutionMoves st)) >? 0
                  then Z.of_nat (length (solutionMoves st)) else rec_L maze)))
      then winCalls st ++ [{| win_moves := playerMovesRef st ++ [m];
                              win_cells := playerCellsRef st ++ [b] |}]
      else winCalls st.
Proof.
  intros Hmaze Hcells Hab Hprev Hopen. unfold processCell. rewrite Hmaze.
  assert (Js.get (playerCellsRef st) (Z.of_nat (length (playerCellsRef st)) - 1) = Some a)
    as ->.
  { unfold Js.get. rewrite Hcells, length_app. simpl.
    destruct (Z.ltb_spec (Z.of_nat (length pre + 1) - 1) 0); [lia|].
    replace (Z.to_nat _) with (length pre) by lia.
    by rewrite lookup_app_r, Nat.sub_diag by lia. }
  assert (((fst a =? fst b) && (snd a =? snd b)) = false) as ->.
  { apply andb_false_iff. destruct a, b. simpl.
    destruct (Z.eqb_spec z z1), (Z.eqb_spec z0 z2); try tauto. congruence. }
  assert (match Js.get (playerCellsRef st) (Z.of_nat (length (playerCellsRef st)) - 2) with
          | Some p => (fst p =? fst b) && (snd p =? snd b)
          | None => false
          end = false) as ->.
  { unfold Js.get. rewrite Hcells, length_app. simpl.
    destruct (Z.ltb_spec (Z.of_nat (length pre + 1) - 2) 0); [done|].
    destruct pre as [|p0 pre0] using rev_ind; [simpl in *; lia|]. clear IHpre0.
    rewrite length_app. simpl.
    replace (Z.to_nat _) with (length pre0) by lia.
    rewrite <- app_assoc. rewrite lookup_app_r, Nat.sub_diag by lia. simpl.
    specialize (Hprev p0 (last_snoc _ _)).
    apply andb_false_iff. destruct p0, b. simpl.
    destruct (Z.eqb_spec z z1), (Z.eqb_spec z0 z2); try tauto. congruence. }
  destruct (opensTo_cases _ _ _ _ _ Hopen) as (dx & dy & mask & Hm & Hdx & Hdy & Hbit).
  cbv zeta. rewrite Hdx, Hdy.
  assert (Hfind : negb (Z.abs dx + Z.abs dy =? 1) = false /\
                  findDirection DIRECTIONS dx dy 0 = Some (Z.to_nat m) /\
                  DIRECTIONS !! Z.to_nat m = Some (dx, dy, mask) /\
                  Z.of_nat (Z.to_nat m) = m).
  { destruct Hm as [(-> & -> & -> & ->) | [(-> & -> & -> & ->) |
                    [(-> & -> & -> & ->) | (-> & -> & -> & ->)]]]; by vm_compute. }
  destruct Hfind as (Hunit & Hfound & Hdir & Hback).
  rewrite Hunit, Hfound. cbv iota beta. rewrite Hdir, Hback.
  rewrite (proj2 (Z.eqb_neq _ _) Hbit).
  destruct (evaluateMoves (solutionMoves st) (playerMovesRef st ++ [m]))
    as [divergenceIndex correctCount] eqn:Hev.
  eexists. split; [reflexivity|]. simpl. by repeat split.
Qed.

(** *** Walking the whole path *)

Section Walk.
Variable maze : MazeRecord.
Variables (masks sol : list Z) (path : list GridPoint).
Hypothesis Hsol : sol <> [].
Hypothesis Hnodup : NoDup path.
Hypothesis Hgoal : last path = Some (rec_w maze - 1, rec_h maze - 1).

Definition won : list WinCall := [{| win_moves := sol; win_cells := path |}].

Lemma enterCells_rest : forall rest pre a ms ms' st,
  path = (pre ++ [a]) ++ rest -> sol = ms ++ ms' ->
  validWalk (rec_w maze) masks (a :: rest) ms' ->
  currentMaze st = Some maze -> openings st = masks -> solutionMoves st = sol ->
  playerCellsRef st = pre ++ [a] -> playerMovesRef st = ms ->
  winCalls st = (if decide (rest = []) then won else []) ->
  exists st',
    enterCells st rest = Ok st' /\
    playerCellsRef st' = path /\ playerMovesRef st' = sol /\ winCalls st' = won.
Proof.
  induction rest as [|b rest IH]; intros pre a ms ms' st Hpath Hmoves Hwalk
    Hmaze Hmasks Hsolution Hcells Hms Hwins.
  { destruct ms' as [|]; [|done]. rewrite !app_nil_r in *. exists st. simpl.
    split; [done|]. by rewrite Hcells, Hms, Hpath, Hmoves. }
  destruct ms' as [|m ms']; [done|]. destruct Hwalk as [Hopen Hwalk].
  rewrite decide_False in Hwins by done.
  assert (Hab : a <> b).
  { intros ->. pose proof Hnodup as Hnd. rewrite Hpath in Hnd.
    apply NoDup_app in Hnd as (_ & Hdisj & _).
    apply (Hdisj b); [rewrite elem_of_app; right; by apply list_elem_of_singleton | left]. }
  assert (Hprev : forall p, last pre = Some p -> p <> b).
  { intros p Hp ->. pose proof Hnodup as Hnd. rewrite Hpath in Hnd.
    apply NoDup_app in Hnd as (_ & Hdisj & _).
    apply (Hdisj b); [|left]. rewrite elem_of_app. left.
    apply last_Some in Hp as [l' ->]. rewrite elem_of_app. right.
    by apply list_elem_of_singleton. }
  destruct (processCell_step st maze pre a b m Hmaze Hcells Hab Hprev)
    as (st1 & Hrun & Hmaze1 & Hmasks1 & Hsol1 & Hcells1 & Hms1 & Hev1 & Hwins1);
    [by rewrite Hmasks|].
  cbn [enterCells]. rewrite Hrun.
  assert (Hpre : ms ++ [m] `prefix_of` sol).
  { rewrite Hmoves. exists ms'. by rewrite <- app_assoc. }
  rewrite Hsolution, Hms, (evaluateMoves_prefix _ _ Hpre) in Hev1.
  injection Hev1 as Hd1 Hp1.
  apply (IH (pre ++ [a]) b (ms ++ [m]) ms' st1); try done.
  - by rewrite Hpath, <- !app_assoc.
  - by rewrite Hmoves, <- app_assoc.
  - congruence.
  - congruence.
  - by rewrite Hcells1, Hcells.
  - by rewrite Hms1, Hms.
  - rewrite Hwins1, Hwins, Hd1, Hp1, Hsolution, Hcells, Hms. clear IH Hrun.
    assert (Hlen : (Z.of_nat (length sol) >? 0) = true).
    { destruct sol; [done|]. apply Z.gtb_lt. simpl length. lia. }
    rewrite Hlen. change (-1 =? -1) with true. cbn [andb].
    pose proof (validWalk_length _ _ _ _ Hwalk) as Hwl. simpl in Hwl.
    destruct (decide (rest = [])) as [->|Hrest].
    + (* the last cell of the path: the goal *)
      assert (b = (rec_w maze - 1, rec_h maze - 1)) as ->.
      { pose proof Hgoal as Hg. rewrite Hpath, last_snoc in Hg. congruence. }
      simpl. rewrite !Z.eqb_refl. simpl.
      destruct ms'; [|done]. unfold won. by rewrite Hpath, Hmoves, <- !app_assoc.
    + assert (Hnotgoal : b <> (rec_w maze - 1, rec_h maze - 1)).
      { intros ->. pose proof Hgoal as Hg. pose proof Hnodup as Hnd.
        rewrite Hpath in Hg, Hnd.
        destruct rest as [|c rest _] using rev_ind; [done|].
        rewrite (app_assoc _ [_] [c]), (app_assoc _ (_ :: rest) [c]), last_snoc in Hg
          || rewrite app_comm_cons, app_assoc, last_snoc in Hg.
        injection Hg as ->.
        apply NoDup_app in Hnd as (_ & _ & Hnd).
        apply NoDup_cons in Hnd as [Hnotin _]. apply Hnotin.
        rewrite elem_of_app. right. by apply list_elem_of_singleton. }
      assert (((fst b =? rec_w maze - 1) && (snd b =? rec_h maze - 1)) = false) as ->.
      { apply andb_false_iff. destruct b. simpl.
        destruct (Z.eqb_spec z (rec_w maze - 1)), (Z.eqb_spec z0 (rec_h maze - 1));
          try tauto. congruence. }
      simpl.
      assert (Hshort : (Z.of_nat (length (ms ++ [m])) >=? Z.of_nat (length sol)) = false).
      { rewrite Hmoves, !length_app. simpl.
        destruct rest as [|c rest]; [done|]. simpl in Hwl.
        destruct (Z.geb_spec (Z.of_nat (length ms + 1))
                    (Z.of_nat (length ms + Datatypes.S (length ms')))); [lia | done]. }
      by rewrite Hshort.
Qed.

Lemma enterCells_path (rest : list GridPoint) :
  path = (0, 0) :: rest -> validWalk (rec_w maze) masks path sol ->
  exists st',
    enterCells (startState maze masks sol) rest = Ok st' /\
    playerCellsRef st' = path /\ playerMovesRef st' = sol /\ winCalls st' = won.
Proof.
  intros Hpath Hwalk.
  assert (Hrest : rest <> []).
  { intros ->. rewrite Hpath in Hwalk. simpl in Hwalk. by destruct sol. }
  apply (enterCells_rest rest [] (0, 0) [] sol).
  all: try done.
  - pose proof Hwalk as Hw. by rewrite Hpath in Hw.
  - by rewrite decide_False.
Qed.

End Walk.

Section Exported.
Import Graph Generator GeneratorFacts MazeFacts Solver.
Variable pako : Base64.Pako.
Variable parse : Payload.Parser.

Hypothesis inflate_needs_header :
  forall inflate bytes b out,
    pako = Some inflate -> inflate bytes = Some (b :: out) -> RoundTrip.zlibHeader bytes.

Hypothesis array_needs_bracket :
  forall bytes item items,
    parse bytes = Some (JArr (item :: items)) -> RoundTrip.jsonArrayText bytes.

(** X30. The exported solution wins the exported maze. For a generated
    maze of at least two cells, let the game start from the decoded openings
    and the decoded moves of the export; entering the cells of the solution
    path one after the other, [processCell] accepts every step, the moves
    made are the solution, and [handleWin] is called exactly once, on the
    last cell. *)
Theorem exported_solution_wins (rnd : nat -> Z) (key : AlgorithmKey)
    (fuel steps : nat) (W H : Z) (st0 st : Visualizer) :
  1 <= W -> 1 <= H -> 2 <= W * H -> gridWidth st0 = W -> gridHeight st0 = H ->
  (2 * Z.to_nat (W * H) < fuel)%nat \/ key = Wilsons ->
  generateMaze rnd key fuel st0 = Done st ->
  (2 * Z.to_nat (W * H) < steps)%nat ->
  exists g masks path moves final,
    Exporter.packGridOpeningsToBase64 (exportedWalls st) W H = Ok g /\
    Grid.decodeOpenings pako parse g W H = Returns masks /\
    getSolvedPathCoordinates steps [] st = Done (Some path) /\
    Packer.movesFromPathCoords path = Ok moves /\
    Moves.decodeMoves pako parse (Packer.packMovesBase64 moves) (Z.of_nat (length moves))
    = Returns moves /\
    enterCells
      (startState {| rec_w := W; rec_h := H; rec_L := Z.of_nat (length moves) |} masks moves)
      (tail path) = Ok final /\
    playerCellsRef final = path /\ playerMovesRef final = moves /\
    winCalls final = [{| win_moves := moves; win_cells := path |}].
Proof.
  intros HW HH Hcells Hw Hh Hfuel Hrun Hsteps.
  pose proof (generateMaze_finished rnd key fuel W H st0 st HW HH Hw Hh Hfuel Hrun) as Hf.
  destruct (finished_export pako parse inflate_needs_header array_needs_bracket W H st Hf)
    as (g & masks & Hpack & Hdecode & _ & Hbits).
  destruct (solved_path W H st Hf steps Hsteps)
    as (path & Hp & Hhead & Hlast & Hchain & Hnd & Hin).
  pose proof (solved_referencePath st path Hhead Hchain Hnd Hin) as Href.
  destruct (path_moves_decode pako parse inflate_needs_header array_needs_bracket path Href)
    as (moves & Hmoves & Hlen & Hmd).
  destruct path as [|c rest]; [done|]. injection Hhead as ->.
  assert (Hrest : rest <> []).
  { intros ->. simpl in Hlast. injection Hlast as Hx Hy. nia. }
  destruct (RoundTrip.movesFrom_steps rest (0, 0) [] (chained_consecutive st _ _ Hchain))
    as (moves' & Hms & Hs & Hl).
  cbn [Packer.movesFromPathCoords] in Hmoves. rewrite Hms in Hmoves.
  injection Hmoves as <-. simpl in Hms.
  assert (Hwalk : validWalk W masks ((0, 0) :: rest) moves').
  { apply (walk_opens W st); [|done | done].
    intros [x y] d Hc. apply Hbits; unfold inGrid in Hc;
      destruct (finished_size W H st Hf) as [Hwidth Hheight]; simpl in *; lia. }
  destruct (enterCells_path
              {| rec_w := W; rec_h := H; rec_L := Z.of_nat (length moves') |}
              masks moves' ((0, 0) :: rest)) with (rest := rest)
    as (final & Hfinal & Hcs & Hmv & Hwin); try done.
  { intros ->. by destruct rest. }
  exists g, masks, ((0, 0) :: rest), moves', final.
  split; [done|]. split; [done|]. split; [done|].
  split; [by cbn [Packer.movesFromPathCoords]|]. split; [done|]. done.
Qed.

End Exported.

Lemma exported_solution_wins_witness :
  exists g masks path moves final,
    Exporter.packGridOpeningsToBase64 (MazeFacts.exportedWalls MazeFacts.sampleMaze) 3 2
    = Ok g /\
    Grid.decodeOpenings (Some (fun _ => None)) (fun _ => None) g 3 2 = Returns masks /\
    Solver.getSolvedPathCoordinates 13 [] MazeFacts.sampleMaze = Generator.Done (Some path) /\
    Packer.movesFromPathCoords path = Ok moves /\
    Moves.decodeMoves (Some (fun _ => None)) (fun _ => None)
      (Packer.packMovesBase64 moves) (Z.of_nat (length moves)) = Returns moves /\
    enterCells
      (startState {| rec_w := 3; rec_h := 2; rec_L := Z.of_nat (length moves) |} masks moves)
      (tail path) = Ok final /\
    playerCellsRef final = path /\ playerMovesRef final = moves /\
    winCalls final = [{| win_moves := moves; win_cells := path |}].
Proof.
  apply (exported_solution_wins (Some (fun _ => None)) (fun _ => None)
           ltac:(intros ? ? ? ? [= <-]; discriminate) ltac:(discriminate)
           GeneratorFacts.sampleChoices MazeFacts.RecursiveBacktracker 13 13 3 2
           MazeFacts.blank3x2 MazeFacts.sampleMaze).
  - lia.
  - lia.
  - lia.
  - reflexivity.
  - reflexivity.
  - left. vm_compute. lia.
  - by vm_compute.
  - vm_compute. lia.
Defined.

End Replay.
